(** * Turtle_stitch: pen-stroke glyph animation

    A shallow embedding of the two JavaScript sources of the repository:

    - [src/unnamed/part_000], the viewport-responsive version (module
      [Part000] below): base scale, word scale, centring offsets, frame
      scheduling with cancellation;
    - [src/script.js], the fixed 600x600 canvas version (module [Script]).

    [interpolateSegment], the loop of [prepareAnimationForCharacter] that
    joins the interpolated segments ([flattenSegments] below) and [drawPath]
    have the same text in both files and are embedded once; the glyph table
    of [part_000] extends the one of [script.js].

    JavaScript Numbers are IEEE-754 binary64 values; they are embedded as
    Rocq's primitive [float]s, whose operations are the binary64 ones.
    Counters, array lengths and indices, which only ever hold small
    non-negative integers, are [nat]; the canvas client size (a DOM [long])
    is [N].  The geometry and scaling code is written against a small
    interface of the operations it applies to Numbers; the program is its
    [binary64] instance, and every property of the program below is stated
    and proved for that instance.  Where a property depends on how binary64
    rounds (the word scale factor), it is proved from the specification of
    the primitive floats in [SpecFloat]: products and quotients are
    correctly rounded, and rounding is monotone. *)

From Stdlib Require Import Floats ZArith NArith QArith Qpower List String Ascii Bool Lia Lqa.
Import ListNotations.

Close Scope Q_scope.

(* ================================================================== *)
(** * Numbers *)

(** The operations the sources apply to Numbers. [lit] reads a decimal
    literal of the source text; [eqb] is [===], [ltb] is [<]. *)
Record Arith : Type := {
  num  :> Type;
  lit  : Q -> num;
  add  : num -> num -> num;
  sub  : num -> num -> num;
  mul  : num -> num -> num;
  div  : num -> num -> num;
  eqb  : num -> num -> bool;
  ltb  : num -> num -> bool;
  nmin : num -> num -> num;
  nmax : num -> num -> num
}.

Arguments lit _ _%_Q.

Definition ofZ (A : Arith) (z : Z) : A := lit A (inject_Z z).
Definition ofNat (A : Arith) (n : nat) : A := ofZ A (Z.of_nat n).
Definition ofN (A : Arith) (n : N) : A := ofZ A (Z.of_N n).

(** [a > b] and [a >= b] of the sources. *)
Definition gtb (A : Arith) (a b : A) : bool := ltb A b a.

Module Binary64.

(** The binary64 value nearest to an integer (exact below 2^53). *)
Definition Z2F (z : Z) : float := SF2Prim (binary_normalize prec emax z 0 false).

(** A decimal literal denotes the binary64 value nearest to it: the
    correctly rounded quotient of numerator and denominator, which are
    both exact for the literals of the sources. *)
Definition literal (q : Q) : float :=
  PrimFloat.div (Z2F (Qnum q)) (Z2F (Zpos (Qden q))).

(** [Math.min] and [Math.max]: NaN if an argument is NaN, and -0 is
    smaller than +0. *)
Definition Math_min (a b : float) : float :=
  if PrimFloat.is_nan a || PrimFloat.is_nan b then PrimFloat.nan
  else if PrimFloat.ltb a b then a
  else if PrimFloat.ltb b a then b
  else if PrimFloat.get_sign a then a else b.

Definition Math_max (a b : float) : float :=
  if PrimFloat.is_nan a || PrimFloat.is_nan b then PrimFloat.nan
  else if PrimFloat.ltb a b then b
  else if PrimFloat.ltb b a then a
  else if PrimFloat.get_sign a then b else a.

(** The remainder operator [%] on Numbers: the exact remainder of the
    truncated division, with the sign of the dividend. *)
Definition jsRem (x y : float) : float :=
  match Prim2SF x, Prim2SF y with
  | S754_nan, _ | _, S754_nan => PrimFloat.nan
  | S754_infinity _, _ => PrimFloat.nan
  | _, S754_zero _ => PrimFloat.nan
  | S754_zero _, _ => x
  | _, S754_infinity _ => x
  | S754_finite sx mx ex, S754_finite _ my ey =>
      let e := Z.min ex ey in
      let a := (Zpos mx * 2 ^ (ex - e))%Z in
      let b := (Zpos my * 2 ^ (ey - e))%Z in
      let r := Z.rem a b in
      SF2Prim (binary_normalize prec emax (if sx then (- r)%Z else r) e sx)
  end.

End Binary64.

(** The program's arithmetic. *)
Definition binary64 : Arith := {|
  num  := float;
  lit  := Binary64.literal;
  add  := PrimFloat.add;
  sub  := PrimFloat.sub;
  mul  := PrimFloat.mul;
  div  := PrimFloat.div;
  eqb  := PrimFloat.eqb;
  ltb  := PrimFloat.ltb;
  nmin := Binary64.Math_min;
  nmax := Binary64.Math_max
|}.

(* ================================================================== *)
(** * Geometry: segments and their interpolation *)

Section Geometry.

Variable A : Arith.

(** A point is the two-element array [[x, y]]; a segment is the
    two-element array [[start, end]]. *)
Definition Point : Type := (A * A)%type.
Definition Segment : Type := (Point * Point)%type.

Definition pointEqb (p q : Point) : bool :=
  eqb A (fst p) (fst q) && eqb A (snd p) (snd q).

(** The body of the loop of [interpolateSegment] at counter [i]. *)
Definition interpolatedPoint (start end_ : Point) (steps i : nat) : Point :=
  let t := div A (ofNat A i) (ofNat A steps) in
  let x := add A (fst start) (mul A t (sub A (fst end_) (fst start))) in
  let y := add A (snd start) (mul A t (sub A (snd end_) (snd start))) in
  (x, y).

(** [function interpolateSegment(segment, steps = 20)]: the loop runs
    [i = 0, 1, ..., steps] and pushes one point per turn.  [None] is the
    omitted argument. *)
Definition interpolateSegment (segment : Segment) (steps : option nat) : list Point :=
  let steps := match steps with Some n => n | None => 20%nat end in
  let start := fst segment in
  let end_ := snd segment in
  map (interpolatedPoint start end_ steps) (seq 0 (S steps)).

(** One turn of the [for (const segment of charDrawingSegments)] loop of
    [prepareAnimationForCharacter]: the interpolation of the segment is
    pushed onto the points collected so far, without its first point when
    that point [===] the last collected one on both coordinates. *)
Definition pushSegment (processedPoints : list Point) (segment : Segment) : list Point :=
  let interpolated := interpolateSegment segment None in
  match rev processedPoints, interpolated with
  | lastPoint :: _, firstPoint :: rest =>
      if pointEqb lastPoint firstPoint
      then processedPoints ++ rest
      else processedPoints ++ interpolated
  | _, _ => processedPoints ++ interpolated
  end.

(** The whole loop, started from the empty array. *)
Definition flattenSegments (charDrawingSegments : list Segment) : list Point :=
  fold_left pushSegment charDrawingSegments [].

End Geometry.

(* ================================================================== *)
(** * The glyph tables *)

(** The segments as they are written in the sources: decimal literals. *)
Definition SegmentData : Type := ((Q * Q) * (Q * Q))%type.

Definition segmentOf (A : Arith) (d : SegmentData) : Segment A :=
  ((lit A (fst (fst d)), lit A (snd (fst d))),
   (lit A (fst (snd d)), lit A (snd (snd d)))).

Module Glyphs.
Open Scope Q_scope.
Definition glyph_A : list SegmentData :=
[ ((6, 8), (0, 8));
  ((0, 8), (0, 0));
  ((0, 0), (0.75, 8));
  ((0, 1), (1.5, 8));
  ((0, 2), (2.25, 8));
  ((0, 3), (3, 8));
  ((0, 4), (3.75, 8));
  ((0, 5), (4.5, 8));
  ((0, 6), (5.25, 8));
  ((0, 7), (6, 8));
  ((6, 8), (6, 0));
  ((6, 0), (5.25, 8));
  ((6, 1), (4.5, 8));
  ((6, 2), (3.75, 8));
  ((6, 3), (3, 8));
  ((6, 4), (2.25, 8));
  ((6, 5), (1.5, 8));
  ((6, 6), (0.75, 8));
  ((6, 7), (0, 8)) ].

Definition glyph_B : list SegmentData :=
[ ((6, 8), (0, 8));
  ((0, 8), (0, 0));
  ((0, 0), (0.75, 8));
  ((0, 1), (1.5, 8));
  ((0, 2), (2.25, 8));
  ((0, 3), (3, 8));
  ((0, 4), (3.75, 8));
  ((0, 5), (4.5, 8));
  ((0, 6), (5.25, 8));
  ((0, 7), (6, 8));
  ((6, 8), (4.8, 4));
  ((6, 7.2), (3.6, 4));
  ((6, 6.4), (2.4, 4));
  ((6, 5.6), (1.2, 4));
  ((6, 4.8), (0, 4));
  ((0, 4), (6, 4));
  ((6, 4), (4.8, 0));
  ((6, 3.2), (3.6, 0));
  ((6, 2.4), (2.4, 0));
  ((6, 1.6), (1.2, 0));
  ((6, 0.8), (0, 0));
  ((0, 0), (6, 0));
  ((6, 0), (6, 8)) ].

Definition glyph_C : list SegmentData :=
[ ((0, 0), (0, 8));
  ((0, 8), (6, 8));
  ((6, 8), (0, 7));
  ((5.25, 8), (0, 6));
  ((4.5, 8), (0, 5));
  ((3.75, 8), (0, 4));
  ((3, 8), (0, 3));
  ((2.25, 8), (0, 2));
  ((1.5, 8), (0, 1));
  ((0.75, 8), (0, 0));
  ((0, 0), (6, 0));
  ((6, 0), (0, 1));
  ((5.25, 0), (0, 2));
  ((4.5, 0), (0, 3));
  ((3.75, 0), (0, 4));
  ((3, 0), (0, 5));
  ((2.25, 0), (0, 6));
  ((1.5, 0), (0, 7));
  ((0.75, 0), (0, 8)) ].

Definition glyph_D : list SegmentData :=
[ ((6, 8), (6, 0));
  ((6, 0), (0, 0));
  ((0, 0), (6, 1));
  ((0.75, 0), (6, 2));
  ((1.5, 0), (6, 3));
  ((2.25, 0), (6, 4));
  ((3, 0), (6, 5));
  ((3.75, 0), (6, 6));
  ((4.5, 0), (6, 7));
  ((5.25, 0), (6, 8));
  ((6, 8), (0, 8));
  ((0, 8), (6, 7));
  ((0.75, 8), (6, 6));
  ((1.5, 8), (6, 5));
  ((2.25, 8), (6, 4));
  ((3, 8), (6, 3));
  ((3.75, 8), (6, 2));
  ((4.5, 8), (6, 1));
  ((5.25, 8), (6, 0)) ].

Definition glyph_E : list SegmentData :=
[ ((0, 4), (6, 4));
  ((6, 4), (0, 3.6));
  ((4.8, 4), (0, 3.2));
  ((3.6, 4), (0, 2.8));
  ((2.4, 4), (0, 2.4));
  ((1.2, 4), (0, 2));
  ((0, 2), (1.2, 0));
  ((0, 1.6), (2.4, 0));
  ((0, 1.2), (3.6, 0));
  ((0, 0.8), (4.8, 0));
  ((0, 0.4), (6, 0));
  ((6, 0), (0, 0));
  ((0, 0), (0, 4));
  ((0, 4), (0, 8));
  ((0, 8), (6, 8));
  ((6, 8), (0, 7.6));
  ((4.8, 8), (0, 7.2));
  ((3.6, 8), (0, 6.8));
  ((2.4, 8), (0, 6.4));
  ((1.2, 8), (0, 6));
  ((0, 6), (1.2, 4));
  ((0, 5.6), (2.4, 4));
  ((0, 5.2), (3.6, 4));
  ((0, 4.8), (4.8, 4));
  ((0, 4.4), (6, 4)) ].

Definition glyph_F : list SegmentData :=
[ ((0, 0), (0, 8));
  ((0, 8), (6, 8));
  ((6, 8), (0, 7));
  ((5.25, 8), (0, 6));
  ((4.5, 8), (0, 5));
  ((3.75, 8), (0, 4));
  ((3, 8), (0, 3));
  ((2.25, 8), (0, 2));
  ((1.5, 8), (0, 1));
  ((0.75, 8), (0, 0));
  ((0, 0), (1.5, 4));
  ((0, 1), (3, 4));
  ((0, 2), (4.5, 4));
  ((0, 3), (6, 4));
  ((6, 4), (0, 4)) ].

Definition glyph_G : list SegmentData :=
[ ((0, 8), (0, 0));
  ((0, 0), (6, 0));
  ((6, 0), (6, 4));
  ((6, 4), (3, 4));
  ((3, 4), (6, 3));
  ((3.75, 4), (6, 2));
  ((4.5, 4), (6, 1));
  ((5.25, 4), (6, 0));
  ((6, 0), (0, 1));
  ((5.25, 0), (0, 2));
  ((4.5, 0), (0, 3));
  ((3.75, 0), (0, 4));
  ((3, 0), (0, 5));
  ((2.25, 0), (0, 6));
  ((1.5, 0), (0, 7));
  ((0.75, 0), (0, 8));
  ((0, 8), (6, 8));
  ((6, 8), (0, 7.2));
  ((4.8, 8), (0, 6.4));
  ((3.6, 8), (0, 5.6));
  ((2.4, 8), (0, 4.8));
  ((1.2, 8), (0, 4)) ].

Definition glyph_H : list SegmentData :=
[ ((0, 4), (3, 4));
  ((3, 4), (0, 5));
  ((2.25, 4), (0, 6));
  ((1.5, 4), (0, 7));
  ((0.75, 4), (0, 8));
  ((0, 8), (0, 0));
  ((0, 0), (0.75, 4));
  ((0, 1), (1.5, 4));
  ((0, 2), (2.25, 4));
  ((0, 3), (3, 4));
  ((3, 4), (6, 5));
  ((3.75, 4), (6, 6));
  ((4.5, 4), (6, 7));
  ((5.25, 4), (6, 8));
  ((6, 8), (6, 0));
  ((6, 0), (5.25, 4));
  ((6, 1), (4.5, 4));
  ((6, 2), (3.75, 4));
  ((6, 3), (3, 4));
  ((3, 4), (6, 4)) ].

Definition glyph_I : list SegmentData :=
[ ((3, 0), (3, 4));
  ((3, 4), (2.25, 0));
  ((3, 3), (1.5, 0));
  ((3, 2), (0.75, 0));
  ((3, 1), (0, 0));
  ((0, 0), (6, 0));
  ((6, 0), (3, 1));
  ((5.25, 0), (3, 2));
  ((4.5, 0), (3, 3));
  ((3.75, 0), (3, 4));
  ((3, 4), (3, 8));
  ((3, 8), (0, 8));
  ((0, 8), (3, 7));
  ((0.75, 8), (3, 6));
  ((1.5, 8), (3, 5));
  ((2.25, 8), (3, 4));
  ((3, 4), (3.75, 8));
  ((3, 5), (4.5, 8));
  ((3, 6), (5.25, 8));
  ((3, 7), (6, 8));
  ((6, 8), (3, 8)) ].

Definition glyph_J : list SegmentData :=
[ ((0, 0), (6, 0));
  ((6, 0), (6, 8));
  ((6, 8), (5.25, 0));
  ((6, 7), (4.5, 0));
  ((6, 6), (3.75, 0));
  ((6, 5), (3, 0));
  ((6, 4), (2.25, 0));
  ((6, 3), (1.5, 0));
  ((6, 2), (0.75, 0));
  ((6, 1), (0, 0)) ].

Definition glyph_K : list SegmentData :=
[ ((0, 4), (6, 0));
  ((6, 0), (0, 3.2));
  ((4.8, 0.8), (0, 2.4));
  ((3.6, 1.6), (0, 1.6));
  ((2.4, 2.4), (0, 0.8));
  ((1.2, 3.2), (0, 0));
  ((0, 0), (0, 8));
  ((0, 8), (1.2, 4.8));
  ((0, 7.2), (2.4, 5.6));
  ((0, 6.4), (3.6, 6.4));
  ((0, 5.6), (4.8, 7.2));
  ((0, 4.8), (6, 8));
  ((6, 8), (0, 4)) ].

Definition glyph_L : list SegmentData :=
[ ((0, 8), (0, 0));
  ((0, 0), (6, 0));
  ((6, 0), (0, 1));
  ((5.25, 0), (0, 2));
  ((4.5, 0), (0, 3));
  ((3.75, 0), (0, 4));
  ((3, 0), (0, 5));
  ((2.25, 0), (0, 6));
  ((1.5, 0), (0, 7));
  ((0.75, 0), (0, 8)) ].

Definition glyph_M : list SegmentData :=
[ ((3, 4), (0, 8));
  ((0, 8), (0, 0));
  ((0, 0), (0.375, 7.5));
  ((0, 1), (0.75, 7));
  ((0, 2), (1.125, 6.5));
  ((0, 3), (1.5, 6));
  ((0, 4), (1.875, 5.5));
  ((0, 5), (2.25, 5));
  ((0, 6), (2.625, 4.5));
  ((0, 7), (3, 4));
  ((3, 4), (6, 8));
  ((6, 8), (6, 0));
  ((6, 0), (5.625, 7.5));
  ((6, 1), (5.25, 7));
  ((6, 2), (4.875, 6.5));
  ((6, 3), (4.5, 6));
  ((6, 4), (4.125, 5.5));
  ((6, 5), (3.75, 5));
  ((6, 6), (3.375, 4.5));
  ((6, 7), (3, 4)) ].

Definition glyph_N : list SegmentData :=
[ ((3, 4), (0, 8));
  ((0, 8), (0, 0));
  ((0, 0), (0.375, 7.5));
  ((0, 1), (0.75, 7));
  ((0, 2), (1.125, 6.5));
  ((0, 3), (1.5, 6));
  ((0, 4), (1.875, 5.5));
  ((0, 5), (2.25, 5));
  ((0, 6), (2.625, 4.5));
  ((0, 7), (3, 4));
  ((3, 4), (6, 0));
  ((6, 0), (6, 8));
  ((6, 8), (5.625, 0.5));
  ((6, 7), (5.25, 1));
  ((6, 6), (4.875, 1.5));
  ((6, 5), (4.5, 2));
  ((6, 4), (4.125, 2.5));
  ((6, 3), (3.75, 3));
  ((6, 2), (3.725, 3.5));
  ((6, 1), (3, 4)) ].
End Glyphs.

(** [CHARACTER_DRAWING_DATA] of [src/script.js]. *)
Definition CHARACTER_DRAWING_DATA_script : list (ascii * list SegmentData) :=
  [ ("A"%char, Glyphs.glyph_A); ("B"%char, Glyphs.glyph_B); ("C"%char, Glyphs.glyph_C);
    ("D"%char, Glyphs.glyph_D); ("E"%char, Glyphs.glyph_E); ("F"%char, Glyphs.glyph_F) ].

(** [CHARACTER_DRAWING_DATA] of [src/unnamed/part_000]: the same six
    entries, then [G] to [N]. *)
Definition CHARACTER_DRAWING_DATA_part000 : list (ascii * list SegmentData) :=
  CHARACTER_DRAWING_DATA_script ++
  [ ("G"%char, Glyphs.glyph_G); ("H"%char, Glyphs.glyph_H); ("I"%char, Glyphs.glyph_I);
    ("J"%char, Glyphs.glyph_J); ("K"%char, Glyphs.glyph_K); ("L"%char, Glyphs.glyph_L);
    ("M"%char, Glyphs.glyph_M); ("N"%char, Glyphs.glyph_N) ].

Definition GlyphTable : Type := list (ascii * list SegmentData).

(** [table[char]] for a one-character key: the entry, or [None] for
    [undefined]. *)
Fixpoint glyphLookup (table : GlyphTable) (c : ascii) : option (list SegmentData) :=
  match table with
  | [] => None
  | (k, g) :: rest => if Ascii.eqb k c then Some g else glyphLookup rest c
  end.

(** [table.hasOwnProperty(char)]. *)
Definition hasOwnProperty (table : GlyphTable) (c : ascii) : bool :=
  match glyphLookup table c with Some _ => true | None => false end.

(** The point sequence [prepareAnimationForCharacter] builds for a
    character, when the table has it. *)
Definition compiledPoints (A : Arith) (table : GlyphTable) (c : ascii) : option (list (Point A)) :=
  match glyphLookup table c with
  | Some segs => Some (flattenSegments A (map (segmentOf A) segs))
  | None => None
  end.

(* ================================================================== *)
(** * The data coordinate system and the scaling of a word *)

Section Scaling.

Variable A : Arith.

Definition X_MIN : A := lit A (-0.5).
Definition X_MAX : A := lit A 10.
Definition Y_MIN : A := lit A (-0.5).
Definition Y_MAX : A := lit A 10.
Definition DATA_RANGE_X : A := sub A X_MAX X_MIN.
Definition DATA_RANGE_Y : A := sub A Y_MAX Y_MIN.
Definition CHAR_WIDTH_DATA_UNITS : A := lit A 7.
Definition SIZE_MULTIPLIER : A := lit A 1.8.

(** [src/unnamed/part_000], [updateCanvasDimensions]: the base scale for a
    canvas of client size [width] x [height].  [Math.min] of the two
    integer sizes and its test against 0 are computed on the integers. *)
Definition computeBaseScale (width height : N) : A :=
  let availableCanvasMinDimension := N.min width height in
  let dataMaxDimension := nmax A DATA_RANGE_X DATA_RANGE_Y in
  if (availableCanvasMinDimension =? 0)%N || eqb A dataMaxDimension (lit A 0)
  then lit A 0
  else mul A (div A (ofN A availableCanvasMinDimension) dataMaxDimension) SIZE_MULTIPLIER.

(** What [calculateWordScalingAndOffset] assigns. *)
Record WordFit : Type := {
  fitWordScaleFactor : A;
  fitCenterXOffsetPixels : A;
  fitCenterYOffsetPixels : A
}.

(** [src/unnamed/part_000], [calculateWordScalingAndOffset(word)], as a
    function of [word.length] and of the globals it reads. *)
Definition calculateWordScalingAndOffset
    (wordLength : nat) (currentCanvasWidth currentCanvasHeight : N) (baseScale : A) : WordFit :=
  let unscaledRequiredDataWidth := mul A (ofNat A wordLength) CHAR_WIDTH_DATA_UNITS in
  let unscaledRequiredDataHeight := DATA_RANGE_Y in
  let baseScaledPixelWidth := mul A unscaledRequiredDataWidth baseScale in
  let baseScaledPixelHeight := mul A unscaledRequiredDataHeight baseScale in
  let widthFitFactor :=
    if gtb A baseScaledPixelWidth (ofN A currentCanvasWidth)
    then mul A (div A (ofN A currentCanvasWidth) baseScaledPixelWidth) (lit A 0.95)
    else lit A 1 in
  let heightFitFactor :=
    if gtb A baseScaledPixelHeight (ofN A currentCanvasHeight)
    then mul A (div A (ofN A currentCanvasHeight) baseScaledPixelHeight) (lit A 0.95)
    else lit A 1 in
  let wordScaleFactor := nmin A widthFitFactor heightFitFactor in
  let finalScaledPixelWidth := mul A baseScaledPixelWidth wordScaleFactor in
  let finalScaledPixelHeight := mul A baseScaledPixelHeight wordScaleFactor in
  {| fitWordScaleFactor := wordScaleFactor;
     fitCenterXOffsetPixels :=
       div A (sub A (ofN A currentCanvasWidth) finalScaledPixelWidth) (lit A 2);
     fitCenterYOffsetPixels :=
       div A (sub A (ofN A currentCanvasHeight) finalScaledPixelHeight) (lit A 2) |}.

(** The quantities the fit factors compare: the word block at base scale. *)
Definition baseScaledPixelWidth (wordLength : nat) (baseScale : A) : A :=
  mul A (mul A (ofNat A wordLength) CHAR_WIDTH_DATA_UNITS) baseScale.
Definition baseScaledPixelHeight (baseScale : A) : A :=
  mul A DATA_RANGE_Y baseScale.

(** [src/script.js], the "Dynamic Scaling Calculation" of the click
    handler: the word scale factor for a word of [wordLength] characters. *)
Definition scriptWordScaleFactor (wordLength : nat) : A :=
  let requiredDataWidth := mul A (ofNat A wordLength) CHAR_WIDTH_DATA_UNITS in
  let canvasAvailableDataWidth := sub A X_MAX X_MIN in
  if gtb A requiredDataWidth canvasAvailableDataWidth
  then mul A (div A canvasAvailableDataWidth requiredDataWidth) (lit A 0.95)
  else lit A 1.

End Scaling.

(* ================================================================== *)
(** * The host: the 2D canvas and the animation frames *)

(** The calls made on the canvas and its 2D context, in order.
    [ClearRect] is [ctx.clearRect(0, 0, canvas.width, canvas.height)], the
    only way the sources call it. *)
Inductive CanvasOp : Type :=
  | SetCanvasSize (width height : N)
  | ClearRect
  | SetLineWidth (width : float)
  | SetStrokeStyle (style : string)
  | BeginPath
  | MoveTo (x y : float)
  | LineTo (x y : float)
  | Stroke.

(** The object [{ x: canvasX, y: canvasY }] returned by [transformPoint]. *)
Record CanvasPoint : Type := { canvasX : float; canvasY : float }.

(** An element of [completedCharacters]. *)
Record CompletedChar : Type := {
  char : ascii;
  processedPoints : list (Point binary64);
  xOffset : float
}.

(** [drawPath(points, xOffset)], the same in both sources up to the
    [transformPoint] it calls: the canvas calls it makes. *)
Definition drawPath (transformPoint : float -> float -> float -> CanvasPoint)
    (points : list (Point binary64)) (xOffset : float) : list CanvasOp :=
  if (List.length points <? 2)%nat then []
  else
    match points with
    | [] => []
    | p0 :: rest =>
        let startPoint := transformPoint (fst p0) (snd p0) xOffset in
        [BeginPath; MoveTo (canvasX startPoint) (canvasY startPoint)]
        ++ map (fun p => let point := transformPoint (fst p) (snd p) xOffset in
                         LineTo (canvasX point) (canvasY point)) rest
        ++ [Stroke]
    end.

(** [word[index]]; the index is always in range where the sources use it. *)
Definition charAt (word : list ascii) (index : nat) : ascii := nth index word zero.

(** One-character strings, for the messages. *)
Definition str (c : ascii) : string := String c EmptyString.

(** [currentFrame >= totalFramesForCurrentChar - 1], on the integers. *)
Definition onLastFrame (currentFrame totalFrames : nat) : bool :=
  (Z.of_nat totalFrames - 1 <=? Z.of_nat currentFrame)%Z.

(* ================================================================== *)
(** * [src/unnamed/part_000] *)

Module Part000.

Definition CHARACTER_DRAWING_DATA : GlyphTable := CHARACTER_DRAWING_DATA_part000.

Definition ANIMATION_INTERVAL_MS : float := lit binary64 10.

(** The callbacks handed to [requestAnimationFrame]. *)
Inductive Callback : Type := Animate | RedrawCanvasContent.

(** The script's global variables, then what it touches of the host: the
    client size of the canvas element, the calls made on the canvas so
    far, [messageDiv.textContent], the frame requests not yet run or
    cancelled, and the next request id. *)
Record State : Type := mkState {
  currentCanvasWidth : N;
  currentCanvasHeight : N;
  baseScale : float;
  wordScaleFactor : float;
  centerXOffsetPixels : float;
  centerYOffsetPixels : float;
  wordToAnimate : list ascii;
  currentWordCharIndex : nat;
  processedPointsForCurrentChar : list (Point binary64);
  totalFramesForCurrentChar : nat;
  currentFrame : nat;
  animationActive : bool;
  animationFrameId : option nat;
  completedCharacters : list CompletedChar;
  lastTimestamp : float;
  clientWidth : N;
  clientHeight : N;
  canvasOps : list CanvasOp;
  messageText : string;
  frameQueue : list (nat * Callback);
  nextFrameId : nat
}.

Definition set_currentCanvasWidth (v : N) (s : State) : State :=
  mkState v (currentCanvasHeight s) (baseScale s) (wordScaleFactor s)
    (centerXOffsetPixels s) (centerYOffsetPixels s) (wordToAnimate s)
    (currentWordCharIndex s) (processedPointsForCurrentChar s)
    (totalFramesForCurrentChar s) (currentFrame s) (animationActive s)
    (animationFrameId s) (completedCharacters s) (lastTimestamp s) (clientWidth s)
    (clientHeight s) (canvasOps s) (messageText s) (frameQueue s) (nextFrameId s).
Definition set_currentCanvasHeight (v : N) (s : State) : State :=
  mkState (currentCanvasWidth s) v (baseScale s) (wordScaleFactor s)
    (centerXOffsetPixels s) (centerYOffsetPixels s) (wordToAnimate s)
    (currentWordCharIndex s) (processedPointsForCurrentChar s)
    (totalFramesForCurrentChar s) (currentFrame s) (animationActive s)
    (animationFrameId s) (completedCharacters s) (lastTimestamp s) (clientWidth s)
    (clientHeight s) (canvasOps s) (messageText s) (frameQueue s) (nextFrameId s).
Definition set_baseScale (v : float) (s : State) : State :=
  mkState (currentCanvasWidth s) (currentCanvasHeight s) v (wordScaleFactor s)
    (centerXOffsetPixels s) (centerYOffsetPixels s) (wordToAnimate s)
    (currentWordCharIndex s) (processedPointsForCurrentChar s)
    (totalFramesForCurrentChar s) (currentFrame s) (animationActive s)
    (animationFrameId s) (completedCharacters s) (lastTimestamp s) (clientWidth s)
    (clientHeight s) (canvasOps s) (messageText s) (frameQueue s) (nextFrameId s).
Definition set_wordScaleFactor (v : float) (s : State) : State :=
  mkState (currentCanvasWidth s) (currentCanvasHeight s) (baseScale s) v
    (centerXOffsetPixels s) (centerYOffsetPixels s) (wordToAnimate s)
    (currentWordCharIndex s) (processedPointsForCurrentChar s)
    (totalFramesForCurrentChar s) (currentFrame s) (animationActive s)
    (animationFrameId s) (completedCharacters s) (lastTimestamp s) (clientWidth s)
    (clientHeight s) (canvasOps s) (messageText s) (frameQueue s) (nextFrameId s).
Definition set_centerXOffsetPixels (v : float) (s : State) : State :=
  mkState (currentCanvasWidth s) (currentCanvasHeight s) (baseScale s)
    (wordScaleFactor s) v (centerYOffsetPixels s) (wordToAnimate s)
    (currentWordCharIndex s) (processedPointsForCurrentChar s)
    (totalFramesForCurrentChar s) (currentFrame s) (animationActive s)
    (animationFrameId s) (completedCharacters s) (lastTimestamp s) (clientWidth s)
    (clientHeight s) (canvasOps s) (messageText s) (frameQueue s) (nextFrameId s).
Definition set_centerYOffsetPixels (v : float) (s : State) : State :=
  mkState (currentCanvasWidth s) (currentCanvasHeight s) (baseScale s)
    (wordScaleFactor s) (centerXOffsetPixels s) v (wordToAnimate s)
    (currentWordCharIndex s) (processedPointsForCurrentChar s)
    (totalFramesForCurrentChar s) (currentFrame s) (animationActive s)
    (animationFrameId s) (completedCharacters s) (lastTimestamp s) (clientWidth s)
    (clientHeight s) (canvasOps s) (messageText s) (frameQueue s) (nextFrameId s).
Definition set_wordToAnimate (v : list ascii) (s : State) : State :=
  mkState (currentCanvasWidth s) (currentCanvasHeight s) (baseScale s)
    (wordScaleFactor s) (centerXOffsetPixels s) (centerYOffsetPixels s) v
    (currentWordCharIndex s) (processedPointsForCurrentChar s)
    (totalFramesForCurrentChar s) (currentFrame s) (animationActive s)
    (animationFrameId s) (completedCharacters s) (lastTimestamp s) (clientWidth s)
    (clientHeight s) (canvasOps s) (messageText s) (frameQueue s) (nextFrameId s).
Definition set_currentWordCharIndex (v : nat) (s : State) : State :=
  mkState (currentCanvasWidth s) (currentCanvasHeight s) (baseScale s)
    (wordScaleFactor s) (centerXOffsetPixels s) (centerYOffsetPixels s) (wordToAnimate
    s) v (processedPointsForCurrentChar s) (totalFramesForCurrentChar s) (currentFrame
    s) (animationActive s) (animationFrameId s) (completedCharacters s) (lastTimestamp
    s) (clientWidth s) (clientHeight s) (canvasOps s) (messageText s) (frameQueue s)
    (nextFrameId s).
Definition set_processedPointsForCurrentChar (v : list (Point binary64)) (s : State) : State :=
  mkState (currentCanvasWidth s) (currentCanvasHeight s) (baseScale s)
    (wordScaleFactor s) (centerXOffsetPixels s) (centerYOffsetPixels s) (wordToAnimate
    s) (currentWordCharIndex s) v (totalFramesForCurrentChar s) (currentFrame s)
    (animationActive s) (animationFrameId s) (completedCharacters s) (lastTimestamp s)
    (clientWidth s) (clientHeight s) (canvasOps s) (messageText s) (frameQueue s)
    (nextFrameId s).
Definition set_totalFramesForCurrentChar (v : nat) (s : State) : State :=
  mkState (currentCanvasWidth s) (currentCanvasHeight s) (baseScale s)
    (wordScaleFactor s) (centerXOffsetPixels s) (centerYOffsetPixels s) (wordToAnimate
    s) (currentWordCharIndex s) (processedPointsForCurrentChar s) v (currentFrame s)
    (animationActive s) (animationFrameId s) (completedCharacters s) (lastTimestamp s)
    (clientWidth s) (clientHeight s) (canvasOps s) (messageText s) (frameQueue s)
    (nextFrameId s).
Definition set_currentFrame (v : nat) (s : State) : State :=
  mkState (currentCanvasWidth s) (currentCanvasHeight s) (baseScale s)
    (wordScaleFactor s) (centerXOffsetPixels s) (centerYOffsetPixels s) (wordToAnimate
    s) (currentWordCharIndex s) (processedPointsForCurrentChar s)
    (totalFramesForCurrentChar s) v (animationActive s) (animationFrameId s)
    (completedCharacters s) (lastTimestamp s) (clientWidth s) (clientHeight s)
    (canvasOps s) (messageText s) (frameQueue s) (nextFrameId s).
Definition set_animationActive (v : bool) (s : State) : State :=
  mkState (currentCanvasWidth s) (currentCanvasHeight s) (baseScale s)
    (wordScaleFactor s) (centerXOffsetPixels s) (centerYOffsetPixels s) (wordToAnimate
    s) (currentWordCharIndex s) (processedPointsForCurrentChar s)
    (totalFramesForCurrentChar s) (currentFrame s) v (animationFrameId s)
    (completedCharacters s) (lastTimestamp s) (clientWidth s) (clientHeight s)
    (canvasOps s) (messageText s) (frameQueue s) (nextFrameId s).
Definition set_animationFrameId (v : option nat) (s : State) : State :=
  mkState (currentCanvasWidth s) (currentCanvasHeight s) (baseScale s)
    (wordScaleFactor s) (centerXOffsetPixels s) (centerYOffsetPixels s) (wordToAnimate
    s) (currentWordCharIndex s) (processedPointsForCurrentChar s)
    (totalFramesForCurrentChar s) (currentFrame s) (animationActive s) v
    (completedCharacters s) (lastTimestamp s) (clientWidth s) (clientHeight s)
    (canvasOps s) (messageText s) (frameQueue s) (nextFrameId s).
Definition set_completedCharacters (v : list CompletedChar) (s : State) : State :=
  mkState (currentCanvasWidth s) (currentCanvasHeight s) (baseScale s)
    (wordScaleFactor s) (centerXOffsetPixels s) (centerYOffsetPixels s) (wordToAnimate
    s) (currentWordCharIndex s) (processedPointsForCurrentChar s)
    (totalFramesForCurrentChar s) (currentFrame s) (animationActive s)
    (animationFrameId s) v (lastTimestamp s) (clientWidth s) (clientHeight s)
    (canvasOps s) (messageText s) (frameQueue s) (nextFrameId s).
Definition set_lastTimestamp (v : float) (s : State) : State :=
  mkState (currentCanvasWidth s) (currentCanvasHeight s) (baseScale s)
    (wordScaleFactor s) (centerXOffsetPixels s) (centerYOffsetPixels s) (wordToAnimate
    s) (currentWordCharIndex s) (processedPointsForCurrentChar s)
    (totalFramesForCurrentChar s) (currentFrame s) (animationActive s)
    (animationFrameId s) (completedCharacters s) v (clientWidth s) (clientHeight s)
    (canvasOps s) (messageText s) (frameQueue s) (nextFrameId s).
Definition set_clientWidth (v : N) (s : State) : State :=
  mkState (currentCanvasWidth s) (currentCanvasHeight s) (baseScale s)
    (wordScaleFactor s) (centerXOffsetPixels s) (centerYOffsetPixels s) (wordToAnimate
    s) (currentWordCharIndex s) (processedPointsForCurrentChar s)
    (totalFramesForCurrentChar s) (currentFrame s) (animationActive s)
    (animationFrameId s) (completedCharacters s) (lastTimestamp s) v (clientHeight s)
    (canvasOps s) (messageText s) (frameQueue s) (nextFrameId s).
Definition set_clientHeight (v : N) (s : State) : State :=
  mkState (currentCanvasWidth s) (currentCanvasHeight s) (baseScale s)
    (wordScaleFactor s) (centerXOffsetPixels s) (centerYOffsetPixels s) (wordToAnimate
    s) (currentWordCharIndex s) (processedPointsForCurrentChar s)
    (totalFramesForCurrentChar s) (currentFrame s) (animationActive s)
    (animationFrameId s) (completedCharacters s) (lastTimestamp s) (clientWidth s) v
    (canvasOps s) (messageText s) (frameQueue s) (nextFrameId s).
Definition set_canvasOps (v : list CanvasOp) (s : State) : State :=
  mkState (currentCanvasWidth s) (currentCanvasHeight s) (baseScale s)
    (wordScaleFactor s) (centerXOffsetPixels s) (centerYOffsetPixels s) (wordToAnimate
    s) (currentWordCharIndex s) (processedPointsForCurrentChar s)
    (totalFramesForCurrentChar s) (currentFrame s) (animationActive s)
    (animationFrameId s) (completedCharacters s) (lastTimestamp s) (clientWidth s)
    (clientHeight s) v (messageText s) (frameQueue s) (nextFrameId s).
Definition set_messageText (v : string) (s : State) : State :=
  mkState (currentCanvasWidth s) (currentCanvasHeight s) (baseScale s)
    (wordScaleFactor s) (centerXOffsetPixels s) (centerYOffsetPixels s) (wordToAnimate
    s) (currentWordCharIndex s) (processedPointsForCurrentChar s)
    (totalFramesForCurrentChar s) (currentFrame s) (animationActive s)
    (animationFrameId s) (completedCharacters s) (lastTimestamp s) (clientWidth s)
    (clientHeight s) (canvasOps s) v (frameQueue s) (nextFrameId s).
Definition set_frameQueue (v : list (nat * Callback)) (s : State) : State :=
  mkState (currentCanvasWidth s) (currentCanvasHeight s) (baseScale s)
    (wordScaleFactor s) (centerXOffsetPixels s) (centerYOffsetPixels s) (wordToAnimate
    s) (currentWordCharIndex s) (processedPointsForCurrentChar s)
    (totalFramesForCurrentChar s) (currentFrame s) (animationActive s)
    (animationFrameId s) (completedCharacters s) (lastTimestamp s) (clientWidth s)
    (clientHeight s) (canvasOps s) (messageText s) v (nextFrameId s).
Definition set_nextFrameId (v : nat) (s : State) : State :=
  mkState (currentCanvasWidth s) (currentCanvasHeight s) (baseScale s)
    (wordScaleFactor s) (centerXOffsetPixels s) (centerYOffsetPixels s) (wordToAnimate
    s) (currentWordCharIndex s) (processedPointsForCurrentChar s)
    (totalFramesForCurrentChar s) (currentFrame s) (animationActive s)
    (animationFrameId s) (completedCharacters s) (lastTimestamp s) (clientWidth s)
    (clientHeight s) (canvasOps s) (messageText s) (frameQueue s) v.

Definition draw (ops : list CanvasOp) (s : State) : State :=
  set_canvasOps (canvasOps s ++ ops) s.

(** [requestAnimationFrame(callback)]: a fresh, non-zero request id. *)
Definition requestAnimationFrame (callback : Callback) (s : State) : nat * State :=
  let id := nextFrameId s in
  (id, set_nextFrameId (S id) (set_frameQueue (frameQueue s ++ [(id, callback)]) s)).

Definition cancelAnimationFrame (id : nat) (s : State) : State :=
  set_frameQueue (filter (fun e => negb (Nat.eqb (fst e) id)) (frameQueue s)) s.

(** The call [calculateWordScalingAndOffset(word)]: the three globals it
    assigns. *)
Definition runCalculateWordScalingAndOffset (word : list ascii) (s : State) : State :=
  let fit := calculateWordScalingAndOffset binary64 (List.length word)
               (currentCanvasWidth s) (currentCanvasHeight s) (baseScale s) in
  set_centerYOffsetPixels (fitCenterYOffsetPixels _ fit)
    (set_centerXOffsetPixels (fitCenterXOffsetPixels _ fit)
      (set_wordScaleFactor (fitWordScaleFactor _ fit) s)).

Definition updateCanvasDimensions (s : State) : State :=
  let s := set_currentCanvasWidth (clientWidth s) s in
  let s := set_currentCanvasHeight (clientHeight s) s in
  let s := draw [SetCanvasSize (currentCanvasWidth s) (currentCanvasHeight s)] s in
  let s := set_baseScale
             (computeBaseScale binary64 (currentCanvasWidth s) (currentCanvasHeight s)) s in
  let s :=
    match wordToAnimate s with
    | _ :: _ => runCalculateWordScalingAndOffset (wordToAnimate s) s
    | [] =>
        set_centerYOffsetPixels (lit binary64 0)
          (set_centerXOffsetPixels (lit binary64 0)
            (set_wordScaleFactor (lit binary64 1) s))
    end in
  snd (requestAnimationFrame RedrawCanvasContent s).

(** [transformPoint(dataX, dataY, charXOffsetDataUnits)]; every call of
    the source passes the third argument. *)
Definition transformPoint (s : State) (dataX dataY charXOffsetDataUnits : float) : CanvasPoint :=
  let transformedDataX := PrimFloat.add dataX charXOffsetDataUnits in
  let transformedDataY := dataY in
  let scaledX := PrimFloat.mul (PrimFloat.mul (PrimFloat.sub transformedDataX (X_MIN binary64))
                                 (baseScale s)) (wordScaleFactor s) in
  let scaledY := PrimFloat.mul (PrimFloat.mul (PrimFloat.sub transformedDataY (Y_MIN binary64))
                                 (baseScale s)) (wordScaleFactor s) in
  let canvasX := PrimFloat.add scaledX (centerXOffsetPixels s) in
  let canvasY := PrimFloat.sub (ofN binary64 (currentCanvasHeight s))
                   (PrimFloat.add scaledY (centerYOffsetPixels s)) in
  {| canvasX := canvasX; canvasY := canvasY |}.

(** [prepareAnimationForCharacter(char)]: the returned boolean and the
    new globals.  ([console.warn] is not modelled.) *)
Definition prepareAnimationForCharacter (c : ascii) (s : State) : bool * State :=
  match glyphLookup CHARACTER_DRAWING_DATA c with
  | None =>
      (false, set_totalFramesForCurrentChar 0 (set_processedPointsForCurrentChar [] s))
  | Some charDrawingSegments =>
      let points := flattenSegments binary64 (map (segmentOf binary64) charDrawingSegments) in
      (true, set_currentFrame 0
               (set_totalFramesForCurrentChar (List.length points)
                 (set_processedPointsForCurrentChar points s)))
  end.

(** The data-unit offset of the character at [index]. *)
Definition slotOffset (index : nat) : float :=
  PrimFloat.mul (ofNat binary64 index) (CHAR_WIDTH_DATA_UNITS binary64).

Definition redrawCanvasContent (s : State) : State :=
  let s := draw [ClearRect; SetLineWidth (lit binary64 1.5); SetStrokeStyle "black"] s in
  let s := draw (flat_map (fun completedCharData =>
                   drawPath (transformPoint s) (processedPoints completedCharData)
                            (xOffset completedCharData))
                 (completedCharacters s)) s in
  if animationActive s && (currentWordCharIndex s <? List.length (wordToAnimate s))%nat then
    let currentChar := charAt (wordToAnimate s) (currentWordCharIndex s) in
    let currentXOffsetDataUnits := slotOffset (currentWordCharIndex s) in
    let s := if (List.length (processedPointsForCurrentChar s) =? 0)%nat
             then snd (prepareAnimationForCharacter currentChar s) else s in
    let pointsToDrawForCurrentChar :=
      firstn (currentFrame s + 1) (processedPointsForCurrentChar s) in
    draw (drawPath (transformPoint s) pointsToDrawForCurrentChar currentXOffsetDataUnits) s
  else s.

Definition quoted (c : ascii) : string := "'" ++ str c ++ "'".

(** The part of [animate] run when the interval has elapsed, after the
    redraw: "Advance frame or move to the next character". *)
Definition advance (s : State) : State :=
  if (currentWordCharIndex s <? List.length (wordToAnimate s))%nat then
    if onLastFrame (currentFrame s) (totalFramesForCurrentChar s) then
      let s := set_completedCharacters
                 (completedCharacters s ++
                  [{| char := charAt (wordToAnimate s) (currentWordCharIndex s);
                      processedPoints := processedPointsForCurrentChar s;
                      xOffset := slotOffset (currentWordCharIndex s) |}]) s in
      let s := set_currentWordCharIndex (S (currentWordCharIndex s)) s in
      let s := set_currentFrame 0 s in
      let s := set_processedPointsForCurrentChar [] s in
      if (currentWordCharIndex s <? List.length (wordToAnimate s))%nat then
        let s := set_messageText
                   ("Stitching: '" ++ string_of_list_ascii (wordToAnimate s)
                    ++ "' - Current char: "
                    ++ quoted (charAt (wordToAnimate s) (currentWordCharIndex s))) s in
        snd (prepareAnimationForCharacter
               (charAt (wordToAnimate s) (currentWordCharIndex s)) s)
      else
        let s := set_messageText
                   ("Animation finished: " ++ string_of_list_ascii (wordToAnimate s)) s in
        set_animationActive false s
    else set_currentFrame (S (currentFrame s)) s
  else
    let s := set_animationActive false s in
    set_messageText ("Animation finished: " ++ string_of_list_ascii (wordToAnimate s)) s.

(** [deltaTime >= ANIMATION_INTERVAL_MS] for a callback run at
    [timestamp]. *)
Definition intervalElapsed (timestamp : float) (s : State) : bool :=
  PrimFloat.leb ANIMATION_INTERVAL_MS (PrimFloat.sub timestamp (lastTimestamp s)).

Definition animate (timestamp : float) (s : State) : State :=
  if negb (animationActive s) then set_animationFrameId None s
  else
    let deltaTime := PrimFloat.sub timestamp (lastTimestamp s) in
    let s :=
      if PrimFloat.leb ANIMATION_INTERVAL_MS deltaTime then
        let s := set_lastTimestamp
                   (PrimFloat.sub timestamp (Binary64.jsRem deltaTime ANIMATION_INTERVAL_MS)) s in
        let s := redrawCanvasContent s in
        advance s
      else s in
    if animationActive s then
      let (id, s) := requestAnimationFrame Animate s in
      set_animationFrameId (Some id) s
    else s.

(** The block "Stop any ongoing animation" of the click handler. *)
Definition stopOngoingAnimation (s : State) : State :=
  let s := match animationFrameId s with
           | Some id => if negb (Nat.eqb id 0) then cancelAnimationFrame id s else s
           | None => s
           end in
  set_animationActive false s.

Definition resetWordFit (s : State) : State :=
  set_centerYOffsetPixels (lit binary64 0)
    (set_centerXOffsetPixels (lit binary64 0)
      (set_wordScaleFactor (lit binary64 1) s)).

(** The click handler of [animateButton], block by block.  First the
    branch taken when no supported character is left. *)
Definition noSupportedCharacters (s : State) : State :=
  let s := set_messageText "Please enter supported characters (A-F) to stitch." s in
  let s := draw [ClearRect] s in
  let s := set_completedCharacters [] s in
  resetWordFit s.

(** "Calculate Scaling and Centering for the new word". *)
Definition calculateScalingForNewWord (s : State) : State :=
  let s := updateCanvasDimensions s in
  runCalculateWordScalingAndOffset (wordToAnimate s) s.

(** "Inform the user if any unsupported characters were entered and
    filtered". *)
Definition informUser (inputValue : list ascii) (s : State) : State :=
  let unsupportedCharsEntered :=
    filter (fun c => negb (hasOwnProperty CHARACTER_DRAWING_DATA c)) inputValue in
  if (0 <? List.length unsupportedCharsEntered)%nat then
    set_messageText
      ("Warning: Chars '" ++ String.concat ", " (map str unsupportedCharsEntered)
       ++ "' not defined. Animating: " ++ string_of_list_ascii (wordToAnimate s)) s
  else
    set_messageText ("Stitching: " ++ string_of_list_ascii (wordToAnimate s)) s.

(** "Reset all animation state variables for a new word". *)
Definition resetAnimationState (s : State) : State :=
  let s := set_currentWordCharIndex 0 s in
  let s := set_currentFrame 0 s in
  set_processedPointsForCurrentChar [] s.

(** The safeguard taken when the first character cannot be prepared. *)
Definition firstCharacterFailed (firstChar : ascii) (s : State) : State :=
  let s := set_messageText
             ("Error: Could not prepare animation for " ++ quoted firstChar
              ++ ". Please use supported characters.") s in
  let s := draw [ClearRect] s in
  let s := set_completedCharacters [] s in
  let s := set_wordToAnimate [] s in
  resetWordFit s.

(** The end of the handler: clear, activate, request the first frame. *)
Definition startAnimation (now : float) (s : State) : State :=
  let s := set_completedCharacters [] s in
  let s := draw [ClearRect] s in
  let s := set_animationActive true s in
  let s := set_lastTimestamp now s in
  let (id, s) := requestAnimationFrame Animate s in
  set_animationFrameId (Some id) s.

(** [inputValue] is [textInput.value.trim().toUpperCase()], [now] is the
    value returned by [performance.now()]. *)
Definition onAnimateClick (inputValue : list ascii) (now : float) (s : State) : State :=
  let supportedCharsInInput := filter (hasOwnProperty CHARACTER_DRAWING_DATA) inputValue in
  let s := set_wordToAnimate supportedCharsInInput s in
  let s := stopOngoingAnimation s in
  if (List.length (wordToAnimate s) =? 0)%nat then noSupportedCharacters s
  else
    let s := calculateScalingForNewWord s in
    let s := informUser inputValue s in
    let s := resetAnimationState s in
    let firstChar := charAt (wordToAnimate s) 0 in
    let (prepared, s) := prepareAnimationForCharacter firstChar s in
    if negb prepared then firstCharacterFailed firstChar s
    else startAnimation now s.

(** The state once the script has been evaluated, for a canvas element of
    client size [width] x [height]. *)
Definition initialState (width height : N) : State :=
  {| currentCanvasWidth := 0; currentCanvasHeight := 0;
     baseScale := lit binary64 0; wordScaleFactor := lit binary64 1;
     centerXOffsetPixels := lit binary64 0; centerYOffsetPixels := lit binary64 0;
     wordToAnimate := []; currentWordCharIndex := 0;
     processedPointsForCurrentChar := []; totalFramesForCurrentChar := 0;
     currentFrame := 0; animationActive := false; animationFrameId := None;
     completedCharacters := []; lastTimestamp := lit binary64 0;
     clientWidth := width; clientHeight := height;
     canvasOps := []; messageText := ""; frameQueue := []; nextFrameId := 1 |}.

(** What the host can do: deliver [load], resize the canvas element,
    click the button, or run a requested frame callback. *)
Inductive Event : Type :=
  | Load
  | Resize (width height : N)
  | Click (inputValue : list ascii) (now : float)
  | Frame (id : nat) (timestamp : float).

Definition runFrame (id : nat) (timestamp : float) (s : State) : State :=
  match find (fun e => Nat.eqb (fst e) id) (frameQueue s) with
  | None => s
  | Some (_, callback) =>
      let s := cancelAnimationFrame id s in
      match callback with
      | Animate => animate timestamp s
      | RedrawCanvasContent => redrawCanvasContent s
      end
  end.

Definition step (e : Event) (s : State) : State :=
  match e with
  | Load =>
      let s := updateCanvasDimensions s in
      set_messageText "Enter characters (A-F) to stitch." s
  | Resize width height =>
      updateCanvasDimensions (set_clientHeight height (set_clientWidth width s))
  | Click inputValue now => onAnimateClick inputValue now s
  | Frame id timestamp => runFrame id timestamp s
  end.

Definition run (events : list Event) (s : State) : State :=
  fold_left (fun s e => step e s) events s.

Inductive Reachable : State -> Prop :=
  | reach_init : forall width height, Reachable (initialState width height)
  | reach_step : forall s e, Reachable s -> Reachable (step e s).

End Part000.

(* ================================================================== *)
(** * [src/script.js] *)

Module Script.

Definition CHARACTER_DRAWING_DATA : GlyphTable := CHARACTER_DRAWING_DATA_script.

Definition CANVAS_SIZE : float := lit binary64 600.
Definition SCALE_X : float := PrimFloat.div CANVAS_SIZE (DATA_RANGE_X binary64).
Definition SCALE_Y : float := PrimFloat.div CANVAS_SIZE (DATA_RANGE_Y binary64).
Definition ANIMATION_INTERVAL_MS : float := lit binary64 20.

(** The script's global variables, then the calls made on the canvas so
    far, [messageDiv.textContent], the ids of the requested runs of
    [animate] (this script requests no other callback and cancels none),
    and the next request id. *)
Record State : Type := mkState {
  wordScaleFactor : float;
  wordToAnimate : list ascii;
  currentWordCharIndex : nat;
  processedPointsForCurrentChar : list (Point binary64);
  totalFramesForCurrentChar : nat;
  currentFrame : nat;
  animationActive : bool;
  completedCharacters : list CompletedChar;
  lastTimestamp : float;
  canvasOps : list CanvasOp;
  messageText : string;
  frameQueue : list nat;
  nextFrameId : nat
}.

Definition set_wordScaleFactor (v : float) (s : State) : State :=
  mkState v (wordToAnimate s) (currentWordCharIndex s) (processedPointsForCurrentChar
    s) (totalFramesForCurrentChar s) (currentFrame s) (animationActive s)
    (completedCharacters s) (lastTimestamp s) (canvasOps s) (messageText s)
    (frameQueue s) (nextFrameId s).
Definition set_wordToAnimate (v : list ascii) (s : State) : State :=
  mkState (wordScaleFactor s) v (currentWordCharIndex s)
    (processedPointsForCurrentChar s) (totalFramesForCurrentChar s) (currentFrame s)
    (animationActive s) (completedCharacters s) (lastTimestamp s) (canvasOps s)
    (messageText s) (frameQueue s) (nextFrameId s).
Definition set_currentWordCharIndex (v : nat) (s : State) : State :=
  mkState (wordScaleFactor s) (wordToAnimate s) v (processedPointsForCurrentChar s)
    (totalFramesForCurrentChar s) (currentFrame s) (animationActive s)
    (completedCharacters s) (lastTimestamp s) (canvasOps s) (messageText s)
    (frameQueue s) (nextFrameId s).
Definition set_processedPointsForCurrentChar (v : list (Point binary64)) (s : State) : State :=
  mkState (wordScaleFactor s) (wordToAnimate s) (currentWordCharIndex s) v
    (totalFramesForCurrentChar s) (currentFrame s) (animationActive s)
    (completedCharacters s) (lastTimestamp s) (canvasOps s) (messageText s)
    (frameQueue s) (nextFrameId s).
Definition set_totalFramesForCurrentChar (v : nat) (s : State) : State :=
  mkState (wordScaleFactor s) (wordToAnimate s) (currentWordCharIndex s)
    (processedPointsForCurrentChar s) v (currentFrame s) (animationActive s)
    (completedCharacters s) (lastTimestamp s) (canvasOps s) (messageText s)
    (frameQueue s) (nextFrameId s).
Definition set_currentFrame (v : nat) (s : State) : State :=
  mkState (wordScaleFactor s) (wordToAnimate s) (currentWordCharIndex s)
    (processedPointsForCurrentChar s) (totalFramesForCurrentChar s) v (animationActive
    s) (completedCharacters s) (lastTimestamp s) (canvasOps s) (messageText s)
    (frameQueue s) (nextFrameId s).
Definition set_animationActive (v : bool) (s : State) : State :=
  mkState (wordScaleFactor s) (wordToAnimate s) (currentWordCharIndex s)
    (processedPointsForCurrentChar s) (totalFramesForCurrentChar s) (currentFrame s) v
    (completedCharacters s) (lastTimestamp s) (canvasOps s) (messageText s)
    (frameQueue s) (nextFrameId s).
Definition set_completedCharacters (v : list CompletedChar) (s : State) : State :=
  mkState (wordScaleFactor s) (wordToAnimate s) (currentWordCharIndex s)
    (processedPointsForCurrentChar s) (totalFramesForCurrentChar s) (currentFrame s)
    (animationActive s) v (lastTimestamp s) (canvasOps s) (messageText s) (frameQueue
    s) (nextFrameId s).
Definition set_lastTimestamp (v : float) (s : State) : State :=
  mkState (wordScaleFactor s) (wordToAnimate s) (currentWordCharIndex s)
    (processedPointsForCurrentChar s) (totalFramesForCurrentChar s) (currentFrame s)
    (animationActive s) (completedCharacters s) v (canvasOps s) (messageText s)
    (frameQueue s) (nextFrameId s).
Definition set_canvasOps (v : list CanvasOp) (s : State) : State :=
  mkState (wordScaleFactor s) (wordToAnimate s) (currentWordCharIndex s)
    (processedPointsForCurrentChar s) (totalFramesForCurrentChar s) (currentFrame s)
    (animationActive s) (completedCharacters s) (lastTimestamp s) v (messageText s)
    (frameQueue s) (nextFrameId s).
Definition set_messageText (v : string) (s : State) : State :=
  mkState (wordScaleFactor s) (wordToAnimate s) (currentWordCharIndex s)
    (processedPointsForCurrentChar s) (totalFramesForCurrentChar s) (currentFrame s)
    (animationActive s) (completedCharacters s) (lastTimestamp s) (canvasOps s) v
    (frameQueue s) (nextFrameId s).
Definition set_frameQueue (v : list nat) (s : State) : State :=
  mkState (wordScaleFactor s) (wordToAnimate s) (currentWordCharIndex s)
    (processedPointsForCurrentChar s) (totalFramesForCurrentChar s) (currentFrame s)
    (animationActive s) (completedCharacters s) (lastTimestamp s) (canvasOps s)
    (messageText s) v (nextFrameId s).
Definition set_nextFrameId (v : nat) (s : State) : State :=
  mkState (wordScaleFactor s) (wordToAnimate s) (currentWordCharIndex s)
    (processedPointsForCurrentChar s) (totalFramesForCurrentChar s) (currentFrame s)
    (animationActive s) (completedCharacters s) (lastTimestamp s) (canvasOps s)
    (messageText s) (frameQueue s) v.

Definition draw (ops : list CanvasOp) (s : State) : State :=
  set_canvasOps (canvasOps s ++ ops) s.

(** [requestAnimationFrame(animate)]; the script ignores the id. *)
Definition requestAnimationFrame (s : State) : State :=
  let id := nextFrameId s in
  set_nextFrameId (S id) (set_frameQueue (frameQueue s ++ [id]) s).

Definition transformPoint (s : State) (dataX dataY charXOffsetDataUnits : float) : CanvasPoint :=
  let transformedDataX := PrimFloat.add dataX charXOffsetDataUnits in
  let canvasX := PrimFloat.mul (PrimFloat.mul (PrimFloat.sub transformedDataX (X_MIN binary64))
                                 SCALE_X) (wordScaleFactor s) in
  let canvasY := PrimFloat.sub CANVAS_SIZE
                   (PrimFloat.mul (PrimFloat.mul (PrimFloat.sub dataY (Y_MIN binary64))
                                    SCALE_Y) (wordScaleFactor s)) in
  {| canvasX := canvasX; canvasY := canvasY |}.

(** [prepareAnimationForCharacter(char)], the text of [part_000]'s. *)
Definition prepareAnimationForCharacter (c : ascii) (s : State) : bool * State :=
  match glyphLookup CHARACTER_DRAWING_DATA c with
  | None =>
      (false, set_totalFramesForCurrentChar 0 (set_processedPointsForCurrentChar [] s))
  | Some charDrawingSegments =>
      let points := flattenSegments binary64 (map (segmentOf binary64) charDrawingSegments) in
      (true, set_currentFrame 0
               (set_totalFramesForCurrentChar (List.length points)
                 (set_processedPointsForCurrentChar points s)))
  end.

Definition slotOffset (index : nat) : float :=
  PrimFloat.mul (ofNat binary64 index) (CHAR_WIDTH_DATA_UNITS binary64).

Definition quoted (c : ascii) : string := "'" ++ str c ++ "'".

(** "1. Draw all characters that have already finished animating." *)
Definition drawCompleted (s : State) : State :=
  draw (flat_map (fun completedCharData =>
          drawPath (transformPoint s) (processedPoints completedCharData)
                   (xOffset completedCharData))
        (completedCharacters s)) s.

(** The end of "2. Animate the current character", once its points are
    prepared: draw the revealed prefix, then advance the frame or move to
    the next character. *)
Definition drawAndAdvance (s : State) : State :=
  let currentChar := charAt (wordToAnimate s) (currentWordCharIndex s) in
  let currentXOffsetDataUnits := slotOffset (currentWordCharIndex s) in
  let pointsToDrawForCurrentChar :=
    firstn (currentFrame s + 1) (processedPointsForCurrentChar s) in
  let s := draw (drawPath (transformPoint s) pointsToDrawForCurrentChar
                          currentXOffsetDataUnits) s in
  if onLastFrame (currentFrame s) (totalFramesForCurrentChar s) then
    let s := set_completedCharacters
               (completedCharacters s ++
                [{| char := currentChar;
                    processedPoints := processedPointsForCurrentChar s;
                    xOffset := currentXOffsetDataUnits |}]) s in
    let s := set_currentWordCharIndex (S (currentWordCharIndex s)) s in
    let s := set_currentFrame 0 s in
    let s := set_processedPointsForCurrentChar [] s in
    if (currentWordCharIndex s <? List.length (wordToAnimate s))%nat then
      set_messageText
        ("Animating: '" ++ string_of_list_ascii (wordToAnimate s)
         ++ "' - Current char: "
         ++ quoted (charAt (wordToAnimate s) (currentWordCharIndex s))) s
    else
      set_messageText ("Animation finished: " ++ string_of_list_ascii (wordToAnimate s)) s
  else set_currentFrame (S (currentFrame s)) s.

Definition intervalElapsed (timestamp : float) (s : State) : bool :=
  PrimFloat.leb ANIMATION_INTERVAL_MS (PrimFloat.sub timestamp (lastTimestamp s)).

(** The start of a frame whose interval has elapsed: the new
    [lastTimestamp], the cleared canvas, the completed characters. *)
Definition beginFrame (timestamp : float) (s : State) : State :=
  let deltaTime := PrimFloat.sub timestamp (lastTimestamp s) in
  let s := set_lastTimestamp
             (PrimFloat.sub timestamp (Binary64.jsRem deltaTime ANIMATION_INTERVAL_MS)) s in
  let s := draw [ClearRect; SetLineWidth (lit binary64 1.5); SetStrokeStyle "black"] s in
  drawCompleted s.

(** The branch taken when [prepareAnimationForCharacter] returns false:
    "skip to the next", request the next frame, return. *)
Definition skipCharacter (s : State) : State :=
  let s := set_currentWordCharIndex (S (currentWordCharIndex s)) s in
  let s := set_currentFrame 0 s in
  requestAnimationFrame s.

(** "2. Animate the current character", up to the final request of the
    next frame. *)
Definition animateCurrent (s : State) : State :=
  if (currentWordCharIndex s <? List.length (wordToAnimate s))%nat then
    let currentChar := charAt (wordToAnimate s) (currentWordCharIndex s) in
    if (List.length (processedPointsForCurrentChar s) =? 0)%nat then
      let (prepared, s) := prepareAnimationForCharacter currentChar s in
      if negb prepared then skipCharacter s
      else requestAnimationFrame (drawAndAdvance s)
    else requestAnimationFrame (drawAndAdvance s)
  else
    let s := set_messageText
               ("Animation finished: " ++ string_of_list_ascii (wordToAnimate s)) s in
    requestAnimationFrame s.

Definition animate (timestamp : float) (s : State) : State :=
  if negb (animationActive s) then s
  else if intervalElapsed timestamp s then animateCurrent (beginFrame timestamp s)
  else requestAnimationFrame s.

(** The click handler of [animateButton], block by block. *)
Definition noSupportedCharacters (s : State) : State :=
  let s := set_messageText
             "Please enter supported characters (A, B, C, D, E, F) to animate." s in
  let s := set_animationActive false s in
  let s := draw [ClearRect] s in
  set_completedCharacters [] s.

(** "Inform the user if any unsupported characters were entered and
    filtered". *)
Definition informUser (inputValue : list ascii) (s : State) : State :=
  let unsupportedCharsEntered :=
    filter (fun c => negb (hasOwnProperty CHARACTER_DRAWING_DATA c)) inputValue in
  if (0 <? List.length unsupportedCharsEntered)%nat then
    set_messageText
      ("Warning: Chars '" ++ String.concat ", " (map str unsupportedCharsEntered)
       ++ "' not defined. Animating: " ++ string_of_list_ascii (wordToAnimate s)) s
  else
    set_messageText ("Animating: " ++ string_of_list_ascii (wordToAnimate s)) s.

(** "Reset all animation state variables for a new word", and the start
    of the loop. *)
Definition startAnimation (s : State) : State :=
  let s := set_currentWordCharIndex 0 s in
  let s := set_currentFrame 0 s in
  let s := set_processedPointsForCurrentChar [] s in
  let s := set_completedCharacters [] s in
  let s := draw [ClearRect] s in
  let s := set_animationActive true s in
  requestAnimationFrame s.

(** [inputValue] is [textInput.value.trim().toUpperCase()]. *)
Definition onAnimateClick (inputValue : list ascii) (s : State) : State :=
  let supportedCharsInInput := filter (hasOwnProperty CHARACTER_DRAWING_DATA) inputValue in
  let s := set_wordToAnimate supportedCharsInInput s in
  if (List.length (wordToAnimate s) =? 0)%nat then noSupportedCharacters s
  else
    let s := set_wordScaleFactor
               (scriptWordScaleFactor binary64 (List.length (wordToAnimate s))) s in
    let s := informUser inputValue s in
    startAnimation s.

(** The state once the script has been evaluated. *)
Definition initialState : State :=
  {| wordScaleFactor := lit binary64 1;
     wordToAnimate := []; currentWordCharIndex := 0;
     processedPointsForCurrentChar := []; totalFramesForCurrentChar := 0;
     currentFrame := 0; animationActive := false;
     completedCharacters := []; lastTimestamp := lit binary64 0;
     canvasOps := [SetCanvasSize 600 600];
     messageText := "Enter characters (A, B, C, D, E, F) to animate.";
     frameQueue := []; nextFrameId := 1 |}.

Inductive Event : Type :=
  | Click (inputValue : list ascii)
  | Frame (id : nat) (timestamp : float).

Definition runFrame (id : nat) (timestamp : float) (s : State) : State :=
  if existsb (Nat.eqb id) (frameQueue s) then
    animate timestamp
      (set_frameQueue (filter (fun i => negb (Nat.eqb i id)) (frameQueue s)) s)
  else s.

Definition step (e : Event) (s : State) : State :=
  match e with
  | Click inputValue => onAnimateClick inputValue s
  | Frame id timestamp => runFrame id timestamp s
  end.

Definition run (events : list Event) (s : State) : State :=
  fold_left (fun s e => step e s) events s.

Inductive Reachable : State -> Prop :=
  | reach_init : Reachable initialState
  | reach_step : forall s e, Reachable s -> Reachable (step e s).

End Script.

(* ================================================================== *)
(** * Notions used to state the properties *)

(** The last element of an array, if any. *)
Definition lastOf {X : Type} (l : list X) : option X :=
  match rev l with x :: _ => Some x | [] => None end.

Section JoinRule.

Variable A : Arith.

(** Whether [pushSegment] drops the first point of [segment]'s
    interpolation after the points [processedPoints]. *)
Definition dropsFirst (processedPoints : list (Point A)) (segment : Segment A) : bool :=
  match lastOf processedPoints, interpolateSegment A segment None with
  | Some lastPoint, firstPoint :: _ => pointEqb A lastPoint firstPoint
  | _, _ => false
  end.

(** Two consecutive segments are joined when the last interpolated point
    of the first [===] the first interpolated point of the second. *)
Definition joined (a b : Segment A) : bool :=
  match lastOf (interpolateSegment A a None), interpolateSegment A b None with
  | Some lastPoint, firstPoint :: _ => pointEqb A lastPoint firstPoint
  | _, _ => false
  end.

Fixpoint joinCount (segs : list (Segment A)) : nat :=
  match segs with
  | a :: (b :: _) as rest => ((if joined a b then 1 else 0) + joinCount rest)%nat
  | _ => 0%nat
  end.

End JoinRule.

(** Equality of two segments as written. *)
Definition sameLiteral (a b : Q) : bool :=
  Z.eqb (Qnum a) (Qnum b) && Pos.eqb (Qden a) (Qden b).

Definition sameSegmentData (a b : SegmentData) : bool :=
  sameLiteral (fst (fst a)) (fst (fst b)) && sameLiteral (snd (fst a)) (snd (fst b))
  && sameLiteral (fst (snd a)) (fst (snd b)) && sameLiteral (snd (snd a)) (snd (snd b)).

(** The first interpolated point of a table segment [===] its start. *)
Definition startsExact (d : SegmentData) : bool :=
  let segment := segmentOf binary64 d in
  match interpolateSegment binary64 segment None with
  | firstPoint :: _ => pointEqb binary64 firstPoint (fst segment)
  | [] => false
  end.

(** The last interpolated point of a table segment [===] its end. *)
Definition endsExact (d : SegmentData) : bool :=
  let segment := segmentOf binary64 d in
  match lastOf (interpolateSegment binary64 segment None) with
  | Some lastPoint => pointEqb binary64 lastPoint (snd segment)
  | None => false
  end.

(** The two segments of [B] that end at [x = 1.2]. *)
Definition B_segment_13 : SegmentData := ((6, 5.6), (1.2, 4))%Q.
Definition B_segment_19 : SegmentData := ((6, 1.6), (1.2, 0))%Q.

(** Two consecutive segments share an endpoint as written in the table. *)
Definition sharedEndpoint (a b : SegmentData) : bool :=
  Qeq_bool (fst (snd a)) (fst (fst b)) && Qeq_bool (snd (snd a)) (snd (fst b)).

Fixpoint sharedEndpoints (segs : list SegmentData) : nat :=
  match segs with
  | a :: (b :: _) as rest => ((if sharedEndpoint a b then 1 else 0) + sharedEndpoints rest)%nat
  | _ => 0%nat
  end.

(** What holds of one table entry under binary64. *)
Definition entryEndpointsOk (entry : ascii * list SegmentData) : bool :=
  forallb (fun d =>
    startsExact d &&
    (endsExact d
     || (Ascii.eqb (fst entry) "B"
         && (sameSegmentData d B_segment_13 || sameSegmentData d B_segment_19))))
    (snd entry).

Definition entryJoinsOk (entry : ascii * list SegmentData) : bool :=
  Nat.eqb (joinCount binary64 (map (segmentOf binary64) (snd entry)))
          (sharedEndpoints (snd entry)).

Definition entryCompiledOk (entry : ascii * list SegmentData) : bool :=
  let segs := map (segmentOf binary64) (snd entry) in
  let points := flattenSegments binary64 segs in
  (21 <=? List.length points)%nat
  && match segs, points with
     | first :: _, firstPoint :: _ => pointEqb binary64 firstPoint (fst first)
     | _, _ => false
     end
  && match lastOf segs, lastOf points with
     | Some final, Some lastPoint => pointEqb binary64 lastPoint (snd final)
     | _, _ => false
     end.

(** A Number that is neither NaN nor an infinity. *)
Definition finiteNumber (x : float) : bool :=
  match Prim2SF x with
  | S754_zero _ | S754_finite _ _ _ => true
  | S754_infinity _ | S754_nan => false
  end.

(** ** The animation of [src/unnamed/part_000] *)

Module Part000Props.
Import Part000.

Definition supported (c : ascii) : Prop :=
  hasOwnProperty CHARACTER_DRAWING_DATA c = true.

(** The point sequence of a character of the table. *)
Definition glyphPoints (c : ascii) : list (Point binary64) :=
  match compiledPoints binary64 CHARACTER_DRAWING_DATA c with
  | Some points => points
  | None => []
  end.

(** The record pushed for the character at [index] of [word]. *)
Definition completedRecord (word : list ascii) (index : nat) : CompletedChar :=
  {| char := charAt word index;
     processedPoints := glyphPoints (charAt word index);
     xOffset := slotOffset index |}.

(** The completed set of a wholly animated [word], left to right. *)
Definition allCompleted (word : list ascii) : list CompletedChar :=
  map (completedRecord word) (seq 0 (List.length word)).

Definition isAnimate (e : nat * Callback) : bool :=
  match snd e with Animate => true | RedrawCanvasContent => false end.

(** The ids of the requested runs of [animate]. *)
Definition requestsOf (queue : list (nat * Callback)) : list nat :=
  map fst (filter isAnimate queue).

Definition animateRequests (s : State) : list nat := requestsOf (frameQueue s).

(** A frame queue without the request [id]. *)
Definition without (id : nat) (queue : list (nat * Callback)) : list (nat * Callback) :=
  filter (fun e => negb (Nat.eqb (fst e) id)) queue.

(** The frame queue left by the block "Stop any ongoing animation". *)
Definition stoppedQueue (s : State) : list (nat * Callback) :=
  match animationFrameId s with
  | Some id => if negb (Nat.eqb id 0) then without id (frameQueue s) else frameQueue s
  | None => frameQueue s
  end.

(** A glyph is being animated. *)
Definition Animating (s : State) : Prop :=
  animationActive s = true
  /\ (currentWordCharIndex s < List.length (wordToAnimate s))%nat.

(** The word has been animated to its end. *)
Definition Finished (s : State) : Prop :=
  animationActive s = false
  /\ wordToAnimate s <> []
  /\ currentWordCharIndex s = List.length (wordToAnimate s).

(** The invariant of the animation state. *)
Record Inv (s : State) : Prop := {
  inv_supported : Forall supported (wordToAnimate s);
  inv_completed :
    completedCharacters s
    = firstn (currentWordCharIndex s) (allCompleted (wordToAnimate s));
  inv_active :
    animationActive s = true ->
    (currentWordCharIndex s < List.length (wordToAnimate s))%nat
    /\ processedPointsForCurrentChar s
       = glyphPoints (charAt (wordToAnimate s) (currentWordCharIndex s))
    /\ totalFramesForCurrentChar s = List.length (processedPointsForCurrentChar s)
    /\ (currentFrame s < totalFramesForCurrentChar s)%nat;
  inv_idle :
    animationActive s = false ->
    wordToAnimate s <> [] ->
    currentWordCharIndex s = List.length (wordToAnimate s);
  inv_ids :
    Forall (fun e => (1 <= fst e < nextFrameId s)%nat) (frameQueue s);
  inv_nodup : NoDup (map fst (frameQueue s));
  inv_frameId :
    forall id, animationFrameId s = Some id -> (1 <= id < nextFrameId s)%nat;
  inv_request :
    animateRequests s
    = if animationActive s
      then match animationFrameId s with Some id => [id] | None => [] end
      else [];
  inv_requested :
    animationActive s = true -> animationFrameId s <> None;
  inv_next : (1 <= nextFrameId s)%nat
}.

(** The fields the invariant reads. *)
Definition control (s : State) :=
  (wordToAnimate s, currentWordCharIndex s, processedPointsForCurrentChar s,
   totalFramesForCurrentChar s, currentFrame s, animationActive s,
   animationFrameId s, completedCharacters s, frameQueue s, nextFrameId s).

(** One run of [animate] whose interval has elapsed: what it must do to
    the animation state [s] to give [s']. *)
Definition TickSpec (s s' : State) : Prop :=
  let word := wordToAnimate s in
  let index := currentWordCharIndex s in
  wordToAnimate s' = word
  /\ if Nat.eqb (currentFrame s) (List.length (processedPointsForCurrentChar s) - 1)
     then
       completedCharacters s'
       = completedCharacters s
         ++ [{| char := charAt word index;
                processedPoints := processedPointsForCurrentChar s;
                xOffset := slotOffset index |}]
       /\ currentWordCharIndex s' = S index
       /\ currentFrame s' = 0%nat
       /\ if (S index <? List.length word)%nat
          then animationActive s' = true
               /\ processedPointsForCurrentChar s' = glyphPoints (charAt word (S index))
          else Finished s'
     else
       completedCharacters s' = completedCharacters s
       /\ currentWordCharIndex s' = index
       /\ currentFrame s' = S (currentFrame s)
       /\ processedPointsForCurrentChar s' = processedPointsForCurrentChar s
       /\ animationActive s' = true.

(** [n] runs of the requested [animate], each after the interval has
    elapsed, lead from [s] to [s']. *)
Inductive DueTicks : nat -> State -> State -> Prop :=
  | due_none : forall s, DueTicks 0 s s
  | due_tick : forall n s id timestamp s',
      In (id, Animate) (frameQueue s) ->
      intervalElapsed timestamp s = true ->
      DueTicks n (step (Frame id timestamp) s) s' ->
      DueTicks (S n) s s'.

(** The frames still to show: the rest of the active glyph, and the
    glyphs after it. *)
Definition framesOfGlyphs (word : list ascii) : nat :=
  list_sum (map (fun c => List.length (glyphPoints c)) word).

Definition framesLeft (s : State) : nat :=
  (framesOfGlyphs (skipn (currentWordCharIndex s) (wordToAnimate s)) - currentFrame s)%nat.

Definition isClick (e : Event) : bool :=
  match e with Click _ _ => true | _ => false end.

End Part000Props.

(** ** The animation of [src/script.js] *)

Module ScriptProps.
Import Script.

Definition supported (c : ascii) : Prop :=
  hasOwnProperty CHARACTER_DRAWING_DATA c = true.

Definition glyphPoints (c : ascii) : list (Point binary64) :=
  match compiledPoints binary64 CHARACTER_DRAWING_DATA c with
  | Some points => points
  | None => []
  end.

Definition completedRecord (word : list ascii) (index : nat) : CompletedChar :=
  {| char := charAt word index;
     processedPoints := glyphPoints (charAt word index);
     xOffset := slotOffset index |}.

Definition allCompleted (word : list ascii) : list CompletedChar :=
  map (completedRecord word) (seq 0 (List.length word)).

(** The invariant of the animation state: between two frames the points
    of the current character are either not prepared yet, with the frame
    at 0, or prepared, with the frame inside them. *)
Record Inv (s : State) : Prop := {
  inv_supported : Forall supported (wordToAnimate s);
  inv_completed :
    completedCharacters s
    = firstn (currentWordCharIndex s) (allCompleted (wordToAnimate s));
  inv_active :
    animationActive s = true ->
    (currentWordCharIndex s <= List.length (wordToAnimate s))%nat
    /\ ((processedPointsForCurrentChar s = [] /\ currentFrame s = 0%nat)
        \/ ((currentWordCharIndex s < List.length (wordToAnimate s))%nat
            /\ processedPointsForCurrentChar s
               = glyphPoints (charAt (wordToAnimate s) (currentWordCharIndex s))
            /\ totalFramesForCurrentChar s
               = List.length (processedPointsForCurrentChar s)
            /\ (currentFrame s < totalFramesForCurrentChar s)%nat))
}.

(** The fields the invariant reads. *)
Definition control (s : State) :=
  (wordToAnimate s, currentWordCharIndex s, processedPointsForCurrentChar s,
   totalFramesForCurrentChar s, currentFrame s, animationActive s,
   completedCharacters s).

(** One run of [animate] whose interval has elapsed, while a character of
    the word is left to animate: what it does to the animation state. *)
Definition TickSpec (s s' : State) : Prop :=
  let word := wordToAnimate s in
  let index := currentWordCharIndex s in
  let points := glyphPoints (charAt word index) in
  wordToAnimate s' = word
  /\ animationActive s' = true
  /\ if Nat.eqb (currentFrame s) (List.length points - 1)
     then
       completedCharacters s'
       = completedCharacters s
         ++ [{| char := charAt word index;
                processedPoints := points;
                xOffset := slotOffset index |}]
       /\ currentWordCharIndex s' = S index
       /\ currentFrame s' = 0%nat
     else
       completedCharacters s' = completedCharacters s
       /\ currentWordCharIndex s' = index
       /\ currentFrame s' = S (currentFrame s)
       /\ processedPointsForCurrentChar s' = points.

(** The word has been animated to its end; the loop of [script.js] stays
    active and keeps redrawing it. *)
Definition Finished (s : State) : Prop :=
  wordToAnimate s <> []
  /\ currentWordCharIndex s = List.length (wordToAnimate s).

Definition isClick (e : Event) : bool :=
  match e with Click _ => true | _ => false end.

(** [n] runs of a requested [animate], each after the interval has
    elapsed, lead from [s] to [s']. *)
Inductive DueTicks : nat -> State -> State -> Prop :=
  | due_none : forall s, DueTicks 0 s s
  | due_tick : forall n s id timestamp s',
      In id (frameQueue s) ->
      intervalElapsed timestamp s = true ->
      DueTicks n (step (Frame id timestamp) s) s' ->
      DueTicks (S n) s s'.

(** The frames still to show: the rest of the current glyph, and the
    glyphs after it. *)
Definition framesOfGlyphs (word : list ascii) : nat :=
  list_sum (map (fun c => List.length (glyphPoints c)) word).

Definition framesLeft (s : State) : nat :=
  (framesOfGlyphs (skipn (currentWordCharIndex s) (wordToAnimate s)) - currentFrame s)%nat.

End ScriptProps.

(** ** Fitting a word to the viewport *)

Section FitFactor.

Variable A : Arith.

(** The shape shared by [widthFitFactor] and [heightFitFactor]: 1 unless
    the block exceeds the available size. *)
Definition fitFactor (available block : A) : A :=
  if gtb A block available
  then mul A (div A available block) (lit A 0.95)
  else lit A 1.

(** [wordScaleFactor] after [calculateWordScalingAndOffset] for a word of
    [wordLength] characters. *)
Definition wordScaleFactorOf (width height : N) (baseScale : A) (wordLength : nat) : A :=
  fitWordScaleFactor A
    (calculateWordScalingAndOffset A wordLength width height baseScale).

End FitFactor.

(** ** Binary64 rounding

    The scaling code multiplies and divides Numbers.  Rocq's primitive
    floats are specified by the operations of [SpecFloat] ([SFmul],
    [SFdiv], [binary_normalize]), which extend or shift the mantissa, keep
    the place of the exact result ([location]) and round it to nearest, ties
    to even.  The notions below say what these operations compute, in
    rational numbers. *)

Section RoundingNotions.

Local Open Scope Q_scope.

(** [2^e] for an integer exponent. *)
Definition pow2 (e : Z) : Q := 2 ^ e.

(** The place of [v] on the grid of step [2^e]: [v] is in
    [[m * 2^e, (m + 1) * 2^e)], on the grid point, below the middle, on
    it or above it, as the [location] [l] says. *)
Definition inLoc (v : Q) (m e : Z) (l : location) : Prop :=
  match l with
  | loc_Exact => v == inject_Z m * pow2 e
  | loc_Inexact Lt => inject_Z m * pow2 e < v /\ v < (inject_Z m + (1 # 2)) * pow2 e
  | loc_Inexact Eq => v == (inject_Z m + (1 # 2)) * pow2 e
  | loc_Inexact Gt => (inject_Z m + (1 # 2)) * pow2 e < v /\ v < (inject_Z m + 1) * pow2 e
  end.

(** The same for the record [shr] shifts: mantissa, round bit and sticky
    bit. *)
Definition mrsLoc (v : Q) (mrs : shr_record) (e : Z) : Prop :=
  (0 <= shr_m mrs)%Z /\ inLoc v (shr_m mrs) e (loc_of_shr_record mrs).

(** [v] rounds to the float of mantissa [m'] and exponent [e']: on the
    grid where its mantissa [mc] has 53 bits, [v] sits at the place [lc];
    the mantissa is rounded to nearest, ties to even, and renormalised when
    it reaches [2^53]. *)
Definition RoundsTo (v : Q) (m' : positive) (e' : Z) : Prop :=
  exists (mc ec : Z) (lc : location),
    (2 ^ 52 <= mc < 2 ^ 53)%Z
    /\ inLoc v mc ec lc
    /\ ((round_nearest_even mc lc < 2 ^ 53
         /\ Zpos m' = round_nearest_even mc lc /\ e' = ec)
        \/ (round_nearest_even mc lc = 2 ^ 53
            /\ Zpos m' = 2 ^ 52 /\ e' = ec + 1))%Z.

(** A mantissa of exactly 53 bits. *)
Definition normal (m : positive) : Prop := (2 ^ 52 <= Zpos m < 2 ^ 53)%Z.

(** The order of two positive normal floats, read on exponent and
    mantissa, as [SFcompare] reads it. *)
Definition lexLe (m1 : positive) (e1 : Z) (m2 : positive) (e2 : Z) : Prop :=
  (e1 < e2 \/ (e1 = e2 /\ Zpos m1 <= Zpos m2))%Z.

Definition lexLt (m1 : positive) (e1 : Z) (m2 : positive) (e2 : Z) : Prop :=
  (e1 < e2 \/ (e1 = e2 /\ Zpos m1 < Zpos m2))%Z.

(** The rational value of a finite float; 0 for the others. *)
Definition valueOf (x : float) : Q :=
  match Prim2SF x with
  | S754_finite s m e => (if s then -1 else 1) * (inject_Z (Zpos m) * pow2 e)
  | _ => 0
  end.

(** A positive normal float whose exponent is within [k] of the exponent
    of 1: its value is in [[2^(-k), 2^(k+1))].  The bound [k] keeps
    products and quotients away from overflow and underflow. *)
Definition PosNormal (k : Z) (x : float) : Prop :=
  exists m e,
    Prim2SF x = S754_finite false m e /\ normal m /\ (- k <= e + 52 <= k)%Z.

(** [x] is the float the rational [v] rounds to. *)
Definition RoundedFrom (v : Q) (x : float) : Prop :=
  exists m e, Prim2SF x = S754_finite false m e /\ RoundsTo v m e.

(** [+0] or positive normal. *)
Definition NonNeg (k : Z) (x : float) : Prop := x = 0%float \/ PosNormal k x.

End RoundingNotions.

(** ** Runs used as examples *)

Definition timestampOf (n : nat) : float := Binary64.Z2F (Z.of_nat n).

(** [part_000] on a 600 x 400 canvas: the page loads, then a word is
    submitted at time 0. *)
Definition part000_submitted (word : list ascii) : Part000.State :=
  Part000.run [Part000.Load; Part000.Click word (timestampOf 0)]
    (Part000.initialState 600 400).

(** [count] frames 10 ms apart, for the requests [first], [first + 1], ...
    of [animate]; after the page has loaded, the first click requests it
    under the id 3. *)
Definition part000_frames (first count : nat) : list Part000.Event :=
  map (fun k => Part000.Frame (first + k) (timestampOf (10 * (k + 1)))) (seq 0 count).

Definition part000_animating_A : Part000.State := part000_submitted ["A"%char].

Definition part000_finished_J : Part000.State :=
  Part000.run (part000_frames 3 208) (part000_submitted ["J"%char]).

(** [script.js]: a word is submitted, then [count] frames run 20 ms apart,
    the first of them [20 * (elapsed + 1)] ms after the page has loaded. *)
Definition script_submitted (word : list ascii) : Script.State :=
  Script.step (Script.Click word) Script.initialState.

Definition script_frames (first count elapsed : nat) : list Script.Event :=
  map (fun k => Script.Frame (first + k) (timestampOf (20 * (elapsed + k + 1))))
      (seq 0 count).

Definition script_animating_A : Script.State := script_submitted ["A"%char].

Definition script_finished_F : Script.State :=
  Script.run (script_frames 1 311 0) (script_submitted ["F"%char]).

(** A second word submitted to [script.js] while the first is animated. *)
Definition script_resubmitted : Script.State :=
  Script.step (Script.Click ["B"%char]) script_animating_A.

(** The state of [script.js] if the filter of the click handler were
    bypassed: the word holds a character without an entry in the table. *)
Definition script_bypassed : Script.State :=
  Script.set_wordToAnimate ["Z"%char] script_animating_A.

(** [part_000] after the page has loaded, and [count] frames 10 ms apart
    from the time [elapsed] on.  The word [J] has 208 frames: submitted
    after the load, its animation runs under the requests 3 to 210; a
    second click then makes the requests 211 (a redraw) and 212. *)
Definition part000_loaded : Part000.State :=
  Part000.step Part000.Load (Part000.initialState 600 400).

Definition part000_later_frames (first count elapsed : nat) : list Part000.Event :=
  map (fun k => Part000.Frame (first + k) (timestampOf (elapsed + 10 * (k + 1))))
      (seq 0 count).

(** ** Further notions *)

(** The canvas calls of one redraw in a state of [part_000]: the canvas is
    cleared, the completed glyphs are drawn in full, then the revealed
    prefix of the active glyph, if there is one. *)
Definition part000_redrawCalls (s : Part000.State) : list CanvasOp :=
  [ClearRect; SetLineWidth (lit binary64 1.5); SetStrokeStyle "black"]
  ++ flat_map (fun completedCharData =>
                 drawPath (Part000.transformPoint s) (processedPoints completedCharData)
                          (xOffset completedCharData))
              (Part000.completedCharacters s)
  ++ (if Part000.animationActive s
      then drawPath (Part000.transformPoint s)
             (firstn (Part000.currentFrame s + 1) (Part000.processedPointsForCurrentChar s))
             (Part000.slotOffset (Part000.currentWordCharIndex s))
      else []).

(** The animation progress of [part_000]: what a resize or a redraw must
    not touch. *)
Definition part000_progress (s : Part000.State) :=
  (Part000.wordToAnimate s, Part000.currentWordCharIndex s, Part000.currentFrame s,
   Part000.processedPointsForCurrentChar s, Part000.totalFramesForCurrentChar s,
   Part000.animationActive s, Part000.completedCharacters s).

Definition isLineTo (op : CanvasOp) : bool :=
  match op with LineTo _ _ => true | _ => false end.

Definition isMoveTo (op : CanvasOp) : bool :=
  match op with MoveTo _ _ => true | _ => false end.

(** The canvas size, the scales and offsets of [part_000], with the word
    they are computed for. *)
Definition part000_view (s : Part000.State) :=
  (Part000.currentCanvasWidth s, Part000.currentCanvasHeight s, Part000.baseScale s,
   Part000.wordScaleFactor s, Part000.centerXOffsetPixels s,
   Part000.centerYOffsetPixels s, Part000.wordToAnimate s).

(** The scales and offsets are those of the current word on the current
    canvas. *)
Definition FitConsistent (s : Part000.State) : Prop :=
  Part000.baseScale s
  = computeBaseScale binary64 (Part000.currentCanvasWidth s) (Part000.currentCanvasHeight s)
  /\ (Part000.wordScaleFactor s, Part000.centerXOffsetPixels s,
      Part000.centerYOffsetPixels s)
     = match Part000.wordToAnimate s with
       | [] => (lit binary64 1, lit binary64 0, lit binary64 0)
       | _ :: _ =>
           let fit := calculateWordScalingAndOffset binary64
                        (List.length (Part000.wordToAnimate s))
                        (Part000.currentCanvasWidth s) (Part000.currentCanvasHeight s)
                        (Part000.baseScale s) in
           (fitWordScaleFactor binary64 fit, fitCenterXOffsetPixels binary64 fit,
            fitCenterYOffsetPixels binary64 fit)
       end.

(** The message of the click handler of [part_000] for the input
    [inputValue], when a supported character is left. *)
Definition part000_clickMessage (inputValue : list ascii) : string :=
  let word := filter (hasOwnProperty Part000.CHARACTER_DRAWING_DATA) inputValue in
  let unsupported :=
    filter (fun c => negb (hasOwnProperty Part000.CHARACTER_DRAWING_DATA c)) inputValue in
  match unsupported with
  | [] => "Stitching: " ++ string_of_list_ascii word
  | _ :: _ =>
      "Warning: Chars '" ++ String.concat ", " (map str unsupported)
      ++ "' not defined. Animating: " ++ string_of_list_ascii word
  end.

(** What a click of [part_000] shows and the clock it starts. *)
Definition part000_shown (s : Part000.State) :=
  (Part000.messageText s, Part000.canvasOps s, Part000.lastTimestamp s).

(** A state of [part_000] as it would be if the filter of the click handler
    were bypassed: the first character of the word has no glyph. *)
Definition part000_bypassed : Part000.State :=
  Part000.set_processedPointsForCurrentChar []
    (Part000.set_wordToAnimate ["?"%char; "A"%char] part000_animating_A).

(** The pending requests of [script.js] and the next request id. *)
Definition script_requests (s : Script.State) :=
  (Script.frameQueue s, Script.nextFrameId s).

(** Request ids are handed out once: the pending ones are distinct and
    below the next id. *)
Definition script_requestsFresh (s : Script.State) : Prop :=
  NoDup (Script.frameQueue s)
  /\ Forall (fun id => (id < Script.nextFrameId s)%nat) (Script.frameQueue s).

(* ================================================================== *)
(** * Binary64 rounding of products and quotients *)

Section BinaryRounding.

Local Open Scope Q_scope.

(** ** Powers of two *)

Lemma pow2_pos (e : Z) : 0 < pow2 e.
Proof. apply Qpower_0_lt. reflexivity. Qed.

Lemma pow2_add (a b : Z) : pow2 (a + b) == pow2 a * pow2 b.
Proof. apply Qpower_plus. discriminate. Qed.

Lemma pow2_succ (e : Z) : pow2 (e + 1) == 2 * pow2 e.
Proof. rewrite pow2_add. unfold pow2 at 2. rewrite Qpower_1_r. ring. Qed.

Lemma pow2_le (a b : Z) : (a <= b)%Z -> pow2 a <= pow2 b.
Proof. intros H. apply Qpower_le_compat_l; [exact H|discriminate]. Qed.

Lemma pow2_lt_inv (a b : Z) : pow2 a < pow2 b -> (a < b)%Z.
Proof. intros H. apply (Qpower_lt_compat_l_inv 2); [exact H|reflexivity]. Qed.

Lemma pow2_Z (e : Z) : (0 <= e)%Z -> pow2 e == inject_Z (2 ^ e).
Proof. intros H. unfold pow2. now rewrite Zpower_Qpower. Qed.

Lemma pow2_0 : pow2 0 == 1.
Proof. reflexivity. Qed.

(* m * 2^e < 2^(k+e) from m < 2^k *)
Lemma scaled_lt (m k e : Z) : (0 <= k)%Z -> (m < 2 ^ k)%Z -> inject_Z m * pow2 e < pow2 (k + e).
Proof.
  intros Hk H. rewrite pow2_add, (pow2_Z k Hk).
  apply Qmult_lt_compat_r; [apply pow2_pos|]. now rewrite <- Zlt_Qlt.
Qed.

Lemma scaled_le (m k e : Z) : (0 <= k)%Z -> (2 ^ k <= m)%Z -> pow2 (k + e) <= inject_Z m * pow2 e.
Proof.
  intros Hk H. rewrite pow2_add, (pow2_Z k Hk).
  apply Qmult_le_compat_r; [|apply Qlt_le_weak, pow2_pos]. now rewrite <- Zle_Qle.
Qed.

(* integer comparison from scaled comparison *)
Lemma scaled_lt_inv (a b e : Z) : inject_Z a * pow2 e < inject_Z b * pow2 e -> (a < b)%Z.
Proof.
  intros H. rewrite Zlt_Qlt.
  pose proof (pow2_pos e).
  destruct (Qlt_le_dec (inject_Z a) (inject_Z b)) as [L|L]; [exact L|].
  exfalso. apply (Qmult_le_compat_r _ _ (pow2 e)) in L; [|lra]. lra.
Qed.

(** ** The number of bits of a mantissa *)

Lemma digits2_bounds (p : positive) :
  (2 ^ (Zpos (digits2_pos p) - 1) <= Zpos p < 2 ^ Zpos (digits2_pos p))%Z.
Proof.
  induction p as [p IH|p IH|]; cbn [digits2_pos].
  - rewrite Pos2Z.inj_succ.
    replace (Z.succ (Zpos (digits2_pos p)) - 1)%Z with (Z.succ (Zpos (digits2_pos p) - 1))%Z by lia.
    rewrite !Z.pow_succ_r by lia. lia.
  - rewrite Pos2Z.inj_succ.
    replace (Z.succ (Zpos (digits2_pos p)) - 1)%Z with (Z.succ (Zpos (digits2_pos p) - 1))%Z by lia.
    rewrite !Z.pow_succ_r by lia. lia.
  - cbn. lia.
Qed.

Lemma digits2_unique (p : positive) (d : Z) :
  (2 ^ (d - 1) <= Zpos p < 2 ^ d)%Z -> Zpos (digits2_pos p) = d.
Proof.
  intros [L U]. destruct (digits2_bounds p) as [L' U'].
  set (d' := Zpos (digits2_pos p)) in *.
  assert (Hd' : (0 < d')%Z) by (unfold d'; lia).
  assert (Hd : (0 < d)%Z).
  { destruct (Z_lt_le_dec 0 d) as [H|H]; [exact H|].
    exfalso. destruct (Z.eq_dec d 0) as [->|N].
    - cbn in U. lia.
    - rewrite Z.pow_neg_r in U by lia. lia. }
  destruct (Z.lt_trichotomy d' d) as [H|[H|H]]; [|exact H|].
  - exfalso. assert (2 ^ d' <= 2 ^ (d - 1))%Z by (apply Z.pow_le_mono_r; lia). lia.
  - exfalso. assert (2 ^ d <= 2 ^ (d' - 1))%Z by (apply Z.pow_le_mono_r; lia). lia.
Qed.

(** ** Shifting right keeps the place of the value *)

Lemma inject_xO (p : positive) : inject_Z (Zpos p~0) == 2 * inject_Z (Zpos p).
Proof. change (Zpos p~0) with (2 * Zpos p)%Z. now rewrite inject_Z_mult. Qed.

Lemma inject_xI (p : positive) : inject_Z (Zpos p~1) == 2 * inject_Z (Zpos p) + 1.
Proof.
  change (Zpos p~1) with (2 * Zpos p + 1)%Z. now rewrite inject_Z_plus, inject_Z_mult.
Qed.

(** One step of [shr] halves the mantissa and doubles the step of the
    grid; the round and sticky bits keep the place of the value. *)
Lemma shr_1_loc (v : Q) (mrs : shr_record) (e : Z) :
  mrsLoc v mrs e -> mrsLoc v (shr_1 mrs) (e + 1).
Proof.
  destruct mrs as [m r s]. unfold mrsLoc. cbn [shr_m]. intros [Hm H].
  pose proof (pow2_pos e) as P. pose proof (pow2_succ e) as S.
  destruct m as [|p|p]; [| |lia].
  - split; [destruct r, s; cbn; lia|].
    change (inject_Z 0) with 0 in *.
    destruct r, s; cbn [shr_1 orb loc_of_shr_record shr_m inLoc] in *;
      change (inject_Z 0) with 0 in *; rewrite ?S; lra.
  - destruct p as [p|p|].
    + split; [destruct r, s; cbn; lia|].
      pose proof (inject_xI p) as I.
      destruct r, s; cbn [shr_1 orb loc_of_shr_record shr_m inLoc] in *;
        rewrite ?S; rewrite I in H;
        set (y := inject_Z (Zpos p)) in *; clearbody y;
        set (q := pow2 e) in *; clearbody q; nra.
    + split; [destruct r, s; cbn; lia|].
      pose proof (inject_xO p) as I.
      destruct r, s; cbn [shr_1 orb loc_of_shr_record shr_m inLoc] in *;
        rewrite ?S; rewrite I in H;
        set (y := inject_Z (Zpos p)) in *; clearbody y;
        set (q := pow2 e) in *; clearbody q; nra.
    + split; [destruct r, s; cbn; lia|].
      destruct r, s; cbn [shr_1 orb loc_of_shr_record shr_m inLoc] in *;
        change (inject_Z 0) with 0 in *; change (inject_Z 1) with 1 in *;
        rewrite ?S; lra.
Qed.

Lemma iter_shr_loc (p : positive) :
  forall (v : Q) (mrs : shr_record) (e : Z),
    mrsLoc v mrs e -> mrsLoc v (SpecFloat.iter_pos shr_1 p mrs) (e + Zpos p).
Proof.
  induction p as [p IH|p IH|]; intros v mrs e H; cbn [SpecFloat.iter_pos].
  - replace (e + Zpos p~1)%Z with (e + 1 + Zpos p + Zpos p)%Z by lia.
    apply IH, IH. now apply shr_1_loc.
  - replace (e + Zpos p~0)%Z with (e + Zpos p + Zpos p)%Z by lia.
    now apply IH, IH.
  - now apply shr_1_loc.
Qed.

Lemma shr_loc (v : Q) (mrs : shr_record) (e n : Z) :
  mrsLoc v mrs e -> (0 <= n)%Z ->
  mrsLoc v (fst (shr mrs e n)) (e + n) /\ snd (shr mrs e n) = (e + n)%Z.
Proof.
  intros H Hn. destruct n as [|p|p]; [| |lia]; cbn [shr fst snd].
  - rewrite Z.add_0_r. auto.
  - split; [now apply iter_shr_loc|reflexivity].
Qed.

Lemma record_of_loc (v : Q) (m e : Z) (l : location) :
  (0 <= m)%Z -> inLoc v m e l -> mrsLoc v (shr_record_of_loc m l) e.
Proof.
  intros Hm H. unfold mrsLoc.
  destruct l as [|[| |]]; cbn [shr_record_of_loc shr_m loc_of_shr_record]; auto.
Qed.

Lemma inLoc_bounds (v : Q) (m e : Z) (l : location) :
  inLoc v m e l -> inject_Z m * pow2 e <= v /\ v < (inject_Z m + 1) * pow2 e.
Proof.
  pose proof (pow2_pos e) as P.
  destruct l as [|[| |]]; cbn [inLoc]; intros H; nra.
Qed.

(** The size of the mantissa once the grid is the one of the value. *)
Lemma loc_digits (v : Q) (m d e m' : Z) (l l' : location) :
  (2 ^ (d - 1) <= m < 2 ^ d)%Z -> (53 <= d)%Z ->
  inLoc v m e l -> inLoc v m' (e + (d - 53)) l' ->
  (2 ^ 52 <= m' < 2 ^ 53)%Z.
Proof.
  intros [L U] Hd H H'. apply inLoc_bounds in H, H'.
  set (e' := (e + (d - 53))%Z) in *.
  pose proof (pow2_pos e) as P. pose proof (pow2_pos e') as P'.
  pose proof (scaled_le m (d - 1) e ltac:(lia) L) as L1.
  assert (U1 : (inject_Z m + 1) * pow2 e <= pow2 (d + e)).
  { rewrite pow2_add, (pow2_Z d) by lia.
    apply Qmult_le_compat_r; [|lra].
    change 1 with (inject_Z 1). rewrite <- inject_Z_plus, <- Zle_Qle. lia. }
  split.
  - assert (A : (2 ^ 52 < m' + 1)%Z).
    { apply (scaled_lt_inv _ _ e'). rewrite inject_Z_plus. change (inject_Z 1) with 1.
      pose proof (scaled_le (2 ^ 52) 52 e' ltac:(lia) ltac:(lia)) as L2.
      assert (E : pow2 (52 + e') == pow2 (d - 1 + e)) by (unfold e'; f_equiv; lia).
      assert (B : inject_Z (2 ^ 52) * pow2 e' == pow2 (52 + e')).
      { rewrite pow2_add, (pow2_Z 52) by lia. reflexivity. }
      lra. }
    lia.
  - apply (scaled_lt_inv _ _ e').
    assert (B : inject_Z (2 ^ 53) * pow2 e' == pow2 (d + e)).
    { rewrite <- (pow2_Z 53) by lia. rewrite <- pow2_add. unfold e'. f_equiv. lia. }
    lra.
Qed.

(** ** The rounding step shared by all operations *)

Lemma rne_bounds (m : Z) (l : location) :
  (m <= round_nearest_even m l <= m + 1)%Z.
Proof.
  destruct l as [|[| |]]; cbn [round_nearest_even]; try lia.
  destruct (Z.even m); lia.
Qed.

Lemma fexp_normal (e : Z) :
  (-1074 <= e - 53)%Z -> fexp prec emax e = (e - 53)%Z.
Proof.
  intros H. unfold fexp, emin. change prec with 53%Z. change emax with 1024%Z. lia.
Qed.

(** [binary_round_aux], on a mantissa of at least 53 bits with the place
    of the value [v], away from underflow and overflow: the result is
    the float [v] rounds to. *)
Lemma binary_round_aux_spec (v : Q) (m : positive) (e : Z) (l : location) (d : Z) :
  inLoc v (Zpos m) e l ->
  Zpos (digits2_pos m) = d ->
  (53 <= d)%Z ->
  (-1074 <= d + e - 53)%Z ->
  (d + e - 52 <= 971)%Z ->
  exists m' e',
    binary_round_aux prec emax false (Zpos m) e l = S754_finite false m' e'
    /\ RoundsTo v m' e'
    /\ (d + e - 53 <= e' <= d + e - 52)%Z.
Proof.
  intros H Hd Hd53 Hlo Hhi.
  unfold binary_round_aux, shr_fexp.
  cbn [Zdigits2]. rewrite Hd. rewrite fexp_normal by lia.
  replace (d + e - 53 - e)%Z with (d - 53)%Z by lia.
  destruct (shr_loc v (shr_record_of_loc (Zpos m) l) e (d - 53)) as [[Hm1 H1] E1];
    [apply record_of_loc; [lia|exact H]|lia|].
  destruct (shr (shr_record_of_loc (Zpos m) l) e (d - 53)) as [mrs1 e1].
  cbn [fst snd] in Hm1, H1, E1. subst e1.
  set (mc := shr_m mrs1) in *. set (lc := loc_of_shr_record mrs1) in *.
  assert (Hmc : (2 ^ 52 <= mc < 2 ^ 53)%Z).
  { apply (loc_digits v (Zpos m) d e mc l lc); try assumption.
    rewrite <- Hd. apply digits2_bounds. }
  pose proof (rne_bounds mc lc) as Hr.
  set (mr := round_nearest_even mc lc) in *.
  set (ec := (e + (d - 53))%Z) in *.
  destruct (Z_lt_le_dec mr (2 ^ 53)) as [Hlt|Hge].
  - destruct mr as [|pr|pr] eqn:Emr; [lia| |lia].
    assert (Dr : Zpos (digits2_pos pr) = 53%Z) by (apply digits2_unique; lia).
    cbn [Zdigits2]. rewrite Dr. rewrite fexp_normal by (unfold ec; lia).
    replace (53 + ec - 53 - ec)%Z with 0%Z by lia.
    cbn [shr shr_record_of_loc shr_m].
    assert (Hle : (ec <=? emax - prec)%Z = true).
    { apply Z.leb_le. change emax with 1024%Z. change prec with 53%Z. unfold ec. lia. }
    rewrite Hle. exists pr, ec. split; [reflexivity|]. split.
    + exists mc, ec, lc. split; [exact Hmc|]. split; [exact H1|].
      left. fold mr. rewrite Emr. auto.
    + unfold ec. lia.
  - assert (Emr : mr = (2 ^ 53)%Z) by lia.
    rewrite Emr. change (2 ^ 53)%Z with 9007199254740992%Z.
    cbn [Zdigits2 digits2_pos Pos.succ].
    change (Zpos 54) with 54%Z.
    rewrite fexp_normal by (unfold ec; lia).
    replace (54 + ec - 53 - ec)%Z with 1%Z by lia.
    cbn [shr shr_record_of_loc SpecFloat.iter_pos shr_1 shr_m orb].
    assert (Hle : (ec + 1 <=? emax - prec)%Z = true).
    { apply Z.leb_le. change emax with 1024%Z. change prec with 53%Z. unfold ec. lia. }
    rewrite Hle. eexists _, (ec + 1)%Z. split; [reflexivity|]. split.
    + exists mc, ec, lc. split; [exact Hmc|]. split; [exact H1|].
      right. fold mr. rewrite Emr. split; [reflexivity|]. split; reflexivity.
    + unfold ec. lia.
Qed.

(** ** Rounding is monotone and leaves floats alone *)

Lemma RoundsTo_normal (v : Q) (m : positive) (e : Z) : RoundsTo v m e -> normal m.
Proof.
  intros (mc & ec & lc & Hmc & _ & [(Hlt & Em & _)|(_ & Em & _)]); unfold normal.
  - pose proof (rne_bounds mc lc). lia.
  - rewrite Em. lia.
Qed.

Lemma canonical_bounds (v : Q) (mc ec : Z) (lc : location) :
  (2 ^ 52 <= mc < 2 ^ 53)%Z -> inLoc v mc ec lc ->
  pow2 (52 + ec) <= v /\ v < pow2 (53 + ec).
Proof.
  intros [L U] H. apply inLoc_bounds in H.
  pose proof (pow2_pos ec) as P.
  pose proof (scaled_le mc 52 ec ltac:(lia) L) as L1.
  assert (U1 : (inject_Z mc + 1) * pow2 ec <= pow2 (53 + ec)).
  { rewrite pow2_add, (pow2_Z 53) by lia.
    apply Qmult_le_compat_r; [|lra].
    change 1 with (inject_Z 1). rewrite <- inject_Z_plus, <- Zle_Qle. lia. }
  lra.
Qed.

Lemma rne_mono (v1 v2 : Q) (mc ec : Z) (l1 l2 : location) :
  v1 <= v2 -> inLoc v1 mc ec l1 -> inLoc v2 mc ec l2 ->
  (round_nearest_even mc l1 <= round_nearest_even mc l2)%Z.
Proof.
  intros Hv H1 H2. pose proof (pow2_pos ec) as P.
  destruct l1 as [|[| |]], l2 as [|[| |]]; cbn [inLoc round_nearest_even] in *;
    try destruct (Z.even mc); try lia; exfalso; nra.
Qed.

(** Rounding is monotone: a larger value does not round to a smaller
    float. *)
Theorem RoundsTo_mono (v1 v2 : Q) (m1 m2 : positive) (e1 e2 : Z) :
  v1 <= v2 -> RoundsTo v1 m1 e1 -> RoundsTo v2 m2 e2 -> lexLe m1 e1 m2 e2.
Proof.
  intros Hv (mc1 & ec1 & lc1 & Hmc1 & H1 & R1) (mc2 & ec2 & lc2 & Hmc2 & H2 & R2).
  destruct (canonical_bounds v1 mc1 ec1 lc1 Hmc1 H1) as [L1 U1].
  destruct (canonical_bounds v2 mc2 ec2 lc2 Hmc2 H2) as [L2 U2].
  assert (He : (ec1 <= ec2)%Z).
  { assert (pow2 (52 + ec1) < pow2 (53 + ec2)) as X by lra.
    apply pow2_lt_inv in X. lia. }
  pose proof (rne_bounds mc1 lc1) as B1. pose proof (rne_bounds mc2 lc2) as B2.
  unfold lexLe.
  destruct (Z.eq_dec ec1 ec2) as [E|N].
  - subst ec2.
    assert (Hr : (round_nearest_even mc1 lc1 <= round_nearest_even mc2 lc2)%Z).
    { destruct (Z.eq_dec mc1 mc2) as [->|Nm].
      - now apply (rne_mono v1 v2 mc2 ec1).
      - assert (mc1 < mc2 + 1)%Z.
        { apply inLoc_bounds in H1, H2. pose proof (pow2_pos ec1) as P.
          apply (scaled_lt_inv _ _ ec1). rewrite inject_Z_plus.
          change (inject_Z 1) with 1. lra. }
        lia. }
    lia.
  - lia.
Qed.

Lemma inLoc_compat (v v' : Q) (m e : Z) (l : location) :
  v == v' -> inLoc v m e l -> inLoc v' m e l.
Proof.
  intros E. destruct l as [|[| |]]; cbn [inLoc]; intros H; lra.
Qed.

Lemma RoundsTo_compat (v v' : Q) (m : positive) (e : Z) :
  v == v' -> RoundsTo v m e -> RoundsTo v' m e.
Proof.
  intros E (mc & ec & lc & Hmc & H & R). exists mc, ec, lc.
  split; [exact Hmc|]. split; [exact (inLoc_compat v v' mc ec lc E H)|exact R].
Qed.

Lemma RoundsTo_repr (m : positive) (e : Z) :
  normal m -> RoundsTo (inject_Z (Zpos m) * pow2 e) m e.
Proof.
  intros H. exists (Zpos m), e, loc_Exact. split; [exact H|]. split; [reflexivity|].
  left. cbn [round_nearest_even]. unfold normal in H. lia.
Qed.

(** The value of a normal float rounds to that float. *)
Theorem RoundsTo_exact (v : Q) (m m' : positive) (e e' : Z) :
  normal m -> v == inject_Z (Zpos m) * pow2 e -> RoundsTo v m' e' ->
  m' = m /\ e' = e.
Proof.
  intros Hm Hv H.
  pose proof (RoundsTo_repr m e Hm) as H0.
  apply (RoundsTo_compat _ v) in H0; [|now symmetry].
  assert (A : lexLe m e m' e') by (apply (RoundsTo_mono v v); [lra|assumption..]).
  assert (B : lexLe m' e' m e) by (apply (RoundsTo_mono v v); [lra|assumption..]).
  unfold lexLe in *. split; [|lia].
  assert (Zpos m' = Zpos m) by lia. congruence.
Qed.

Lemma normal_bounds (m : positive) (e : Z) :
  normal m ->
  pow2 (52 + e) <= inject_Z (Zpos m) * pow2 e /\ inject_Z (Zpos m) * pow2 e < pow2 (53 + e).
Proof.
  intros [L U]. split.
  - apply (scaled_le (Zpos m) 52 e); [lia|exact L].
  - apply (scaled_lt (Zpos m) 53 e); [lia|exact U].
Qed.

Lemma lexLt_val (m1 m2 : positive) (e1 e2 : Z) :
  normal m1 -> normal m2 -> lexLt m1 e1 m2 e2 ->
  inject_Z (Zpos m1) * pow2 e1 < inject_Z (Zpos m2) * pow2 e2.
Proof.
  intros N1 N2 [H|[-> H]].
  - destruct (normal_bounds m1 e1 N1) as [_ U]. destruct (normal_bounds m2 e2 N2) as [L _].
    assert (pow2 (53 + e1) <= pow2 (52 + e2)) by (apply pow2_le; lia). lra.
  - apply Qmult_lt_compat_r; [apply pow2_pos|]. now rewrite <- Zlt_Qlt.
Qed.

Lemma lexLe_val (m1 m2 : positive) (e1 e2 : Z) :
  normal m1 -> normal m2 -> lexLe m1 e1 m2 e2 ->
  inject_Z (Zpos m1) * pow2 e1 <= inject_Z (Zpos m2) * pow2 e2.
Proof.
  intros N1 N2 [H|[-> H]].
  - apply Qlt_le_weak, lexLt_val; try assumption. now left.
  - apply Qmult_le_compat_r; [|apply Qlt_le_weak, pow2_pos]. now rewrite <- Zle_Qle.
Qed.

Lemma val_lexLt (m1 m2 : positive) (e1 e2 : Z) :
  normal m1 -> normal m2 ->
  inject_Z (Zpos m1) * pow2 e1 < inject_Z (Zpos m2) * pow2 e2 -> lexLt m1 e1 m2 e2.
Proof.
  intros N1 N2 H.
  assert (D : lexLt m1 e1 m2 e2 \/ lexLe m2 e2 m1 e1) by (unfold lexLt, lexLe; lia).
  destruct D as [D|D]; [exact D|].
  apply lexLe_val in D; try assumption. lra.
Qed.

Lemma val_lexLe (m1 m2 : positive) (e1 e2 : Z) :
  normal m1 -> normal m2 ->
  inject_Z (Zpos m1) * pow2 e1 <= inject_Z (Zpos m2) * pow2 e2 -> lexLe m1 e1 m2 e2.
Proof.
  intros N1 N2 H.
  assert (D : lexLe m1 e1 m2 e2 \/ lexLt m2 e2 m1 e1) by (unfold lexLt, lexLe; lia).
  destruct D as [D|D]; [exact D|].
  apply lexLt_val in D; try assumption. lra.
Qed.

(** ** Products, quotients and integers *)

Lemma normal_digits (m : positive) : normal m -> Zpos (digits2_pos m) = 53%Z.
Proof. intros H. apply digits2_unique. exact H. Qed.

Lemma digits_between (p : positive) (a b : Z) :
  (0 <= a)%Z -> (2 ^ a <= Zpos p < 2 ^ b)%Z -> (a < Zpos (digits2_pos p) <= b)%Z.
Proof.
  intros Ha [L U]. destruct (digits2_bounds p) as [L' U'].
  set (d := Zpos (digits2_pos p)) in *.
  assert (Hd : (0 < d)%Z) by (unfold d; lia).
  split.
  - destruct (Z_lt_le_dec a d) as [H|H]; [exact H|].
    exfalso. assert (2 ^ d <= 2 ^ a)%Z by (apply Z.pow_le_mono_r; lia). lia.
  - destruct (Z_lt_le_dec b d) as [H|H]; [|exact H].
    exfalso.
    assert (Hb : (0 <= b)%Z).
    { destruct (Z_lt_le_dec b 0) as [N|N]; [|exact N].
      rewrite Z.pow_neg_r in U by lia. lia. }
    assert (2 ^ b <= 2 ^ (d - 1))%Z by (apply Z.pow_le_mono_r; lia). lia.
Qed.

(** The product of two normal floats. *)
Theorem SFmul_spec (m1 m2 : positive) (e1 e2 : Z) :
  normal m1 -> normal m2 ->
  (-1074 <= e1 + e2 + 52)%Z -> (e1 + e2 + 54 <= 971)%Z ->
  exists m' e',
    SFmul prec emax (S754_finite false m1 e1) (S754_finite false m2 e2)
    = S754_finite false m' e'
    /\ RoundsTo (inject_Z (Zpos m1) * pow2 e1 * (inject_Z (Zpos m2) * pow2 e2)) m' e'
    /\ (e1 + e2 + 52 <= e' <= e1 + e2 + 54)%Z.
Proof.
  intros N1 N2 Hlo Hhi. cbn [SFmul xorb].
  assert (B : (2 ^ 104 <= Zpos (m1 * m2) < 2 ^ 106)%Z).
  { unfold normal in N1, N2. rewrite Pos2Z.inj_mul.
    replace (2 ^ 104)%Z with (2 ^ 52 * 2 ^ 52)%Z by reflexivity.
    replace (2 ^ 106)%Z with (2 ^ 53 * 2 ^ 53)%Z by reflexivity.
    nia. }
  pose proof (digits_between (m1 * m2) 104 106 ltac:(lia) B) as Hd.
  set (v := inject_Z (Zpos m1) * pow2 e1 * (inject_Z (Zpos m2) * pow2 e2)).
  destruct (binary_round_aux_spec v (m1 * m2) (e1 + e2) loc_Exact (Zpos (digits2_pos (m1 * m2))))
    as (m' & e' & E & R & He); try lia.
  - cbn [inLoc]. unfold v. rewrite Pos2Z.inj_mul, inject_Z_mult, pow2_add. ring.
  - exists m', e'. split; [exact E|]. split; [exact R|lia].
Qed.

(** The place of a quotient with remainder [r] against the divisor [n]. *)
Lemma new_location_spec (v P : Q) (q n r : Z) :
  (0 < n)%Z -> (0 <= r < n)%Z -> 0 < P ->
  v * inject_Z n == (inject_Z q * inject_Z n + inject_Z r) * P ->
  match new_location n r with
  | loc_Exact => v == inject_Z q * P
  | loc_Inexact Lt => inject_Z q * P < v /\ v < (inject_Z q + (1 # 2)) * P
  | loc_Inexact Eq => v == (inject_Z q + (1 # 2)) * P
  | loc_Inexact Gt => (inject_Z q + (1 # 2)) * P < v /\ v < (inject_Z q + 1) * P
  end.
Proof.
  intros Hn Hr HP Hv.
  assert (N : 0 < inject_Z n) by (change 0 with (inject_Z 0); now rewrite <- Zlt_Qlt).
  assert (R0 : 0 <= inject_Z r) by (change 0 with (inject_Z 0); rewrite <- Zle_Qle; lia).
  assert (R1 : inject_Z r < inject_Z n) by (rewrite <- Zlt_Qlt; lia).
  set (N' := inject_Z n) in *. set (R := inject_Z r) in *. set (Q' := inject_Z q) in *.
  assert (Key : forall a : Q, (v - a * P) * N' == (Q' * N' - a * N' + R) * P).
  { intros a. ring_simplify. rewrite Hv. ring. }
  assert (Sgn : forall x : Q, (0 < x * N' <-> 0 < x) /\ (x * N' == 0 <-> x == 0)).
  { intros x. split; split; intros H; nra. }
  assert (Shape : new_location n r
                  = if (r =? 0)%Z then loc_Exact
                    else if Z.even n then loc_Inexact (2 * r ?= n)%Z
                         else loc_Inexact match (2 * r + 1 ?= n)%Z with
                                          | Lt => Lt | Eq => Lt | Gt => Gt
                                          end).
  { unfold new_location, new_location_even, new_location_odd.
    destruct (Z.even n), (r =? 0)%Z; reflexivity. }
  rewrite Shape. clear Shape.
  destruct (Z.eqb_spec r 0) as [E0|N0].
  - assert (ER : R == 0) by (unfold R; rewrite E0; reflexivity).
    assert (X : (v - Q' * P) * N' == 0) by (rewrite Key; rewrite ER; ring).
    assert (v - Q' * P == 0) by (apply (Sgn (v - Q' * P)); exact X).
    lra.
  - assert (Rp : 0 < R).
    { change 0 with (inject_Z 0). unfold R. rewrite <- Zlt_Qlt. lia. }
    assert (Low : inject_Z q * P < v).
    { fold Q'. assert (X : 0 < (v - Q' * P) * N') by (rewrite Key; nra).
      apply (Sgn (v - Q' * P)) in X. lra. }
    assert (High : v < (Q' + 1) * P).
    { assert (X : 0 < ((Q' + 1) * P - v) * N').
      { setoid_replace (((Q' + 1) * P - v) * N') with (- ((v - (Q' + 1) * P) * N')) by ring.
        rewrite Key. nra. }
      apply (Sgn ((Q' + 1) * P - v)) in X. lra. }
    assert (Half : (v - (Q' + (1 # 2)) * P) * N' * 2 == (2 * R - N') * P).
    { rewrite Key. ring. }
    assert (Cmp : forall c, (2 * r ?= n)%Z = c ->
              match c with
              | Lt => v < (Q' + (1 # 2)) * P
              | Eq => v == (Q' + (1 # 2)) * P
              | Gt => (Q' + (1 # 2)) * P < v
              end).
    { intros c Hc. destruct c.
      - apply Z.compare_eq in Hc.
        assert (E : 2 * R - N' == 0).
        { unfold R, N'. rewrite <- Hc, inject_Z_mult. change (inject_Z 2) with 2. ring. }
        assert (X : (v - (Q' + (1 # 2)) * P) * N' == 0) by nra.
        apply (Sgn (v - (Q' + (1 # 2)) * P)) in X. lra.
      - assert (Hc' : (2 * r < n)%Z) by exact Hc.
        assert (E : 2 * R - N' < 0).
        { unfold R, N'. rewrite Zlt_Qlt, inject_Z_mult in Hc'.
          change (inject_Z 2) with 2 in Hc'. lra. }
        assert (X : 0 < ((Q' + (1 # 2)) * P - v) * N') by nra.
        apply (Sgn ((Q' + (1 # 2)) * P - v)) in X. lra.
      - assert (Hc' : (n < 2 * r)%Z) by (apply Z.compare_gt_iff; exact Hc).
        assert (E : 0 < 2 * R - N').
        { unfold R, N'. rewrite Zlt_Qlt, inject_Z_mult in Hc'.
          change (inject_Z 2) with 2 in Hc'. lra. }
        assert (X : 0 < (v - (Q' + (1 # 2)) * P) * N') by nra.
        apply (Sgn (v - (Q' + (1 # 2)) * P)) in X. lra. }
    destruct (Z.even n) eqn:Ev.
    + specialize (Cmp _ eq_refl). destruct (2 * r ?= n)%Z; auto.
    + assert (Odd : (2 * r <> n)%Z).
      { intros E. rewrite <- E, Z.even_mul in Ev. discriminate Ev. }
      destruct (2 * r + 1 ?= n)%Z eqn:C1.
      * apply Z.compare_eq in C1.
        assert (C : (2 * r ?= n)%Z = Lt) by (apply Z.compare_lt_iff; lia).
        specialize (Cmp _ C). cbn in Cmp. auto.
      * assert (C1' : (2 * r + 1 < n)%Z) by exact C1.
        assert (C : (2 * r ?= n)%Z = Lt) by (apply Z.compare_lt_iff; lia).
        specialize (Cmp _ C). cbn in Cmp. auto.
      * assert (C1' : (n < 2 * r + 1)%Z) by (apply Z.compare_gt_iff; exact C1).
        assert (C : (2 * r ?= n)%Z = Gt) by (apply Z.compare_gt_iff; lia).
        specialize (Cmp _ C). cbn in Cmp. auto.
Qed.

Lemma new_location_inLoc (v : Q) (q n r e : Z) :
  (0 < n)%Z -> (0 <= r < n)%Z ->
  v * inject_Z n == (inject_Z q * inject_Z n + inject_Z r) * pow2 e ->
  inLoc v q e (new_location n r).
Proof.
  intros Hn Hr Hv.
  pose proof (new_location_spec v (pow2 e) q n r Hn Hr (pow2_pos e) Hv) as H.
  unfold inLoc. exact H.
Qed.

Lemma SFdiv_core_normal (m1 m2 : positive) (e1 e2 : Z) :
  normal m1 -> normal m2 -> (-1074 <= e1 - e2 - 53)%Z ->
  SFdiv_core_binary prec emax (Zpos m1) e1 (Zpos m2) e2
  = ((Zpos m1 * 2 ^ 53) / Zpos m2, e1 - e2 - 53,
     new_location (Zpos m2) ((Zpos m1 * 2 ^ 53) mod Zpos m2))%Z.
Proof.
  intros N1 N2 Hlo. unfold SFdiv_core_binary. cbn [Zdigits2].
  rewrite (normal_digits m1 N1), (normal_digits m2 N2).
  rewrite fexp_normal by lia.
  replace (Z.min (53 + e1 - (53 + e2) - 53) (e1 - e2))%Z with (e1 - e2 - 53)%Z by lia.
  replace (e1 - e2 - (e1 - e2 - 53))%Z with 53%Z by lia.
  rewrite Z.shiftl_mul_pow2 by lia.
  unfold Z.div, Z.modulo.
  destruct (Z.div_eucl (Zpos m1 * 2 ^ 53) (Zpos m2)) as [q r]. reflexivity.
Qed.

(** The quotient of two normal floats. *)
Theorem SFdiv_spec (m1 m2 : positive) (e1 e2 : Z) :
  normal m1 -> normal m2 ->
  (-1074 <= e1 - e2 - 53)%Z -> (e1 - e2 - 51 <= 971)%Z ->
  exists m' e',
    SFdiv prec emax (S754_finite false m1 e1) (S754_finite false m2 e2)
    = S754_finite false m' e'
    /\ RoundsTo (inject_Z (Zpos m1) * pow2 e1 / (inject_Z (Zpos m2) * pow2 e2)) m' e'
    /\ (e1 - e2 - 53 <= e' <= e1 - e2 - 51)%Z.
Proof.
  intros N1 N2 Hlo Hhi. cbn [SFdiv xorb].
  rewrite (SFdiv_core_normal m1 m2 e1 e2 N1 N2 Hlo).
  set (a := (Zpos m1 * 2 ^ 53)%Z). set (b := Zpos m2).
  assert (Hb : (0 < b)%Z) by (unfold b; lia).
  pose proof (Z.div_mod a b ltac:(lia)) as Hdm.
  pose proof (Z.mod_pos_bound a b Hb) as Hr.
  set (q := (a / b)%Z) in *. set (r := (a mod b)%Z) in *.
  assert (Hq : (2 ^ 52 <= q < 2 ^ 54)%Z).
  { unfold normal in N1, N2. fold b in N2. split.
    - apply Z.div_le_lower_bound; [exact Hb|].
      unfold a. change (2 ^ 53)%Z with (2 * 2 ^ 52)%Z. nia.
    - apply Z.div_lt_upper_bound; [exact Hb|].
      unfold a. change (2 ^ 54)%Z with (2 * 2 ^ 53)%Z. nia. }
  destruct q as [|pq|pq] eqn:Eq; [lia| |lia].
  pose proof (digits_between pq 52 54 ltac:(lia) Hq) as Hd.
  set (v := inject_Z (Zpos m1) * pow2 e1 / (inject_Z (Zpos m2) * pow2 e2)).
  destruct (binary_round_aux_spec v pq (e1 - e2 - 53) (new_location b r) (Zpos (digits2_pos pq)))
    as (m' & e' & E & R & He); try lia.
  - apply new_location_inLoc; [exact Hb|exact Hr|].
    unfold v. fold b.
    assert (P2 : 0 < pow2 e2) by apply pow2_pos.
    assert (B : 0 < inject_Z b).
    { change 0 with (inject_Z 0). now rewrite <- Zlt_Qlt. }
    assert (E1 : pow2 e1 == pow2 (e1 - e2 - 53) * inject_Z (2 ^ 53) * pow2 e2).
    { rewrite <- (pow2_Z 53) by lia. rewrite <- !pow2_add. f_equiv. lia. }
    assert (A : inject_Z (Zpos m1) * inject_Z (2 ^ 53)
                == inject_Z (Zpos pq) * inject_Z b + inject_Z r).
    { rewrite <- !inject_Z_mult, <- inject_Z_plus. fold a. rewrite Hdm.
      f_equiv. lia. }
    rewrite <- A, E1. field. lra.
  - exists m', e'. split; [exact E|]. split; [exact R|lia].
Qed.

Lemma iter_xO (p k : positive) : Zpos (Pos.iter xO p k) = (Zpos p * 2 ^ Zpos k)%Z.
Proof.
  rewrite <- Z.shiftl_mul_pow2 by lia. cbn [Z.shiftl].
  apply (Pos.iter_swap_gen _ _ Zpos xO (Z.mul 2)). reflexivity.
Qed.

(** An integer below [2^53] is a float: its mantissa is the integer
    shifted left to 53 bits. *)
Theorem normalize_integer (p : positive) :
  (Zpos p < 2 ^ 53)%Z ->
  exists m e,
    binary_normalize prec emax (Zpos p) 0 false = S754_finite false m e
    /\ normal m
    /\ (-52 <= e <= 0)%Z
    /\ inject_Z (Zpos m) * pow2 e == inject_Z (Zpos p).
Proof.
  intros Hp. cbn [binary_normalize]. unfold binary_round.
  pose proof (digits2_bounds p) as Hb.
  set (d := Zpos (digits2_pos p)) in *.
  assert (Hd : (1 <= d <= 53)%Z).
  { split; [unfold d; lia|].
    destruct (Z_lt_le_dec 53 d) as [H|H]; [|exact H].
    exfalso. assert (2 ^ 53 <= 2 ^ (d - 1))%Z by (apply Z.pow_le_mono_r; lia). lia. }
  rewrite Z.add_0_r. rewrite fexp_normal by lia.
  assert (Sh : exists mz,
             shl_align p 0 (d - 53) = (mz, (d - 53)%Z)
             /\ Zpos mz = (Zpos p * 2 ^ (53 - d))%Z).
  { unfold shl_align. rewrite Z.sub_0_r.
    destruct (d - 53)%Z as [|k|k] eqn:Ek; [|lia|].
    - exists p. split; [reflexivity|]. replace (53 - d)%Z with 0%Z by lia. lia.
    - exists (Pos.iter xO p k). split; [reflexivity|].
      rewrite iter_xO. f_equal. f_equal. lia. }
  destruct Sh as (mz & -> & Emz).
  assert (Nz : normal mz).
  { unfold normal. rewrite Emz.
    assert (E52 : (2 ^ 52 = 2 ^ (d - 1) * 2 ^ (53 - d))%Z).
    { rewrite <- Z.pow_add_r by lia. f_equal. lia. }
    assert (E53 : (2 ^ 53 = 2 ^ d * 2 ^ (53 - d))%Z).
    { rewrite <- Z.pow_add_r by lia. f_equal. lia. }
    rewrite E52, E53.
    assert (0 < 2 ^ (53 - d))%Z by (apply Z.pow_pos_nonneg; lia).
    split.
    - apply Z.mul_le_mono_nonneg_r; lia.
    - apply Z.mul_lt_mono_pos_r; lia. }
  set (v := inject_Z (Zpos mz) * pow2 (d - 53)).
  destruct (binary_round_aux_spec v mz (d - 53) loc_Exact 53) as (m' & e' & E & R & He); try lia.
  - reflexivity.
  - now apply normal_digits.
  - destruct (RoundsTo_exact v mz m' (d - 53) e' Nz ltac:(reflexivity) R) as [-> ->].
    exists mz, (d - 53)%Z. split; [exact E|]. split; [exact Nz|]. split; [lia|].
    rewrite Emz, inject_Z_mult, <- (pow2_Z (53 - d)) by lia.
    rewrite <- Qmult_assoc, <- pow2_add.
    replace (53 - d + (d - 53))%Z with 0%Z by lia. rewrite pow2_0. ring.
Qed.

(** ** Primitive floats *)

Lemma PosNormal_weaken (k k' : Z) (x : float) : (k <= k')%Z -> PosNormal k x -> PosNormal k' x.
Proof.
  intros H (m & e & E & N & B). exists m, e.
  split; [exact E|]. split; [exact N|lia].
Qed.

Lemma PosNormal_value (k : Z) (x : float) :
  PosNormal k x ->
  exists m e, Prim2SF x = S754_finite false m e /\ normal m /\ (- k <= e + 52 <= k)%Z
              /\ valueOf x == inject_Z (Zpos m) * pow2 e.
Proof.
  intros (m & e & E & N & B). exists m, e.
  split; [exact E|]. split; [exact N|]. split; [exact B|].
  unfold valueOf. rewrite E. ring.
Qed.

Lemma PosNormal_pos (k : Z) (x : float) : PosNormal k x -> 0 < valueOf x.
Proof.
  intros H. destruct (PosNormal_value k x H) as (m & e & _ & N & _ & V). rewrite V.
  destruct (normal_bounds m e N) as [L _]. pose proof (pow2_pos (52 + e)). lra.
Qed.

Lemma PosNormal_RoundedFrom (k : Z) (x : float) : PosNormal k x -> RoundedFrom (valueOf x) x.
Proof.
  intros H. destruct (PosNormal_value k x H) as (m & e & E & N & _ & V).
  exists m, e. split; [exact E|].
  apply (RoundsTo_compat (inject_Z (Zpos m) * pow2 e)); [now symmetry|].
  now apply RoundsTo_repr.
Qed.

Lemma RoundedFrom_value (v : Q) (x : float) :
  RoundedFrom v x ->
  exists m e, Prim2SF x = S754_finite false m e /\ RoundsTo v m e /\ normal m
              /\ valueOf x == inject_Z (Zpos m) * pow2 e.
Proof.
  intros (m & e & E & R). exists m, e.
  split; [exact E|]. split; [exact R|]. split; [now apply (RoundsTo_normal v m e)|].
  unfold valueOf. rewrite E. ring.
Qed.

(** Rounding is monotone. *)
Theorem RoundedFrom_mono (v1 v2 : Q) (x1 x2 : float) :
  RoundedFrom v1 x1 -> RoundedFrom v2 x2 -> v1 <= v2 -> valueOf x1 <= valueOf x2.
Proof.
  intros H1 H2 Hv.
  destruct (RoundedFrom_value v1 x1 H1) as (m1 & e1 & _ & R1 & N1 & V1).
  destruct (RoundedFrom_value v2 x2 H2) as (m2 & e2 & _ & R2 & N2 & V2).
  rewrite V1, V2. apply lexLe_val; try assumption.
  now apply (RoundsTo_mono v1 v2).
Qed.

(** Rounding leaves a float as it is. *)
Theorem RoundedFrom_exact (v : Q) (k : Z) (x g : float) :
  RoundedFrom v x -> PosNormal k g -> v == valueOf g -> x = g.
Proof.
  intros (m' & e' & E' & R) Hg Hv.
  destruct (PosNormal_value k g Hg) as (m & e & E & N & _ & V).
  destruct (RoundsTo_exact v m m' e e' N ltac:(now rewrite Hv) R) as [-> ->].
  apply Prim2SF_inj. congruence.
Qed.

(** [x * y] and [x / y] on positive normal floats: the result is positive
    normal and is the float the exact product or quotient rounds to. *)
Theorem mul_PosNormal (k1 k2 : Z) (x y : float) :
  PosNormal k1 x -> PosNormal k2 y -> (k1 + k2 <= 900)%Z ->
  PosNormal (k1 + k2 + 2) (x * y)%float /\ RoundedFrom (valueOf x * valueOf y) (x * y)%float.
Proof.
  intros Hx Hy Hk.
  destruct (PosNormal_value k1 x Hx) as (m1 & e1 & E1 & N1 & B1 & V1).
  destruct (PosNormal_value k2 y Hy) as (m2 & e2 & E2 & N2 & B2 & V2).
  destruct (SFmul_spec m1 m2 e1 e2 N1 N2 ltac:(lia) ltac:(lia)) as (m' & e' & E & R & He).
  assert (P : Prim2SF (x * y)%float = S754_finite false m' e').
  { rewrite mul_spec, E1, E2. exact E. }
  split.
  - exists m', e'. split; [exact P|]. split; [exact (RoundsTo_normal _ m' e' R)|lia].
  - exists m', e'. split; [exact P|].
    apply (RoundsTo_compat (inject_Z (Zpos m1) * pow2 e1 * (inject_Z (Zpos m2) * pow2 e2)));
      [now rewrite V1, V2|exact R].
Qed.

Theorem div_PosNormal (k1 k2 : Z) (x y : float) :
  PosNormal k1 x -> PosNormal k2 y -> (k1 + k2 <= 900)%Z ->
  PosNormal (k1 + k2 + 1) (x / y)%float /\ RoundedFrom (valueOf x / valueOf y) (x / y)%float.
Proof.
  intros Hx Hy Hk.
  destruct (PosNormal_value k1 x Hx) as (m1 & e1 & E1 & N1 & B1 & V1).
  destruct (PosNormal_value k2 y Hy) as (m2 & e2 & E2 & N2 & B2 & V2).
  destruct (SFdiv_spec m1 m2 e1 e2 N1 N2 ltac:(lia) ltac:(lia)) as (m' & e' & E & R & He).
  assert (P : Prim2SF (x / y)%float = S754_finite false m' e').
  { rewrite div_spec, E1, E2. exact E. }
  split.
  - exists m', e'. split; [exact P|]. split; [exact (RoundsTo_normal _ m' e' R)|lia].
  - exists m', e'. split; [exact P|].
    apply (RoundsTo_compat (inject_Z (Zpos m1) * pow2 e1 / (inject_Z (Zpos m2) * pow2 e2)));
      [now rewrite V1, V2|exact R].
Qed.

(** ** Comparisons and zero *)

Lemma SFcompare_normal (m1 m2 : positive) (e1 e2 : Z) :
  SFcompare (S754_finite false m1 e1) (S754_finite false m2 e2)
  = Some (match (e1 ?= e2)%Z with
          | Lt => Lt
          | Gt => Gt
          | Eq => (m1 ?= m2)%positive
          end).
Proof. reflexivity. Qed.

(** [<] and [<=] on positive normal floats compare the values. *)
Lemma ltb_PosNormal (k1 k2 : Z) (x y : float) :
  PosNormal k1 x -> PosNormal k2 y -> (PrimFloat.ltb x y = true <-> valueOf x < valueOf y).
Proof.
  intros Hx Hy.
  destruct (PosNormal_value k1 x Hx) as (m1 & e1 & E1 & N1 & _ & V1).
  destruct (PosNormal_value k2 y Hy) as (m2 & e2 & E2 & N2 & _ & V2).
  rewrite ltb_spec, E1, E2, V1, V2. unfold SFltb. rewrite SFcompare_normal.
  split.
  - intros H. apply lexLt_val; try assumption. unfold lexLt.
    destruct (Z.compare_spec e1 e2) as [->|L|G]; [|now left|discriminate].
    right. split; [reflexivity|].
    destruct (Pos.compare_spec m1 m2) as [->|L|G]; [discriminate|lia|discriminate].
  - intros H. apply val_lexLt in H; try assumption.
    destruct H as [L|[-> L]].
    + apply Z.compare_lt_iff in L. now rewrite L.
    + rewrite Z.compare_refl.
      assert (C : (m1 ?= m2)%positive = Lt) by (apply Pos.compare_lt_iff; lia).
      now rewrite C.
Qed.

Lemma leb_PosNormal (k1 k2 : Z) (x y : float) :
  PosNormal k1 x -> PosNormal k2 y -> (PrimFloat.leb x y = true <-> valueOf x <= valueOf y).
Proof.
  intros Hx Hy.
  destruct (PosNormal_value k1 x Hx) as (m1 & e1 & E1 & N1 & _ & V1).
  destruct (PosNormal_value k2 y Hy) as (m2 & e2 & E2 & N2 & _ & V2).
  rewrite leb_spec, E1, E2, V1, V2. unfold SFleb. rewrite SFcompare_normal.
  split.
  - intros H. apply lexLe_val; try assumption. unfold lexLe.
    destruct (Z.compare_spec e1 e2) as [->|L|G]; [|now left|discriminate].
    right. split; [reflexivity|].
    destruct (Pos.compare_spec m1 m2) as [->|L|G]; [lia|lia|discriminate].
  - intros H. apply val_lexLe in H; try assumption.
    destruct H as [L|[-> L]].
    + apply Z.compare_lt_iff in L. now rewrite L.
    + rewrite Z.compare_refl.
      destruct (Pos.compare_spec m1 m2) as [->|L'|G]; [reflexivity|reflexivity|lia].
Qed.

Lemma valueOf_zero : valueOf 0%float == 0.
Proof. reflexivity. Qed.

Lemma ltb_PosNormal_zero (k : Z) (x : float) :
  PosNormal k x -> PrimFloat.ltb x 0 = false /\ PrimFloat.ltb 0 x = true.
Proof.
  intros (m & e & E & _). rewrite !ltb_spec, E.
  change (Prim2SF 0) with (S754_zero false). split; reflexivity.
Qed.

Lemma mul_PosNormal_zero (k : Z) (x : float) :
  PosNormal k x -> (x * 0 = 0)%float /\ (0 * x = 0)%float.
Proof.
  intros (m & e & E & _).
  split; apply Prim2SF_inj; rewrite mul_spec, E;
    change (Prim2SF 0) with (S754_zero false); reflexivity.
Qed.

Lemma NonNeg_value (k : Z) (x : float) : NonNeg k x -> 0 <= valueOf x.
Proof.
  intros [->|H]; [rewrite valueOf_zero; lra|].
  apply Qlt_le_weak. now apply (PosNormal_pos k).
Qed.

Lemma NonNeg_PosNormal (k : Z) (x : float) : NonNeg k x -> 0 < valueOf x -> PosNormal k x.
Proof.
  intros [->|H]; [rewrite valueOf_zero; lra|auto].
Qed.

Lemma NonNeg_weaken (k k' : Z) (x : float) : (k <= k')%Z -> NonNeg k x -> NonNeg k' x.
Proof. intros H [->|G]; [now left|right; now apply (PosNormal_weaken k)]. Qed.

(** Products of floats that are zero or positive normal. *)
Lemma mul_NonNeg (k1 k2 : Z) (x y : float) :
  NonNeg k1 x -> NonNeg k2 y -> (k1 + k2 <= 900)%Z ->
  NonNeg (k1 + k2 + 2) (x * y)%float.
Proof.
  intros [->|Hx] [->|Hy] Hk.
  - left. reflexivity.
  - left. apply (mul_PosNormal_zero k2 y Hy).
  - left. apply (mul_PosNormal_zero k1 x Hx).
  - right. now apply mul_PosNormal.
Qed.

(** The product is monotone in both factors. *)
Theorem mul_mono (k1 k2 : Z) (x x' y y' : float) :
  NonNeg k1 x -> NonNeg k1 x' -> NonNeg k2 y -> NonNeg k2 y' -> (k1 + k2 <= 900)%Z ->
  valueOf x <= valueOf x' -> valueOf y <= valueOf y' ->
  valueOf (x * y)%float <= valueOf (x' * y')%float.
Proof.
  intros Hx Hx' Hy Hy' Hk Lx Ly.
  pose proof (NonNeg_value _ _ (mul_NonNeg k1 k2 x' y' Hx' Hy' Hk)) as P'.
  destruct Hx as [->|Gx].
  { destruct Hy as [->|Gy].
    - change (0 * 0)%float with 0%float. now rewrite valueOf_zero.
    - rewrite (proj2 (mul_PosNormal_zero k2 y Gy)). now rewrite valueOf_zero. }
  destruct Hy as [->|Gy].
  { rewrite (proj1 (mul_PosNormal_zero k1 x Gx)). now rewrite valueOf_zero. }
  pose proof (PosNormal_pos k1 x Gx) as Px. pose proof (PosNormal_pos k2 y Gy) as Py.
  assert (Gx' : PosNormal k1 x') by (apply NonNeg_PosNormal; [exact Hx'|lra]).
  assert (Gy' : PosNormal k2 y') by (apply NonNeg_PosNormal; [exact Hy'|lra]).
  destruct (mul_PosNormal k1 k2 x y Gx Gy Hk) as [_ R].
  destruct (mul_PosNormal k1 k2 x' y' Gx' Gy' Hk) as [_ R'].
  apply (RoundedFrom_mono _ _ _ _ R R'). nra.
Qed.

(** ** Integer literals and [Math.min] *)

Lemma PosNormal_of_spec (k : Z) (x : float) (m : positive) (e : Z) :
  Prim2SF x = S754_finite false m e -> normal m -> (- k <= e + 52 <= k)%Z -> PosNormal k x.
Proof. intros E N B. exists m, e. auto. Qed.

Lemma valid_normal (m : positive) (e : Z) :
  normal m -> (-1074 <= e <= 971)%Z ->
  SpecFloat.valid_binary prec emax (S754_finite false m e) = true.
Proof.
  intros N B. cbn [SpecFloat.valid_binary]. unfold bounded, canonical_mantissa.
  rewrite (normal_digits m N), fexp_normal by lia.
  apply andb_true_intro. split.
  - apply Z.eqb_eq. lia.
  - apply Z.leb_le. change emax with 1024%Z. change prec with 53%Z. lia.
Qed.

(** The float of a positive integer below [2^53] is the integer. *)
Theorem Z2F_PosNormal (z : Z) :
  (0 < z < 2 ^ 53)%Z -> PosNormal 52 (Binary64.Z2F z) /\ valueOf (Binary64.Z2F z) == inject_Z z.
Proof.
  intros [Hz Hz']. destruct z as [|p|p]; [lia| |lia].
  destruct (normalize_integer p Hz') as (m & e & E & N & B & V).
  assert (P : Prim2SF (Binary64.Z2F (Zpos p)) = S754_finite false m e).
  { unfold Binary64.Z2F. rewrite E. apply Prim2SF_SF2Prim. apply valid_normal; [exact N|lia]. }
  split.
  - apply (PosNormal_of_spec 52 _ m e P N). lia.
  - unfold valueOf. rewrite P, <- V. ring.
Qed.

Lemma PosNormal_one : PosNormal 0 1%float /\ valueOf 1%float == 1.
Proof.
  split.
  - apply (PosNormal_of_spec 0 _ 4503599627370496 (-52)); [reflexivity|unfold normal; lia|lia].
  - vm_compute. reflexivity.
Qed.

(** The literal of a positive integer below [2^53], as the sources write
    it, is that float. *)
Theorem ofZ_PosNormal (z : Z) :
  (0 < z < 2 ^ 53)%Z -> PosNormal 52 (ofZ binary64 z) /\ valueOf (ofZ binary64 z) == inject_Z z.
Proof.
  intros Hz. destruct (Z2F_PosNormal z Hz) as [G V].
  change (ofZ binary64 z) with (PrimFloat.div (Binary64.Z2F z) (Binary64.Z2F 1)).
  change (Binary64.Z2F 1) with 1%float.
  destruct PosNormal_one as [G1 V1].
  destruct (div_PosNormal 52 0 (Binary64.Z2F z) 1%float G G1 ltac:(lia)) as [_ R].
  assert (E : (Binary64.Z2F z / 1)%float = Binary64.Z2F z).
  { apply (RoundedFrom_exact _ 52 _ _ R G). rewrite V1. field. }
  rewrite E. auto.
Qed.

Lemma ofZ_NonNeg (z : Z) :
  (0 <= z < 2 ^ 53)%Z -> NonNeg 52 (ofZ binary64 z) /\ valueOf (ofZ binary64 z) == inject_Z z.
Proof.
  intros Hz. destruct (Z.eq_dec z 0) as [->|N].
  - split; [left; reflexivity|reflexivity].
  - destruct (ofZ_PosNormal z ltac:(lia)) as [G V]. split; [now right|exact V].
Qed.

Lemma is_nan_PosNormal (k : Z) (x : float) : PosNormal k x -> PrimFloat.is_nan x = false.
Proof.
  intros (m & e & E & _). unfold PrimFloat.is_nan.
  rewrite FloatAxioms.eqb_spec, E. unfold SFeqb. rewrite SFcompare_normal.
  now rewrite Z.compare_refl, Pos.compare_refl.
Qed.

(** [Math.min] of two positive normal floats is one of them, the smaller. *)
Theorem Math_min_PosNormal (ka kb : Z) (a b : float) :
  PosNormal ka a -> PosNormal kb b ->
  (Binary64.Math_min a b = a \/ Binary64.Math_min a b = b)
  /\ valueOf (Binary64.Math_min a b) <= valueOf a
  /\ valueOf (Binary64.Math_min a b) <= valueOf b.
Proof.
  intros Ha Hb. unfold Binary64.Math_min.
  rewrite (is_nan_PosNormal ka a Ha), (is_nan_PosNormal kb b Hb). cbn [orb].
  pose proof (ltb_PosNormal ka kb a b Ha Hb) as Lab.
  pose proof (ltb_PosNormal kb ka b a Hb Ha) as Lba.
  destruct (PrimFloat.ltb a b) eqn:E1.
  - assert (valueOf a < valueOf b) by now apply Lab.
    split; [now left|]. split; lra.
  - destruct (PrimFloat.ltb b a) eqn:E2.
    + assert (valueOf b < valueOf a) by now apply Lba.
      split; [now right|]. split; lra.
    + assert (N1 : ~ valueOf a < valueOf b) by (intros X; apply Lab in X; discriminate).
      assert (N2 : ~ valueOf b < valueOf a) by (intros X; apply Lba in X; discriminate).
      destruct (PrimFloat.get_sign a).
      * split; [now left|]. split; lra.
      * split; [now right|]. split; lra.
Qed.

(** ** Zero times a finite Number *)

Lemma div_zero_PosNormal (k : Z) (x : float) : PosNormal k x -> (0 / x = 0)%float.
Proof.
  intros (m & e & E & _).
  apply Prim2SF_inj; rewrite div_spec, E;
    change (Prim2SF 0) with (S754_zero false); reflexivity.
Qed.

Lemma SFeqb_refl_finite (x : spec_float) :
  match x with S754_zero _ | S754_finite _ _ _ => True | _ => False end ->
  SFeqb x x = true.
Proof.
  destruct x as [s|s| |s m e]; intros H; try contradiction.
  - reflexivity.
  - unfold SFeqb. cbn [SFcompare].
    destruct s; rewrite Z.compare_refl;
      change (Pos.compare_cont Eq m m) with (m ?= m)%positive;
      rewrite Pos.compare_refl; reflexivity.
Qed.

(** [start + 0 * d === start] for finite [start] and [d]. *)
Lemma add_zero_product (start d : float) :
  finiteNumber start = true -> finiteNumber d = true ->
  PrimFloat.eqb (start + 0 * d)%float start = true.
Proof.
  unfold finiteNumber. intros Hs Hd.
  rewrite FloatAxioms.eqb_spec, add_spec, mul_spec.
  change (Prim2SF 0) with (S754_zero false).
  destruct (Prim2SF d) as [sd|sd| |sd md ed]; try discriminate;
    destruct (Prim2SF start) as [ss|ss| |ss ms es]; try discriminate;
    cbn [SF64mul SFmul SF64add SFadd xorb].
  - destruct ss, sd; reflexivity.
  - apply SFeqb_refl_finite. exact I.
  - destruct ss, sd; reflexivity.
  - apply SFeqb_refl_finite. exact I.
Qed.

End BinaryRounding.

(* ================================================================== *)
(** * Properties of the interpolation *)

Section GeometryFacts.

Variable A : Arith.

Lemma interpolateSegment_length (segment : Segment A) (n : nat) :
  List.length (interpolateSegment A segment (Some n)) = (n + 1)%nat.
Proof.
  unfold interpolateSegment. cbv beta zeta iota.
  rewrite length_map, length_seq. lia.
Qed.

Lemma interpolateSegment_nth (segment : Segment A) (n i : nat) :
  (i <= n)%nat ->
  nth_error (interpolateSegment A segment (Some n)) i
  = Some (interpolatedPoint A (fst segment) (snd segment) n i).
Proof.
  intros Hi. unfold interpolateSegment. cbv beta zeta iota.
  rewrite nth_error_map, nth_error_seq.
  destruct (Nat.ltb_spec i (S n)) as [_|Hge]; [reflexivity | lia].
Qed.

Lemma interpolateSegment_default (segment : Segment A) :
  interpolateSegment A segment None = interpolateSegment A segment (Some 20%nat).
Proof. reflexivity. Qed.


Lemma lastOf_app {X : Type} (l m : list X) :
  m <> [] -> lastOf (l ++ m) = lastOf m.
Proof.
  intros Hm. unfold lastOf. rewrite rev_app_distr.
  destruct (rev m) as [|x r] eqn:E; [|reflexivity].
  apply (f_equal (@rev X)) in E. rewrite rev_involutive in E. now subst.
Qed.

(** The default interpolation has a first point and at least one more. *)
Lemma interpolateSegment_shape (segment : Segment A) :
  exists first second rest,
    interpolateSegment A segment None = first :: second :: rest
    /\ List.length rest = 19%nat.
Proof.
  unfold interpolateSegment. cbv beta zeta iota. cbn [seq map].
  eexists _, _, _. split; reflexivity.
Qed.


Lemma pushSegment_eq (processedPoints : list (Point A)) (segment : Segment A) :
  pushSegment A processedPoints segment
  = processedPoints ++
    (if dropsFirst A processedPoints segment
     then tl (interpolateSegment A segment None)
     else interpolateSegment A segment None).
Proof.
  unfold pushSegment, dropsFirst, lastOf.
  destruct (rev processedPoints) as [|l r]; [reflexivity|].
  destruct (interpolateSegment A segment None) as [|f rest]; [reflexivity|].
  destruct (pointEqb A l f); reflexivity.
Qed.

Lemma flattenSegments_snoc (segs : list (Segment A)) (segment : Segment A) :
  flattenSegments A (segs ++ [segment])
  = pushSegment A (flattenSegments A segs) segment.
Proof. unfold flattenSegments. rewrite fold_left_app. reflexivity. Qed.

Lemma lastOf_pushSegment (processedPoints : list (Point A)) (segment : Segment A) :
  lastOf (pushSegment A processedPoints segment)
  = lastOf (interpolateSegment A segment None).
Proof.
  rewrite pushSegment_eq.
  destruct (interpolateSegment_shape segment) as (f & g & rest & E & _).
  rewrite E. destruct (dropsFirst A processedPoints segment); cbn [tl].
  - rewrite lastOf_app by discriminate.
    change (f :: g :: rest) with ([f] ++ g :: rest).
    now rewrite lastOf_app by discriminate.
  - now rewrite lastOf_app by discriminate.
Qed.


Lemma joinCount_cons (a b : Segment A) (rest : list (Segment A)) :
  joinCount A (a :: b :: rest)
  = ((if joined A a b then 1 else 0) + joinCount A (b :: rest))%nat.
Proof. reflexivity. Qed.

Lemma dropsFirst_joined (processedPoints : list (Point A)) (a b : Segment A) :
  lastOf processedPoints = lastOf (interpolateSegment A a None) ->
  dropsFirst A processedPoints b = joined A a b.
Proof. intros E. unfold dropsFirst, joined. now rewrite E. Qed.

Lemma pushSegment_length (processedPoints : list (Point A)) (segment : Segment A) :
  (List.length (pushSegment A processedPoints segment)
   + (if dropsFirst A processedPoints segment then 1 else 0)
   = List.length processedPoints + 21)%nat.
Proof.
  rewrite pushSegment_eq.
  destruct (interpolateSegment_shape segment) as (f & g & rest & E & L).
  rewrite E. destruct (dropsFirst A processedPoints segment);
    rewrite length_app; cbn [tl List.length]; lia.
Qed.

Lemma fold_pushSegment_length (segs : list (Segment A)) :
  forall (prev : Segment A) (processedPoints : list (Point A)),
    lastOf processedPoints = lastOf (interpolateSegment A prev None) ->
    (List.length (fold_left (pushSegment A) segs processedPoints)
     + joinCount A (prev :: segs)
     = List.length processedPoints + 21 * List.length segs)%nat.
Proof.
  induction segs as [|b rest IH]; intros prev acc Hlast.
  - cbn. lia.
  - rewrite joinCount_cons. cbn [fold_left List.length].
    pose proof (pushSegment_length acc b) as Hlen.
    rewrite (dropsFirst_joined _ _ _ Hlast) in Hlen.
    specialize (IH b (pushSegment A acc b) (lastOf_pushSegment acc b)).
    destruct (joined A prev b); lia.
Qed.

Lemma flattenSegments_length (segs : list (Segment A)) :
  (List.length (flattenSegments A segs) + joinCount A segs
   = 21 * List.length segs)%nat.
Proof.
  destruct segs as [|a rest]; [reflexivity|].
  unfold flattenSegments. cbn [fold_left].
  pose proof (fold_pushSegment_length rest a (pushSegment A [] a)
                (lastOf_pushSegment [] a)) as H.
  pose proof (pushSegment_length [] a) as H0.
  unfold dropsFirst, lastOf in H0. cbn [rev List.length] in H0.
  cbn [List.length]. lia.
Qed.

Lemma flattenSegments_first (a : Segment A) (rest : list (Segment A)) :
  exists more,
    flattenSegments A (a :: rest) = interpolateSegment A a None ++ more.
Proof.
  unfold flattenSegments. cbn [fold_left].
  assert (E : pushSegment A [] a = interpolateSegment A a None).
  { rewrite pushSegment_eq. unfold dropsFirst, lastOf. reflexivity. }
  rewrite E. generalize (interpolateSegment A a None) as acc.
  induction rest as [|b rest IH]; intros acc.
  - exists []. now rewrite app_nil_r.
  - cbn [fold_left]. rewrite pushSegment_eq.
    destruct (IH (acc ++ (if dropsFirst A acc b
                          then tl (interpolateSegment A b None)
                          else interpolateSegment A b None))) as (more & Hm).
    rewrite Hm, <- app_assoc. eexists. reflexivity.
Qed.

Lemma flattenSegments_last (segs : list (Segment A)) (z : Segment A) :
  lastOf (flattenSegments A (segs ++ [z])) = lastOf (interpolateSegment A z None).
Proof. rewrite flattenSegments_snoc. apply lastOf_pushSegment. Qed.

End GeometryFacts.

(* ================================================================== *)
(** * The glyph tables under binary64 *)

Lemma glyphLookup_In (table : GlyphTable) (c : ascii) (segs : list SegmentData) :
  glyphLookup table c = Some segs -> In (c, segs) table.
Proof.
  induction table as [|[k g] rest IH]; cbn [glyphLookup]; [discriminate|].
  destruct (Ascii.eqb_spec k c) as [->|_].
  - intros [= ->]. now left.
  - intros H. right. auto.
Qed.

Lemma glyphLookup_script_part000 (c : ascii) (segs : list SegmentData) :
  glyphLookup CHARACTER_DRAWING_DATA_script c = Some segs ->
  glyphLookup CHARACTER_DRAWING_DATA_part000 c = Some segs.
Proof.
  unfold CHARACTER_DRAWING_DATA_part000.
  generalize CHARACTER_DRAWING_DATA_script as t.
  induction t as [|[k g] rest IH]; cbn [glyphLookup app]; [discriminate|].
  destruct (Ascii.eqb k c); auto.
Qed.


Lemma sameLiteral_eq (a b : Q) : sameLiteral a b = true -> a = b.
Proof.
  destruct a, b. unfold sameLiteral. cbn.
  intros H. apply andb_prop in H as [H1 H2].
  apply Z.eqb_eq in H1. apply Pos.eqb_eq in H2. now subst.
Qed.

Lemma sameSegmentData_eq (a b : SegmentData) : sameSegmentData a b = true -> a = b.
Proof.
  destruct a as [[a1 a2] [a3 a4]], b as [[b1 b2] [b3 b4]].
  unfold sameSegmentData. cbn [fst snd]. intros H.
  apply andb_prop in H as [H H4]. apply andb_prop in H as [H H3].
  apply andb_prop in H as [H1 H2].
  apply sameLiteral_eq in H1, H2, H3, H4. now subst.
Qed.


Lemma table_endpoints :
  forallb entryEndpointsOk CHARACTER_DRAWING_DATA_part000 = true.
Proof. vm_compute. reflexivity. Qed.

Lemma table_joins :
  forallb entryJoinsOk CHARACTER_DRAWING_DATA_part000 = true.
Proof. vm_compute. reflexivity. Qed.

Lemma table_compiled :
  forallb entryCompiledOk CHARACTER_DRAWING_DATA_part000 = true.
Proof. vm_compute. reflexivity. Qed.

Lemma table_entry (check : ascii * list SegmentData -> bool) (c : ascii)
    (segs : list SegmentData) :
  forallb check CHARACTER_DRAWING_DATA_part000 = true ->
  glyphLookup CHARACTER_DRAWING_DATA_part000 c = Some segs ->
  check (c, segs) = true.
Proof.
  intros Hall Hc. apply glyphLookup_In in Hc.
  rewrite forallb_forall in Hall. now apply Hall.
Qed.

(* ================================================================== *)
(** * GeometryInterpolator and GlyphCompiler *)

(** With [1 <= n < 2^53] steps, the first interpolated point [===] the
    start of the segment, whatever the segment, as long as its coordinates
    and their differences are finite: [t] is [0 / n = 0] and
    [start + 0 * (end - start)] is [start]. *)
Lemma interpolateSegment_starts (segment : Segment binary64) (n : nat) :
  (1 <= n)%nat -> (Z.of_nat n < 2 ^ 53)%Z ->
  finiteNumber (fst (fst segment)) = true ->
  finiteNumber (snd (fst segment)) = true ->
  finiteNumber (sub binary64 (fst (snd segment)) (fst (fst segment))) = true ->
  finiteNumber (sub binary64 (snd (snd segment)) (snd (fst segment))) = true ->
  exists firstPoint rest,
    interpolateSegment binary64 segment (Some n) = firstPoint :: rest
    /\ pointEqb binary64 firstPoint (fst segment) = true.
Proof.
  intros Hn Hb Fx Fy Dx Dy.
  destruct (ofZ_PosNormal (Z.of_nat n) ltac:(lia)) as [G _].
  assert (T : div binary64 (ofNat binary64 0) (ofNat binary64 n) = 0%float).
  { change (div binary64) with PrimFloat.div. change (ofNat binary64 0) with 0%float.
    apply (div_zero_PosNormal 52). exact G. }
  unfold interpolateSegment. cbn [seq map].
  eexists _, _. split; [reflexivity|].
  unfold interpolatedPoint, pointEqb. cbn [fst snd]. rewrite T.
  change (eqb binary64) with PrimFloat.eqb. change (add binary64) with PrimFloat.add.
  change (mul binary64) with PrimFloat.mul.
  rewrite (add_zero_product _ _ Fx Dx), (add_zero_product _ _ Fy Dy). reflexivity.
Qed.

(** C1.  For every segment and step count [n], [interpolateSegment]
    returns exactly [n + 1] points, point [i] being
    [start + (i / n) * (end - start)] on each coordinate, and the omitted
    step count is 20 whatever the segment.  The source announces
    "Ensure we include the start and end points", and the claim asks for
    point [n] to be the end of the segment.  The code misses this on the
    glyph table itself: for the segment [[[6, 5.6], [1.2, 4]]] of [B], the
    default 20 steps start at [(6, 5.6)] but end at
    [(1.2000000000000002, 4)], because [6 + 1 * (1.2 - 6)] is
    [0x1.3333333333334p+0] in binary64 while the literal [1.2] is
    [0x1.3333333333333p+0]; the same happens on [[[6, 1.6], [1.2, 0]]].
    These two are the only segments of the table whose last point is not
    the end as written.  The first point [===] the start for every segment
    with finite coordinates and differences and every step count from 1 to
    [2^53 - 1], hence for all segments of the table. *)
Theorem interpolateSegment_misses_end :
  (forall (A : Arith) (segment : Segment A) (n : nat),
      List.length (interpolateSegment A segment (Some n)) = (n + 1)%nat
      /\ (forall i, (i <= n)%nat ->
            nth_error (interpolateSegment A segment (Some n)) i
            = Some (let t := div A (ofNat A i) (ofNat A n) in
                    (add A (fst (fst segment))
                       (mul A t (sub A (fst (snd segment)) (fst (fst segment)))),
                     add A (snd (fst segment))
                       (mul A t (sub A (snd (snd segment)) (snd (fst segment)))))))
      /\ interpolateSegment A segment None = interpolateSegment A segment (Some 20%nat))
  /\ (forall (segment : Segment binary64) (n : nat),
        (1 <= n)%nat -> (Z.of_nat n < 2 ^ 53)%Z ->
        finiteNumber (fst (fst segment)) = true ->
        finiteNumber (snd (fst segment)) = true ->
        finiteNumber (sub binary64 (fst (snd segment)) (fst (fst segment))) = true ->
        finiteNumber (sub binary64 (snd (snd segment)) (snd (fst segment))) = true ->
        exists firstPoint rest,
          interpolateSegment binary64 segment (Some n) = firstPoint :: rest
          /\ pointEqb binary64 firstPoint (fst segment) = true)
  /\ (glyphLookup CHARACTER_DRAWING_DATA_script "B" = Some Glyphs.glyph_B
      /\ glyphLookup CHARACTER_DRAWING_DATA_part000 "B" = Some Glyphs.glyph_B
      /\ In B_segment_13 Glyphs.glyph_B
      /\ In B_segment_19 Glyphs.glyph_B)
  /\ (let segment := segmentOf binary64 B_segment_13 in
      let points := interpolateSegment binary64 segment None in
      List.length points = 21%nat
      /\ nth_error points 0 = Some (fst segment)
      /\ snd segment = (0x1.3333333333333p+0, 4)%float
      /\ nth_error points 20 = Some (0x1.3333333333334p+0, 4)%float
      /\ nth_error points 20 <> Some (snd segment)
      /\ endsExact B_segment_13 = false)
  /\ (let segment := segmentOf binary64 B_segment_19 in
      let points := interpolateSegment binary64 segment None in
      List.length points = 21%nat
      /\ nth_error points 0 = Some (fst segment)
      /\ snd segment = (0x1.3333333333333p+0, 0)%float
      /\ nth_error points 20 = Some (0x1.3333333333334p+0, 0)%float
      /\ nth_error points 20 <> Some (snd segment)
      /\ endsExact B_segment_19 = false)
  /\ (forall (c : ascii) (segs : list SegmentData) (d : SegmentData),
        glyphLookup CHARACTER_DRAWING_DATA_part000 c = Some segs ->
        In d segs ->
        startsExact d = true
        /\ (endsExact d = true
            \/ (c = "B"%char /\ (d = B_segment_13 \/ d = B_segment_19)))).
Proof.
  split; [|split; [|split; [|split; [|split]]]].
  - intros A segment n. split; [|split].
    + apply interpolateSegment_length.
    + intros i Hi. now rewrite interpolateSegment_nth.
    + reflexivity.
  - exact interpolateSegment_starts.
  - split; [reflexivity|split; [reflexivity|]].
    unfold Glyphs.glyph_B, B_segment_13, B_segment_19. simpl. tauto.
  - cbv zeta.
    assert (E : nth_error
                  (interpolateSegment binary64 (segmentOf binary64 B_segment_13) None) 20
                = Some (0x1.3333333333334p+0, 4)%float) by (vm_compute; reflexivity).
    assert (S : snd (segmentOf binary64 B_segment_13) = (0x1.3333333333333p+0, 4)%float)
      by (vm_compute; reflexivity).
    split; [reflexivity|].
    split; [vm_compute; reflexivity|].
    split; [exact S|].
    split; [exact E|].
    split; [|vm_compute; reflexivity].
    rewrite E, S. discriminate.
  - cbv zeta.
    assert (E : nth_error
                  (interpolateSegment binary64 (segmentOf binary64 B_segment_19) None) 20
                = Some (0x1.3333333333334p+0, 0)%float) by (vm_compute; reflexivity).
    assert (S : snd (segmentOf binary64 B_segment_19) = (0x1.3333333333333p+0, 0)%float)
      by (vm_compute; reflexivity).
    split; [reflexivity|].
    split; [vm_compute; reflexivity|].
    split; [exact S|].
    split; [exact E|].
    split; [|vm_compute; reflexivity].
    rewrite E, S. discriminate.
  - intros c segs d Hc Hd.
    pose proof (table_entry entryEndpointsOk c segs table_endpoints Hc) as Hok.
    unfold entryEndpointsOk in Hok. cbn [fst snd] in Hok.
    rewrite forallb_forall in Hok. specialize (Hok d Hd).
    apply andb_prop in Hok as [Hs He]. split; [exact Hs|].
    apply orb_prop in He as [He|He]; [now left|right].
    apply andb_prop in He as [Hb Hd'].
    apply Ascii.eqb_eq in Hb.
    apply orb_prop in Hd' as [E|E]; apply sameSegmentData_eq in E; auto.
Qed.

Lemma interpolateSegment_misses_end_witness :
  startsExact B_segment_13 = true
  /\ exists firstPoint rest,
       interpolateSegment binary64 (segmentOf binary64 B_segment_13) (Some 20%nat)
       = firstPoint :: rest
       /\ pointEqb binary64 firstPoint (fst (segmentOf binary64 B_segment_13)) = true.
Proof.
  destruct interpolateSegment_misses_end as (_ & Hstart & _ & _ & _ & Htable).
  split.
  - apply (Htable "B"%char Glyphs.glyph_B B_segment_13).
    + reflexivity.
    + unfold Glyphs.glyph_B, B_segment_13. simpl. tauto.
  - apply (Hstart (segmentOf binary64 B_segment_13) 20%nat).
    + lia.
    + lia.
    + vm_compute. reflexivity.
    + vm_compute. reflexivity.
    + vm_compute. reflexivity.
    + vm_compute. reflexivity.
Defined.

(** C2.  The points of a glyph are the interpolations of its segments,
    concatenated in segment order; the first point of a segment's
    interpolation is dropped exactly when it [===] the last point already
    collected on both coordinates.  Hence the number of points is 21 per
    segment minus one per consecutive pair of joined segments, and for every
    glyph of the table the joined pairs are exactly the consecutive pairs
    that share an endpoint in the table. *)
Theorem flattenSegments_joins :
  (forall (A : Arith) (segs : list (Segment A)) (segment : Segment A),
      flattenSegments A [] = []
      /\ flattenSegments A (segs ++ [segment])
         = flattenSegments A segs
           ++ (if dropsFirst A (flattenSegments A segs) segment
               then tl (interpolateSegment A segment None)
               else interpolateSegment A segment None)
      /\ (dropsFirst A (flattenSegments A segs) segment = true <->
          exists lastPoint firstPoint rest,
            lastOf (flattenSegments A segs) = Some lastPoint
            /\ interpolateSegment A segment None = firstPoint :: rest
            /\ eqb A (fst lastPoint) (fst firstPoint) = true
            /\ eqb A (snd lastPoint) (snd firstPoint) = true))
  /\ (forall (A : Arith) (segs : list (Segment A)),
        (List.length (flattenSegments A segs) + joinCount A segs
         = 21 * List.length segs)%nat)
  /\ (forall (c : ascii) (segs : list SegmentData),
        glyphLookup CHARACTER_DRAWING_DATA_part000 c = Some segs ->
        joinCount binary64 (map (segmentOf binary64) segs) = sharedEndpoints segs
        /\ (List.length (flattenSegments binary64 (map (segmentOf binary64) segs))
            + sharedEndpoints segs
            = 21 * List.length segs)%nat).
Proof.
  split; [|split].
  - intros A segs segment. split; [reflexivity|split].
    + rewrite flattenSegments_snoc. apply pushSegment_eq.
    + unfold dropsFirst, pointEqb.
      destruct (lastOf (flattenSegments A segs)) as [l|];
        destruct (interpolateSegment A segment None) as [|f rest].
      * split; [discriminate|]. intros (? & ? & ? & _ & [=] & _).
      * split.
        -- intros H. apply andb_prop in H as [H1 H2].
           exists l, f, rest. auto.
        -- intros (l' & f' & rest' & [= <-] & [= <- <-] & H1 & H2).
           now rewrite H1, H2.
      * split; [discriminate|]. intros (? & ? & ? & [=] & _).
      * split; [discriminate|]. intros (? & ? & ? & [=] & _).
  - intros A segs. apply flattenSegments_length.
  - intros c segs Hc.
    pose proof (table_entry entryJoinsOk c segs table_joins Hc) as Hok.
    unfold entryJoinsOk in Hok. cbn [snd] in Hok. apply Nat.eqb_eq in Hok.
    split; [exact Hok|].
    rewrite <- Hok, <- (length_map (segmentOf binary64) segs).
    apply flattenSegments_length.
Qed.

Lemma flattenSegments_joins_witness :
  (List.length (flattenSegments binary64 (map (segmentOf binary64) Glyphs.glyph_J))
   + sharedEndpoints Glyphs.glyph_J
   = 21 * List.length Glyphs.glyph_J)%nat.
Proof.
  destruct flattenSegments_joins as (_ & _ & Htable).
  apply (Htable "J"%char Glyphs.glyph_J). reflexivity.
Defined.

(* ================================================================== *)
(** * The animation of [src/unnamed/part_000] *)

Module Part000Facts.
Import Part000 Part000Props.

Ltac state_simpl :=
  cbn [currentCanvasWidth currentCanvasHeight baseScale wordScaleFactor
       centerXOffsetPixels centerYOffsetPixels wordToAnimate currentWordCharIndex
       processedPointsForCurrentChar totalFramesForCurrentChar currentFrame
       animationActive animationFrameId completedCharacters lastTimestamp
       clientWidth clientHeight canvasOps messageText frameQueue nextFrameId
       set_currentCanvasWidth set_currentCanvasHeight set_baseScale
       set_wordScaleFactor set_centerXOffsetPixels set_centerYOffsetPixels
       set_wordToAnimate set_currentWordCharIndex set_processedPointsForCurrentChar
       set_totalFramesForCurrentChar set_currentFrame set_animationActive
       set_animationFrameId set_completedCharacters set_lastTimestamp
       set_clientWidth set_clientHeight set_canvasOps set_messageText set_frameQueue
       set_nextFrameId draw requestAnimationFrame cancelAnimationFrame resetWordFit
       runCalculateWordScalingAndOffset fst snd].

Ltac state_simpl_in H :=
  cbn [currentCanvasWidth currentCanvasHeight baseScale wordScaleFactor
       centerXOffsetPixels centerYOffsetPixels wordToAnimate currentWordCharIndex
       processedPointsForCurrentChar totalFramesForCurrentChar currentFrame
       animationActive animationFrameId completedCharacters lastTimestamp
       clientWidth clientHeight canvasOps messageText frameQueue nextFrameId
       set_currentCanvasWidth set_currentCanvasHeight set_baseScale
       set_wordScaleFactor set_centerXOffsetPixels set_centerYOffsetPixels
       set_wordToAnimate set_currentWordCharIndex set_processedPointsForCurrentChar
       set_totalFramesForCurrentChar set_currentFrame set_animationActive
       set_animationFrameId set_completedCharacters set_lastTimestamp
       set_clientWidth set_clientHeight set_canvasOps set_messageText set_frameQueue
       set_nextFrameId draw requestAnimationFrame cancelAnimationFrame resetWordFit
       runCalculateWordScalingAndOffset fst snd] in H.
Lemma control_Inv (s s' : State) : control s = control s' -> Inv s -> Inv s'.
Proof.
  unfold control. intros E [H1 H2 H3 H4 H5 H6 H7 H8 H9 H10].
  injection E as E1 E2 E3 E4 E5 E6 E7 E8 E9 E10.
  unfold animateRequests in H8.
  constructor; unfold animateRequests;
    rewrite <- ?E1, <- ?E2, <- ?E3, <- ?E4, <- ?E5, <- ?E6, <- ?E7, <- ?E8, <- ?E9, <- ?E10;
    assumption.
Qed.

Lemma supported_lookup (c : ascii) :
  supported c -> exists segs, glyphLookup CHARACTER_DRAWING_DATA c = Some segs.
Proof.
  unfold supported, hasOwnProperty.
  destruct (glyphLookup CHARACTER_DRAWING_DATA c) as [segs|]; [eauto|discriminate].
Qed.

Lemma glyphPoints_length (c : ascii) :
  supported c -> (21 <= List.length (glyphPoints c))%nat.
Proof.
  intros Hc. destruct (supported_lookup c Hc) as [segs Hs].
  pose proof (table_entry entryCompiledOk c segs table_compiled Hs) as Hok.
  unfold entryCompiledOk in Hok. cbn [snd] in Hok.
  apply andb_prop in Hok as [Hok _]. apply andb_prop in Hok as [Hok _].
  apply Nat.leb_le in Hok.
  unfold glyphPoints, compiledPoints. now rewrite Hs.
Qed.

Lemma prepare_supported (c : ascii) (s : State) :
  supported c ->
  prepareAnimationForCharacter c s
  = (true, set_currentFrame 0
             (set_totalFramesForCurrentChar (List.length (glyphPoints c))
               (set_processedPointsForCurrentChar (glyphPoints c) s))).
Proof.
  intros Hc. destruct (supported_lookup c Hc) as [segs Hs].
  unfold prepareAnimationForCharacter, glyphPoints, compiledPoints.
  now rewrite Hs.
Qed.

Lemma prepare_unsupported (c : ascii) (s : State) :
  hasOwnProperty CHARACTER_DRAWING_DATA c = false ->
  prepareAnimationForCharacter c s
  = (false, set_totalFramesForCurrentChar 0 (set_processedPointsForCurrentChar [] s)).
Proof.
  unfold hasOwnProperty, prepareAnimationForCharacter.
  destruct (glyphLookup CHARACTER_DRAWING_DATA c); [discriminate|reflexivity].
Qed.

Lemma charAt_supported (word : list ascii) (i : nat) :
  Forall supported word -> (i < List.length word)%nat -> supported (charAt word i).
Proof.
  intros Hw Hi. rewrite Forall_forall in Hw. apply Hw. now apply nth_In.
Qed.

Lemma filter_supported (inputValue : list ascii) :
  Forall supported (filter (hasOwnProperty CHARACTER_DRAWING_DATA) inputValue).
Proof.
  apply Forall_forall. intros c Hc. apply filter_In in Hc. apply Hc.
Qed.

Lemma firstn_succ {X : Type} (l : list X) (i : nat) (d : X) :
  (i < List.length l)%nat -> firstn (S i) l = firstn i l ++ [nth i l d].
Proof.
  revert i. induction l as [|x l IH]; intros i Hi; cbn [List.length] in Hi; [lia|].
  destruct i as [|i]; [reflexivity|].
  cbn [firstn nth app]. rewrite <- IH by lia. reflexivity.
Qed.

Lemma firstn_allCompleted_succ (word : list ascii) (i : nat) :
  (i < List.length word)%nat ->
  firstn (S i) (allCompleted word)
  = firstn i (allCompleted word) ++ [completedRecord word i].
Proof.
  intros Hi. unfold allCompleted.
  rewrite (firstn_succ _ i (completedRecord word 0))
    by (rewrite length_map, length_seq; exact Hi).
  rewrite (map_nth (completedRecord word) (seq 0 (List.length word)) 0 i).
  rewrite seq_nth by exact Hi. reflexivity.
Qed.

Lemma draw_draw (a b : list CanvasOp) (s : State) :
  draw a (draw b s) = draw (b ++ a) s.
Proof. destruct s. unfold draw, set_canvasOps. cbn. now rewrite app_assoc. Qed.

(** The redraw leaves everything but the canvas untouched while a glyph
    is being animated with its points prepared, or when none is. *)
Lemma redraw_draws (s : State) :
  (animationActive s = true ->
   (currentWordCharIndex s < List.length (wordToAnimate s))%nat ->
   processedPointsForCurrentChar s <> []) ->
  exists ops, redrawCanvasContent s = draw ops s.
Proof.
  intros Hp. destruct s as [cw chh bs wsf cx cy word index pts total frame
                            active fid done last clw clh ops msg queue next].
  unfold redrawCanvasContent. state_simpl. cbn in Hp.
  destruct (active && (index <? List.length word)%nat) eqn:Hc.
  - apply andb_prop in Hc as [Ha Hi]. apply Nat.ltb_lt in Hi.
    specialize (Hp Ha Hi).
    destruct pts as [|p pts]; [congruence|].
    cbn [List.length Nat.eqb]. state_simpl.
    rewrite !draw_draw. eexists. reflexivity.
  - rewrite !draw_draw. eexists. reflexivity.
Qed.

Lemma onLastFrame_spec (frame total : nat) :
  (frame < total)%nat ->
  onLastFrame frame total = Nat.eqb frame (total - 1).
Proof.
  intros H. unfold onLastFrame.
  destruct (Z.leb_spec (Z.of_nat total - 1) (Z.of_nat frame));
    destruct (Nat.eqb_spec frame (total - 1)); lia.
Qed.

(** A run of [animate] once the interval has elapsed, from a state where a
    glyph is being animated. *)
Lemma animate_due (timestamp : float) (s : State) :
  Forall supported (wordToAnimate s) ->
  animationActive s = true ->
  (currentWordCharIndex s < List.length (wordToAnimate s))%nat ->
  processedPointsForCurrentChar s
  = glyphPoints (charAt (wordToAnimate s) (currentWordCharIndex s)) ->
  totalFramesForCurrentChar s = List.length (processedPointsForCurrentChar s) ->
  (currentFrame s < totalFramesForCurrentChar s)%nat ->
  intervalElapsed timestamp s = true ->
  TickSpec s (animate timestamp s)
  /\ (totalFramesForCurrentChar (animate timestamp s)
      = if animationActive (animate timestamp s)
        then List.length (processedPointsForCurrentChar (animate timestamp s))
        else totalFramesForCurrentChar (animate timestamp s))
  /\ frameQueue (animate timestamp s)
     = (if animationActive (animate timestamp s)
        then frameQueue s ++ [(nextFrameId s, Animate)] else frameQueue s)
  /\ nextFrameId (animate timestamp s)
     = (if animationActive (animate timestamp s)
        then S (nextFrameId s) else nextFrameId s)
  /\ animationFrameId (animate timestamp s)
     = (if animationActive (animate timestamp s)
        then Some (nextFrameId s) else animationFrameId s).
Proof.
  intros Hw Ha Hi Hp Ht Hf Hdue.
  pose proof (glyphPoints_length _ (charAt_supported _ _ Hw Hi)) as Hlen.
  rewrite <- Hp in Hlen.
  unfold animate. rewrite Ha. cbn [negb].
  unfold intervalElapsed in Hdue. rewrite Hdue.
  match goal with |- context [redrawCanvasContent ?x] => set (s1 := x) end.
  destruct (redraw_draws s1) as [ops Hr].
  { intros _ _. subst s1. state_simpl. intros E. rewrite E in Hlen. cbn in Hlen. lia. }
  rewrite Hr. clear Hr. subst s1.
  unfold advance. state_simpl.
  apply Nat.ltb_lt in Hi as Hib. rewrite Hib.
  rewrite (onLastFrame_spec _ _ Hf).
  unfold TickSpec. rewrite <- Ht.
  destruct (Nat.eqb_spec (currentFrame s) (totalFramesForCurrentChar s - 1)) as [Hl|Hl].
  - destruct (Nat.ltb_spec (S (currentWordCharIndex s)) (List.length (wordToAnimate s)))
      as [Hn|Hn].
    + rewrite (prepare_supported _ _ (charAt_supported _ _ Hw Hn)).
      state_simpl. rewrite Ha. state_simpl.
      apply Nat.ltb_lt in Hn as Hnb. rewrite ?Hnb.
      repeat split; state_simpl; rewrite ?Ha; try reflexivity; try assumption.
    + state_simpl.
      apply Nat.ltb_ge in Hn as Hnb. rewrite ?Hnb.
      repeat split; state_simpl; try reflexivity; try assumption.
      * intros E. rewrite E in Hi. cbn in Hi. lia.
      * lia.
  - state_simpl. rewrite Ha. state_simpl.
    repeat split; state_simpl; rewrite ?Ha; try reflexivity; try assumption.
Qed.

Lemma animate_not_due (timestamp : float) (s : State) :
  animationActive s = true ->
  intervalElapsed timestamp s = false ->
  animate timestamp s
  = set_animationFrameId (Some (nextFrameId s))
      (set_nextFrameId (S (nextFrameId s))
        (set_frameQueue (frameQueue s ++ [(nextFrameId s, Animate)]) s)).
Proof.
  intros Ha Hdue. unfold animate. rewrite Ha. cbn [negb].
  unfold intervalElapsed in Hdue. rewrite Hdue, Ha. reflexivity.
Qed.

(** ** The frame requests *)

Lemma requestsOf_app (q r : list (nat * Callback)) :
  requestsOf (q ++ r) = requestsOf q ++ requestsOf r.
Proof. unfold requestsOf. now rewrite filter_app, map_app. Qed.

Lemma requestsOf_In (q : list (nat * Callback)) (id : nat) :
  In id (requestsOf q) <-> In (id, Animate) q.
Proof.
  unfold requestsOf. rewrite in_map_iff. split.
  - intros ([i cb] & E & Hin). cbn in E. subst i.
    apply filter_In in Hin as [Hin Hcb].
    destruct cb; [exact Hin|discriminate].
  - intros Hin. exists (id, Animate). split; [reflexivity|].
    apply filter_In. split; [exact Hin|reflexivity].
Qed.

Lemma without_In (id : nat) (q : list (nat * Callback)) (e : nat * Callback) :
  In e (without id q) <-> In e q /\ fst e <> id.
Proof.
  unfold without. rewrite filter_In.
  destruct (Nat.eqb_spec (fst e) id); cbn; intuition congruence.
Qed.

Lemma without_absent (id : nat) (q : list (nat * Callback)) :
  ~ In id (map fst q) -> without id q = q.
Proof.
  induction q as [|[i cb] q IH]; [reflexivity|].
  cbn [map fst In without filter]. intros H.
  destruct (Nat.eqb_spec i id) as [->|_]; [tauto|].
  cbn [negb]. f_equal. apply IH. tauto.
Qed.

Lemma requestsOf_without_other (id i : nat) (q : list (nat * Callback)) :
  requestsOf q = [i] -> i <> id -> requestsOf (without id q) = [i].
Proof.
  unfold requestsOf, without.
  induction q as [|[j cb] q IH]; [discriminate|].
  cbn [filter fst]. destruct cb; cbn [isAnimate snd map fst].
  - intros [= -> E] Hne.
    destruct (Nat.eqb_spec i id) as [->|_]; [congruence|].
    cbn [negb filter isAnimate snd map fst]. f_equal.
    destruct (filter isAnimate q) as [|x r] eqn:Eq; [|discriminate].
    clear - Eq. induction q as [|[k cb] q IH]; [reflexivity|].
    cbn [filter fst] in *. destruct cb; cbn [isAnimate snd] in Eq; [discriminate|].
    destruct (negb (Nat.eqb k id)); cbn [filter isAnimate snd]; auto.
  - intros E Hne.
    destruct (negb (Nat.eqb j id)); cbn [filter isAnimate snd]; auto.
Qed.

Lemma requestsOf_without_nil (id : nat) (q : list (nat * Callback)) :
  requestsOf q = [] -> requestsOf (without id q) = [].
Proof.
  unfold requestsOf, without.
  induction q as [|[j cb] q IH]; [reflexivity|].
  cbn [filter fst]. destruct cb; cbn [isAnimate snd map fst]; [discriminate|].
  intros E. destruct (negb (Nat.eqb j id)); cbn [filter isAnimate snd]; auto.
Qed.

Lemma requestsOf_without_self (id : nat) (q : list (nat * Callback)) :
  requestsOf q = [id] -> requestsOf (without id q) = [].
Proof.
  unfold requestsOf, without.
  induction q as [|[j cb] q IH]; [discriminate|].
  cbn [filter fst]. destruct cb; cbn [isAnimate snd map fst].
  - intros [= -> E]. rewrite Nat.eqb_refl. cbn [negb].
    apply (requestsOf_without_nil id q). unfold requestsOf.
    destruct (filter isAnimate q); [reflexivity|discriminate].
  - intros E. destruct (negb (Nat.eqb j id)); cbn [filter isAnimate snd]; auto.
Qed.

Lemma without_NoDup (id : nat) (q : list (nat * Callback)) :
  NoDup (map fst q) -> NoDup (map fst (without id q)).
Proof.
  induction q as [|[j cb] q IH]; [trivial|].
  cbn [map fst without filter]. intros H. inversion H as [|? ? Hj Hq]; subst.
  destruct (negb (Nat.eqb j id)); [|now apply IH].
  cbn [map fst]. constructor; [|now apply IH].
  intros Hin. apply Hj. apply in_map_iff in Hin as (e & E & He).
  apply in_map_iff. exists e. split; [exact E|].
  apply without_In in He. tauto.
Qed.

Lemma without_Forall (P : nat * Callback -> Prop) (id : nat) (q : list (nat * Callback)) :
  Forall P q -> Forall P (without id q).
Proof.
  rewrite !Forall_forall. intros H e He. apply without_In in He. apply H, He.
Qed.

Lemma find_id (id : nat) (q : list (nat * Callback)) (e : nat * Callback) :
  find (fun e => Nat.eqb (fst e) id) q = Some e -> In e q /\ fst e = id.
Proof.
  intros H. apply find_some in H as [H1 H2]. apply Nat.eqb_eq in H2. auto.
Qed.

Lemma snoc_NoDup (q : list (nat * Callback)) (next : nat) (cb : Callback) :
  Forall (fun e => (1 <= fst e < next)%nat) q ->
  NoDup (map fst q) -> NoDup (map fst (q ++ [(next, cb)])).
Proof.
  intros Hids Hnd. rewrite map_app. cbn [map fst].
  apply NoDup_app; [exact Hnd|repeat constructor; intros []|].
  intros i Hi [<-|[]].
  apply in_map_iff in Hi as (e & <- & He).
  rewrite Forall_forall in Hids. specialize (Hids e He). lia.
Qed.

Lemma snoc_ids (q : list (nat * Callback)) (next : nat) (cb : Callback) :
  (1 <= next)%nat ->
  Forall (fun e => (1 <= fst e < next)%nat) q ->
  Forall (fun e => (1 <= fst e < S next)%nat) (q ++ [(next, cb)]).
Proof.
  intros Hn Hids. apply Forall_app. split.
  - eapply Forall_impl; [|exact Hids]. cbn. intros e He. lia.
  - repeat constructor; cbn; lia.
Qed.

Lemma Inv_animate (timestamp : float) (s : State) :
  Forall supported (wordToAnimate s) ->
  completedCharacters s
  = firstn (currentWordCharIndex s) (allCompleted (wordToAnimate s)) ->
  animationActive s = true ->
  (currentWordCharIndex s < List.length (wordToAnimate s))%nat ->
  processedPointsForCurrentChar s
  = glyphPoints (charAt (wordToAnimate s) (currentWordCharIndex s)) ->
  totalFramesForCurrentChar s = List.length (processedPointsForCurrentChar s) ->
  (currentFrame s < totalFramesForCurrentChar s)%nat ->
  Forall (fun e => (1 <= fst e < nextFrameId s)%nat) (frameQueue s) ->
  NoDup (map fst (frameQueue s)) ->
  (forall id, animationFrameId s = Some id -> (1 <= id < nextFrameId s)%nat) ->
  animateRequests s = [] ->
  (1 <= nextFrameId s)%nat ->
  Inv (animate timestamp s).
Proof.
  intros Hw Hc Ha Hi Hp Ht Hf Hids Hnd Hfid Hreq Hnext.
  destruct (intervalElapsed timestamp s) eqn:Hdue.
  - destruct (animate_due timestamp s Hw Ha Hi Hp Ht Hf Hdue)
      as ((Tw & Tick) & Htot & Hq & Hn & Hid).
    set (s' := animate timestamp s) in *.
    pose proof (onLastFrame_spec _ _ Hf) as Hlast. rewrite Ht in Hlast at 2.
    destruct (Nat.eqb_spec (currentFrame s)
                (List.length (processedPointsForCurrentChar s) - 1)) as [El|El].
    + destruct Tick as (Tc & Ti & Tf & Tn).
      assert (Hc' : completedCharacters s'
                    = firstn (currentWordCharIndex s') (allCompleted (wordToAnimate s'))).
      { rewrite Tc, Ti, Tw, Hc, firstn_allCompleted_succ by exact Hi.
        unfold completedRecord. now rewrite <- Hp. }
      destruct (Nat.ltb_spec (S (currentWordCharIndex s)) (List.length (wordToAnimate s)))
        as [Hlt|Hge].
      * destruct Tn as (Ta' & Tp').
        rewrite Ta' in Htot, Hq, Hn, Hid.
        pose proof (glyphPoints_length _ (charAt_supported _ _ Hw Hlt)) as Hg.
        constructor; rewrite ?Tw, ?Ti, ?Tf, ?Ta', ?Hq, ?Hn, ?Hid; try assumption.
        -- now rewrite <- Tw, <- Ti.
        -- intros _. rewrite Htot, Tp'. repeat split; try assumption; try lia.
        -- discriminate.
        -- now apply snoc_ids.
        -- now apply snoc_NoDup.
        -- intros id [= <-]. lia.
        -- unfold animateRequests. rewrite Hq, requestsOf_app.
           unfold animateRequests in Hreq. rewrite Hreq. reflexivity.
        -- discriminate.
        -- lia.
      * destruct Tn as (Ta' & Tne & Tidx).
        rewrite Ta' in Htot, Hq, Hn, Hid.
        constructor; rewrite ?Tw, ?Ti, ?Tf, ?Ta', ?Hq, ?Hn, ?Hid; try assumption.
        -- now rewrite <- Tw, <- Ti.
        -- discriminate.
        -- intros _ _. lia.
        -- unfold animateRequests. rewrite Hq. exact Hreq.
        -- discriminate.
    + destruct Tick as (Tc & Ti & Tf & Tp' & Ta').
      rewrite Ta' in Htot, Hq, Hn, Hid.
      constructor; rewrite ?Tw, ?Ti, ?Tf, ?Tc, ?Ta', ?Hq, ?Hn, ?Hid; try assumption.
      * intros _. rewrite Htot, Tp'. repeat split; try assumption; try lia.
      * discriminate.
      * now apply snoc_ids.
      * now apply snoc_NoDup.
      * intros id [= <-]. lia.
      * unfold animateRequests. rewrite Hq, requestsOf_app.
        unfold animateRequests in Hreq. rewrite Hreq. reflexivity.
      * discriminate.
      * lia.
  - rewrite (animate_not_due timestamp s Ha Hdue).
    constructor; state_simpl; rewrite ?Ha; try assumption.
    + intros _. auto.
    + discriminate.
    + now apply snoc_ids.
    + now apply snoc_NoDup.
    + intros id [= <-]. lia.
    + unfold animateRequests. state_simpl. rewrite requestsOf_app.
      unfold animateRequests in Hreq. rewrite Hreq. reflexivity.
    + discriminate.
    + lia.
Qed.

Lemma Inv_initial (width height : N) : Inv (initialState width height).
Proof.
  constructor; cbn; try discriminate; auto using NoDup_nil.
Qed.

(** Requesting a redraw, whatever happens to the canvas and to the fit. *)
Lemma Inv_redraw_requested (s s' : State) :
  Inv s ->
  control s'
  = (wordToAnimate s, currentWordCharIndex s, processedPointsForCurrentChar s,
     totalFramesForCurrentChar s, currentFrame s, animationActive s,
     animationFrameId s, completedCharacters s,
     frameQueue s ++ [(nextFrameId s, RedrawCanvasContent)], S (nextFrameId s)) ->
  Inv s'.
Proof.
  intros [H1 H2 H3 H4 H5 H6 H7 H8 H9 H10] E. unfold control in E.
  injection E as E1 E2 E3 E4 E5 E6 E7 E8 E9 E10.
  constructor; unfold animateRequests;
    rewrite ?E1, ?E2, ?E3, ?E4, ?E5, ?E6, ?E7, ?E8, ?E9, ?E10; try assumption.
  - now apply snoc_ids.
  - now apply snoc_NoDup.
  - intros id Hid. specialize (H7 id Hid). lia.
  - rewrite requestsOf_app. cbn. rewrite app_nil_r. exact H8.
  - lia.
Qed.

Lemma updateCanvasDimensions_control (s : State) :
  control (updateCanvasDimensions s)
  = (wordToAnimate s, currentWordCharIndex s, processedPointsForCurrentChar s,
     totalFramesForCurrentChar s, currentFrame s, animationActive s,
     animationFrameId s, completedCharacters s,
     frameQueue s ++ [(nextFrameId s, RedrawCanvasContent)], S (nextFrameId s)).
Proof.
  unfold updateCanvasDimensions, control. cbv zeta. state_simpl.
  destruct (wordToAnimate s) eqn:E; state_simpl; rewrite ?E; reflexivity.
Qed.

Lemma Inv_updateCanvasDimensions (s : State) :
  Inv s -> Inv (updateCanvasDimensions s).
Proof.
  intros H. apply (Inv_redraw_requested s _ H), updateCanvasDimensions_control.
Qed.

Lemma Inv_processed_nonempty (s : State) :
  Inv s ->
  animationActive s = true ->
  (currentWordCharIndex s < List.length (wordToAnimate s))%nat ->
  processedPointsForCurrentChar s <> [].
Proof.
  intros H Ha Hi. destruct (inv_active s H Ha) as (_ & Hp & _).
  pose proof (glyphPoints_length _ (charAt_supported _ _ (inv_supported s H) Hi)) as Hl.
  rewrite <- Hp in Hl. intros E. rewrite E in Hl. cbn in Hl. lia.
Qed.

Lemma Inv_redrawCanvasContent (s : State) :
  Inv s -> Inv (redrawCanvasContent s).
Proof.
  intros H. destruct (redraw_draws s (Inv_processed_nonempty s H)) as [ops ->].
  apply (control_Inv s); [reflexivity|exact H].
Qed.

Lemma NoDup_fst_unique (q : list (nat * Callback)) (i : nat) (a b : Callback) :
  NoDup (map fst q) -> In (i, a) q -> In (i, b) q -> a = b.
Proof.
  induction q as [|[j c] q IH]; [intros _ []|].
  cbn [map fst]. intros Hnd Ha Hb. inversion Hnd as [|? ? Hj Hq]; subst.
  assert (Hout : forall x, In (i, x) q -> In i (map fst q)).
  { intros x Hx. apply in_map_iff. now exists (i, x). }
  destruct Ha as [Ha|Ha], Hb as [Hb|Hb].
  - congruence.
  - exfalso. injection Ha as -> _. eauto.
  - exfalso. injection Hb as -> _. eauto.
  - now apply IH.
Qed.

(** What the invariant says of the requested runs of [animate]. *)
Lemma Inv_requests (s : State) (id : nat) :
  Inv s ->
  In (id, Animate) (frameQueue s) ->
  animationActive s = true
  /\ animationFrameId s = Some id
  /\ animateRequests s = [id].
Proof.
  intros H Hin. pose proof (inv_request s H) as Hr.
  apply requestsOf_In in Hin. fold (animateRequests s) in Hin.
  destruct (animationActive s).
  - destruct (animationFrameId s) as [aid|]; rewrite Hr in Hin; [|destruct Hin].
    destruct Hin as [->|[]]. auto.
  - rewrite Hr in Hin. destruct Hin.
Qed.

Lemma Inv_runFrame (id : nat) (timestamp : float) (s : State) :
  Inv s -> Inv (runFrame id timestamp s).
Proof.
  intros H. unfold runFrame.
  destruct (find _ (frameQueue s)) as [[i cb]|] eqn:Hfind; [|exact H].
  apply find_id in Hfind as [Hin Ei]. cbn in Ei. subst i.
  pose proof H as [H1 H2 H3 H4 H5 H6 H7 H8 H9 H10].
  destruct cb.
  - destruct (Inv_requests s id H Hin) as (Ha & Hfid & Hreq).
    destruct (H3 Ha) as (Hi & Hp & Ht & Hf).
    apply Inv_animate; state_simpl; try assumption.
    + now apply without_Forall.
    + now apply without_NoDup.
    + unfold animateRequests. state_simpl. now apply requestsOf_without_self.
  - apply Inv_redrawCanvasContent.
    constructor; state_simpl; try assumption.
    + now apply without_Forall.
    + now apply without_NoDup.
    + unfold animateRequests in *. state_simpl.
      fold (without id (frameQueue s)).
      destruct (animationActive s) eqn:Ha.
      * destruct (animationFrameId s) as [aid|] eqn:Hfid; [|now contradiction (H9 eq_refl)].
        apply requestsOf_without_other; [exact H8|].
        intros ->.
        assert (Hin' : In (id, Animate) (frameQueue s)).
        { apply requestsOf_In. rewrite H8. now left. }
        pose proof (NoDup_fst_unique _ _ _ _ H6 Hin Hin'). discriminate.
      * now apply requestsOf_without_nil.
Qed.

(** ** The click handler *)

Lemma stop_eq (s : State) :
  stopOngoingAnimation s
  = set_animationActive false (set_frameQueue (stoppedQueue s) s).
Proof.
  unfold stopOngoingAnimation, stoppedQueue. destruct s as [cw chh bs wsf cx cy word
    index pts total frame active fid done last clw clh ops msg queue next].
  state_simpl. destruct fid as [id|]; [destruct (negb (Nat.eqb id 0))|]; reflexivity.
Qed.

Lemma stoppedQueue_spec (s : State) :
  Inv s ->
  requestsOf (stoppedQueue s) = []
  /\ Forall (fun e => (1 <= fst e < nextFrameId s)%nat) (stoppedQueue s)
  /\ NoDup (map fst (stoppedQueue s))
  /\ (forall e, In e (stoppedQueue s) -> In e (frameQueue s)).
Proof.
  intros H. pose proof H as [H1 H2 H3 H4 H5 H6 H7 H8 H9 H10].
  unfold stoppedQueue. unfold animateRequests in H8.
  destruct (animationFrameId s) as [id|] eqn:Hfid.
  - destruct (H7 id eq_refl) as [Hid _].
    destruct (Nat.eqb_spec id 0) as [->|_]; [lia|]. cbn [negb].
    repeat split.
    + destruct (animationActive s).
      * now apply requestsOf_without_self.
      * now apply requestsOf_without_nil.
    + now apply without_Forall.
    + now apply without_NoDup.
    + intros e He. now apply without_In in He.
  - repeat split; try assumption; [|auto].
    destruct (animationActive s) eqn:Ha; [|exact H8].
    now contradiction (H9 eq_refl).
Qed.

Lemma runCalculateWordScalingAndOffset_control (word : list ascii) (s : State) :
  control (runCalculateWordScalingAndOffset word s) = control s.
Proof. reflexivity. Qed.

Lemma calculateScalingForNewWord_control (s : State) :
  control (calculateScalingForNewWord s)
  = (wordToAnimate s, currentWordCharIndex s, processedPointsForCurrentChar s,
     totalFramesForCurrentChar s, currentFrame s, animationActive s,
     animationFrameId s, completedCharacters s,
     frameQueue s ++ [(nextFrameId s, RedrawCanvasContent)], S (nextFrameId s)).
Proof.
  unfold calculateScalingForNewWord. cbv zeta.
  rewrite runCalculateWordScalingAndOffset_control.
  apply updateCanvasDimensions_control.
Qed.

Lemma informUser_control (inputValue : list ascii) (s : State) :
  control (informUser inputValue s) = control s.
Proof.
  unfold informUser. cbv zeta.
  destruct (0 <? _)%nat; reflexivity.
Qed.

Lemma stop_control (word : list ascii) (s : State) :
  control (stopOngoingAnimation (set_wordToAnimate word s))
  = (word, currentWordCharIndex s, processedPointsForCurrentChar s,
     totalFramesForCurrentChar s, currentFrame s, false, animationFrameId s,
     completedCharacters s, stoppedQueue s, nextFrameId s).
Proof. rewrite stop_eq. reflexivity. Qed.

Lemma noSupportedCharacters_control (s : State) :
  control (noSupportedCharacters s)
  = (wordToAnimate s, currentWordCharIndex s, processedPointsForCurrentChar s,
     totalFramesForCurrentChar s, currentFrame s, animationActive s,
     animationFrameId s, [], frameQueue s, nextFrameId s).
Proof. reflexivity. Qed.

Lemma resetAnimationState_control (s : State) :
  control (resetAnimationState s)
  = (wordToAnimate s, 0%nat, [], totalFramesForCurrentChar s, 0%nat,
     animationActive s, animationFrameId s, completedCharacters s,
     frameQueue s, nextFrameId s).
Proof. reflexivity. Qed.

Lemma startAnimation_control (now : float) (s : State) :
  control (startAnimation now s)
  = (wordToAnimate s, currentWordCharIndex s, processedPointsForCurrentChar s,
     totalFramesForCurrentChar s, currentFrame s, true, Some (nextFrameId s), [],
     frameQueue s ++ [(nextFrameId s, Animate)], S (nextFrameId s)).
Proof. reflexivity. Qed.

Lemma prepared_control (c : ascii) (s : State) :
  control (set_currentFrame 0
             (set_totalFramesForCurrentChar (List.length (glyphPoints c))
               (set_processedPointsForCurrentChar (glyphPoints c) s)))
  = (wordToAnimate s, currentWordCharIndex s, glyphPoints c,
     List.length (glyphPoints c), 0%nat, animationActive s, animationFrameId s,
     completedCharacters s, frameQueue s, nextFrameId s).
Proof. reflexivity. Qed.

(** Reading the fields off an equation on [control]. *)
Lemma control_fields (s : State) w i p t f a d c q n :
  control s = (w, i, p, t, f, a, d, c, q, n) ->
  wordToAnimate s = w /\ currentWordCharIndex s = i
  /\ processedPointsForCurrentChar s = p /\ totalFramesForCurrentChar s = t
  /\ currentFrame s = f /\ animationActive s = a /\ animationFrameId s = d
  /\ completedCharacters s = c /\ frameQueue s = q /\ nextFrameId s = n.
Proof. unfold control. intros [= <- <- <- <- <- <- <- <- <- <-]. repeat split. Qed.

(** The states a click leaves, on the fields the invariant reads. *)
Lemma click_empty (inputValue : list ascii) (now : float) (s : State) :
  filter (hasOwnProperty CHARACTER_DRAWING_DATA) inputValue = [] ->
  control (onAnimateClick inputValue now s)
  = ([], currentWordCharIndex s, processedPointsForCurrentChar s,
     totalFramesForCurrentChar s, currentFrame s, false, animationFrameId s, [],
     stoppedQueue s, nextFrameId s).
Proof.
  intros E. unfold onAnimateClick. cbv zeta. rewrite E.
  destruct (control_fields _ _ _ _ _ _ _ _ _ _ _ (stop_control [] s))
    as (S1 & S2 & S3 & S4 & S5 & S6 & S7 & S8 & S9 & S10).
  rewrite S1. cbn [List.length Nat.eqb].
  rewrite noSupportedCharacters_control, S1, S2, S3, S4, S5, S6, S7, S9, S10.
  reflexivity.
Qed.

Lemma click_word (inputValue : list ascii) (now : float) (s : State) :
  filter (hasOwnProperty CHARACTER_DRAWING_DATA) inputValue <> [] ->
  control (onAnimateClick inputValue now s)
  = (let word := filter (hasOwnProperty CHARACTER_DRAWING_DATA) inputValue in
     (word, 0%nat, glyphPoints (charAt word 0),
      List.length (glyphPoints (charAt word 0)), 0%nat, true,
      Some (S (nextFrameId s)), [],
      stoppedQueue s
      ++ [(nextFrameId s, RedrawCanvasContent); (S (nextFrameId s), Animate)],
      S (S (nextFrameId s)))).
Proof.
  intros Hne. cbv zeta.
  set (word := filter (hasOwnProperty CHARACTER_DRAWING_DATA) inputValue) in *.
  assert (Hw : Forall supported word) by apply filter_supported.
  assert (Hlen : (0 < List.length word)%nat).
  { destruct word; [congruence|cbn; lia]. }
  pose proof (charAt_supported word 0 Hw Hlen) as Hc.
  unfold onAnimateClick. cbv zeta. fold word.
  pose proof (stop_control word s) as C0.
  set (s0 := stopOngoingAnimation (set_wordToAnimate word s)) in *. clearbody s0.
  pose proof (calculateScalingForNewWord_control s0) as C1.
  set (s1 := calculateScalingForNewWord s0) in *. clearbody s1.
  pose proof (informUser_control inputValue s1) as C2.
  set (s2 := informUser inputValue s1) in *. clearbody s2.
  pose proof (resetAnimationState_control s2) as C3.
  set (s3 := resetAnimationState s2) in *. clearbody s3.
  apply control_fields in C0 as (A1 & A2 & A3 & A4 & A5 & A6 & A7 & A8 & A9 & A10).
  rewrite A1, A2, A3, A4, A5, A6, A7, A8, A9, A10 in C1.
  rewrite C1 in C2.
  apply control_fields in C2 as (B1 & B2 & B3 & B4 & B5 & B6 & B7 & B8 & B9 & B10).
  rewrite B1, B4, B6, B7, B8, B9, B10 in C3.
  apply control_fields in C3 as (D1 & D2 & D3 & D4 & D5 & D6 & D7 & D8 & D9 & D10).
  rewrite A1.
  destruct (Nat.eqb_spec (List.length word) 0) as [E|_]; [lia|].
  rewrite D1, (prepare_supported _ _ Hc). cbn [negb].
  pose proof (prepared_control (charAt word 0) s3) as C4.
  rewrite D1, D2, D6, D7, D8, D9, D10 in C4.
  apply control_fields in C4 as (E1 & E2 & E3 & E4 & E5 & E6 & E7 & E8 & E9 & E10).
  rewrite startAnimation_control, E1, E2, E3, E4, E5, E9, E10, <- app_assoc.
  reflexivity.
Qed.

Lemma Inv_click (inputValue : list ascii) (now : float) (s : State) :
  Inv s -> Inv (onAnimateClick inputValue now s).
Proof.
  intros H. pose proof H as [H1 H2 H3 H4 H5 H6 H7 H8 H9 H10].
  destruct (stoppedQueue_spec s H) as (Q1 & Q2 & Q3 & Q4).
  destruct (filter (hasOwnProperty CHARACTER_DRAWING_DATA) inputValue) as [|c w] eqn:E.
  - pose proof (click_empty inputValue now s E) as Hc. unfold control in Hc.
    injection Hc as C1 C2 C3 C4 C5 C6 C7 C8 C9 C10.
    constructor; unfold animateRequests;
      rewrite ?C1, ?C2, ?C3, ?C4, ?C5, ?C6, ?C7, ?C8, ?C9, ?C10; try assumption.
    + constructor.
    + cbn. now rewrite firstn_nil.
    + discriminate.
    + intros _ Hn. now contradiction Hn.
    + discriminate.
  - assert (Hne : filter (hasOwnProperty CHARACTER_DRAWING_DATA) inputValue <> [])
      by (rewrite E; discriminate).
    pose proof (click_word inputValue now s Hne) as Hc.
    cbv zeta in Hc. rewrite E in Hc. unfold control in Hc.
    injection Hc as C1 C2 C3 C4 C5 C6 C7 C8 C9 C10.
    assert (Hw : Forall supported (c :: w)) by (rewrite <- E; apply filter_supported).
    assert (Hs : supported (charAt (c :: w) 0)).
    { apply charAt_supported; [exact Hw|cbn; lia]. }
    pose proof (glyphPoints_length _ Hs) as Hg.
    constructor; unfold animateRequests;
      rewrite ?C1, ?C2, ?C3, ?C4, ?C5, ?C6, ?C7, ?C8, ?C9, ?C10; try assumption.
    + reflexivity.
    + intros _. repeat split; cbn [List.length]; lia.
    + discriminate.
    + change (stoppedQueue s ++ [(nextFrameId s, RedrawCanvasContent);
                                 (S (nextFrameId s), Animate)])
        with (stoppedQueue s ++ [(nextFrameId s, RedrawCanvasContent)]
              ++ [(S (nextFrameId s), Animate)]).
      rewrite app_assoc. apply snoc_ids; [lia|]. now apply snoc_ids.
    + change (stoppedQueue s ++ [(nextFrameId s, RedrawCanvasContent);
                                 (S (nextFrameId s), Animate)])
        with (stoppedQueue s ++ [(nextFrameId s, RedrawCanvasContent)]
              ++ [(S (nextFrameId s), Animate)]).
      rewrite app_assoc. apply snoc_NoDup; [now apply snoc_ids|now apply snoc_NoDup].
    + intros id [= <-]. lia.
    + rewrite requestsOf_app, Q1. reflexivity.
    + discriminate.
    + lia.
Qed.

Lemma control_set_messageText (message : string) (s : State) :
  control (set_messageText message s) = control s.
Proof. reflexivity. Qed.

Lemma control_set_client (width height : N) (s : State) :
  control (set_clientHeight height (set_clientWidth width s)) = control s.
Proof. reflexivity. Qed.

Lemma Inv_step (e : Event) (s : State) : Inv s -> Inv (step e s).
Proof.
  intros H. destruct e as [|width height|inputValue now|id timestamp]; cbn [step].
  - apply (control_Inv (updateCanvasDimensions s));
      [symmetry; apply control_set_messageText|].
    now apply Inv_updateCanvasDimensions.
  - apply Inv_updateCanvasDimensions.
    apply (control_Inv s); [symmetry; apply control_set_client|exact H].
  - now apply Inv_click.
  - now apply Inv_runFrame.
Qed.

Theorem Reachable_Inv (s : State) : Reachable s -> Inv s.
Proof.
  induction 1 as [width height|s e _ IH].
  - apply Inv_initial.
  - now apply Inv_step.
Qed.

(** ** The ticks *)

Lemma runFrame_animate (id : nat) (timestamp : float) (s : State) :
  Inv s ->
  In (id, Animate) (frameQueue s) ->
  runFrame id timestamp s = animate timestamp (cancelAnimationFrame id s).
Proof.
  intros H Hin. unfold runFrame.
  destruct (find _ (frameQueue s)) as [[i cb]|] eqn:Hfind.
  - apply find_id in Hfind as [Hin' Ei]. cbn in Ei. subst i.
    now rewrite (NoDup_fst_unique _ _ _ _ (inv_nodup s H) Hin' Hin).
  - pose proof (find_none _ _ Hfind _ Hin) as Hn. cbn in Hn.
    rewrite Nat.eqb_refl in Hn. discriminate.
Qed.

Lemma runFrame_redraw (id : nat) (timestamp : float) (s : State) :
  Inv s ->
  In (id, RedrawCanvasContent) (frameQueue s) ->
  exists ops, runFrame id timestamp s = draw ops (cancelAnimationFrame id s).
Proof.
  intros H Hin. unfold runFrame.
  destruct (find _ (frameQueue s)) as [[i cb]|] eqn:Hfind.
  - apply find_id in Hfind as [Hin' Ei]. cbn in Ei. subst i.
    rewrite (NoDup_fst_unique _ _ _ _ (inv_nodup s H) Hin' Hin).
    apply redraw_draws. intros Ha Hi. apply (Inv_processed_nonempty s H Ha Hi).
  - pose proof (find_none _ _ Hfind _ Hin) as Hn. cbn in Hn.
    rewrite Nat.eqb_refl in Hn. discriminate.
Qed.

Lemma runFrame_absent (id : nat) (timestamp : float) (s : State) :
  ~ In id (map fst (frameQueue s)) -> runFrame id timestamp s = s.
Proof.
  intros Hn. unfold runFrame.
  destruct (find _ (frameQueue s)) as [[i cb]|] eqn:Hfind; [|reflexivity].
  apply find_id in Hfind as [Hin Ei]. cbn in Ei. subst i.
  exfalso. apply Hn. apply in_map_iff. now exists (id, cb).
Qed.

(** A due run of the requested [animate] does what [TickSpec] says. *)
Lemma tick_spec (id : nat) (timestamp : float) (s : State) :
  Inv s ->
  In (id, Animate) (frameQueue s) ->
  intervalElapsed timestamp s = true ->
  TickSpec s (step (Frame id timestamp) s).
Proof.
  intros H Hin Hdue. cbn [step]. rewrite (runFrame_animate id timestamp s H Hin).
  destruct (Inv_requests s id H Hin) as (Ha & _ & _).
  destruct (inv_active s H Ha) as (Hi & Hp & Ht & Hf).
  exact (proj1 (animate_due timestamp (cancelAnimationFrame id s)
                  (inv_supported s H) Ha Hi Hp Ht Hf Hdue)).
Qed.

(** Every event but a click leaves the completed set as it is or pushes
    one record at its end. *)
Lemma completed_extends (e : Event) (s : State) :
  Inv s ->
  isClick e = false ->
  completedCharacters (step e s) = completedCharacters s
  \/ exists record,
       completedCharacters (step e s) = completedCharacters s ++ [record].
Proof.
  intros H He. destruct e as [|width height|inputValue now|id timestamp];
    [| |discriminate|]; cbn [step].
  - left.
    pose proof (updateCanvasDimensions_control s) as U.
    apply control_fields in U as (_ & _ & _ & _ & _ & _ & _ & U8 & _).
    pose proof (control_set_messageText "Enter characters (A-F) to stitch."
                  (updateCanvasDimensions s)) as V.
    apply control_fields in V as (_ & _ & _ & _ & _ & _ & _ & V8 & _).
    now rewrite V8.
  - left.
    pose proof (updateCanvasDimensions_control
                  (set_clientHeight height (set_clientWidth width s))) as U.
    apply control_fields in U as (_ & _ & _ & _ & _ & _ & _ & U8 & _).
    exact U8.
  - destruct (in_dec Nat.eq_dec id (map fst (frameQueue s))) as [Hin|Hout].
    + apply in_map_iff in Hin as ([i cb] & Ei & Hin). cbn in Ei. subst i.
      destruct cb.
      * rewrite (runFrame_animate id timestamp s H Hin).
        destruct (Inv_requests s id H Hin) as (Ha & _ & _).
        destruct (inv_active s H Ha) as (Hi & Hp & Ht & Hf).
        destruct (intervalElapsed timestamp s) eqn:Hdue.
        -- destruct (animate_due timestamp (cancelAnimationFrame id s)
                       (inv_supported s H) Ha Hi Hp Ht Hf Hdue) as ((_ & Tick) & _).
           destruct (Nat.eqb _ _).
           ++ right. eexists. apply Tick.
           ++ left. apply Tick.
        -- left. rewrite (animate_not_due timestamp (cancelAnimationFrame id s) Ha Hdue).
           reflexivity.
      * left. destruct (runFrame_redraw id timestamp s H Hin) as [ops ->]. reflexivity.
    + left. now rewrite runFrame_absent.
Qed.

(** ** Runs without a click *)

Lemma word_preserved (e : Event) (s : State) :
  Inv s -> isClick e = false -> wordToAnimate (step e s) = wordToAnimate s.
Proof.
  intros H He. destruct e as [|width height|inputValue now|id timestamp];
    [| |discriminate|]; cbn [step].
  - pose proof (control_set_messageText "Enter characters (A-F) to stitch."
                  (updateCanvasDimensions s)) as V.
    unfold control at 2 in V.
    apply control_fields in V as (V1 & _). rewrite V1.
    pose proof (updateCanvasDimensions_control s) as U.
    apply control_fields in U as (U1 & _). exact U1.
  - pose proof (updateCanvasDimensions_control
                  (set_clientHeight height (set_clientWidth width s))) as U.
    apply control_fields in U as (U1 & _). exact U1.
  - destruct (in_dec Nat.eq_dec id (map fst (frameQueue s))) as [Hin|Hout].
    + apply in_map_iff in Hin as ([i cb] & Ei & Hin). cbn in Ei. subst i.
      destruct cb.
      * rewrite (runFrame_animate id timestamp s H Hin).
        destruct (Inv_requests s id H Hin) as (Ha & _ & _).
        destruct (inv_active s H Ha) as (Hi & Hp & Ht & Hf).
        destruct (intervalElapsed timestamp s) eqn:Hdue.
        -- exact (proj1 (proj1 (animate_due timestamp (cancelAnimationFrame id s)
                                  (inv_supported s H) Ha Hi Hp Ht Hf Hdue))).
        -- rewrite (animate_not_due timestamp (cancelAnimationFrame id s) Ha Hdue).
           reflexivity.
      * destruct (runFrame_redraw id timestamp s H Hin) as [ops ->]. reflexivity.
    + now rewrite runFrame_absent.
Qed.

Lemma run_Inv (events : list Event) (s : State) : Inv s -> Inv (run events s).
Proof.
  revert s. induction events as [|e events IH]; intros s H; [exact H|].
  cbn [run fold_left]. apply IH. now apply Inv_step.
Qed.

Lemma run_word (events : list Event) (s : State) :
  Inv s ->
  forallb (fun e => negb (isClick e)) events = true ->
  wordToAnimate (run events s) = wordToAnimate s.
Proof.
  revert s. induction events as [|e events IH]; intros s H Hev; [reflexivity|].
  cbn [forallb] in Hev. apply andb_prop in Hev as [He Hev].
  apply negb_true_iff in He.
  cbn [run fold_left]. fold (run events (step e s)).
  rewrite IH by (try apply Inv_step; assumption).
  now apply word_preserved.
Qed.

Lemma allCompleted_length (word : list ascii) :
  List.length (allCompleted word) = List.length word.
Proof. unfold allCompleted. now rewrite length_map, length_seq. Qed.

(** In a finished state the completed set is the whole word's. *)
Lemma finished_completed (s : State) :
  Inv s -> Finished s -> completedCharacters s = allCompleted (wordToAnimate s).
Proof.
  intros H (_ & _ & Hi). rewrite (inv_completed s H), Hi.
  rewrite <- (allCompleted_length (wordToAnimate s)). apply firstn_all.
Qed.

Lemma skipn_charAt (word : list ascii) (i : nat) :
  (i < List.length word)%nat ->
  skipn i word = charAt word i :: skipn (S i) word.
Proof.
  revert i. induction word as [|c word IH]; intros i Hi; cbn [List.length] in Hi; [lia|].
  destruct i as [|i]; [reflexivity|].
  cbn [skipn]. rewrite IH by lia. reflexivity.
Qed.

Lemma framesLeft_active (s : State) :
  Inv s -> animationActive s = true ->
  (framesLeft s
   = List.length (processedPointsForCurrentChar s) - currentFrame s
     + framesOfGlyphs (skipn (S (currentWordCharIndex s)) (wordToAnimate s)))%nat
  /\ (currentFrame s < List.length (processedPointsForCurrentChar s))%nat.
Proof.
  intros H Ha. destruct (inv_active s H Ha) as (Hi & Hp & Ht & Hf).
  unfold framesLeft. rewrite (skipn_charAt _ _ Hi).
  unfold framesOfGlyphs. cbn [map].
  match goal with
  | |- context [list_sum (?a :: ?l)] =>
      change (list_sum (a :: l)) with (a + list_sum l)%nat
  end.
  rewrite <- Hp. split; lia.
Qed.

(** As many due runs of [animate] as frames are left finish the word. *)
Lemma dueTicks_finish (n : nat) :
  forall s s',
    Inv s -> animationActive s = true -> framesLeft s = n ->
    DueTicks n s s' -> Finished s'.
Proof.
  induction n as [|n IH]; intros s s' H Ha Hn Hrun.
  - destruct (framesLeft_active s H Ha) as (E & Hf). lia.
  - inversion Hrun as [|n0 s0 id timestamp s0' Hin Hdue Hrest]; subst.
    pose proof (tick_spec id timestamp s H Hin Hdue) as (Tw & Tick).
    pose proof (Inv_step (Frame id timestamp) s H) as H'.
    destruct (framesLeft_active s H Ha) as (E & Hf).
    destruct (inv_active s H Ha) as (Hi & Hp & Ht & _).
    set (s1 := step (Frame id timestamp) s) in *.
    destruct (Nat.eqb_spec (currentFrame s)
                (List.length (processedPointsForCurrentChar s) - 1)) as [El|El].
    + destruct Tick as (Tc & Ti & Tf & Tn).
      destruct (Nat.ltb_spec (S (currentWordCharIndex s)) (List.length (wordToAnimate s)))
        as [Hlt|Hge].
      * destruct Tn as (Ta' & Tp').
        apply (IH s1 s' H' Ta'); [|exact Hrest].
        unfold framesLeft. rewrite Tw, Ti, Tf. lia.
      * assert (Hz : n = 0%nat).
        { rewrite skipn_all2 in E by lia. unfold framesOfGlyphs in E. cbn in E. lia. }
        subst n. inversion Hrest; subst. exact Tn.
    + destruct Tick as (Tc & Ti & Tf & Tp' & Ta').
      apply (IH s1 s' H' Ta'); [|exact Hrest].
      destruct (framesLeft_active s1 H' Ta') as (E' & _).
      rewrite E', Tp', Tf, Tw, Ti. lia.
Qed.

End Part000Facts.

(* ================================================================== *)
(** * The animation of [src/script.js] *)

Module ScriptFacts.
Import Script ScriptProps.

Ltac state_simpl :=
  cbn [wordScaleFactor wordToAnimate currentWordCharIndex
       processedPointsForCurrentChar totalFramesForCurrentChar currentFrame
       animationActive completedCharacters lastTimestamp canvasOps messageText
       frameQueue nextFrameId set_wordScaleFactor set_wordToAnimate
       set_currentWordCharIndex set_processedPointsForCurrentChar
       set_totalFramesForCurrentChar set_currentFrame set_animationActive
       set_completedCharacters set_lastTimestamp set_canvasOps set_messageText
       set_frameQueue set_nextFrameId draw requestAnimationFrame fst snd].

Lemma script_control_Inv (s s' : State) : control s = control s' -> Inv s -> Inv s'.
Proof.
  unfold control. intros E [H1 H2 H3].
  injection E as E1 E2 E3 E4 E5 E6 E7.
  constructor; rewrite <- ?E1, <- ?E2, <- ?E3, <- ?E4, <- ?E5, <- ?E6, <- ?E7; assumption.
Qed.

Lemma script_control_fields (s : State) w i p t f a c :
  control s = (w, i, p, t, f, a, c) ->
  wordToAnimate s = w /\ currentWordCharIndex s = i
  /\ processedPointsForCurrentChar s = p /\ totalFramesForCurrentChar s = t
  /\ currentFrame s = f /\ animationActive s = a /\ completedCharacters s = c.
Proof. unfold control. intros [= <- <- <- <- <- <- <-]. repeat split. Qed.

Lemma script_supported_lookup (c : ascii) :
  supported c -> exists segs, glyphLookup CHARACTER_DRAWING_DATA c = Some segs.
Proof.
  unfold supported, hasOwnProperty.
  destruct (glyphLookup CHARACTER_DRAWING_DATA c) as [segs|]; [eauto|discriminate].
Qed.

Lemma script_glyphPoints_length (c : ascii) :
  supported c -> (21 <= List.length (glyphPoints c))%nat.
Proof.
  intros Hc. destruct (script_supported_lookup c Hc) as [segs Hs].
  pose proof (table_entry entryCompiledOk c segs table_compiled
                (glyphLookup_script_part000 c segs Hs)) as Hok.
  unfold entryCompiledOk in Hok. cbn [snd] in Hok.
  apply andb_prop in Hok as [Hok _]. apply andb_prop in Hok as [Hok _].
  apply Nat.leb_le in Hok.
  unfold glyphPoints, compiledPoints. now rewrite Hs.
Qed.

Lemma script_prepare_supported (c : ascii) (s : State) :
  supported c ->
  prepareAnimationForCharacter c s
  = (true, set_currentFrame 0
             (set_totalFramesForCurrentChar (List.length (glyphPoints c))
               (set_processedPointsForCurrentChar (glyphPoints c) s))).
Proof.
  intros Hc. destruct (script_supported_lookup c Hc) as [segs Hs].
  unfold prepareAnimationForCharacter, glyphPoints, compiledPoints.
  now rewrite Hs.
Qed.

Lemma script_prepare_unsupported (c : ascii) (s : State) :
  hasOwnProperty CHARACTER_DRAWING_DATA c = false ->
  prepareAnimationForCharacter c s
  = (false, set_totalFramesForCurrentChar 0 (set_processedPointsForCurrentChar [] s)).
Proof.
  unfold hasOwnProperty, prepareAnimationForCharacter.
  destruct (glyphLookup CHARACTER_DRAWING_DATA c); [discriminate|reflexivity].
Qed.

Lemma script_charAt_supported (word : list ascii) (i : nat) :
  Forall supported word -> (i < List.length word)%nat -> supported (charAt word i).
Proof.
  intros Hw Hi. rewrite Forall_forall in Hw. apply Hw. now apply nth_In.
Qed.

Lemma script_filter_supported (inputValue : list ascii) :
  Forall supported (filter (hasOwnProperty CHARACTER_DRAWING_DATA) inputValue).
Proof.
  apply Forall_forall. intros c Hc. apply filter_In in Hc. apply Hc.
Qed.

Lemma script_firstn_allCompleted_succ (word : list ascii) (i : nat) :
  (i < List.length word)%nat ->
  firstn (S i) (allCompleted word)
  = firstn i (allCompleted word) ++ [completedRecord word i].
Proof.
  intros Hi. unfold allCompleted.
  rewrite (Part000Facts.firstn_succ _ i (completedRecord word 0))
    by (rewrite length_map, length_seq; exact Hi).
  rewrite (map_nth (completedRecord word) (seq 0 (List.length word)) 0 i).
  rewrite seq_nth by exact Hi. reflexivity.
Qed.

(** ** The blocks of [animate] *)

Lemma script_beginFrame_control (timestamp : float) (s : State) :
  control (beginFrame timestamp s) = control s.
Proof. reflexivity. Qed.

Lemma script_requestAnimationFrame_control (s : State) :
  control (requestAnimationFrame s) = control s.
Proof. reflexivity. Qed.

Lemma script_skipCharacter_control (s : State) :
  control (skipCharacter s)
  = (wordToAnimate s, S (currentWordCharIndex s), processedPointsForCurrentChar s,
     totalFramesForCurrentChar s, 0%nat, animationActive s, completedCharacters s).
Proof. reflexivity. Qed.

Lemma script_prepared_control (c : ascii) (s : State) :
  control (set_currentFrame 0
             (set_totalFramesForCurrentChar (List.length (glyphPoints c))
               (set_processedPointsForCurrentChar (glyphPoints c) s)))
  = (wordToAnimate s, currentWordCharIndex s, glyphPoints c,
     List.length (glyphPoints c), 0%nat, animationActive s, completedCharacters s).
Proof. reflexivity. Qed.

(** Drawing the revealed prefix and advancing, once the points are
    prepared. *)
Lemma script_drawAndAdvance_control (s : State) :
  (currentFrame s < totalFramesForCurrentChar s)%nat ->
  control (drawAndAdvance s)
  = if Nat.eqb (currentFrame s) (totalFramesForCurrentChar s - 1)
    then (wordToAnimate s, S (currentWordCharIndex s), [],
          totalFramesForCurrentChar s, 0%nat, animationActive s,
          completedCharacters s
          ++ [{| char := charAt (wordToAnimate s) (currentWordCharIndex s);
                 processedPoints := processedPointsForCurrentChar s;
                 xOffset := slotOffset (currentWordCharIndex s) |}])
    else (wordToAnimate s, currentWordCharIndex s, processedPointsForCurrentChar s,
          totalFramesForCurrentChar s, S (currentFrame s), animationActive s,
          completedCharacters s).
Proof.
  intros Hf. unfold drawAndAdvance. cbv zeta. state_simpl.
  rewrite (Part000Facts.onLastFrame_spec _ _ Hf).
  destruct (Nat.eqb _ _).
  - state_simpl. destruct (_ <? _)%nat; reflexivity.
  - reflexivity.
Qed.

(** What a due frame does while a character is left, in terms of the
    fields the invariant reads. *)
Lemma script_animateCurrent_control (s : State) :
  Forall supported (wordToAnimate s) ->
  (currentWordCharIndex s < List.length (wordToAnimate s))%nat ->
  (processedPointsForCurrentChar s = [] /\ currentFrame s = 0%nat)
  \/ (processedPointsForCurrentChar s
      = glyphPoints (charAt (wordToAnimate s) (currentWordCharIndex s))
      /\ totalFramesForCurrentChar s = List.length (processedPointsForCurrentChar s)
      /\ (currentFrame s < totalFramesForCurrentChar s)%nat) ->
  control (animateCurrent s)
  = let points := glyphPoints (charAt (wordToAnimate s) (currentWordCharIndex s)) in
    if Nat.eqb (currentFrame s) (List.length points - 1)
    then (wordToAnimate s, S (currentWordCharIndex s), [], List.length points, 0%nat,
          animationActive s,
          completedCharacters s
          ++ [{| char := charAt (wordToAnimate s) (currentWordCharIndex s);
                 processedPoints := points;
                 xOffset := slotOffset (currentWordCharIndex s) |}])
    else (wordToAnimate s, currentWordCharIndex s, points, List.length points,
          S (currentFrame s), animationActive s, completedCharacters s).
Proof.
  intros Hw Hi Hcase. cbv zeta.
  pose proof (script_charAt_supported _ _ Hw Hi) as Hc.
  pose proof (script_glyphPoints_length _ Hc) as Hg.
  unfold animateCurrent. apply Nat.ltb_lt in Hi as Hib. rewrite Hib. cbv zeta.
  destruct Hcase as [(Hp & Hf)|(Hp & Ht & Hf)].
  - rewrite Hp. cbn [List.length Nat.eqb].
    rewrite (script_prepare_supported _ _ Hc). cbn [negb].
    rewrite script_requestAnimationFrame_control.
    pose proof (script_prepared_control (charAt (wordToAnimate s) (currentWordCharIndex s)) s)
      as C.
    match type of C with control ?x = _ => set (s1 := x) in * end. clearbody s1.
    apply script_control_fields in C as (C1 & C2 & C3 & C4 & C5 & C6 & C7).
    rewrite script_drawAndAdvance_control by (rewrite C4, C5; lia).
    rewrite C1, C2, C3, C4, C5, C6, C7, Hf.
    destruct (Nat.eqb_spec 0 (List.length
                (glyphPoints (charAt (wordToAnimate s) (currentWordCharIndex s))) - 1));
      [lia|reflexivity].
  - assert (Hl : (List.length (processedPointsForCurrentChar s) =? 0)%nat = false).
    { apply Nat.eqb_neq. rewrite Hp. lia. }
    rewrite Hl, script_requestAnimationFrame_control, script_drawAndAdvance_control by exact Hf.
    rewrite Ht, Hp. reflexivity.
Qed.

Lemma script_animateCurrent_finished (s : State) :
  (List.length (wordToAnimate s) <= currentWordCharIndex s)%nat ->
  control (animateCurrent s) = control s.
Proof.
  intros Hi. unfold animateCurrent. apply Nat.ltb_ge in Hi. rewrite Hi. reflexivity.
Qed.

Lemma script_animate_due (timestamp : float) (s : State) :
  animationActive s = true ->
  intervalElapsed timestamp s = true ->
  animate timestamp s = animateCurrent (beginFrame timestamp s).
Proof. intros Ha Hd. unfold animate. now rewrite Ha, Hd. Qed.

Lemma script_animate_not_due (timestamp : float) (s : State) :
  animationActive s = true ->
  intervalElapsed timestamp s = false ->
  animate timestamp s = requestAnimationFrame s.
Proof. intros Ha Hd. unfold animate. now rewrite Ha, Hd. Qed.

Lemma script_animate_inactive (timestamp : float) (s : State) :
  animationActive s = false -> animate timestamp s = s.
Proof. intros Ha. unfold animate. now rewrite Ha. Qed.

(** The invariant read on the fields of [control]. *)
Lemma script_Inv_of_control (s : State) w i p t f a c :
  control s = (w, i, p, t, f, a, c) ->
  Forall supported w ->
  c = firstn i (allCompleted w) ->
  (a = true ->
   (i <= List.length w)%nat
   /\ ((p = [] /\ f = 0%nat)
       \/ ((i < List.length w)%nat /\ p = glyphPoints (charAt w i)
           /\ t = List.length p /\ (f < t)%nat))) ->
  Inv s.
Proof.
  intros C H1 H2 H3.
  apply script_control_fields in C as (C1 & C2 & C3 & C4 & C5 & C6 & C7).
  constructor; rewrite ?C1, ?C2, ?C3, ?C4, ?C5, ?C6, ?C7; assumption.
Qed.

Lemma script_Inv_animateCurrent (s : State) :
  Inv s -> animationActive s = true -> Inv (animateCurrent s).
Proof.
  intros [H1 H2 H3] Ha. destruct (H3 Ha) as (Hle & Hcase).
  destruct (Nat.ltb_spec (currentWordCharIndex s) (List.length (wordToAnimate s)))
    as [Hi|Hi].
  - pose proof (script_charAt_supported _ _ H1 Hi) as Hc.
    pose proof (script_glyphPoints_length _ Hc) as Hg.
    assert (Hcase' :
      (processedPointsForCurrentChar s = [] /\ currentFrame s = 0%nat)
      \/ (processedPointsForCurrentChar s
          = glyphPoints (charAt (wordToAnimate s) (currentWordCharIndex s))
          /\ totalFramesForCurrentChar s = List.length (processedPointsForCurrentChar s)
          /\ (currentFrame s < totalFramesForCurrentChar s)%nat)) by tauto.
    assert (Hfr : (currentFrame s
                   < List.length (glyphPoints (charAt (wordToAnimate s)
                                                  (currentWordCharIndex s))))%nat).
    { destruct Hcase' as [(_ & ->)|(Hp & Ht & Hf)]; [lia|]. now rewrite <- Hp, <- Ht. }
    pose proof (script_animateCurrent_control s H1 Hi Hcase') as C. cbv zeta in C.
    destruct (Nat.eqb_spec (currentFrame s)
                (List.length (glyphPoints (charAt (wordToAnimate s)
                                             (currentWordCharIndex s))) - 1)) as [El|El].
    + apply (script_Inv_of_control _ _ _ _ _ _ _ _ C); [exact H1| |].
      * rewrite H2, script_firstn_allCompleted_succ by exact Hi. reflexivity.
      * intros _. split; [lia|]. left. auto.
    + apply (script_Inv_of_control _ _ _ _ _ _ _ _ C); [exact H1|exact H2|].
      intros _. split; [lia|]. right. repeat split; try assumption; lia.
  - apply (script_control_Inv s); [symmetry; now apply script_animateCurrent_finished|].
    constructor; assumption.
Qed.

Lemma script_Inv_animate (timestamp : float) (s : State) :
  Inv s -> Inv (animate timestamp s).
Proof.
  intros H. destruct (animationActive s) eqn:Ha.
  - destruct (intervalElapsed timestamp s) eqn:Hd.
    + rewrite (script_animate_due _ _ Ha Hd). apply script_Inv_animateCurrent.
      * apply (script_control_Inv s); [symmetry; apply script_beginFrame_control|exact H].
      * pose proof (script_beginFrame_control timestamp s) as C.
        unfold control at 2 in C.
        apply script_control_fields in C as (_ & _ & _ & _ & _ & C6 & _).
        now rewrite C6.
    + rewrite (script_animate_not_due _ _ Ha Hd).
      apply (script_control_Inv s); [symmetry; apply script_requestAnimationFrame_control|exact H].
  - now rewrite (script_animate_inactive _ _ Ha).
Qed.

(** ** The click handler *)

Lemma script_click_empty (inputValue : list ascii) (s : State) :
  filter (hasOwnProperty CHARACTER_DRAWING_DATA) inputValue = [] ->
  control (onAnimateClick inputValue s)
  = ([], currentWordCharIndex s, processedPointsForCurrentChar s,
     totalFramesForCurrentChar s, currentFrame s, false, []).
Proof.
  intros E. unfold onAnimateClick. cbv zeta. rewrite E. reflexivity.
Qed.

Lemma script_informUser_control (inputValue : list ascii) (s : State) :
  control (informUser inputValue s) = control s.
Proof. unfold informUser. cbv zeta. destruct (0 <? _)%nat; reflexivity. Qed.

Lemma script_startAnimation_control (s : State) :
  control (startAnimation s)
  = (wordToAnimate s, 0%nat, [], totalFramesForCurrentChar s, 0%nat, true, []).
Proof. reflexivity. Qed.

Lemma script_click_word (inputValue : list ascii) (s : State) :
  filter (hasOwnProperty CHARACTER_DRAWING_DATA) inputValue <> [] ->
  control (onAnimateClick inputValue s)
  = (filter (hasOwnProperty CHARACTER_DRAWING_DATA) inputValue, 0%nat, [],
     totalFramesForCurrentChar s, 0%nat, true, []).
Proof.
  intros Hne. unfold onAnimateClick. cbv zeta.
  set (word := filter (hasOwnProperty CHARACTER_DRAWING_DATA) inputValue) in *.
  state_simpl.
  destruct (Nat.eqb_spec (List.length word) 0) as [E|_].
  { destruct word; [congruence|discriminate]. }
  rewrite script_startAnimation_control.
  pose proof (script_informUser_control inputValue
                (set_wordScaleFactor (scriptWordScaleFactor binary64 (List.length word))
                   (set_wordToAnimate word s))) as C.
  apply script_control_fields in C as (C1 & _ & _ & C4 & _).
  rewrite C1, C4. reflexivity.
Qed.

Lemma script_Inv_click (inputValue : list ascii) (s : State) :
  Inv s -> Inv (onAnimateClick inputValue s).
Proof.
  intros _.
  destruct (filter (hasOwnProperty CHARACTER_DRAWING_DATA) inputValue) as [|c w] eqn:E.
  - apply (script_Inv_of_control _ _ _ _ _ _ _ _ (script_click_empty inputValue s E)).
    + constructor.
    + cbn. now rewrite firstn_nil.
    + discriminate.
  - assert (Hne : filter (hasOwnProperty CHARACTER_DRAWING_DATA) inputValue <> [])
      by (rewrite E; discriminate).
    pose proof (script_click_word inputValue s Hne) as C. rewrite E in C.
    apply (script_Inv_of_control _ _ _ _ _ _ _ _ C).
    + rewrite <- E. apply script_filter_supported.
    + reflexivity.
    + intros _. split; [lia|]. left. auto.
Qed.

Lemma script_Inv_initial : Inv initialState.
Proof.
  constructor; cbn; try discriminate; auto.
Qed.

Lemma script_Inv_step (e : Event) (s : State) : Inv s -> Inv (step e s).
Proof.
  intros H. destruct e as [inputValue|id timestamp]; cbn [step].
  - now apply script_Inv_click.
  - unfold runFrame. destruct (existsb _ _); [|exact H].
    apply script_Inv_animate. apply (script_control_Inv s); [reflexivity|exact H].
Qed.

Theorem script_Reachable_Inv (s : State) : Reachable s -> Inv s.
Proof.
  induction 1 as [|s e _ IH]; [apply script_Inv_initial|now apply script_Inv_step].
Qed.

End ScriptFacts.

(** ** Frames and clicks of [src/script.js] *)

Module ScriptRuns.
Import Script ScriptProps ScriptFacts.

Lemma script_Reachable_run (events : list Event) (s : State) :
  Reachable s -> Reachable (run events s).
Proof.
  revert s. induction events as [|e events IH]; intros s H; [exact H|].
  cbn [run fold_left]. apply IH. now constructor.
Qed.

Lemma script_runFrame_requested (id : nat) (timestamp : float) (s : State) :
  In id (frameQueue s) ->
  runFrame id timestamp s
  = animate timestamp
      (set_frameQueue (filter (fun i => negb (Nat.eqb i id)) (frameQueue s)) s).
Proof.
  intros Hin. unfold runFrame.
  assert (E : existsb (Nat.eqb id) (frameQueue s) = true).
  { apply existsb_exists. exists id. split; [exact Hin|apply Nat.eqb_refl]. }
  now rewrite E.
Qed.

Lemma script_runFrame_absent (id : nat) (timestamp : float) (s : State) :
  ~ In id (frameQueue s) -> runFrame id timestamp s = s.
Proof.
  intros Hout. unfold runFrame.
  destruct (existsb (Nat.eqb id) (frameQueue s)) eqn:E; [|reflexivity].
  apply existsb_exists in E as (i & Hi & Ei). apply Nat.eqb_eq in Ei. now subst i.
Qed.

(** The fields of [control] after a due run of [animate] while a
    character is left. *)
Lemma script_due_frame_control (id : nat) (timestamp : float) (s : State) :
  Inv s ->
  animationActive s = true ->
  (currentWordCharIndex s < List.length (wordToAnimate s))%nat ->
  In id (frameQueue s) ->
  intervalElapsed timestamp s = true ->
  control (step (Frame id timestamp) s)
  = let points := glyphPoints (charAt (wordToAnimate s) (currentWordCharIndex s)) in
    if Nat.eqb (currentFrame s) (List.length points - 1)
    then (wordToAnimate s, S (currentWordCharIndex s), [], List.length points, 0%nat,
          true,
          completedCharacters s
          ++ [{| char := charAt (wordToAnimate s) (currentWordCharIndex s);
                 processedPoints := points;
                 xOffset := slotOffset (currentWordCharIndex s) |}])
    else (wordToAnimate s, currentWordCharIndex s, points, List.length points,
          S (currentFrame s), true, completedCharacters s).
Proof.
  intros [H1 H2 H3] Ha Hi Hin Hdue. cbn [step].
  rewrite (script_runFrame_requested id timestamp s Hin).
  set (s1 := set_frameQueue _ s).
  assert (C1 : control s1 = control s) by reflexivity.
  assert (D1 : intervalElapsed timestamp s1 = intervalElapsed timestamp s) by reflexivity.
  clearbody s1.
  unfold control at 2 in C1.
  apply script_control_fields in C1 as (E1 & E2 & E3 & E4 & E5 & E6 & E7).
  rewrite (script_animate_due timestamp s1) by congruence.
  pose proof (script_beginFrame_control timestamp s1) as C2.
  set (s2 := beginFrame timestamp s1) in *. clearbody s2.
  unfold control at 2 in C2.
  apply script_control_fields in C2 as (F1 & F2 & F3 & F4 & F5 & F6 & F7).
  destruct (H3 Ha) as (_ & Hcase).
  rewrite (script_animateCurrent_control s2).
  - cbv zeta. rewrite F1, F2, F5, F6, F7, E1, E2, E5, E6, E7, Ha. reflexivity.
  - rewrite F1, E1. exact H1.
  - rewrite F1, F2, E1, E2. exact Hi.
  - rewrite F1, F2, F3, F4, F5, E1, E2, E3, E4, E5. tauto.
Qed.

Lemma script_tick_spec (id : nat) (timestamp : float) (s : State) :
  Inv s ->
  animationActive s = true ->
  (currentWordCharIndex s < List.length (wordToAnimate s))%nat ->
  In id (frameQueue s) ->
  intervalElapsed timestamp s = true ->
  TickSpec s (step (Frame id timestamp) s).
Proof.
  intros H Ha Hi Hin Hdue.
  pose proof (script_due_frame_control id timestamp s H Ha Hi Hin Hdue) as C. cbv zeta in C.
  unfold TickSpec. cbv zeta.
  destruct (Nat.eqb (currentFrame s) _);
    apply script_control_fields in C as (C1 & C2 & C3 & C4 & C5 & C6 & C7); auto 10.
Qed.

(** A frame leaves the animation state as it is or is a due run of
    [animate] with a character left. *)
Lemma script_frame_cases (id : nat) (timestamp : float) (s : State) :
  Inv s ->
  control (step (Frame id timestamp) s) = control s
  \/ (animationActive s = true
      /\ (currentWordCharIndex s < List.length (wordToAnimate s))%nat
      /\ In id (frameQueue s)
      /\ intervalElapsed timestamp s = true).
Proof.
  intros H.
  destruct (in_dec Nat.eq_dec id (frameQueue s)) as [Hin|Hout].
  2:{ left. cbn [step]. now rewrite (script_runFrame_absent id timestamp s Hout). }
  destruct (animationActive s) eqn:Ha.
  2:{ left. cbn [step]. rewrite (script_runFrame_requested id timestamp s Hin).
      now rewrite script_animate_inactive. }
  destruct (intervalElapsed timestamp s) eqn:Hdue.
  2:{ left. cbn [step]. rewrite (script_runFrame_requested id timestamp s Hin).
      now rewrite script_animate_not_due. }
  destruct (Nat.ltb_spec (currentWordCharIndex s) (List.length (wordToAnimate s)))
    as [Hi|Hi]; [right; auto|].
  left. cbn [step]. rewrite (script_runFrame_requested id timestamp s Hin).
  set (s1 := set_frameQueue _ s).
  assert (C1 : control s1 = control s) by reflexivity.
  assert (D1 : intervalElapsed timestamp s1 = intervalElapsed timestamp s) by reflexivity.
  clearbody s1. rewrite <- C1.
  unfold control at 2 in C1.
  apply script_control_fields in C1 as (E1 & E2 & E3 & E4 & E5 & E6 & E7).
  rewrite (script_animate_due timestamp s1) by congruence.
  pose proof (script_beginFrame_control timestamp s1) as C2. rewrite <- C2.
  set (s2 := beginFrame timestamp s1) in *. clearbody s2.
  unfold control at 2 in C2.
  apply script_control_fields in C2 as (F1 & F2 & F3 & F4 & F5 & F6 & F7).
  apply script_animateCurrent_finished. rewrite F1, F2, E1, E2. exact Hi.
Qed.

Lemma script_completed_extends (e : Event) (s : State) :
  Inv s ->
  isClick e = false ->
  completedCharacters (step e s) = completedCharacters s
  \/ exists record,
       completedCharacters (step e s) = completedCharacters s ++ [record].
Proof.
  intros H He. destruct e as [inputValue|id timestamp]; [discriminate|].
  destruct (script_frame_cases id timestamp s H) as [C|(Ha & Hi & Hin & Hdue)].
  - left. unfold control at 2 in C.
    now apply script_control_fields in C as (_ & _ & _ & _ & _ & _ & C7).
  - pose proof (script_due_frame_control id timestamp s H Ha Hi Hin Hdue) as C. cbv zeta in C.
    destruct (Nat.eqb (currentFrame s) _);
      apply script_control_fields in C as (_ & _ & _ & _ & _ & _ & C7); eauto.
Qed.

Lemma script_word_preserved (e : Event) (s : State) :
  Inv s -> isClick e = false -> wordToAnimate (step e s) = wordToAnimate s.
Proof.
  intros H He. destruct e as [inputValue|id timestamp]; [discriminate|].
  destruct (script_frame_cases id timestamp s H) as [C|(Ha & Hi & Hin & Hdue)].
  - unfold control at 2 in C.
    now apply script_control_fields in C as (C1 & _).
  - pose proof (script_due_frame_control id timestamp s H Ha Hi Hin Hdue) as C. cbv zeta in C.
    destruct (Nat.eqb (currentFrame s) _);
      apply script_control_fields in C as (C1 & _); exact C1.
Qed.

Lemma script_run_Inv (events : list Event) (s : State) : Inv s -> Inv (run events s).
Proof.
  revert s. induction events as [|e events IH]; intros s H; [exact H|].
  cbn [run fold_left]. apply IH. now apply script_Inv_step.
Qed.

Lemma script_run_word (events : list Event) (s : State) :
  Inv s ->
  forallb (fun e => negb (isClick e)) events = true ->
  wordToAnimate (run events s) = wordToAnimate s.
Proof.
  revert s. induction events as [|e events IH]; intros s H Hev; [reflexivity|].
  cbn [forallb] in Hev. apply andb_prop in Hev as [He Hev].
  apply negb_true_iff in He.
  cbn [run fold_left]. fold (run events (step e s)).
  rewrite IH by (try apply script_Inv_step; assumption).
  now apply script_word_preserved.
Qed.

Lemma script_finished_completed (s : State) :
  Inv s -> Finished s -> completedCharacters s = allCompleted (wordToAnimate s).
Proof.
  intros H (_ & Hi). rewrite (inv_completed s H), Hi.
  assert (L : List.length (allCompleted (wordToAnimate s)) = List.length (wordToAnimate s)).
  { unfold allCompleted. now rewrite length_map, length_seq. }
  rewrite <- L. apply firstn_all.
Qed.

(** The click handler cancels nothing: the requests made before a click
    are all in the queue after it, followed by the new one. *)
Lemma script_click_requests (inputValue : list ascii) (s : State) :
  frameQueue (onAnimateClick inputValue s)
  = match filter (hasOwnProperty CHARACTER_DRAWING_DATA) inputValue with
    | [] => frameQueue s
    | _ :: _ => frameQueue s ++ [nextFrameId s]
    end.
Proof.
  unfold onAnimateClick. cbv zeta.
  set (word := filter (hasOwnProperty CHARACTER_DRAWING_DATA) inputValue).
  state_simpl. destruct word as [|c word]; [reflexivity|].
  cbn [List.length Nat.eqb].
  unfold startAnimation, informUser. cbv zeta.
  destruct (0 <? _)%nat; reflexivity.
Qed.

Lemma script_framesLeft_pending (s : State) :
  Inv s -> animationActive s = true ->
  (currentWordCharIndex s < List.length (wordToAnimate s))%nat ->
  (framesLeft s
   = List.length (glyphPoints (charAt (wordToAnimate s) (currentWordCharIndex s)))
     - currentFrame s
     + framesOfGlyphs (skipn (S (currentWordCharIndex s)) (wordToAnimate s)))%nat
  /\ (currentFrame s
      < List.length (glyphPoints (charAt (wordToAnimate s) (currentWordCharIndex s))))%nat.
Proof.
  intros H Ha Hi.
  pose proof (script_glyphPoints_length _
                (script_charAt_supported _ _ (inv_supported s H) Hi)) as Hg.
  assert (Hf : (currentFrame s
                < List.length
                    (glyphPoints (charAt (wordToAnimate s) (currentWordCharIndex s))))%nat).
  { destruct (inv_active s H Ha) as (_ & [(_ & Hf)|(_ & Hp & Ht & Hf)]).
    - rewrite Hf. lia.
    - rewrite Ht, Hp in Hf. exact Hf. }
  split; [|exact Hf].
  unfold framesLeft. rewrite (Part000Facts.skipn_charAt _ _ Hi).
  unfold framesOfGlyphs. cbn [map].
  match goal with
  | |- context [list_sum (?a :: ?l)] =>
      change (list_sum (a :: l)) with (a + list_sum l)%nat
  end.
  lia.
Qed.

(** As many due runs of [animate] as frames are left bring the index to
    the end of the word. *)
Lemma script_dueTicks_finish (n : nat) :
  forall s s',
    Inv s -> animationActive s = true -> wordToAnimate s <> [] -> framesLeft s = n ->
    DueTicks n s s' ->
    Finished s' /\ Inv s' /\ wordToAnimate s' = wordToAnimate s.
Proof.
  induction n as [|n IH]; intros s s' H Ha Hne Hn Hrun.
  - inversion Hrun; subst.
    destruct (inv_active s' H Ha) as (Hle & _).
    destruct (Nat.eq_dec (currentWordCharIndex s') (List.length (wordToAnimate s')))
      as [E|E].
    + split; [split; assumption|split; [assumption|reflexivity]].
    + assert (Hi : (currentWordCharIndex s' < List.length (wordToAnimate s'))%nat) by lia.
      destruct (script_framesLeft_pending s' H Ha Hi) as (E' & Hf). lia.
  - inversion Hrun as [|n0 s0 id timestamp s0' Hin Hdue Hrest]; subst.
    destruct (inv_active s H Ha) as (Hle & _).
    assert (Hi : (currentWordCharIndex s < List.length (wordToAnimate s))%nat).
    { destruct (Nat.eq_dec (currentWordCharIndex s) (List.length (wordToAnimate s)))
        as [E|E]; [|lia].
      unfold framesLeft in Hn. rewrite E, skipn_all in Hn. cbn in Hn. lia. }
    destruct (script_framesLeft_pending s H Ha Hi) as (E & Hf).
    pose proof (script_due_frame_control id timestamp s H Ha Hi Hin Hdue) as C.
    cbv zeta in C.
    pose proof (script_Inv_step (Frame id timestamp) s H) as H'.
    set (s1 := step (Frame id timestamp) s) in *. clearbody s1.
    destruct (Nat.eqb_spec (currentFrame s)
                (List.length
                   (glyphPoints (charAt (wordToAnimate s) (currentWordCharIndex s))) - 1))
      as [El|El];
      apply script_control_fields in C as (C1 & C2 & C3 & C4 & C5 & C6 & C7).
    + assert (Hn1 : framesLeft s1 = n).
      { unfold framesLeft. rewrite C1, C2, C5. lia. }
      destruct (IH s1 s' H' C6 ltac:(congruence) Hn1 Hrest) as (F & I & W).
      split; [exact F|split; [exact I|congruence]].
    + assert (Hn1 : framesLeft s1 = n).
      { unfold framesLeft. rewrite C1, C2, C5.
        unfold framesLeft in Hn, E. lia. }
      destruct (IH s1 s' H' C6 ltac:(congruence) Hn1 Hrest) as (F & I & W).
      split; [exact F|split; [exact I|congruence]].
Qed.

End ScriptRuns.

(* ================================================================== *)
(** * The animation controller: ticks, clicks and finished runs *)

Module Controller.
Import Part000 Part000Props Part000Facts.

Lemma Reachable_run (events : list Event) (s : State) :
Reachable s -> Reachable (run events s).
Proof.
revert s. induction events as [|e events IH]; intros s H; [exact H|].
cbn [run fold_left]. apply IH. now constructor.
Qed.

(** C3.  In every reachable state, while a glyph is being animated the
  reveal cursor [currentFrame] is an index of the active point sequence,
  which is the compiled sequence of the current character; the completed
  set is the left-to-right prefix of the word's records up to the current
  character.  A run of the requested [animate] after the interval has
  elapsed does what [TickSpec] says: if the cursor is the last index, the
  record of the active glyph is pushed and the controller moves to the
  next character with cursor 0, or finishes when no character is left;
  otherwise the cursor grows by one.  No event but a click changes the
  completed set other than by pushing one record at its end.  The same
  holds of [src/script.js], where the points of a character are compiled
  by the first due frame that finds none, and where the finished loop
  stays active: the cursor is an index of the compiled sequence of the
  current character. *)
Theorem tick_advances_cursor_or_glyph :
(forall s : State,
Reachable s ->
(animationActive s = true ->
   (currentWordCharIndex s < List.length (wordToAnimate s))%nat
   /\ processedPointsForCurrentChar s
      = glyphPoints (charAt (wordToAnimate s) (currentWordCharIndex s))
   /\ (1 <= List.length (processedPointsForCurrentChar s))%nat
   /\ (0 <= currentFrame s <= List.length (processedPointsForCurrentChar s) - 1)%nat)
/\ completedCharacters s
   = firstn (currentWordCharIndex s) (allCompleted (wordToAnimate s))
/\ (forall id timestamp,
      In (id, Animate) (frameQueue s) ->
      intervalElapsed timestamp s = true ->
      animationActive s = true /\ TickSpec s (step (Frame id timestamp) s))
/\ (forall e,
      isClick e = false ->
      completedCharacters (step e s) = completedCharacters s
      \/ exists record,
           completedCharacters (step e s) = completedCharacters s ++ [record]))
/\ (forall s : Script.State,
    Script.Reachable s ->
    let word := Script.wordToAnimate s in
    let index := Script.currentWordCharIndex s in
    (Script.animationActive s = true ->
     (index < List.length word)%nat ->
     (Script.processedPointsForCurrentChar s = []
      \/ Script.processedPointsForCurrentChar s
         = ScriptProps.glyphPoints (charAt word index))
     /\ (0 <= Script.currentFrame s
            <= List.length (ScriptProps.glyphPoints (charAt word index)) - 1)%nat)
    /\ Script.completedCharacters s = firstn index (ScriptProps.allCompleted word)
    /\ (forall id timestamp,
          Script.animationActive s = true ->
          (index < List.length word)%nat ->
          In id (Script.frameQueue s) ->
          Script.intervalElapsed timestamp s = true ->
          ScriptProps.TickSpec s (Script.step (Script.Frame id timestamp) s))
    /\ (forall e,
          ScriptProps.isClick e = false ->
          Script.completedCharacters (Script.step e s) = Script.completedCharacters s
          \/ exists record,
               Script.completedCharacters (Script.step e s)
               = Script.completedCharacters s ++ [record])).
Proof.
split.
- intros s Hr. pose proof (Reachable_Inv s Hr) as H.
  split; [|split; [|split]].
  + intros Ha. destruct (inv_active s H Ha) as (Hi & Hp & Ht & Hf).
    pose proof (glyphPoints_length _ (charAt_supported _ _ (inv_supported s H) Hi)) as Hg.
    rewrite <- Hp in Hg. repeat split; try assumption; lia.
  + apply (inv_completed s H).
  + intros id timestamp Hin Hdue. split.
    * apply (Inv_requests s id H Hin).
    * now apply tick_spec.
  + intros e He. now apply completed_extends.
- intros s Hr word index. subst word index.
  pose proof (ScriptFacts.script_Reachable_Inv s Hr) as H.
  split; [|split; [|split]].
  + intros Ha Hi.
    pose proof (ScriptFacts.script_glyphPoints_length _
                  (ScriptFacts.script_charAt_supported _ _ (ScriptProps.inv_supported s H) Hi))
      as Hg.
    destruct (ScriptProps.inv_active s H Ha) as (_ & [(Hp & Hf)|(_ & Hp & Ht & Hf)]).
    * split; [now left|]. rewrite Hf. lia.
    * split; [now right|]. rewrite Ht, Hp in Hf. lia.
  + apply (ScriptProps.inv_completed s H).
  + intros id timestamp Ha Hi Hin Hdue. now apply ScriptRuns.script_tick_spec.
  + intros e He. now apply ScriptRuns.script_completed_extends.
Qed.

Lemma tick_advances_cursor_or_glyph_witness :
(TickSpec part000_animating_A
   (step (Frame 3 (timestampOf 10)) part000_animating_A)
 /\ currentFrame (step (Frame 3 (timestampOf 10)) part000_animating_A) = 1%nat)
/\ ScriptProps.TickSpec script_animating_A
     (Script.step (Script.Frame 1 (timestampOf 20)) script_animating_A).
Proof.
destruct tick_advances_cursor_or_glyph as [P S].
split.
- assert (Hr : Reachable part000_animating_A)
    by (apply Reachable_run; constructor).
  destruct (P part000_animating_A Hr) as (_ & _ & T & _).
  assert (Hin : In (3%nat, Animate) (frameQueue part000_animating_A))
    by (vm_compute; tauto).
  assert (Hdue : intervalElapsed (timestampOf 10) part000_animating_A = true)
    by (vm_compute; reflexivity).
  split; [exact (proj2 (T 3%nat (timestampOf 10) Hin Hdue))|].
  vm_compute. reflexivity.
- assert (Hr : Script.Reachable script_animating_A)
    by (apply (Script.reach_step _ _ Script.reach_init)).
  destruct (S script_animating_A Hr) as (_ & _ & T & _).
  apply T.
  + vm_compute. reflexivity.
  + vm_compute. lia.
  + vm_compute. tauto.
  + vm_compute. reflexivity.
Defined.

(** C4, as stated, on [src/script.js]: a second word is submitted while
  the first is animated.  The run of [animate] requested for the first
  word is still requested after the click, and running it advances the
  cursor of the second word. *)
Lemma script_click_leaves_pending_tick :
In 1%nat (Script.frameQueue script_animating_A)
/\ In 1%nat (Script.frameQueue script_resubmitted)
/\ Script.currentFrame script_resubmitted = 0%nat
/\ Script.currentFrame
     (Script.step (Script.Frame 1 (timestampOf 20)) script_resubmitted) = 1%nat
/\ Script.step (Script.Frame 1 (timestampOf 20)) script_resubmitted
   <> script_resubmitted.
Proof.
assert (F : Script.currentFrame
              (Script.step (Script.Frame 1 (timestampOf 20)) script_resubmitted) = 1%nat)
  by (vm_compute; reflexivity).
split; [vm_compute; tauto|].
split; [vm_compute; tauto|].
split; [vm_compute; reflexivity|].
split; [exact F|].
intros E. rewrite E in F. vm_compute in F. discriminate F.
Qed.

(** C4.  In [src/unnamed/part_000], a click in any reachable state first
  cancels the requested run of [animate], leaving the progress of the
  word in flight untouched, then resets the state: with a word of
  supported characters the cursor and the character index are 0, the
  completed set is empty, the first character is prepared and exactly one
  run of [animate] is requested, under a fresh id; with no supported
  character nothing is requested and the completed set is empty.  A
  request of [animate] made before the click is no longer in the queue:
  running it changes nothing.  In [src/script.js] the click resets the
  state in the same way but cancels nothing: the requests made before it
  stay in the queue, followed by the new one. *)
Theorem submit_cancels_pending_tick :
(forall (s : State) (inputValue : list ascii) (now : float),
Reachable s ->
let word := filter (hasOwnProperty CHARACTER_DRAWING_DATA) inputValue in
let stopped := stopOngoingAnimation (set_wordToAnimate word s) in
let s' := step (Click inputValue now) s in
(animateRequests stopped = []
 /\ animationActive stopped = false
 /\ currentWordCharIndex stopped = currentWordCharIndex s
 /\ currentFrame stopped = currentFrame s
 /\ completedCharacters stopped = completedCharacters s)
/\ (word <> [] ->
    wordToAnimate s' = word
    /\ currentWordCharIndex s' = 0%nat
    /\ currentFrame s' = 0%nat
    /\ completedCharacters s' = []
    /\ processedPointsForCurrentChar s' = glyphPoints (charAt word 0)
    /\ animationActive s' = true
    /\ animationFrameId s' = Some (S (nextFrameId s))
    /\ animateRequests s' = [S (nextFrameId s)])
/\ (word = [] ->
    animationActive s' = false
    /\ completedCharacters s' = []
    /\ animateRequests s' = [])
/\ (forall id timestamp,
      In (id, Animate) (frameQueue s) ->
      ~ In id (map fst (frameQueue s'))
      /\ step (Frame id timestamp) s' = s'))
/\ (forall (s : Script.State) (inputValue : list ascii),
    let word := filter (hasOwnProperty Script.CHARACTER_DRAWING_DATA) inputValue in
    let s' := Script.step (Script.Click inputValue) s in
    (word <> [] ->
     Script.wordToAnimate s' = word
     /\ Script.currentWordCharIndex s' = 0%nat
     /\ Script.currentFrame s' = 0%nat
     /\ Script.completedCharacters s' = []
     /\ Script.processedPointsForCurrentChar s' = []
     /\ Script.animationActive s' = true
     /\ Script.frameQueue s' = Script.frameQueue s ++ [Script.nextFrameId s])
    /\ (word = [] ->
        Script.animationActive s' = false
        /\ Script.completedCharacters s' = []
        /\ Script.frameQueue s' = Script.frameQueue s)).
Proof.
split.
2:{ intros s inputValue word s'. subst s'. cbn [Script.step].
    pose proof (ScriptRuns.script_click_requests inputValue s) as Q. fold word in Q.
    split.
    - intros Hne. pose proof (ScriptFacts.script_click_word inputValue s Hne) as C.
      fold word in C.
      apply ScriptFacts.script_control_fields in C as (C1 & C2 & C3 & C4 & C5 & C6 & C7).
      destruct word as [|c w]; [congruence|]. auto 10.
    - intros He. pose proof (ScriptFacts.script_click_empty inputValue s He) as C.
      apply ScriptFacts.script_control_fields in C as (C1 & C2 & C3 & C4 & C5 & C6 & C7).
      rewrite He in Q. auto. }
intros s inputValue now Hr word stopped s'. pose proof (Reachable_Inv s Hr) as H.
destruct (stoppedQueue_spec s H) as (Q1 & Q2 & Q3 & Q4).
pose proof (stop_control word s) as C0. fold stopped in C0.
apply control_fields in C0 as (A1 & A2 & A3 & A4 & A5 & A6 & A7 & A8 & A9 & A10).
assert (Hword : word <> [] ->
          control s'
          = (word, 0%nat, glyphPoints (charAt word 0),
             List.length (glyphPoints (charAt word 0)), 0%nat, true,
             Some (S (nextFrameId s)), [],
             stoppedQueue s
             ++ [(nextFrameId s, RedrawCanvasContent); (S (nextFrameId s), Animate)],
             S (S (nextFrameId s)))).
{ intros Hne. exact (click_word inputValue now s Hne). }
assert (Hempty : word = [] ->
          control s'
          = ([], currentWordCharIndex s, processedPointsForCurrentChar s,
             totalFramesForCurrentChar s, currentFrame s, false, animationFrameId s, [],
             stoppedQueue s, nextFrameId s)).
{ intros He. exact (click_empty inputValue now s He). }
split; [|split; [|split]].
- unfold animateRequests. rewrite A9. auto.
- intros Hne. specialize (Hword Hne).
  apply control_fields in Hword as (B1 & B2 & B3 & B4 & B5 & B6 & B7 & B8 & B9 & B10).
  unfold animateRequests. rewrite B9, requestsOf_app, Q1. auto 10.
- intros He. specialize (Hempty He).
  apply control_fields in Hempty as (B1 & B2 & B3 & B4 & B5 & B6 & B7 & B8 & B9 & B10).
  unfold animateRequests. rewrite B9. auto.
- intros id timestamp Hin.
  destruct (Inv_requests s id H Hin) as (Ha & Hfid & _).
  destruct (inv_frameId s H id Hfid) as [Hid1 Hid2].
  assert (Hout : ~ In id (map fst (stoppedQueue s))).
  { unfold stoppedQueue. rewrite Hfid.
    destruct (Nat.eqb_spec id 0) as [->|_]; [lia|]. cbn [negb].
    intros Hi. apply in_map_iff in Hi as (e & Ee & He).
    apply without_In in He. tauto. }
  assert (Hq : ~ In id (map fst (frameQueue s'))).
  { destruct word as [|c w] eqn:Ew.
    - specialize (Hempty eq_refl).
      apply control_fields in Hempty as (_ & _ & _ & _ & _ & _ & _ & _ & B9 & _).
      now rewrite B9.
    - assert (Hne : c :: w <> []) by discriminate. specialize (Hword Hne).
      apply control_fields in Hword as (_ & _ & _ & _ & _ & _ & _ & _ & B9 & _).
      rewrite B9, map_app, in_app_iff. cbn. intros [Hi|[Hi|[Hi|[]]]]; [tauto|lia|lia]. }
  split; [exact Hq|]. cbn [step]. now apply runFrame_absent.
Qed.

Lemma submit_cancels_pending_tick_witness :
(animateRequests (step (Click ["B"%char] (timestampOf 5)) part000_animating_A) = [5%nat]
 /\ ~ In 3%nat
       (map fst (frameQueue (step (Click ["B"%char] (timestampOf 5)) part000_animating_A))))
/\ Script.frameQueue script_resubmitted = [1%nat; 2%nat].
Proof.
destruct submit_cancels_pending_tick as [P S].
split.
- assert (Hr : Reachable part000_animating_A)
    by (apply Reachable_run; constructor).
  destruct (P part000_animating_A ["B"%char] (timestampOf 5) Hr) as (_ & W & _ & Q).
  split.
  + assert (Hne : filter (hasOwnProperty CHARACTER_DRAWING_DATA) ["B"%char] <> [])
      by (vm_compute; discriminate).
    exact (proj2 (proj2 (proj2 (proj2 (proj2 (proj2 (proj2 (W Hne)))))))).
  + assert (Hin : In (3%nat, Animate) (frameQueue part000_animating_A))
      by (vm_compute; tauto).
    exact (proj1 (Q 3%nat (timestampOf 20) Hin)).
- destruct (S script_animating_A ["B"%char]) as [W _].
  assert (Hne : filter (hasOwnProperty Script.CHARACTER_DRAWING_DATA) ["B"%char] <> [])
    by (vm_compute; discriminate).
  exact (proj2 (proj2 (proj2 (proj2 (proj2 (proj2 (W Hne))))))).
Defined.

Lemma dueTicks_Inv_word (n : nat) (s s' : State) :
DueTicks n s s' -> Inv s -> Inv s' /\ wordToAnimate s' = wordToAnimate s.
Proof.
intros Hrun. induction Hrun as [s1|n s1 id timestamp s2 Hi Hd Hrest IH]; intros H0.
- auto.
- destruct (IH (Inv_step (Frame id timestamp) s1 H0)) as [I W].
  split; [exact I|].
  rewrite W. now apply word_preserved.
Qed.

(** C9.  In every reachable state, a click with a word of supported
  characters resets the animation: index and cursor are 0, the completed
  set is empty, the first character is prepared (compiled lazily in
  [src/script.js]) and a run of [animate] is requested.  From there, as
  many due runs of [animate] as the word has frames finish the word, and
  whenever the word is finished, whatever the host did short of another
  click, the completed set is the one of the word: its characters left to
  right, each with its compiled points and its slot offset [index * 7],
  one record per character.  This set depends on the word alone, so
  re-submitting the word of a finished animation resets the state in the
  same way and, once finished again, gives the completed set of the
  previous run. *)
Theorem resubmit_reproduces_completed_set :
(forall (s : State) (inputValue word : list ascii) (now : float),
    Reachable s ->
    filter (hasOwnProperty CHARACTER_DRAWING_DATA) inputValue = word ->
    word <> [] ->
    let s0 := step (Click inputValue now) s in
    (wordToAnimate s0 = word
     /\ currentWordCharIndex s0 = 0%nat
     /\ currentFrame s0 = 0%nat
     /\ completedCharacters s0 = []
     /\ processedPointsForCurrentChar s0 = glyphPoints (charAt word 0)
     /\ animationActive s0 = true
     /\ animateRequests s0 = [S (nextFrameId s)])
    /\ (forall s1,
          DueTicks (framesOfGlyphs word) s0 s1 ->
          Finished s1
          /\ wordToAnimate s1 = word
          /\ completedCharacters s1 = allCompleted word)
    /\ (forall events,
          forallb (fun e => negb (isClick e)) events = true ->
          Finished (run events s0) ->
          wordToAnimate (run events s0) = word
          /\ completedCharacters (run events s0) = allCompleted word)
    /\ List.length (allCompleted word) = List.length word)
/\ (forall (s : State) (inputValue : list ascii) (now : float),
    Reachable s ->
    Finished s ->
    filter (hasOwnProperty CHARACTER_DRAWING_DATA) inputValue = wordToAnimate s ->
    let s0 := step (Click inputValue now) s in
    (wordToAnimate s0 = wordToAnimate s
     /\ currentWordCharIndex s0 = 0%nat
     /\ currentFrame s0 = 0%nat
     /\ completedCharacters s0 = []
     /\ animationActive s0 = true)
    /\ (forall events,
          forallb (fun e => negb (isClick e)) events = true ->
          Finished (run events s0) ->
          completedCharacters (run events s0) = completedCharacters s)
    /\ (forall s',
          DueTicks (framesOfGlyphs (wordToAnimate s)) s0 s' ->
          Finished s' /\ completedCharacters s' = completedCharacters s))
/\ (forall (s : Script.State) (inputValue word : list ascii),
    Script.Reachable s ->
    filter (hasOwnProperty Script.CHARACTER_DRAWING_DATA) inputValue = word ->
    word <> [] ->
    let s0 := Script.step (Script.Click inputValue) s in
    (Script.wordToAnimate s0 = word
     /\ Script.currentWordCharIndex s0 = 0%nat
     /\ Script.currentFrame s0 = 0%nat
     /\ Script.completedCharacters s0 = []
     /\ Script.processedPointsForCurrentChar s0 = []
     /\ Script.animationActive s0 = true
     /\ Script.frameQueue s0 = Script.frameQueue s ++ [Script.nextFrameId s])
    /\ (forall s1,
          ScriptProps.DueTicks (ScriptProps.framesOfGlyphs word) s0 s1 ->
          ScriptProps.Finished s1
          /\ Script.wordToAnimate s1 = word
          /\ Script.completedCharacters s1 = ScriptProps.allCompleted word)
    /\ (forall events,
          forallb (fun e => negb (ScriptProps.isClick e)) events = true ->
          ScriptProps.Finished (Script.run events s0) ->
          Script.wordToAnimate (Script.run events s0) = word
          /\ Script.completedCharacters (Script.run events s0)
             = ScriptProps.allCompleted word)
    /\ List.length (ScriptProps.allCompleted word) = List.length word)
/\ (forall (s : Script.State) (inputValue : list ascii),
    Script.Reachable s ->
    ScriptProps.Finished s ->
    filter (hasOwnProperty Script.CHARACTER_DRAWING_DATA) inputValue
    = Script.wordToAnimate s ->
    let s0 := Script.step (Script.Click inputValue) s in
    (Script.wordToAnimate s0 = Script.wordToAnimate s
     /\ Script.currentWordCharIndex s0 = 0%nat
     /\ Script.currentFrame s0 = 0%nat
     /\ Script.completedCharacters s0 = []
     /\ Script.animationActive s0 = true)
    /\ (forall events,
          forallb (fun e => negb (ScriptProps.isClick e)) events = true ->
          ScriptProps.Finished (Script.run events s0) ->
          Script.completedCharacters (Script.run events s0)
          = Script.completedCharacters s)
    /\ (forall s',
          ScriptProps.DueTicks (ScriptProps.framesOfGlyphs (Script.wordToAnimate s)) s0 s' ->
          ScriptProps.Finished s'
          /\ Script.completedCharacters s' = Script.completedCharacters s)).
Proof.
assert (P1 : forall (s : State) (inputValue word : list ascii) (now : float),
    Reachable s ->
    filter (hasOwnProperty CHARACTER_DRAWING_DATA) inputValue = word ->
    word <> [] ->
    let s0 := step (Click inputValue now) s in
    (wordToAnimate s0 = word
     /\ currentWordCharIndex s0 = 0%nat
     /\ currentFrame s0 = 0%nat
     /\ completedCharacters s0 = []
     /\ processedPointsForCurrentChar s0 = glyphPoints (charAt word 0)
     /\ animationActive s0 = true
     /\ animateRequests s0 = [S (nextFrameId s)])
    /\ (forall s1,
          DueTicks (framesOfGlyphs word) s0 s1 ->
          Finished s1
          /\ wordToAnimate s1 = word
          /\ completedCharacters s1 = allCompleted word)
    /\ (forall events,
          forallb (fun e => negb (isClick e)) events = true ->
          Finished (run events s0) ->
          wordToAnimate (run events s0) = word
          /\ completedCharacters (run events s0) = allCompleted word)
    /\ List.length (allCompleted word) = List.length word).
{ intros s inputValue word now Hr Hw Hne s0. pose proof (Reachable_Inv s Hr) as H.
  assert (E0 : s0 = onAnimateClick inputValue now s) by reflexivity.
  clearbody s0. subst s0.
  assert (Hne' : filter (hasOwnProperty CHARACTER_DRAWING_DATA) inputValue <> [])
    by now rewrite Hw.
  pose proof (click_word inputValue now s Hne') as C. cbv zeta in C. rewrite Hw in C.
  destruct (stoppedQueue_spec s H) as (Q1 & _).
  set (s0 := onAnimateClick inputValue now s) in *.
  assert (H0 : Inv s0) by (apply (Inv_step (Click inputValue now) s H)).
  clearbody s0.
  apply control_fields in C as (B1 & B2 & B3 & B4 & B5 & B6 & B7 & B8 & B9 & B10).
  split; [|split; [|split]].
  - unfold animateRequests. rewrite B9, requestsOf_app, Q1. auto 10.
  - intros s1 Hrun.
    assert (Hleft : framesLeft s0 = framesOfGlyphs word).
    { unfold framesLeft. rewrite B1, B2, B5. cbn [skipn]. lia. }
    pose proof (dueTicks_finish _ s0 s1 H0 B6 Hleft Hrun) as Hf.
    destruct (dueTicks_Inv_word _ s0 s1 Hrun H0) as [I W].
    split; [exact Hf|]. split; [congruence|].
    rewrite (finished_completed s1 I Hf). congruence.
  - intros events Hev Hf.
    pose proof (run_word events s0 H0 Hev) as W.
    split; [congruence|].
    rewrite (finished_completed _ (run_Inv events s0 H0) Hf). congruence.
  - apply allCompleted_length. }
assert (S1 : forall (s : Script.State) (inputValue word : list ascii),
    Script.Reachable s ->
    filter (hasOwnProperty Script.CHARACTER_DRAWING_DATA) inputValue = word ->
    word <> [] ->
    let s0 := Script.step (Script.Click inputValue) s in
    (Script.wordToAnimate s0 = word
     /\ Script.currentWordCharIndex s0 = 0%nat
     /\ Script.currentFrame s0 = 0%nat
     /\ Script.completedCharacters s0 = []
     /\ Script.processedPointsForCurrentChar s0 = []
     /\ Script.animationActive s0 = true
     /\ Script.frameQueue s0 = Script.frameQueue s ++ [Script.nextFrameId s])
    /\ (forall s1,
          ScriptProps.DueTicks (ScriptProps.framesOfGlyphs word) s0 s1 ->
          ScriptProps.Finished s1
          /\ Script.wordToAnimate s1 = word
          /\ Script.completedCharacters s1 = ScriptProps.allCompleted word)
    /\ (forall events,
          forallb (fun e => negb (ScriptProps.isClick e)) events = true ->
          ScriptProps.Finished (Script.run events s0) ->
          Script.wordToAnimate (Script.run events s0) = word
          /\ Script.completedCharacters (Script.run events s0)
             = ScriptProps.allCompleted word)
    /\ List.length (ScriptProps.allCompleted word) = List.length word).
{ intros s inputValue word Hr Hw Hne s0.
  pose proof (ScriptFacts.script_Reachable_Inv s Hr) as H.
  assert (H0 : ScriptProps.Inv s0) by (apply (ScriptFacts.script_Inv_step _ s H)).
  assert (Hne' : filter (hasOwnProperty Script.CHARACTER_DRAWING_DATA) inputValue <> [])
    by now rewrite Hw.
  pose proof (ScriptFacts.script_click_word inputValue s Hne') as C. rewrite Hw in C.
  pose proof (ScriptRuns.script_click_requests inputValue s) as Q. rewrite Hw in Q.
  change (Script.onAnimateClick inputValue s) with s0 in C, Q. clearbody s0.
  apply ScriptFacts.script_control_fields in C as (C1 & C2 & C3 & C4 & C5 & C6 & C7).
  split; [|split; [|split]].
  - destruct word as [|c w]; [congruence|]. auto 10.
  - intros s1 Hrun.
    assert (Hleft : ScriptProps.framesLeft s0 = ScriptProps.framesOfGlyphs word).
    { unfold ScriptProps.framesLeft. rewrite C1, C2, C5. cbn [skipn]. lia. }
    assert (Hw0 : Script.wordToAnimate s0 <> []) by congruence.
    destruct (ScriptRuns.script_dueTicks_finish _ s0 s1 H0 C6 Hw0 Hleft Hrun) as (F & I & W).
    split; [exact F|]. split; [congruence|].
    rewrite (ScriptRuns.script_finished_completed s1 I F). congruence.
  - intros events Hev Hf.
    pose proof (ScriptRuns.script_run_word events s0 H0 Hev) as W.
    split; [congruence|].
    rewrite (ScriptRuns.script_finished_completed _ (ScriptRuns.script_run_Inv events s0 H0) Hf).
    congruence.
  - unfold ScriptProps.allCompleted. now rewrite length_map, length_seq. }
split; [exact P1|]. split; [|split; [exact S1|]].
- intros s inputValue now Hr Hfin Hin s0.
  assert (Hne : filter (hasOwnProperty CHARACTER_DRAWING_DATA) inputValue <> []).
  { rewrite Hin. apply Hfin. }
  pose proof (finished_completed s (Reachable_Inv s Hr) Hfin) as Hdone.
  destruct (P1 s inputValue (wordToAnimate s) now Hr Hin) as (R & D & E & _);
    [apply Hfin|].
  fold s0 in R, D, E. clearbody s0.
  destruct R as (R1 & R2 & R3 & R4 & _ & R6 & _).
  split; [auto|split].
  + intros events Hev Hf. rewrite Hdone. now apply E.
  + intros s' Hrun. destruct (D s' Hrun) as (F & _ & C).
    split; [exact F|congruence].
- intros s inputValue Hr Hfin Hin s0.
  assert (Hne : filter (hasOwnProperty Script.CHARACTER_DRAWING_DATA) inputValue <> []).
  { rewrite Hin. apply Hfin. }
  pose proof (ScriptRuns.script_finished_completed s
                (ScriptFacts.script_Reachable_Inv s Hr) Hfin) as Hdone.
  destruct (S1 s inputValue (Script.wordToAnimate s) Hr Hin) as (R & D & E & _);
    [apply Hfin|].
  fold s0 in R, D, E. clearbody s0.
  destruct R as (R1 & R2 & R3 & R4 & _ & R6 & _).
  split; [auto|split].
  + intros events Hev Hf. rewrite Hdone. now apply E.
  + intros s' Hrun. destruct (D s' Hrun) as (F & _ & C).
    split; [exact F|congruence].
Qed.

(** A run of each file: the word is submitted and animated to its end,
  then submitted again and animated to its end again ([J], 208 frames, in
  [part_000], the second click 2100 ms after the first; [F], 311 frames,
  in [script.js]). *)
Lemma resubmit_reproduces_completed_set_witness :
(currentWordCharIndex (step (Click ["J"%char] (timestampOf 0)) part000_loaded) = 0%nat
 /\ animationActive (step (Click ["J"%char] (timestampOf 0)) part000_loaded) = true
 /\ Finished
      (run (part000_later_frames 3 208 0)
      (step (Click ["J"%char] (timestampOf 0)) part000_loaded))
 /\ completedCharacters
      (run (part000_later_frames 3 208 0)
      (step (Click ["J"%char] (timestampOf 0)) part000_loaded))
    = allCompleted ["J"%char]
 /\ List.length (allCompleted ["J"%char]) = List.length ["J"%char]
 /\ currentWordCharIndex
      (step (Click ["J"%char] (timestampOf 2100))
      (run (part000_later_frames 3 208 0)
      (step (Click ["J"%char] (timestampOf 0)) part000_loaded)))
    = 0%nat
 /\ completedCharacters
      (step (Click ["J"%char] (timestampOf 2100))
      (run (part000_later_frames 3 208 0)
      (step (Click ["J"%char] (timestampOf 0)) part000_loaded)))
    = []
 /\ Finished
      (run (part000_later_frames 212 208 2100)
      (step (Click ["J"%char] (timestampOf 2100))
      (run (part000_later_frames 3 208 0)
      (step (Click ["J"%char] (timestampOf 0)) part000_loaded))))
 /\ completedCharacters
      (run (part000_later_frames 212 208 2100)
      (step (Click ["J"%char] (timestampOf 2100))
      (run (part000_later_frames 3 208 0)
      (step (Click ["J"%char] (timestampOf 0)) part000_loaded))))
    = completedCharacters
        (run (part000_later_frames 3 208 0)
      (step (Click ["J"%char] (timestampOf 0)) part000_loaded)))
/\ (Script.currentWordCharIndex (Script.step (Script.Click ["F"%char]) Script.initialState)
    = 0%nat
    /\ ScriptProps.Finished
         (Script.run (script_frames 1 311 0)
      (Script.step (Script.Click ["F"%char]) Script.initialState))
    /\ Script.completedCharacters
         (Script.run (script_frames 1 311 0)
      (Script.step (Script.Click ["F"%char]) Script.initialState))
       = ScriptProps.allCompleted ["F"%char]
    /\ List.length (ScriptProps.allCompleted ["F"%char]) = List.length ["F"%char]
    /\ Script.currentWordCharIndex
         (Script.step (Script.Click ["F"%char])
      (Script.run (script_frames 1 311 0)
      (Script.step (Script.Click ["F"%char]) Script.initialState)))
       = 0%nat
    /\ Script.completedCharacters
         (Script.step (Script.Click ["F"%char])
      (Script.run (script_frames 1 311 0)
      (Script.step (Script.Click ["F"%char]) Script.initialState)))
       = []
    /\ ScriptProps.Finished
         (Script.run (script_frames 312 311 311)
      (Script.step (Script.Click ["F"%char])
      (Script.run (script_frames 1 311 0)
      (Script.step (Script.Click ["F"%char]) Script.initialState))))
    /\ Script.completedCharacters
         (Script.run (script_frames 312 311 311)
      (Script.step (Script.Click ["F"%char])
      (Script.run (script_frames 1 311 0)
      (Script.step (Script.Click ["F"%char]) Script.initialState))))
       = Script.completedCharacters
           (Script.run (script_frames 1 311 0)
      (Script.step (Script.Click ["F"%char]) Script.initialState))).
Proof.
destruct resubmit_reproduces_completed_set as (P & P' & S & S').
split.
- assert (Hr0 : Reachable part000_loaded) by (constructor; constructor).
  assert (Hw : filter (hasOwnProperty CHARACTER_DRAWING_DATA) ["J"%char] = ["J"%char])
    by reflexivity.
  assert (Hne : ["J"%char] <> []) by discriminate.
  assert (Hfin1 : Finished
                    (run (part000_later_frames 3 208 0)
      (step (Click ["J"%char] (timestampOf 0)) part000_loaded))).
  { split; [lazy; reflexivity|].
    split; [lazy; discriminate|lazy; reflexivity]. }
  assert (Hfin2 : Finished
                    (run (part000_later_frames 212 208 2100)
      (step (Click ["J"%char] (timestampOf 2100))
      (run (part000_later_frames 3 208 0)
      (step (Click ["J"%char] (timestampOf 0)) part000_loaded))))).
  { split; [lazy; reflexivity|].
    split; [lazy; discriminate|lazy; reflexivity]. }
  assert (Hr1 : Reachable
                  (run (part000_later_frames 3 208 0)
      (step (Click ["J"%char] (timestampOf 0)) part000_loaded))).
  { apply Reachable_run. constructor. exact Hr0. }
  assert (Hin : filter (hasOwnProperty CHARACTER_DRAWING_DATA) ["J"%char]
                = wordToAnimate
                    (run (part000_later_frames 3 208 0)
      (step (Click ["J"%char] (timestampOf 0)) part000_loaded)))
    by (lazy; reflexivity).
  assert (Hev1 : forallb (fun e => negb (isClick e)) (part000_later_frames 3 208 0) = true)
    by (lazy; reflexivity).
  assert (Hev2 : forallb (fun e => negb (isClick e)) (part000_later_frames 212 208 2100)
                 = true) by (lazy; reflexivity).
  destruct (P part000_loaded ["J"%char] ["J"%char] (timestampOf 0) Hr0 Hw Hne)
    as (R0 & _ & E0 & L0).
  destruct (P _ ["J"%char] ["J"%char] (timestampOf 2100) Hr1 Hw Hne)
    as (R1 & _ & _ & _).
  destruct (P' _ ["J"%char] (timestampOf 2100) Hr1 Hfin1 Hin) as (_ & E1 & _).
  split; [exact (proj1 (proj2 R0))|].
  split; [exact (proj1 (proj2 (proj2 (proj2 (proj2 (proj2 R0))))))|].
  split; [exact Hfin1|].
  split; [exact (proj2 (E0 (part000_later_frames 3 208 0) Hev1 Hfin1))|].
  split; [exact L0|].
  split; [exact (proj1 (proj2 R1))|].
  split; [exact (proj1 (proj2 (proj2 (proj2 R1))))|].
  split; [exact Hfin2|].
  exact (E1 (part000_later_frames 212 208 2100) Hev2 Hfin2).
- assert (Hr0 : Script.Reachable Script.initialState) by constructor.
  assert (Hw : filter (hasOwnProperty Script.CHARACTER_DRAWING_DATA) ["F"%char]
               = ["F"%char]) by reflexivity.
  assert (Hne : ["F"%char] <> []) by discriminate.
  assert (Hfin1 : ScriptProps.Finished
                    (Script.run (script_frames 1 311 0)
      (Script.step (Script.Click ["F"%char]) Script.initialState))).
  { split; [lazy; discriminate|lazy; reflexivity]. }
  assert (Hfin2 : ScriptProps.Finished
                    (Script.run (script_frames 312 311 311)
      (Script.step (Script.Click ["F"%char])
      (Script.run (script_frames 1 311 0)
      (Script.step (Script.Click ["F"%char]) Script.initialState))))).
  { split; [lazy; discriminate|lazy; reflexivity]. }
  assert (Hr1 : Script.Reachable
                  (Script.run (script_frames 1 311 0)
      (Script.step (Script.Click ["F"%char]) Script.initialState)))
    by (apply ScriptRuns.script_Reachable_run, Script.reach_step, Script.reach_init).
  assert (Hin : filter (hasOwnProperty Script.CHARACTER_DRAWING_DATA) ["F"%char]
                = Script.wordToAnimate
                    (Script.run (script_frames 1 311 0)
      (Script.step (Script.Click ["F"%char]) Script.initialState)))
    by (lazy; reflexivity).
  assert (Hev1 : forallb (fun e => negb (ScriptProps.isClick e)) (script_frames 1 311 0)
                 = true) by (lazy; reflexivity).
  assert (Hev2 : forallb (fun e => negb (ScriptProps.isClick e)) (script_frames 312 311 311)
                 = true) by (lazy; reflexivity).
  destruct (S Script.initialState ["F"%char] ["F"%char] Hr0 Hw Hne) as (R0 & _ & E0 & L0).
  destruct (S _ ["F"%char] ["F"%char] Hr1 Hw Hne) as (R1 & _ & _ & _).
  destruct (S' _ ["F"%char] Hr1 Hfin1 Hin) as (_ & E1 & _).
  split; [exact (proj1 (proj2 R0))|].
  split; [exact Hfin1|].
  split; [exact (proj2 (E0 (script_frames 1 311 0) Hev1 Hfin1))|].
  split; [exact L0|].
  split; [exact (proj1 (proj2 R1))|].
  split; [exact (proj1 (proj2 (proj2 (proj2 R1))))|].
  split; [exact Hfin2|].
  exact (E1 (script_frames 312 311 311) Hev2 Hfin2).
Defined.

End Controller.

(* ================================================================== *)
(** * Unknown and known glyphs *)

(** C7.  [prepareAnimationForCharacter] on a character without an entry in
    the glyph table returns false and leaves an empty point sequence with 0
    frames; it does not fail.  In [src/script.js], the due frame that finds
    the current character unprepared and without an entry skips it at once:
    the character index grows by one, the cursor is 0, the completed set is
    unchanged, the canvas shows the completed characters only, and the next
    frame is requested. *)
Theorem unknown_glyph_is_skipped :
  (forall (c : ascii) (s : Script.State),
      hasOwnProperty Script.CHARACTER_DRAWING_DATA c = false ->
      Script.prepareAnimationForCharacter c s
      = (false, Script.set_totalFramesForCurrentChar 0
                  (Script.set_processedPointsForCurrentChar [] s)))
  /\ (forall (c : ascii) (s : Part000.State),
        hasOwnProperty Part000.CHARACTER_DRAWING_DATA c = false ->
        Part000.prepareAnimationForCharacter c s
        = (false, Part000.set_totalFramesForCurrentChar 0
                    (Part000.set_processedPointsForCurrentChar [] s)))
  /\ (forall (s : Script.State) (timestamp : float),
        Script.animationActive s = true ->
        Script.intervalElapsed timestamp s = true ->
        (Script.currentWordCharIndex s < List.length (Script.wordToAnimate s))%nat ->
        Script.processedPointsForCurrentChar s = [] ->
        hasOwnProperty Script.CHARACTER_DRAWING_DATA
          (charAt (Script.wordToAnimate s) (Script.currentWordCharIndex s)) = false ->
        let s' := Script.animate timestamp s in
        Script.currentWordCharIndex s' = S (Script.currentWordCharIndex s)
        /\ Script.currentFrame s' = 0%nat
        /\ Script.processedPointsForCurrentChar s' = []
        /\ Script.totalFramesForCurrentChar s' = 0%nat
        /\ Script.completedCharacters s' = Script.completedCharacters s
        /\ Script.wordToAnimate s' = Script.wordToAnimate s
        /\ Script.animationActive s' = true
        /\ Script.frameQueue s' = Script.frameQueue s ++ [Script.nextFrameId s]
        /\ Script.canvasOps s'
           = (Script.canvasOps s
              ++ [ClearRect; SetLineWidth (lit binary64 1.5); SetStrokeStyle "black"])
             ++ flat_map (fun completedCharData =>
                            drawPath (Script.transformPoint s)
                                     (processedPoints completedCharData)
                                     (xOffset completedCharData))
                         (Script.completedCharacters s)).
Proof.
  split; [|split].
  - intros c s Hc. now apply ScriptFacts.script_prepare_unsupported.
  - intros c s Hc. now apply Part000Facts.prepare_unsupported.
  - intros s timestamp Ha Hd Hi Hp Hc s'. subst s'.
    rewrite (ScriptFacts.script_animate_due timestamp s Ha Hd).
    assert (E : Script.animateCurrent (Script.beginFrame timestamp s)
                = Script.skipCharacter
                    (Script.set_totalFramesForCurrentChar 0
                       (Script.set_processedPointsForCurrentChar []
                          (Script.beginFrame timestamp s)))).
    { unfold Script.animateCurrent.
      change (Script.currentWordCharIndex (Script.beginFrame timestamp s))
        with (Script.currentWordCharIndex s).
      change (Script.wordToAnimate (Script.beginFrame timestamp s))
        with (Script.wordToAnimate s).
      change (Script.processedPointsForCurrentChar (Script.beginFrame timestamp s))
        with (Script.processedPointsForCurrentChar s).
      apply Nat.ltb_lt in Hi. rewrite Hi, Hp. cbn [List.length Nat.eqb].
      now rewrite (ScriptFacts.script_prepare_unsupported _ _ Hc). }
    rewrite E. repeat split; try reflexivity. exact Ha.
Qed.

Lemma unknown_glyph_is_skipped_witness :
  (Script.currentWordCharIndex (Script.animate (timestampOf 20) script_bypassed) = 1%nat
   /\ Script.currentFrame (Script.animate (timestampOf 20) script_bypassed) = 0%nat)
  /\ fst (Script.prepareAnimationForCharacter "Z"%char script_animating_A) = false
  /\ fst (Part000.prepareAnimationForCharacter "Z"%char part000_animating_A) = false.
Proof.
  destruct unknown_glyph_is_skipped as (S & P & T).
  split; [|split].
  - assert (Ha : Script.animationActive script_bypassed = true) by reflexivity.
    assert (Hd : Script.intervalElapsed (timestampOf 20) script_bypassed = true)
      by (vm_compute; reflexivity).
    assert (Hi : (Script.currentWordCharIndex script_bypassed
                  < List.length (Script.wordToAnimate script_bypassed))%nat)
      by (vm_compute; lia).
    assert (Hp : Script.processedPointsForCurrentChar script_bypassed = [])
      by reflexivity.
    assert (Hc : hasOwnProperty Script.CHARACTER_DRAWING_DATA
                   (charAt (Script.wordToAnimate script_bypassed)
                      (Script.currentWordCharIndex script_bypassed)) = false)
      by (vm_compute; reflexivity).
    pose proof (T script_bypassed (timestampOf 20) Ha Hd Hi Hp Hc) as (I & F & _).
    split; [exact I|exact F].
  - rewrite (S "Z"%char script_animating_A); reflexivity.
  - rewrite (P "Z"%char part000_animating_A); reflexivity.
Defined.

(** C10.  For every character of the glyph table of [part_000], which
    extends that of [script.js], the compiled point sequence has at least 21
    points, starts at the start of the first segment and ends at the end of
    the last one.  Hence, in every reachable state of [script.js] the
    current character can be prepared (the skip branch is not taken), and
    in every reachable state of [part_000] the active glyph has at least 21
    frames and a click with a supported character starts the animation
    (the failure branch of the handler is not taken). *)
Theorem table_glyphs_have_frames :
  (forall (c : ascii) (segs : list SegmentData),
      glyphLookup CHARACTER_DRAWING_DATA_part000 c = Some segs ->
      let segments := map (segmentOf binary64) segs in
      let points := flattenSegments binary64 segments in
      (21 <= List.length points)%nat
      /\ exists first final firstPoint lastPoint,
           hd_error segments = Some first
           /\ lastOf segments = Some final
           /\ hd_error points = Some firstPoint
           /\ lastOf points = Some lastPoint
           /\ pointEqb binary64 firstPoint (fst first) = true
           /\ pointEqb binary64 lastPoint (snd final) = true)
  /\ (forall (c : ascii) (segs : list SegmentData),
        glyphLookup CHARACTER_DRAWING_DATA_script c = Some segs ->
        glyphLookup CHARACTER_DRAWING_DATA_part000 c = Some segs)
  /\ (forall s : Script.State,
        Script.Reachable s ->
        (Script.currentWordCharIndex s < List.length (Script.wordToAnimate s))%nat ->
        exists s',
          Script.prepareAnimationForCharacter
            (charAt (Script.wordToAnimate s) (Script.currentWordCharIndex s)) s
          = (true, s')
          /\ (21 <= List.length (Script.processedPointsForCurrentChar s'))%nat)
  /\ (forall s : Part000.State,
        Part000.Reachable s ->
        Part000.animationActive s = true ->
        (21 <= Part000.totalFramesForCurrentChar s)%nat
        /\ Part000.totalFramesForCurrentChar s
           = List.length (Part000.processedPointsForCurrentChar s))
  /\ (forall (s : Part000.State) (inputValue : list ascii) (now : float),
        Part000.Reachable s ->
        filter (hasOwnProperty Part000.CHARACTER_DRAWING_DATA) inputValue <> [] ->
        Part000.animationActive (Part000.step (Part000.Click inputValue now) s) = true).
Proof.
  split; [|split; [|split; [|split]]].
  - intros c segs Hc segments points.
    pose proof (table_entry entryCompiledOk c segs table_compiled Hc) as Hok.
    unfold entryCompiledOk in Hok. cbn [snd] in Hok.
    fold segments in Hok. fold points in Hok.
    apply andb_prop in Hok as [Hok Hlast]. apply andb_prop in Hok as [Hlen Hfirst].
    apply Nat.leb_le in Hlen. split; [exact Hlen|].
    destruct segments as [|first rest]; [discriminate|].
    destruct points as [|firstPoint more]; [discriminate|].
    destruct (lastOf (first :: rest)) as [final|]; [|discriminate].
    destruct (lastOf (firstPoint :: more)) as [lastPoint|]; [|discriminate].
    exists first, final, firstPoint, lastPoint. repeat split; assumption.
  - apply glyphLookup_script_part000.
  - intros s Hr Hi.
    pose proof (ScriptFacts.script_Reachable_Inv s Hr) as H.
    pose proof (ScriptFacts.script_charAt_supported _ _ (ScriptProps.inv_supported s H) Hi) as Hc.
    rewrite (ScriptFacts.script_prepare_supported _ s Hc). eexists. split; [reflexivity|].
    apply (ScriptFacts.script_glyphPoints_length _ Hc).
  - intros s Hr Ha.
    pose proof (Part000Facts.Reachable_Inv s Hr) as H.
    destruct (Part000Props.inv_active s H Ha) as (Hi & Hp & Ht & Hf).
    pose proof (Part000Facts.glyphPoints_length _
                  (Part000Facts.charAt_supported _ _ (Part000Props.inv_supported s H) Hi))
      as Hg.
    rewrite <- Hp, <- Ht in Hg. split; assumption.
  - intros s inputValue now Hr Hne.
    pose proof (Part000Facts.click_word inputValue now s Hne) as C. cbv zeta in C.
    apply Part000Facts.control_fields in C. apply C.
Qed.

Lemma table_glyphs_have_frames_witness :
  (21 <= List.length (flattenSegments binary64 (map (segmentOf binary64) Glyphs.glyph_J)))%nat
  /\ (21 <= Part000.totalFramesForCurrentChar part000_animating_A)%nat
  /\ Part000.animationActive
       (Part000.step (Part000.Click ["B"%char] (timestampOf 5)) part000_animating_A) = true
  /\ (exists s',
        Script.prepareAnimationForCharacter "A"%char script_animating_A = (true, s')
        /\ (21 <= List.length (Script.processedPointsForCurrentChar s'))%nat).
Proof.
  destruct table_glyphs_have_frames as (G & _ & S & A & C).
  assert (Hr : Part000.Reachable part000_animating_A)
    by (apply Controller.Reachable_run; constructor).
  split; [|split; [|split]].
  - assert (Hc : glyphLookup CHARACTER_DRAWING_DATA_part000 "J"%char = Some Glyphs.glyph_J)
      by reflexivity.
    exact (proj1 (G "J"%char Glyphs.glyph_J Hc)).
  - assert (Ha : Part000.animationActive part000_animating_A = true)
      by (vm_compute; reflexivity).
    exact (proj1 (A part000_animating_A Hr Ha)).
  - apply (C part000_animating_A ["B"%char] (timestampOf 5) Hr).
    vm_compute. discriminate.
  - assert (Hs : Script.Reachable script_animating_A)
      by (apply (Script.reach_step _ _ Script.reach_init)).
    assert (Hi : (Script.currentWordCharIndex script_animating_A
                  < List.length (Script.wordToAnimate script_animating_A))%nat)
      by (vm_compute; lia).
    exact (S script_animating_A Hs Hi).
Defined.

(* ================================================================== *)
(** * The fit factors under binary64 rounding *)

Section ScalingRounding.

Local Open Scope Q_scope.

Lemma wordScaleFactorOf_eq (A : Arith) (W H : N) (baseScale : A) (n : nat) :
  wordScaleFactorOf A W H baseScale n
  = nmin A (fitFactor A (ofN A W) (baseScaledPixelWidth A n baseScale))
           (fitFactor A (ofN A H) (baseScaledPixelHeight A baseScale)).
Proof. reflexivity. Qed.

Lemma scriptWordScaleFactor_eq (A : Arith) (n : nat) :
  scriptWordScaleFactor A n
  = fitFactor A (DATA_RANGE_X A) (mul A (ofNat A n) (CHAR_WIDTH_DATA_UNITS A)).
Proof. reflexivity. Qed.

Lemma PosNormal_margin : PosNormal 1 (lit binary64 0.95) /\ valueOf (lit binary64 0.95) < 1.
Proof.
  split.
  - apply (PosNormal_of_spec 1 _ 8556839292003942 (-53)); [reflexivity|unfold normal; lia|lia].
  - vm_compute. reflexivity.
Qed.

Lemma PosNormal_charWidth :
  PosNormal 2 (CHAR_WIDTH_DATA_UNITS binary64) /\ valueOf (CHAR_WIDTH_DATA_UNITS binary64) == 7.
Proof.
  split.
  - apply (PosNormal_of_spec 2 _ 7881299347898368 (-50)); [reflexivity|unfold normal; lia|lia].
  - vm_compute. reflexivity.
Qed.

Lemma PosNormal_dataRange :
  PosNormal 3 (DATA_RANGE_Y binary64) /\ DATA_RANGE_X binary64 = DATA_RANGE_Y binary64
  /\ nmax binary64 (DATA_RANGE_X binary64) (DATA_RANGE_Y binary64) = DATA_RANGE_Y binary64.
Proof.
  split; [|split; reflexivity].
  apply (PosNormal_of_spec 3 _ 5910974510923776 (-49)); [reflexivity|unfold normal; lia|lia].
Qed.

Lemma PosNormal_sizeMultiplier : PosNormal 0 (SIZE_MULTIPLIER binary64).
Proof.
  apply (PosNormal_of_spec 0 _ 8106479329266893 (-52)); [reflexivity|unfold normal; lia|lia].
Qed.

Lemma fit_unguarded (avail block : float) :
  PrimFloat.ltb avail block = false -> fitFactor binary64 avail block = 1%float.
Proof.
  intros H. unfold fitFactor, gtb. change (ltb binary64) with PrimFloat.ltb.
  rewrite H. reflexivity.
Qed.

Lemma fit_guarded (avail block : float) :
  PrimFloat.ltb avail block = true ->
  fitFactor binary64 avail block
  = PrimFloat.mul (PrimFloat.div avail block) (lit binary64 0.95).
Proof.
  intros H. unfold fitFactor, gtb. change (ltb binary64) with PrimFloat.ltb.
  rewrite H. reflexivity.
Qed.

Lemma quotient_le_one (a b : Q) : 0 < b -> a <= b -> a / b <= 1.
Proof. intros Hb H. apply Qle_shift_div_r; [exact Hb|lra]. Qed.

Lemma quotient_antitone (a b b' : Q) : 0 <= a -> 0 < b -> b <= b' -> a / b' <= a / b.
Proof.
  intros Ha Hb H.
  assert (Hb' : 0 < b') by lra.
  apply Qle_shift_div_r; [exact Hb'|].
  assert (Q0 : 0 <= a / b) by (apply Qle_shift_div_l; [exact Hb|lra]).
  assert (E : a == a / b * b) by (field; lra).
  rewrite E at 1. nra.
Qed.

(** A fit factor over a space that is positive. *)
Theorem fit_spec (ka kb : Z) (avail block : float) :
  PosNormal ka avail -> NonNeg kb block -> (0 <= ka)%Z -> (0 <= kb)%Z -> (ka + kb <= 800)%Z ->
  PosNormal (ka + kb + 4) (fitFactor binary64 avail block)
  /\ valueOf (fitFactor binary64 avail block) <= 1
  /\ (PrimFloat.ltb avail block = true <-> valueOf avail < valueOf block)
  /\ (valueOf (fitFactor binary64 avail block) < 1 <-> valueOf avail < valueOf block).
Proof.
  intros Ha Hb Hka Hkb Hk.
  destruct PosNormal_one as [G1 V1]. destruct PosNormal_margin as [Gc Vc].
  pose proof (PosNormal_pos ka avail Ha) as Pa.
  assert (One : PosNormal (ka + kb + 4) 1%float) by (apply (PosNormal_weaken 0); [lia|exact G1]).
  destruct Hb as [->|Hb].
  - destruct (ltb_PosNormal_zero ka avail Ha) as [L _].
    rewrite (fit_unguarded avail 0 L), L, valueOf_zero, V1.
    split; [exact One|]. split; [lra|]. split; split; intros; try discriminate; lra.
  - pose proof (ltb_PosNormal ka kb avail block Ha Hb) as L.
    pose proof (PosNormal_pos kb block Hb) as Pb.
    destruct (PrimFloat.ltb avail block) eqn:E.
    + assert (Lt : valueOf avail < valueOf block) by now apply L.
      rewrite (fit_guarded avail block E).
      destruct (div_PosNormal ka kb avail block Ha Hb ltac:(lia)) as [Gq Rq].
      assert (Vq : valueOf (avail / block)%float <= 1).
      { rewrite <- V1. apply (RoundedFrom_mono _ _ _ _ Rq (PosNormal_RoundedFrom 0 _ G1)).
        rewrite V1. apply quotient_le_one; lra. }
      pose proof (PosNormal_pos _ _ Gq) as Pq.
      destruct (mul_PosNormal (ka + kb + 1) 1 _ _ Gq Gc ltac:(lia)) as [Gf Rf].
      assert (Vf : valueOf (avail / block * lit binary64 0.95)%float
                   <= valueOf (lit binary64 0.95)).
      { apply (RoundedFrom_mono _ _ _ _ Rf (PosNormal_RoundedFrom 1 _ Gc)).
        pose proof (PosNormal_pos _ _ Gc). nra. }
      split; [apply (PosNormal_weaken (ka + kb + 1 + 1 + 2)); [lia|exact Gf]|].
      split; [lra|]. split; split; intros; auto; lra.
    + assert (Ge : ~ valueOf avail < valueOf block) by (intros X; apply L in X; discriminate).
      rewrite (fit_unguarded avail block E), V1.
      split; [exact One|]. split; [lra|]. split; split; intros; try discriminate; lra.
Qed.

(** The fit factor does not grow with the block. *)
Theorem fit_antitone (ka kb : Z) (avail block block' : float) :
  PosNormal ka avail -> NonNeg kb block -> NonNeg kb block' ->
  (0 <= ka)%Z -> (0 <= kb)%Z -> (ka + kb <= 800)%Z ->
  valueOf block <= valueOf block' ->
  valueOf (fitFactor binary64 avail block') <= valueOf (fitFactor binary64 avail block).
Proof.
  intros Ha Hb Hb' Hka Hkb Hk Hle.
  destruct (fit_spec ka kb avail block Ha Hb Hka Hkb Hk) as (_ & _ & L & _).
  destruct (fit_spec ka kb avail block' Ha Hb' Hka Hkb Hk) as (_ & F1' & L' & _).
  destruct PosNormal_one as [G1 V1]. destruct PosNormal_margin as [Gc Vc].
  pose proof (PosNormal_pos ka avail Ha) as Pa.
  destruct (PrimFloat.ltb avail block) eqn:E.
  - assert (Lt : valueOf avail < valueOf block) by now apply L.
    assert (E' : PrimFloat.ltb avail block' = true) by (apply L'; lra).
    assert (Gb : PosNormal kb block) by (apply NonNeg_PosNormal; [exact Hb|lra]).
    assert (Gb' : PosNormal kb block') by (apply NonNeg_PosNormal; [exact Hb'|lra]).
    rewrite (fit_guarded avail block E), (fit_guarded avail block' E').
    destruct (div_PosNormal ka kb avail block Ha Gb ltac:(lia)) as [Gq Rq].
    destruct (div_PosNormal ka kb avail block' Ha Gb' ltac:(lia)) as [Gq' Rq'].
    apply (mul_mono (ka + kb + 1) 1); try (right; assumption); try lia; [|lra].
    apply (RoundedFrom_mono _ _ _ _ Rq' Rq).
    apply quotient_antitone; lra.
  - rewrite (fit_unguarded avail block E), V1. exact F1'.
Qed.

Lemma ofNat_NonNeg (n : nat) :
  (Z.of_nat n < 2 ^ 53)%Z ->
  NonNeg 52 (ofNat binary64 n) /\ valueOf (ofNat binary64 n) == inject_Z (Z.of_nat n).
Proof. intros H. apply ofZ_NonNeg. lia. Qed.

Lemma ofN_NonNeg (W : N) :
  (W < 2 ^ 53)%N ->
  NonNeg 52 (ofN binary64 W) /\ valueOf (ofN binary64 W) == inject_Z (Z.of_N W).
Proof.
  intros H. apply ofZ_NonNeg. split; [lia|].
  change (2 ^ 53)%Z with (Z.of_N (2 ^ 53)). lia.
Qed.

Lemma ofN_PosNormal (W : N) :
  (0 < W < 2 ^ 53)%N -> PosNormal 52 (ofN binary64 W).
Proof.
  intros H. apply ofZ_PosNormal. split; [lia|].
  change (2 ^ 53)%Z with (Z.of_N (2 ^ 53)). lia.
Qed.

(** The width of the word at base scale: zero or positive normal, and
    growing with the length of the word. *)
Lemma requiredWidth_NonNeg (n : nat) :
  (Z.of_nat n < 2 ^ 53)%Z ->
  NonNeg 56 (PrimFloat.mul (ofNat binary64 n) (CHAR_WIDTH_DATA_UNITS binary64)).
Proof.
  intros H. destruct (ofNat_NonNeg n H) as [Hn _]. destruct PosNormal_charWidth as [G7 _].
  apply (mul_NonNeg 52 2); [exact Hn|now right|lia].
Qed.

Lemma requiredWidth_mono (n m : nat) :
  (n <= m)%nat -> (Z.of_nat m < 2 ^ 53)%Z ->
  valueOf (PrimFloat.mul (ofNat binary64 n) (CHAR_WIDTH_DATA_UNITS binary64))
  <= valueOf (PrimFloat.mul (ofNat binary64 m) (CHAR_WIDTH_DATA_UNITS binary64)).
Proof.
  intros Hnm Hm.
  destruct (ofNat_NonNeg n ltac:(lia)) as [Hn Vn].
  destruct (ofNat_NonNeg m Hm) as [Hm' Vm].
  destruct PosNormal_charWidth as [G7 _].
  apply (mul_mono 52 2); try assumption; try (right; exact G7); try lia; [|lra].
  rewrite Vn, Vm, <- Zle_Qle. lia.
Qed.

Lemma baseScaledPixelWidth_NonNeg (kb : Z) (n : nat) (baseScale : float) :
  (Z.of_nat n < 2 ^ 53)%Z -> NonNeg kb baseScale -> (0 <= kb <= 100)%Z ->
  NonNeg (kb + 58) (baseScaledPixelWidth binary64 n baseScale).
Proof.
  intros Hn Hb Hk. unfold baseScaledPixelWidth. change (mul binary64) with PrimFloat.mul.
  apply (NonNeg_weaken (56 + kb + 2)); [lia|].
  apply (mul_NonNeg 56 kb); [now apply requiredWidth_NonNeg|exact Hb|lia].
Qed.

Lemma baseScaledPixelWidth_binary64_mono (kb : Z) (n m : nat) (baseScale : float) :
  (n <= m)%nat -> (Z.of_nat m < 2 ^ 53)%Z -> NonNeg kb baseScale -> (0 <= kb <= 100)%Z ->
  valueOf (baseScaledPixelWidth binary64 n baseScale)
  <= valueOf (baseScaledPixelWidth binary64 m baseScale).
Proof.
  intros Hnm Hm Hb Hk. unfold baseScaledPixelWidth. change (mul binary64) with PrimFloat.mul.
  apply (mul_mono 56 kb); try assumption; try lia.
  - apply requiredWidth_NonNeg. lia.
  - now apply requiredWidth_NonNeg.
  - now apply requiredWidth_mono.
  - lra.
Qed.

Lemma baseScaledPixelHeight_NonNeg (kb : Z) (baseScale : float) :
  NonNeg kb baseScale -> (0 <= kb <= 100)%Z ->
  NonNeg (kb + 58) (baseScaledPixelHeight binary64 baseScale).
Proof.
  intros Hb Hk. unfold baseScaledPixelHeight. change (mul binary64) with PrimFloat.mul.
  destruct PosNormal_dataRange as [G _].
  apply (NonNeg_weaken (3 + kb + 2)); [lia|].
  apply (mul_NonNeg 3 kb); [now right|exact Hb|lia].
Qed.

(** The base scale: zero when a side of the viewport is zero, positive
    normal otherwise. *)
Lemma computeBaseScale_binary64 (W H : N) :
  (W < 2 ^ 53)%N -> (H < 2 ^ 53)%N ->
  ((W = 0%N \/ H = 0%N) -> computeBaseScale binary64 W H = 0%float)
  /\ ((0 < W)%N -> (0 < H)%N -> PosNormal 58 (computeBaseScale binary64 W H)).
Proof.
  intros HW HH. unfold computeBaseScale. cbv zeta.
  destruct PosNormal_dataRange as (G & _ & M). rewrite M.
  assert (Z0 : eqb binary64 (DATA_RANGE_Y binary64) (lit binary64 0) = false) by reflexivity.
  rewrite Z0, orb_false_r.
  split.
  - intros H0.
    assert (E : (N.min W H =? 0)%N = true).
    { apply N.eqb_eq. destruct H0 as [-> | ->]; [apply N.min_0_l|apply N.min_0_r]. }
    rewrite E. reflexivity.
  - intros W0 H0.
    assert (E : (N.min W H =? 0)%N = false) by (apply N.eqb_neq; lia).
    rewrite E. change (mul binary64) with PrimFloat.mul. change (div binary64) with PrimFloat.div.
    assert (Gm : PosNormal 52 (ofN binary64 (N.min W H))) by (apply ofN_PosNormal; lia).
    destruct (div_PosNormal 52 3 _ _ Gm G ltac:(lia)) as [Gq _].
    destruct (mul_PosNormal (52 + 3 + 1) 0 _ _ Gq PosNormal_sizeMultiplier ltac:(lia)) as [Gs _].
    exact Gs.
Qed.

(** On a viewport with a side of zero the base scale is 0: nothing exceeds
    the viewport and the word scale factor is 1. *)
Lemma wordScaleFactorOf_flat (W H : N) (n : nat) :
  (W < 2 ^ 53)%N -> (H < 2 ^ 53)%N -> (Z.of_nat n < 2 ^ 53)%Z ->
  wordScaleFactorOf binary64 W H 0%float n = 1%float
  /\ gtb binary64 (baseScaledPixelWidth binary64 n 0%float) (ofN binary64 W) = false
  /\ gtb binary64 (baseScaledPixelHeight binary64 0%float) (ofN binary64 H) = false.
Proof.
  intros HW HH Hn.
  assert (Bw : baseScaledPixelWidth binary64 n 0%float = 0%float).
  { unfold baseScaledPixelWidth. change (mul binary64) with PrimFloat.mul.
    destruct (requiredWidth_NonNeg n Hn) as [->|G]; [reflexivity|].
    apply (mul_PosNormal_zero _ _ G). }
  assert (Bh : baseScaledPixelHeight binary64 0%float = 0%float) by reflexivity.
  assert (L : forall V : N, (V < 2 ^ 53)%N -> PrimFloat.ltb (ofN binary64 V) 0 = false).
  { intros V HV. destruct (ofN_NonNeg V HV) as [[->|G] _]; [reflexivity|].
    apply (ltb_PosNormal_zero _ _ G). }
  rewrite wordScaleFactorOf_eq, Bw, Bh. unfold gtb. change (ltb binary64) with PrimFloat.ltb.
  rewrite (fit_unguarded _ _ (L W HW)), (fit_unguarded _ _ (L H HH)).
  split; [reflexivity|]. split; [apply L; assumption|apply L; assumption].
Qed.

(** The three properties of a word scale factor that is the smaller of a
    width fit and a height fit. *)
Lemma min_of_fits (k : Z) (fw fw' fh : float) :
  PosNormal k fw -> PosNormal k fw' -> PosNormal k fh ->
  valueOf fw <= 1 -> valueOf fh <= 1 -> valueOf fw' <= valueOf fw ->
  PrimFloat.leb (Binary64.Math_min fw fh) 1 = true
  /\ PrimFloat.leb (Binary64.Math_min fw' fh) (Binary64.Math_min fw fh) = true
  /\ (PrimFloat.ltb (Binary64.Math_min fw fh) 1 = true
      <-> valueOf fw < 1 \/ valueOf fh < 1).
Proof.
  intros Gw Gw' Gh Lw Lh Lww.
  destruct PosNormal_one as [G1 V1].
  destruct (Math_min_PosNormal k k fw fh Gw Gh) as (C & M1 & M2).
  destruct (Math_min_PosNormal k k fw' fh Gw' Gh) as (C' & M1' & M2').
  assert (Gm : PosNormal k (Binary64.Math_min fw fh)) by (destruct C as [-> | ->]; assumption).
  assert (Gm' : PosNormal k (Binary64.Math_min fw' fh)) by (destruct C' as [-> | ->]; assumption).
  split; [|split].
  - apply (leb_PosNormal k 0); [exact Gm|exact G1|]. lra.
  - apply (leb_PosNormal k k); [exact Gm'|exact Gm|].
    destruct C as [-> | ->]; lra.
  - rewrite (ltb_PosNormal k 0 _ _ Gm G1), V1. split.
    + intros X. destruct C as [E|E]; rewrite E in X; auto.
    + intros [X|X]; lra.
Qed.

(** ** The scaled block fits *)

(** Rounding up moves a value by at most one unit in the last place. *)
Lemma RoundsTo_upper (v : Q) (m : positive) (e : Z) :
  RoundsTo v m e -> inject_Z (Zpos m) * pow2 e <= v * (1 + pow2 (-52)).
Proof.
  intros (mc & ec & lc & Hmc & H & R).
  destruct (canonical_bounds v mc ec lc Hmc H) as [L _].
  pose proof (inLoc_bounds v mc ec lc H) as [Lo _].
  pose proof (rne_bounds mc lc) as [_ B].
  pose proof (pow2_pos ec) as P.
  assert (U : pow2 ec == pow2 (-52) * pow2 (52 + ec)).
  { rewrite <- pow2_add. f_equiv. lia. }
  assert (V : inject_Z (Zpos m) * pow2 e == inject_Z (round_nearest_even mc lc) * pow2 ec).
  { destruct R as [(_ & -> & ->)|(E & -> & ->)]; [reflexivity|].
    rewrite E, pow2_succ.
    assert (X : inject_Z (2 ^ 53) == 2 * inject_Z (2 ^ 52)) by reflexivity.
    rewrite X. ring. }
  assert (W : inject_Z (round_nearest_even mc lc) <= inject_Z mc + 1).
  { change 1 with (inject_Z 1). rewrite <- inject_Z_plus, <- Zle_Qle. lia. }
  rewrite V. pose proof (pow2_pos (-52)) as P52.
  assert (inject_Z (round_nearest_even mc lc) * pow2 ec <= (inject_Z mc + 1) * pow2 ec)
    by (apply Qmult_le_compat_r; lra).
  nra.
Qed.

Lemma RoundedFrom_upper (v : Q) (x : float) :
  RoundedFrom v x -> valueOf x <= v * (1 + pow2 (-52)).
Proof.
  intros H. destruct (RoundedFrom_value v x H) as (m & e & _ & R & _ & V).
  rewrite V. now apply RoundsTo_upper.
Qed.

Lemma margin_absorbs_rounding :
  valueOf (lit binary64 0.95) * (1 + pow2 (-52)) * (1 + pow2 (-52)) <= 1.
Proof. vm_compute. discriminate. Qed.

Lemma leb_zero_PosNormal (k : Z) (x : float) : PosNormal k x -> PrimFloat.leb 0 x = true.
Proof.
  intros (m & e & E & _). rewrite leb_spec, E.
  change (Prim2SF 0) with (S754_zero false). reflexivity.
Qed.

(** A block scaled by its fit factor is within the available space, as
    exact numbers. *)
Theorem fit_fits (ka kb : Z) (avail block : float) :
  PosNormal ka avail -> NonNeg kb block -> (0 <= ka)%Z -> (0 <= kb)%Z -> (ka + kb <= 800)%Z ->
  valueOf block * valueOf (fitFactor binary64 avail block) <= valueOf avail.
Proof.
  intros Ha Hb Hka Hkb Hk.
  destruct PosNormal_one as [G1 V1]. destruct PosNormal_margin as [Gc Vc].
  pose proof (PosNormal_pos ka avail Ha) as Pa.
  destruct Hb as [->|Hb].
  - rewrite valueOf_zero. lra.
  - pose proof (ltb_PosNormal ka kb avail block Ha Hb) as L.
    pose proof (PosNormal_pos kb block Hb) as Pb.
    destruct (PrimFloat.ltb avail block) eqn:E.
    + rewrite (fit_guarded avail block E).
      destruct (div_PosNormal ka kb avail block Ha Hb ltac:(lia)) as [Gq Rq].
      destruct (mul_PosNormal (ka + kb + 1) 1 _ _ Gq Gc ltac:(lia)) as [Gf Rf].
      apply RoundedFrom_upper in Rq, Rf.
      pose proof (PosNormal_pos _ _ Gq) as Pq. pose proof (PosNormal_pos _ _ Gc) as Pc.
      pose proof (PosNormal_pos _ _ Gf) as Pf.
      pose proof margin_absorbs_rounding as K.
      pose proof (pow2_pos (-52)) as Pu.
      set (u := pow2 (-52)) in *.
      set (va := valueOf avail) in *. set (vb := valueOf block) in *.
      set (vq := valueOf (avail / block)%float) in *.
      set (vc := valueOf (lit binary64 0.95)) in *.
      set (vf := valueOf (avail / block * lit binary64 0.95)%float) in *.
      assert (Er : va / vb * vb == va) by (field; lra).
      set (r := va / vb) in *.
      assert (Pr : 0 < r).
      { unfold r. apply Qlt_shift_div_l; lra. }
      assert (S1 : vq * vc <= r * (1 + u) * vc) by (apply Qmult_le_compat_r; lra).
      assert (S2 : vq * vc * (1 + u) <= r * (1 + u) * vc * (1 + u))
        by (apply Qmult_le_compat_r; lra).
      assert (S3 : vf <= r * (vc * (1 + u) * (1 + u))).
      { setoid_replace (r * (vc * (1 + u) * (1 + u))) with (r * (1 + u) * vc * (1 + u)) by ring.
        lra. }
      assert (S4 : r * (vc * (1 + u) * (1 + u)) <= r * 1).
      { rewrite !(Qmult_comm r). apply Qmult_le_compat_r; lra. }
      assert (S5 : vb * vf <= vb * r).
      { rewrite !(Qmult_comm vb). apply Qmult_le_compat_r; lra. }
      setoid_replace (vb * r) with va in S5 by (rewrite <- Er; ring).
      exact S5.
    + assert (Ge : ~ valueOf avail < valueOf block) by (intros X; apply L in X; discriminate).
      rewrite (fit_unguarded avail block E), V1. lra.
Qed.

(** What the code computes for the scaled block: the rounded product of
    the block and of a factor not above its fit factor is within the
    available space. *)
Theorem scaled_block_fits (ka kb kf : Z) (avail block factor : float) :
  PosNormal ka avail -> NonNeg kb block -> PosNormal kf factor ->
  (0 <= ka)%Z -> (0 <= kb)%Z -> (ka + kb <= 800)%Z -> (kb + kf <= 900)%Z ->
  valueOf factor <= valueOf (fitFactor binary64 avail block) ->
  PrimFloat.leb (PrimFloat.mul block factor) avail = true.
Proof.
  intros Ha Hb Hf Hka Hkb Hk Hkf Hle.
  pose proof (fit_fits ka kb avail block Ha Hb Hka Hkb Hk) as F.
  destruct Hb as [->|Hb].
  - rewrite (proj2 (mul_PosNormal_zero kf factor Hf)). apply (leb_zero_PosNormal ka avail Ha).
  - destruct (mul_PosNormal kb kf block factor Hb Hf Hkf) as [Gp Rp].
    apply (leb_PosNormal _ ka _ _ Gp Ha).
    apply (RoundedFrom_mono _ _ _ _ Rp (PosNormal_RoundedFrom ka avail Ha)).
    pose proof (PosNormal_pos kb block Hb). pose proof (PosNormal_pos kf factor Hf). nra.
Qed.

End ScalingRounding.

(** C5, as stated, at the viewport 1000 x 500 of [part_000] and a word of
    one character: the word at base scale is 600 pixels wide, which does
    not exceed the viewport width 1000, and yet the word scale factor is
    below 1, because the block is 900 pixels high. *)
Lemma word_scale_below_one_by_height :
  ~ (ltb binary64
       (wordScaleFactorOf binary64 1000 500 (computeBaseScale binary64 1000 500) 1)
       (lit binary64 1) = true
     <-> gtb binary64
           (baseScaledPixelWidth binary64 1 (computeBaseScale binary64 1000 500))
           (ofN binary64 1000) = true).
Proof.
  intros [H _].
  assert (L : ltb binary64
                (wordScaleFactorOf binary64 1000 500 (computeBaseScale binary64 1000 500) 1)
                (lit binary64 1) = true) by (vm_compute; reflexivity).
  specialize (H L). vm_compute in H. discriminate H.
Qed.

(** C5.  In binary64, for a viewport whose sides are below [2^53] and words
    of fewer than [2^53] characters: the word scale factor of [part_000],
    computed with the base scale of the viewport, is at most 1, does not
    grow with the length of the word, and is below 1 exactly when the word
    at base scale is wider than the viewport or the block at base scale is
    higher than the viewport.  The factor of [script.js] is at most 1, does
    not grow with the length, and is below 1 exactly when the word is wider
    than the data range. *)
Theorem word_scale_factor_fit :
  (forall (W H : N) (n m : nat),
      (W < 2 ^ 53)%N -> (H < 2 ^ 53)%N -> (n <= m)%nat -> (Z.of_nat m < 2 ^ 53)%Z ->
      let baseScale := computeBaseScale binary64 W H in
      let wsf := wordScaleFactorOf binary64 W H baseScale in
      PrimFloat.leb (wsf n) (lit binary64 1) = true
      /\ PrimFloat.leb (wsf m) (wsf n) = true
      /\ (ltb binary64 (wsf n) (lit binary64 1) = true
          <-> gtb binary64 (baseScaledPixelWidth binary64 n baseScale) (ofN binary64 W) = true
              \/ gtb binary64 (baseScaledPixelHeight binary64 baseScale) (ofN binary64 H)
                 = true))
  /\ (forall n m : nat,
        (n <= m)%nat -> (Z.of_nat m < 2 ^ 53)%Z ->
        PrimFloat.leb (scriptWordScaleFactor binary64 n) (lit binary64 1) = true
        /\ PrimFloat.leb (scriptWordScaleFactor binary64 m) (scriptWordScaleFactor binary64 n)
           = true
        /\ (ltb binary64 (scriptWordScaleFactor binary64 n) (lit binary64 1) = true
            <-> gtb binary64
                  (mul binary64 (ofNat binary64 n) (CHAR_WIDTH_DATA_UNITS binary64))
                  (DATA_RANGE_X binary64) = true)).
Proof.
  change (lit binary64 1) with 1%float. change (ltb binary64) with PrimFloat.ltb.
  destruct PosNormal_one as [G1 V1].
  split.
  - intros W H n m HW HH Hnm Hm baseScale wsf.
    assert (Hn : (Z.of_nat n < 2 ^ 53)%Z) by lia.
    destruct (computeBaseScale_binary64 W H HW HH) as [Flat Pos].
    destruct (N.eq_dec W 0) as [W0|W0]; [|destruct (N.eq_dec H 0) as [H0|H0]].
    1,2: assert (E : baseScale = 0%float) by (apply Flat; auto);
         subst wsf; rewrite E;
         destruct (wordScaleFactorOf_flat W H n HW HH Hn) as (-> & -> & ->);
         destruct (wordScaleFactorOf_flat W H m HW HH Hm) as (-> & _ & _);
         split; [reflexivity|]; split; [reflexivity|];
         split; [discriminate|intros [X|X]; discriminate X].
    assert (Gb : PosNormal 58 baseScale) by (apply Pos; lia).
    assert (GW : PosNormal 52 (ofN binary64 W)) by (apply ofN_PosNormal; lia).
    assert (GH : PosNormal 52 (ofN binary64 H)) by (apply ofN_PosNormal; lia).
    assert (Nb : NonNeg 58 baseScale) by now right.
    pose proof (baseScaledPixelWidth_NonNeg 58 n baseScale Hn Nb ltac:(lia)) as Bn.
    pose proof (baseScaledPixelWidth_NonNeg 58 m baseScale Hm Nb ltac:(lia)) as Bm.
    pose proof (baseScaledPixelHeight_NonNeg 58 baseScale Nb ltac:(lia)) as Bh.
    pose proof (baseScaledPixelWidth_binary64_mono 58 n m baseScale Hnm Hm Nb ltac:(lia)) as Mono.
    destruct (fit_spec 52 116 _ _ GW Bn ltac:(lia) ltac:(lia) ltac:(lia))
      as (Fn & Fn1 & Ln & Sn).
    destruct (fit_spec 52 116 _ _ GW Bm ltac:(lia) ltac:(lia) ltac:(lia))
      as (Fm & _ & _ & _).
    destruct (fit_spec 52 116 _ _ GH Bh ltac:(lia) ltac:(lia) ltac:(lia))
      as (Fh & Fh1 & Lh & Sh).
    pose proof (fit_antitone 52 116 _ _ _ GW Bn Bm ltac:(lia) ltac:(lia) ltac:(lia) Mono)
      as Anti.
    subst wsf. rewrite !wordScaleFactorOf_eq. change (nmin binary64) with Binary64.Math_min.
    destruct (min_of_fits (52 + 116 + 4) _ _ _ Fn Fm Fh Fn1 Fh1 Anti) as (P1 & P2 & P3).
    split; [exact P1|]. split; [exact P2|].
    unfold gtb. change (ltb binary64) with PrimFloat.ltb.
    rewrite P3, Sn, Sh, Ln, Lh. reflexivity.
  - intros n m Hnm Hm.
    assert (Hn : (Z.of_nat n < 2 ^ 53)%Z) by lia.
    destruct PosNormal_dataRange as (Gr & Ex & _).
    rewrite !scriptWordScaleFactor_eq. rewrite Ex.
    change (mul binary64) with PrimFloat.mul.
    pose proof (requiredWidth_NonNeg n Hn) as Bn.
    pose proof (requiredWidth_NonNeg m Hm) as Bm.
    pose proof (requiredWidth_mono n m Hnm Hm) as Mono.
    destruct (fit_spec 3 56 _ _ Gr Bn ltac:(lia) ltac:(lia) ltac:(lia))
      as (Fn & Fn1 & Ln & Sn).
    destruct (fit_spec 3 56 _ _ Gr Bm ltac:(lia) ltac:(lia) ltac:(lia))
      as (Fm & _ & _ & _).
    pose proof (fit_antitone 3 56 _ _ _ Gr Bn Bm ltac:(lia) ltac:(lia) ltac:(lia) Mono)
      as Anti.
    split; [|split].
    + apply (leb_PosNormal _ 0 _ _ Fn G1). now rewrite V1.
    + apply (leb_PosNormal _ _ _ _ Fm Fn). exact Anti.
    + unfold gtb. change (ltb binary64) with PrimFloat.ltb.
      rewrite (ltb_PosNormal _ 0 _ _ Fn G1), V1, Sn, Ln. reflexivity.
Qed.

Lemma word_scale_factor_fit_witness :
  (PrimFloat.leb
     (wordScaleFactorOf binary64 1000 500 (computeBaseScale binary64 1000 500) 3)
     (wordScaleFactorOf binary64 1000 500 (computeBaseScale binary64 1000 500) 1) = true
   /\ PrimFloat.leb
        (wordScaleFactorOf binary64 1000 500 (computeBaseScale binary64 1000 500) 1)
        (lit binary64 1) = true)
  /\ PrimFloat.leb (scriptWordScaleFactor binary64 3) (scriptWordScaleFactor binary64 1)
     = true.
Proof.
  destruct word_scale_factor_fit as [P S].
  split.
  - destruct (P 1000%N 500%N 1%nat 3%nat) as (A & M & _); [reflexivity|reflexivity|lia|lia|].
    split; [exact M|exact A].
  - destruct (S 1%nat 3%nat) as (_ & M & _); [lia|lia|]. exact M.
Defined.

Lemma firstn_seq_min (index start count : nat) :
  firstn index (seq start count) = seq start (Nat.min index count).
Proof.
  revert index start. induction count as [|count IH]; intros index start.
  - rewrite Nat.min_0_r. apply firstn_nil.
  - destruct index as [|index]; [reflexivity|].
    cbn [seq firstn Nat.min]. f_equal. apply IH.
Qed.

(** The slot offsets of a prefix of the records of a word. *)
Lemma slot_offsets_of_prefix (record : nat -> CompletedChar) (offset : nat -> float)
    (index count : nat) :
  (forall i, xOffset (record i) = offset i) ->
  map xOffset (firstn index (map record (seq 0 count)))
  = map offset (seq 0 (List.length (firstn index (map record (seq 0 count))))).
Proof.
  intros Ho.
  rewrite length_firstn, length_map, length_seq.
  rewrite firstn_map, firstn_seq_min, map_map.
  apply map_ext. exact Ho.
Qed.

(* ================================================================== *)
(** * The base scale and the transform to the canvas *)

Lemma dataMaxDimension_binary64 :
  nmax binary64 (DATA_RANGE_X binary64) (DATA_RANGE_Y binary64) = lit binary64 10.5
  /\ eqb binary64 (nmax binary64 (DATA_RANGE_X binary64) (DATA_RANGE_Y binary64))
         (lit binary64 0) = false.
Proof. split; vm_compute; reflexivity. Qed.

Lemma updateCanvasDimensions_baseScale (s : Part000.State) :
  Part000.baseScale (Part000.updateCanvasDimensions s)
  = computeBaseScale binary64 (Part000.clientWidth s) (Part000.clientHeight s)
  /\ Part000.currentCanvasWidth (Part000.updateCanvasDimensions s) = Part000.clientWidth s
  /\ Part000.currentCanvasHeight (Part000.updateCanvasDimensions s) = Part000.clientHeight s.
Proof.
  unfold Part000.updateCanvasDimensions. cbv zeta. Part000Facts.state_simpl.
  destruct (Part000.wordToAnimate s); repeat split; reflexivity.
Qed.

(** C8.  When the canvas is [width] x [height] with both positive, the base
    scale [computeBaseScale] of [updateCanvasDimensions] is the smaller of
    the two divided by the larger of the two data ranges, which is 10.5,
    times [SIZE_MULTIPLIER]; when one of them is 0 it is 0.  The function
    is total, and [updateCanvasDimensions] stores its value for the client
    size of the canvas in [baseScale]. *)
Theorem base_scale_guard :
  (forall width height : N,
      (0 < width)%N -> (0 < height)%N ->
      computeBaseScale binary64 width height
      = PrimFloat.mul
          (PrimFloat.div (ofN binary64 (N.min width height))
             (Binary64.Math_max (DATA_RANGE_X binary64) (DATA_RANGE_Y binary64)))
          (SIZE_MULTIPLIER binary64))
  /\ (forall width height : N,
        width = 0%N \/ height = 0%N ->
        computeBaseScale binary64 width height = lit binary64 0)
  /\ Binary64.Math_max (DATA_RANGE_X binary64) (DATA_RANGE_Y binary64) = lit binary64 10.5
  /\ (forall s : Part000.State,
        Part000.baseScale (Part000.updateCanvasDimensions s)
        = computeBaseScale binary64 (Part000.clientWidth s) (Part000.clientHeight s)).
Proof.
  destruct dataMaxDimension_binary64 as [M Z].
  split; [|split; [|split]].
  - intros width height Hw Hh. unfold computeBaseScale. cbv zeta.
    assert (E : (N.min width height =? 0)%N = false).
    { apply N.eqb_neq. destruct (N.min_spec width height) as [[_ ->]|[_ ->]]; lia. }
    rewrite E, Z. reflexivity.
  - intros width height H0. unfold computeBaseScale. cbv zeta.
    assert (E : (N.min width height =? 0)%N = true).
    { apply N.eqb_eq. destruct H0 as [-> | ->]; [apply N.min_0_l|apply N.min_0_r]. }
    rewrite E. reflexivity.
  - exact M.
  - intros s. apply updateCanvasDimensions_baseScale.
Qed.

Lemma base_scale_guard_witness :
  computeBaseScale binary64 600 400
  = PrimFloat.mul
      (PrimFloat.div (ofN binary64 400)
         (Binary64.Math_max (DATA_RANGE_X binary64) (DATA_RANGE_Y binary64)))
      (SIZE_MULTIPLIER binary64)
  /\ computeBaseScale binary64 0 300 = lit binary64 0.
Proof.
  destruct base_scale_guard as (P & Z & _).
  split.
  - apply (P 600%N 400%N); reflexivity.
  - apply (Z 0%N 300%N). left. reflexivity.
Defined.

(** C6.  [transformPoint] of [part_000] adds the slot offset to the local
    x, takes both coordinates relative to ([X_MIN], [Y_MIN]), multiplies
    them by the base scale and then by the word scale factor, adds the
    centering offsets, and turns the y axis over the canvas height.  It
    reads [baseScale], [wordScaleFactor], the two offsets and
    [currentCanvasHeight] and nothing else, and returns the point without
    changing the state.  In every reachable state the slot offset stored
    with the [i]-th completed character is [i * CHAR_WIDTH_DATA_UNITS].
    [transformPoint] of [script.js] is the same with the fixed scales
    [SCALE_X] and [SCALE_Y], the fixed height [CANVAS_SIZE] and no
    centering offsets; it reads [wordScaleFactor] only. *)
Theorem transformPoint_formula :
  (forall (s : Part000.State) (dataX dataY charXOffsetDataUnits : float),
      Part000.transformPoint s dataX dataY charXOffsetDataUnits
      = {| canvasX :=
             (((dataX + charXOffsetDataUnits) - X_MIN binary64)
              * Part000.baseScale s * Part000.wordScaleFactor s
              + Part000.centerXOffsetPixels s)%float;
           canvasY :=
             (ofN binary64 (Part000.currentCanvasHeight s)
              - ((dataY - Y_MIN binary64)
                 * Part000.baseScale s * Part000.wordScaleFactor s
                 + Part000.centerYOffsetPixels s))%float |})
  /\ (forall (s s' : Part000.State),
        Part000.baseScale s = Part000.baseScale s' ->
        Part000.wordScaleFactor s = Part000.wordScaleFactor s' ->
        Part000.centerXOffsetPixels s = Part000.centerXOffsetPixels s' ->
        Part000.centerYOffsetPixels s = Part000.centerYOffsetPixels s' ->
        Part000.currentCanvasHeight s = Part000.currentCanvasHeight s' ->
        forall dataX dataY charXOffsetDataUnits,
          Part000.transformPoint s dataX dataY charXOffsetDataUnits
          = Part000.transformPoint s' dataX dataY charXOffsetDataUnits)
  /\ (forall s : Part000.State,
        Part000.Reachable s ->
        map xOffset (Part000.completedCharacters s)
        = map (fun i => (ofNat binary64 i * CHAR_WIDTH_DATA_UNITS binary64)%float)
              (seq 0 (List.length (Part000.completedCharacters s))))
  /\ (forall (s : Script.State) (dataX dataY charXOffsetDataUnits : float),
        Script.transformPoint s dataX dataY charXOffsetDataUnits
        = {| canvasX :=
               (((dataX + charXOffsetDataUnits) - X_MIN binary64)
                * Script.SCALE_X * Script.wordScaleFactor s)%float;
             canvasY :=
               (Script.CANVAS_SIZE
                - ((dataY - Y_MIN binary64)
                   * Script.SCALE_Y * Script.wordScaleFactor s))%float |})
  /\ (forall s : Script.State,
        Script.Reachable s ->
        map xOffset (Script.completedCharacters s)
        = map (fun i => (ofNat binary64 i * CHAR_WIDTH_DATA_UNITS binary64)%float)
              (seq 0 (List.length (Script.completedCharacters s)))).
Proof.
  split; [|split; [|split; [|split]]].
  - reflexivity.
  - intros s s' E1 E2 E3 E4 E5 dataX dataY charXOffsetDataUnits.
    unfold Part000.transformPoint. cbv zeta. now rewrite E1, E2, E3, E4, E5.
  - intros s Hr. pose proof (Part000Facts.Reachable_Inv s Hr) as H.
    rewrite (Part000Props.inv_completed s H).
    apply slot_offsets_of_prefix. reflexivity.
  - reflexivity.
  - intros s Hr. pose proof (ScriptFacts.script_Reachable_Inv s Hr) as H.
    rewrite (ScriptProps.inv_completed s H).
    apply slot_offsets_of_prefix. reflexivity.
Qed.

Lemma transformPoint_formula_witness :
  Part000.transformPoint
    (Part000.step (Part000.Frame 3 (timestampOf 10)) part000_animating_A) 1 2 7
  = Part000.transformPoint part000_animating_A 1 2 7
  /\ map xOffset (Part000.completedCharacters part000_finished_J)
     = map (fun i => (ofNat binary64 i * CHAR_WIDTH_DATA_UNITS binary64)%float)
           (seq 0 (List.length (Part000.completedCharacters part000_finished_J)))
  /\ map xOffset (Script.completedCharacters script_finished_F)
     = map (fun i => (ofNat binary64 i * CHAR_WIDTH_DATA_UNITS binary64)%float)
           (seq 0 (List.length (Script.completedCharacters script_finished_F))).
Proof.
  destruct transformPoint_formula as (_ & D & O & _ & O').
  split; [|split].
  - apply D; vm_compute; reflexivity.
  - apply O. apply Controller.Reachable_run, Controller.Reachable_run. constructor.
  - apply O'. apply ScriptRuns.script_Reachable_run, Script.reach_step, Script.reach_init.
Defined.
(* ================================================================== *)
(** * Further properties of the interpolation *)

Lemma float_of_nan (x : float) : Prim2SF x = S754_nan -> x = PrimFloat.nan.
Proof.
  intros H. rewrite <- (SF2Prim_Prim2SF x), H. reflexivity.
Qed.

Lemma mul_nan_l (x : float) : PrimFloat.mul PrimFloat.nan x = PrimFloat.nan.
Proof.
  apply float_of_nan. rewrite mul_spec.
  change (Prim2SF PrimFloat.nan) with S754_nan. reflexivity.
Qed.

Lemma add_nan_r (x : float) : PrimFloat.add x PrimFloat.nan = PrimFloat.nan.
Proof.
  apply float_of_nan. rewrite add_spec.
  change (Prim2SF PrimFloat.nan) with S754_nan.
  destruct (Prim2SF x); reflexivity.
Qed.

Lemma zero_steps_factor :
  PrimFloat.div (ofNat binary64 0) (ofNat binary64 0) = PrimFloat.nan.
Proof. vm_compute. reflexivity. Qed.

(** X4.  With [steps = 0] the loop of [interpolateSegment] runs once with
    [t = 0 / 0]: in binary64 the result is the single point [[NaN, NaN]],
    whatever the segment, and not its start point. *)
Theorem interpolateSegment_zero_steps :
  forall segment : Segment binary64,
    interpolateSegment binary64 segment (Some 0%nat) = [(PrimFloat.nan, PrimFloat.nan)].
Proof.
  intros segment. unfold interpolateSegment. cbv beta zeta iota.
  cbn [seq map]. unfold interpolatedPoint. cbv beta zeta.
  change (div binary64 (ofNat binary64 0) (ofNat binary64 0))
    with (PrimFloat.div (ofNat binary64 0) (ofNat binary64 0)).
  rewrite zero_steps_factor.
  change (mul binary64) with PrimFloat.mul. change (add binary64) with PrimFloat.add.
  rewrite !mul_nan_l, !add_nan_r. reflexivity.
Qed.

(* ================================================================== *)
(** * Further properties of the compiled point sequence *)

Lemma joinCount_bound (A : Arith) (segs : list (Segment A)) :
  (joinCount A segs <= List.length segs - 1)%nat.
Proof.
  induction segs as [|a [|b rest] IH]; [cbn; lia|cbn; lia|].
  rewrite joinCount_cons. cbn [List.length] in *.
  destruct (joined A a b); lia.
Qed.

(** X5.  Whatever the arithmetic, the point sequence compiled from [k >= 1]
    segments has at least [20 k + 1] and at most [21 k] points: every
    segment contributes its 21 points, less its first one if it is dropped,
    and the first segment never loses a point. *)
Theorem flattenSegments_length_bounds :
  forall (A : Arith) (segs : list (Segment A)),
    segs <> [] ->
    (20 * List.length segs + 1 <= List.length (flattenSegments A segs)
     <= 21 * List.length segs)%nat.
Proof.
  intros A segs Hne.
  pose proof (flattenSegments_length A segs) as E.
  pose proof (joinCount_bound A segs) as B.
  destruct segs as [|a rest]; [congruence|].
  cbn [List.length] in *. lia.
Qed.

Lemma flattenSegments_length_bounds_witness :
  (20 * 2 + 1
   <= List.length (flattenSegments binary64
                     [((0, 0), (1, 1))%float; ((1, 1), (2, 0))%float])
   <= 21 * 2)%nat.
Proof.
  apply (flattenSegments_length_bounds binary64
           [((0, 0), (1, 1))%float; ((1, 1), (2, 0))%float]).
  discriminate.
Defined.
(* ================================================================== *)
(** * Drawing *)

(** X8.  [drawPath] makes no canvas call for fewer than two points.  For
    [n >= 2] points it makes [n + 2] calls: [beginPath], then one [moveTo],
    to the transform of the first point, then one [lineTo] to the transform
    of each further point, in the order of the points, and the final
    [stroke]; every point is transformed with the given offset. *)
Theorem drawPath_calls :
  forall (transformPoint : float -> float -> float -> CanvasPoint)
         (points : list (Point binary64)) (xOffset : float),
    ((List.length points < 2)%nat -> drawPath transformPoint points xOffset = [])
    /\ ((2 <= List.length points)%nat ->
        List.length (drawPath transformPoint points xOffset)
        = (List.length points + 2)%nat
        /\ List.length (filter isLineTo (drawPath transformPoint points xOffset))
           = (List.length points - 1)%nat
        /\ hd_error (drawPath transformPoint points xOffset) = Some BeginPath
        /\ lastOf (drawPath transformPoint points xOffset) = Some Stroke
        /\ nth_error (drawPath transformPoint points xOffset) 1
           = option_map
               (fun p => MoveTo (canvasX (transformPoint (fst p) (snd p) xOffset))
                                (canvasY (transformPoint (fst p) (snd p) xOffset)))
               (hd_error points)
        /\ List.length (filter isMoveTo (drawPath transformPoint points xOffset)) = 1%nat
        /\ filter isLineTo (drawPath transformPoint points xOffset)
           = map (fun p => LineTo (canvasX (transformPoint (fst p) (snd p) xOffset))
                                  (canvasY (transformPoint (fst p) (snd p) xOffset)))
                 (tl points)
        /\ (forall i, (1 <= i < List.length points)%nat ->
              nth_error (drawPath transformPoint points xOffset) (S i)
              = option_map
                  (fun p => LineTo (canvasX (transformPoint (fst p) (snd p) xOffset))
                                   (canvasY (transformPoint (fst p) (snd p) xOffset)))
                  (nth_error points i))).
Proof.
  intros tp points off. unfold drawPath. split.
  - intros H. apply Nat.ltb_lt in H. now rewrite H.
  - intros H. assert (E : (List.length points <? 2)%nat = false) by (apply Nat.ltb_ge; lia).
    rewrite E. destruct points as [|p0 rest]; [cbn in H; lia|].
    cbv zeta.
    set (line := fun p : Point binary64 =>
                   LineTo (canvasX (tp (fst p) (snd p) off))
                          (canvasY (tp (fst p) (snd p) off))).
    set (start := MoveTo (canvasX (tp (fst p0) (snd p0) off))
                         (canvasY (tp (fst p0) (snd p0) off))).
    change (map _ rest) with (map line rest).
    assert (F : filter isLineTo (map line rest) = map line rest).
    { clear. induction rest as [|x l IH]; [reflexivity|].
      cbn [map filter]. unfold line at 1. cbn [isLineTo]. now rewrite IH. }
    assert (M : filter isMoveTo (map line rest) = []).
    { clear. induction rest as [|x l IH]; [reflexivity|].
      cbn [map filter]. unfold line at 1. cbn [isMoveTo]. exact IH. }
    cbn [List.length] in H.
    split; [|split; [|split; [|split; [|split; [|split; [|split]]]]]].
    + cbn [app List.length]. rewrite length_app, length_map. cbn [List.length]. lia.
    + unfold start. cbn [app filter isLineTo].
      rewrite filter_app, F. cbn [filter isLineTo].
      rewrite app_nil_r, length_map. cbn [List.length]. lia.
    + reflexivity.
    + rewrite app_assoc. now rewrite lastOf_app by discriminate.
    + reflexivity.
    + unfold start. cbn [app filter isMoveTo].
      rewrite filter_app, M. reflexivity.
    + unfold start. cbn [app filter isLineTo tl].
      rewrite filter_app, F. cbn [filter isLineTo]. apply app_nil_r.
    + intros i Hi. destruct i as [|i]; [lia|].
      cbn [app nth_error List.length] in *.
      rewrite nth_error_app1 by (rewrite length_map; lia).
      apply nth_error_map.
Qed.

Lemma drawPath_calls_witness :
  drawPath (Script.transformPoint Script.initialState) [(0, 0)%float] 0 = []
  /\ List.length
       (drawPath (Script.transformPoint Script.initialState)
          [(0, 0)%float; (1, 1)%float; (2, 0)%float] 0)
     = 5%nat
  /\ List.length
       (filter isMoveTo
          (drawPath (Script.transformPoint Script.initialState)
             [(0, 0)%float; (1, 1)%float; (2, 0)%float] 0))
     = 1%nat.
Proof.
  assert (H : (2 <= List.length [(0, 0)%float; (1, 1)%float; (2, 0)%float])%nat)
    by (cbn; lia).
  split; [|split].
  - apply (proj1 (drawPath_calls (Script.transformPoint Script.initialState)
                    [(0, 0)%float] 0)).
    cbn. lia.
  - exact (proj1 (proj2 (drawPath_calls (Script.transformPoint Script.initialState)
                           [(0, 0)%float; (1, 1)%float; (2, 0)%float] 0) H)).
  - exact (proj1 (proj2 (proj2 (proj2 (proj2 (proj2
             (proj2 (drawPath_calls (Script.transformPoint Script.initialState)
                       [(0, 0)%float; (1, 1)%float; (2, 0)%float] 0) H))))))).
Defined.

(* ================================================================== *)
(** * Further properties of [src/unnamed/part_000] *)

Module Part000Events.
Import Part000 Part000Props Part000Facts.

Lemma redraw_calls (s : State) :
(animationActive s = true ->
 (currentWordCharIndex s < List.length (wordToAnimate s))%nat
 /\ processedPointsForCurrentChar s <> []) ->
redrawCanvasContent s = draw (part000_redrawCalls s) s.
Proof.
intros Hp. destruct s as [cw chh bs wsf cx cy word index pts total frame
                          active fid done last clw clh ops msg queue next].
unfold redrawCanvasContent, part000_redrawCalls. state_simpl. cbn in Hp.
destruct active.
- destruct (Hp eq_refl) as [Hi Hne]. apply Nat.ltb_lt in Hi. rewrite Hi.
  cbn [andb]. destruct pts as [|p pts]; [congruence|].
  cbn [List.length Nat.eqb]. state_simpl.
  rewrite !draw_draw. reflexivity.
- cbn [andb]. rewrite !draw_draw, app_nil_r. reflexivity.
Qed.

Lemma runFrame_redraw_calls (id : nat) (timestamp : float) (s : State) :
Inv s ->
In (id, RedrawCanvasContent) (frameQueue s) ->
runFrame id timestamp s = draw (part000_redrawCalls s) (cancelAnimationFrame id s).
Proof.
intros H Hin. unfold runFrame.
destruct (find _ (frameQueue s)) as [[i cb]|] eqn:Hfind.
- apply find_id in Hfind as [Hin' Ei]. cbn in Ei. subst i.
  rewrite (NoDup_fst_unique _ _ _ _ (inv_nodup s H) Hin' Hin).
  cbv zeta. rewrite redraw_calls; [reflexivity|].
  intros Ha. split.
  + apply (inv_active s H Ha).
  + apply (Inv_processed_nonempty s H Ha). apply (inv_active s H Ha).
- pose proof (find_none _ _ Hfind _ Hin) as Hn. cbn in Hn.
  rewrite Nat.eqb_refl in Hn. discriminate.
Qed.

(** X9.  In every reachable state, running a requested
  [redrawCanvasContent] only draws: the canvas is cleared, the completed
  glyphs are drawn in full in their order, then the first
  [currentFrame + 1] points of the active glyph if the animation is
  active.  The safeguard that prepares a glyph is never taken, and no
  variable of the script changes. *)
Theorem redraw_only_draws :
forall (s : State) (id : nat) (timestamp : float),
  Reachable s ->
  In (id, RedrawCanvasContent) (frameQueue s) ->
  step (Frame id timestamp) s
  = draw (part000_redrawCalls s) (cancelAnimationFrame id s).
Proof.
intros s id timestamp Hr Hin. cbn [step].
apply runFrame_redraw_calls; [now apply Reachable_Inv|exact Hin].
Qed.

Lemma redraw_only_draws_witness :
step (Frame 2 (timestampOf 1)) part000_animating_A
= draw (part000_redrawCalls part000_animating_A)
       (cancelAnimationFrame 2 part000_animating_A).
Proof.
apply (redraw_only_draws part000_animating_A 2%nat (timestampOf 1)).
- apply Controller.Reachable_run. constructor.
- vm_compute. tauto.
Defined.

(** X10.  A resize leaves the animation progress as it is: the word, the
  character index, the cursor, the active points and the completed set
  are unchanged, and so are the pending request of [animate] and the
  message.  It sets the canvas size to the client size, recomputes the
  base scale, and requests exactly one redraw. *)
Theorem resize_keeps_progress :
forall (s : State) (width height : N),
  let s' := step (Resize width height) s in
  part000_progress s' = part000_progress s
  /\ animationFrameId s' = animationFrameId s
  /\ lastTimestamp s' = lastTimestamp s
  /\ messageText s' = messageText s
  /\ currentCanvasWidth s' = width
  /\ currentCanvasHeight s' = height
  /\ baseScale s' = computeBaseScale binary64 width height
  /\ canvasOps s' = canvasOps s ++ [SetCanvasSize width height]
  /\ frameQueue s' = frameQueue s ++ [(nextFrameId s, RedrawCanvasContent)].
Proof.
intros s width height s'. subst s'. cbn [step].
unfold updateCanvasDimensions, part000_progress. cbv zeta. state_simpl.
destruct (wordToAnimate s) eqn:E; state_simpl; rewrite ?E; repeat split; reflexivity.
Qed.

(** X11.  A requested run of [animate] that comes before the interval has
  elapsed draws nothing and advances nothing: the canvas, the progress,
  the message and [lastTimestamp] are unchanged; the run only requests
  the next frame, under a fresh id that replaces its own in the queue and
  in [animationFrameId]. *)
Theorem early_frame_only_requests :
forall (s : State) (id : nat) (timestamp : float),
  Reachable s ->
  In (id, Animate) (frameQueue s) ->
  intervalElapsed timestamp s = false ->
  let s' := step (Frame id timestamp) s in
  canvasOps s' = canvasOps s
  /\ part000_progress s' = part000_progress s
  /\ messageText s' = messageText s
  /\ lastTimestamp s' = lastTimestamp s
  /\ frameQueue s' = without id (frameQueue s) ++ [(nextFrameId s, Animate)]
  /\ animationFrameId s' = Some (nextFrameId s).
Proof.
intros s id timestamp Hr Hin Hdue s'. subst s'.
pose proof (Reachable_Inv s Hr) as H.
destruct (Inv_requests s id H Hin) as (Ha & _ & _).
cbn [step]. rewrite (runFrame_animate id timestamp s H Hin).
rewrite (animate_not_due timestamp (cancelAnimationFrame id s) Ha Hdue).
repeat split.
Qed.

Lemma early_frame_only_requests_witness :
canvasOps (step (Frame 3 (timestampOf 4)) part000_animating_A)
= canvasOps part000_animating_A
/\ animationFrameId (step (Frame 3 (timestampOf 4)) part000_animating_A) = Some 4%nat.
Proof.
assert (Hr : Reachable part000_animating_A)
  by (apply Controller.Reachable_run; constructor).
assert (Hin : In (3%nat, Animate) (frameQueue part000_animating_A))
  by (vm_compute; tauto).
assert (Hdue : intervalElapsed (timestampOf 4) part000_animating_A = false)
  by (vm_compute; reflexivity).
pose proof (early_frame_only_requests part000_animating_A 3%nat (timestampOf 4)
              Hr Hin Hdue) as (C & _ & _ & _ & _ & F).
split; [exact C|exact F].
Defined.

(** X12.  In every reachable state at most one run of [animate] is
  requested: exactly one while the animation is active, the one whose id
  is in [animationFrameId], and none when it is not.  All pending request
  ids are distinct. *)
Theorem single_animation_loop :
forall s : State,
  Reachable s ->
  (animationActive s = true ->
   exists id, animationFrameId s = Some id /\ animateRequests s = [id])
  /\ (animationActive s = false -> animateRequests s = [])
  /\ NoDup (map fst (frameQueue s)).
Proof.
intros s Hr. pose proof (Reachable_Inv s Hr) as H.
pose proof (inv_request s H) as Q.
split; [|split].
- intros Ha. rewrite Ha in Q.
  destruct (animationFrameId s) as [id|] eqn:E.
  + exists id. auto.
  + now contradiction (inv_requested s H Ha).
- intros Ha. now rewrite Ha in Q.
- apply (inv_nodup s H).
Qed.

Lemma single_animation_loop_witness :
NoDup (map fst (frameQueue part000_animating_A))
/\ exists id,
     animationFrameId part000_animating_A = Some id
     /\ animateRequests part000_animating_A = [id].
Proof.
assert (Hr : Reachable part000_animating_A)
  by (apply Controller.Reachable_run; constructor).
destruct (single_animation_loop part000_animating_A Hr) as (A & _ & N).
split; [exact N|]. apply A. vm_compute. reflexivity.
Defined.


Lemma framesLeft_finished (s : State) :
currentWordCharIndex s = List.length (wordToAnimate s) -> framesLeft s = 0%nat.
Proof.
intros E. unfold framesLeft. rewrite E, skipn_all. reflexivity.
Qed.

Lemma tick_framesLeft (id : nat) (timestamp : float) (s : State) :
Inv s ->
In (id, Animate) (frameQueue s) ->
intervalElapsed timestamp s = true ->
(framesLeft (step (Frame id timestamp) s) + 1 = framesLeft s)%nat.
Proof.
intros H Hin Hdue.
destruct (Inv_requests s id H Hin) as (Ha & _ & _).
pose proof (tick_spec id timestamp s H Hin Hdue) as (Tw & Tick).
pose proof (Inv_step (Frame id timestamp) s H) as H'.
destruct (framesLeft_active s H Ha) as (E & Hf).
destruct (inv_active s H Ha) as (Hi & Hp & Ht & _).
set (s1 := step (Frame id timestamp) s) in *.
destruct (Nat.eqb_spec (currentFrame s)
            (List.length (processedPointsForCurrentChar s) - 1)) as [El|El].
- destruct Tick as (Tc & Ti & Tf & Tn).
  destruct (Nat.ltb_spec (S (currentWordCharIndex s)) (List.length (wordToAnimate s)))
    as [Hlt|Hge].
  + destruct Tn as (Ta' & Tp').
    unfold framesLeft at 1. rewrite Tw, Ti, Tf. lia.
  + destruct Tn as (_ & _ & Tfin).
    rewrite (framesLeft_finished s1 Tfin).
    rewrite skipn_all2 in E by lia. unfold framesOfGlyphs in E. cbn in E. lia.
- destruct Tick as (Tc & Ti & Tf & Tp' & Ta').
  destruct (framesLeft_active s1 H' Ta') as (E' & _).
  rewrite E', Tp', Tf, Ti, Tw. lia.
Qed.

(** X13.  Every due run of [animate] in a reachable state shows exactly
  one frame: the number of frames left, which is the rest of the active
  glyph's points plus all the points of the glyphs after it, goes down by
  one.  The animation is active exactly while frames are left. *)
Theorem due_tick_shows_one_frame :
forall (s : State) (id : nat) (timestamp : float),
  Reachable s ->
  In (id, Animate) (frameQueue s) ->
  intervalElapsed timestamp s = true ->
  (1 <= framesLeft s)%nat
  /\ framesLeft (step (Frame id timestamp) s) = (framesLeft s - 1)%nat
  /\ (animationActive (step (Frame id timestamp) s) = true
      <-> (2 <= framesLeft s)%nat).
Proof.
intros s id timestamp Hr Hin Hdue. pose proof (Reachable_Inv s Hr) as H.
pose proof (tick_framesLeft id timestamp s H Hin Hdue) as E.
pose proof (Inv_step (Frame id timestamp) s H) as H'.
split; [lia|split; [lia|]].
split.
- intros Ha'. destruct (framesLeft_active _ H' Ha') as (_ & Hf). 
  pose proof (framesLeft_active _ H' Ha') as (E' & _). lia.
- intros H2. destruct (animationActive (step (Frame id timestamp) s)) eqn:Ha'; [reflexivity|].
  exfalso.
  assert (Hw : wordToAnimate (step (Frame id timestamp) s) <> []).
  { rewrite (word_preserved (Frame id timestamp) s H eq_refl).
    destruct (Inv_requests s id H Hin) as (Ha & _ & _).
    destruct (inv_active s H Ha) as (Hi & _).
    intros E0. rewrite E0 in Hi. cbn in Hi. lia. }
  pose proof (framesLeft_finished _ (inv_idle _ H' Ha' Hw)). lia.
Qed.

Lemma due_tick_shows_one_frame_witness :
framesLeft (step (Frame 3 (timestampOf 10)) part000_animating_A)
= (framesLeft part000_animating_A - 1)%nat.
Proof.
apply (due_tick_shows_one_frame part000_animating_A 3%nat (timestampOf 10)).
- apply Controller.Reachable_run. constructor.
- vm_compute. tauto.
- vm_compute. reflexivity.
Defined.

Lemma dueTicks_framesLeft (n : nat) :
forall s s',
  Inv s -> DueTicks n s s' ->
  Inv s' /\ wordToAnimate s' = wordToAnimate s
  /\ (framesLeft s' + n = framesLeft s)%nat.
Proof.
induction n as [|n IH]; intros s s' H Hrun.
- inversion Hrun; subst. auto.
- inversion Hrun as [|n0 s0 id timestamp s0' Hin Hdue Hrest]; subst.
  pose proof (tick_framesLeft id timestamp s H Hin Hdue) as E.
  destruct (IH _ _ (Inv_step (Frame id timestamp) s H) Hrest) as (I & W & F).
  split; [exact I|split].
  + rewrite W. now apply word_preserved.
  + lia.
Qed.

(** X14.  After a word with at least one supported character is submitted
  in a reachable state, [n] due runs of [animate] leave as many frames as
  the glyphs of the word have points, less [n]; the animation is finished
  exactly when [n] is that number, and then the completed set holds the
  records of all the characters of the word, in order. *)
Theorem submitted_word_finishes :
forall (s : State) (inputValue : list ascii) (now : float) (n : nat) (s' : State),
  Reachable s ->
  let word := filter (hasOwnProperty CHARACTER_DRAWING_DATA) inputValue in
  word <> [] ->
  DueTicks n (step (Click inputValue now) s) s' ->
  (n <= framesOfGlyphs word)%nat
  /\ framesLeft s' = (framesOfGlyphs word - n)%nat
  /\ (Finished s' <-> n = framesOfGlyphs word)
  /\ (n = framesOfGlyphs word -> completedCharacters s' = allCompleted word).
Proof.
intros s inputValue now n s' Hr word Hne Hrun.
pose proof (Reachable_Inv s Hr) as H.
pose proof (Inv_step (Click inputValue now) s H) as H0.
pose proof (click_word inputValue now s Hne) as C. cbv zeta in C. fold word in C.
cbn [step] in *.
set (s0 := onAnimateClick inputValue now s) in *. clearbody s0.
apply control_fields in C as (B1 & B2 & B3 & B4 & B5 & B6 & B7 & B8 & B9 & B10).
assert (Hleft : framesLeft s0 = framesOfGlyphs word).
{ unfold framesLeft. rewrite B1, B2, B5. cbn [skipn]. lia. }
destruct (dueTicks_framesLeft n s0 s' H0 Hrun) as (I & W & F).
rewrite Hleft in F. rewrite B1 in W.
assert (Hfin : Finished s' <-> framesLeft s' = 0%nat).
{ split.
  - intros (_ & _ & Hi). now apply framesLeft_finished.
  - intros Hz. destruct (animationActive s') eqn:Ha.
    + destruct (framesLeft_active s' I Ha) as (E & Hf). lia.
    + assert (Hw : wordToAnimate s' <> []) by (rewrite W; exact Hne).
      split; [exact Ha|split; [exact Hw|]]. apply (inv_idle s' I Ha Hw). }
split; [lia|split; [lia|split]].
- rewrite Hfin. lia.
- intros En. rewrite <- W. apply (finished_completed s' I). apply Hfin. lia.
Qed.

Lemma submitted_word_finishes_witness :
framesLeft (step (Frame 3 (timestampOf 10))
              (step (Click ["A"%char] (timestampOf 0))
                 (step Load (initialState 600 400))))
= (framesOfGlyphs (filter (hasOwnProperty CHARACTER_DRAWING_DATA) ["A"%char]) - 1)%nat.
Proof.
assert (Hr : Reachable (step Load (initialState 600 400)))
  by (apply reach_step, reach_init).
assert (Hne : filter (hasOwnProperty CHARACTER_DRAWING_DATA) ["A"%char] <> [])
  by (vm_compute; discriminate).
assert (Hrun : DueTicks 1 (step (Click ["A"%char] (timestampOf 0))
                             (step Load (initialState 600 400)))
                 (step (Frame 3 (timestampOf 10))
                    (step (Click ["A"%char] (timestampOf 0))
                       (step Load (initialState 600 400))))).
{ apply (due_tick 0 _ 3%nat (timestampOf 10)).
  - vm_compute. tauto.
  - vm_compute. reflexivity.
  - apply due_none. }
exact (proj1 (proj2 (submitted_word_finishes _ ["A"%char] (timestampOf 0) 1%nat _
                       Hr Hne Hrun))).
Defined.

(** X15.  In a reachable state where the animation is not active, no run
  of [animate] is pending, and running any requested frame leaves the
  progress untouched: only a pending redraw can run, and it only draws. *)
Theorem idle_frames_change_nothing :
forall (s : State) (id : nat) (timestamp : float),
  Reachable s ->
  animationActive s = false ->
  part000_progress (step (Frame id timestamp) s) = part000_progress s
  /\ animateRequests (step (Frame id timestamp) s) = []
  /\ messageText (step (Frame id timestamp) s) = messageText s.
Proof.
intros s id timestamp Hr Ha. pose proof (Reachable_Inv s Hr) as H.
assert (Q : animateRequests s = []).
{ pose proof (inv_request s H) as Q. now rewrite Ha in Q. }
destruct (in_dec Nat.eq_dec id (map fst (frameQueue s))) as [Hin|Hout].
- apply in_map_iff in Hin as ([i cb] & Ei & Hin). cbn in Ei. subst i.
  destruct cb.
  + destruct (Inv_requests s id H Hin) as (Ha' & _). congruence.
  + cbn [step]. rewrite (runFrame_redraw_calls id timestamp s H Hin).
    repeat split.
    unfold animateRequests. state_simpl. fold (without id (frameQueue s)).
    unfold animateRequests in Q.
    apply requestsOf_without_nil. exact Q.
- cbn [step]. rewrite (runFrame_absent id timestamp s Hout). auto.
Qed.

Lemma idle_frames_change_nothing_witness :
part000_progress (step (Frame 1 (timestampOf 50)) (step Load (initialState 600 400)))
= part000_progress (step Load (initialState 600 400)).
Proof.
apply (idle_frames_change_nothing (step Load (initialState 600 400)) 1%nat (timestampOf 50)).
- apply reach_step, reach_init.
- reflexivity.
Defined.


(** ** The click handler, block by block *)

Lemma click_word_eq (inputValue : list ascii) (now : float) (s : State) :
let word := filter (hasOwnProperty CHARACTER_DRAWING_DATA) inputValue in
word <> [] ->
onAnimateClick inputValue now s
= startAnimation now
    (set_currentFrame 0
       (set_totalFramesForCurrentChar (List.length (glyphPoints (charAt word 0)))
          (set_processedPointsForCurrentChar (glyphPoints (charAt word 0))
             (resetAnimationState
                (informUser inputValue
                   (calculateScalingForNewWord
                      (stopOngoingAnimation (set_wordToAnimate word s)))))))).
Proof.
intros word Hne.
assert (Hw : Forall supported word) by apply filter_supported.
assert (Hlen : (0 < List.length word)%nat).
{ destruct word; [congruence|cbn; lia]. }
pose proof (charAt_supported word 0 Hw Hlen) as Hc.
unfold onAnimateClick. cbv zeta. fold word.
pose proof (stop_control word s) as C0.
set (s0 := stopOngoingAnimation (set_wordToAnimate word s)) in *. clearbody s0.
pose proof (calculateScalingForNewWord_control s0) as C1.
set (s1 := calculateScalingForNewWord s0) in *. clearbody s1.
pose proof (informUser_control inputValue s1) as C2.
set (s2 := informUser inputValue s1) in *. clearbody s2.
pose proof (resetAnimationState_control s2) as C3.
set (s3 := resetAnimationState s2) in *. clearbody s3.
apply control_fields in C0 as (A1 & _).
apply control_fields in C1 as (B1 & _).
unfold control at 2 in C2. apply control_fields in C2 as (C1 & _).
apply control_fields in C3 as (D1 & _).
rewrite A1.
destruct (Nat.eqb_spec (List.length word) 0) as [E|_]; [lia|].
assert (Ew : wordToAnimate s3 = word) by congruence.
rewrite Ew, (prepare_supported _ _ Hc). reflexivity.
Qed.

Lemma click_empty_eq (inputValue : list ascii) (now : float) (s : State) :
filter (hasOwnProperty CHARACTER_DRAWING_DATA) inputValue = [] ->
onAnimateClick inputValue now s
= noSupportedCharacters (stopOngoingAnimation (set_wordToAnimate [] s)).
Proof.
intros E. unfold onAnimateClick. cbv zeta. rewrite E.
pose proof (stop_control [] s) as C0.
apply control_fields in C0 as (A1 & _). rewrite A1. reflexivity.
Qed.


(** ** The scales and offsets through the handlers *)

Lemma view_fields (s : State) w h b f x y word :
part000_view s = (w, h, b, f, x, y, word) ->
currentCanvasWidth s = w /\ currentCanvasHeight s = h /\ baseScale s = b
/\ wordScaleFactor s = f /\ centerXOffsetPixels s = x /\ centerYOffsetPixels s = y
/\ wordToAnimate s = word.
Proof. unfold part000_view. intros [= <- <- <- <- <- <- <-]. repeat split. Qed.

Lemma view_prepared (points : list (Point binary64)) (n f : nat) (s : State) :
part000_view (set_currentFrame f
                (set_totalFramesForCurrentChar n
                   (set_processedPointsForCurrentChar points s)))
= part000_view s.
Proof. reflexivity. Qed.

Lemma view_prepare (c : ascii) (s : State) :
part000_view (snd (prepareAnimationForCharacter c s)) = part000_view s.
Proof.
unfold prepareAnimationForCharacter.
destruct (glyphLookup CHARACTER_DRAWING_DATA c); reflexivity.
Qed.

Lemma view_startAnimation (now : float) (s : State) :
part000_view (startAnimation now s) = part000_view s.
Proof. reflexivity. Qed.

Lemma view_resetAnimationState (s : State) :
part000_view (resetAnimationState s) = part000_view s.
Proof. reflexivity. Qed.

Lemma view_informUser (inputValue : list ascii) (s : State) :
part000_view (informUser inputValue s) = part000_view s.
Proof. unfold informUser. cbv zeta. destruct (0 <? _)%nat; reflexivity. Qed.

Lemma view_updateCanvasDimensions (s : State) :
part000_view (updateCanvasDimensions s)
= let b := computeBaseScale binary64 (clientWidth s) (clientHeight s) in
  let fit := calculateWordScalingAndOffset binary64 (List.length (wordToAnimate s))
               (clientWidth s) (clientHeight s) b in
  match wordToAnimate s with
  | [] => (clientWidth s, clientHeight s, b,
           lit binary64 1, lit binary64 0, lit binary64 0, wordToAnimate s)
  | _ :: _ => (clientWidth s, clientHeight s, b,
               fitWordScaleFactor binary64 fit, fitCenterXOffsetPixels binary64 fit,
               fitCenterYOffsetPixels binary64 fit, wordToAnimate s)
  end.
Proof.
unfold updateCanvasDimensions, part000_view. cbv zeta. state_simpl.
destruct (wordToAnimate s) eqn:E; state_simpl; rewrite ?E; reflexivity.
Qed.

Lemma view_runCalculate (s : State) :
part000_view (runCalculateWordScalingAndOffset (wordToAnimate s) s)
= let fit := calculateWordScalingAndOffset binary64 (List.length (wordToAnimate s))
               (currentCanvasWidth s) (currentCanvasHeight s) (baseScale s) in
  (currentCanvasWidth s, currentCanvasHeight s, baseScale s,
   fitWordScaleFactor binary64 fit, fitCenterXOffsetPixels binary64 fit,
   fitCenterYOffsetPixels binary64 fit, wordToAnimate s).
Proof. reflexivity. Qed.

Lemma view_stop (word : list ascii) (s : State) :
part000_view (stopOngoingAnimation (set_wordToAnimate word s))
= (currentCanvasWidth s, currentCanvasHeight s, baseScale s, wordScaleFactor s,
   centerXOffsetPixels s, centerYOffsetPixels s, word).
Proof. rewrite stop_eq. reflexivity. Qed.

Lemma view_noSupportedCharacters (s : State) :
part000_view (noSupportedCharacters s)
= (currentCanvasWidth s, currentCanvasHeight s, baseScale s,
   lit binary64 1, lit binary64 0, lit binary64 0, wordToAnimate s).
Proof. reflexivity. Qed.

Lemma view_set_messageText (message : string) (s : State) :
part000_view (set_messageText message s) = part000_view s.
Proof. reflexivity. Qed.

Lemma view_draw (ops : list CanvasOp) (s : State) :
part000_view (draw ops s) = part000_view s.
Proof. reflexivity. Qed.

Lemma view_redrawCanvasContent (s : State) :
part000_view (redrawCanvasContent s) = part000_view s.
Proof.
destruct s as [cw chh bs wsf cx cy word index pts total frame
               active fid done last clw clh ops msg queue next].
unfold redrawCanvasContent. state_simpl.
destruct (active && (index <? List.length word)%nat); [|reflexivity].
destruct pts as [|p pts]; cbn [List.length Nat.eqb]; [|reflexivity].
unfold prepareAnimationForCharacter.
destruct (glyphLookup CHARACTER_DRAWING_DATA (charAt word index)); reflexivity.
Qed.

Lemma view_advance (s : State) :
part000_view (advance s) = part000_view s.
Proof.
destruct s as [cw chh bs wsf cx cy word index pts total frame
               active fid done last clw clh ops msg queue next].
unfold advance. state_simpl.
destruct (index <? List.length word)%nat; [|reflexivity].
destruct (onLastFrame frame total); [|reflexivity].
destruct (S index <? List.length word)%nat; [|reflexivity].
unfold prepareAnimationForCharacter. state_simpl.
destruct (glyphLookup CHARACTER_DRAWING_DATA (charAt word (S index))); reflexivity.
Qed.

(** The end of [animate]: "Request the next animation frame if animation
  is still active". *)
Lemma animate_eq (timestamp : float) (s : State) :
animate timestamp s
= if negb (animationActive s) then set_animationFrameId None s
  else
    (fun s1 : State =>
       if animationActive s1
       then set_animationFrameId (Some (nextFrameId s1))
              (snd (requestAnimationFrame Animate s1))
       else s1)
      (if intervalElapsed timestamp s
       then advance
              (redrawCanvasContent
                 (set_lastTimestamp
                    (PrimFloat.sub timestamp
                       (Binary64.jsRem (PrimFloat.sub timestamp (lastTimestamp s))
                          ANIMATION_INTERVAL_MS)) s))
       else s).
Proof. reflexivity. Qed.

Lemma view_animate (timestamp : float) (s : State) :
part000_view (animate timestamp s) = part000_view s.
Proof.
rewrite animate_eq. destruct (negb (animationActive s)); [reflexivity|].
cbv beta.
assert (T : forall s1 : State,
           part000_view
             (if animationActive s1
              then set_animationFrameId (Some (nextFrameId s1))
                     (snd (requestAnimationFrame Animate s1))
              else s1) = part000_view s1).
{ intros s1. destruct (animationActive s1); reflexivity. }
rewrite T. destruct (intervalElapsed timestamp s); [|reflexivity].
now rewrite view_advance, view_redrawCanvasContent.
Qed.

Lemma view_runFrame (id : nat) (timestamp : float) (s : State) :
part000_view (runFrame id timestamp s) = part000_view s.
Proof.
unfold runFrame. destruct (find _ (frameQueue s)) as [[i cb]|]; [|reflexivity].
cbv zeta. destruct cb.
- now rewrite view_animate.
- now rewrite view_redrawCanvasContent.
Qed.

Lemma view_click (inputValue : list ascii) (now : float) (s : State) :
part000_view (onAnimateClick inputValue now s)
= let word := filter (hasOwnProperty CHARACTER_DRAWING_DATA) inputValue in
  let b := computeBaseScale binary64 (clientWidth s) (clientHeight s) in
  let fit := calculateWordScalingAndOffset binary64 (List.length word)
               (clientWidth s) (clientHeight s) b in
  match word with
  | [] => (currentCanvasWidth s, currentCanvasHeight s, baseScale s,
           lit binary64 1, lit binary64 0, lit binary64 0, word)
  | _ :: _ => (clientWidth s, clientHeight s, b,
               fitWordScaleFactor binary64 fit, fitCenterXOffsetPixels binary64 fit,
               fitCenterYOffsetPixels binary64 fit, word)
  end.
Proof.
cbv zeta.
destruct (filter (hasOwnProperty CHARACTER_DRAWING_DATA) inputValue) as [|c w] eqn:E.
- rewrite (click_empty_eq inputValue now s E), view_noSupportedCharacters.
  pose proof (view_stop [] s) as V.
  apply view_fields in V as (V1 & V2 & V3 & V4 & V5 & V6 & V7).
  now rewrite V1, V2, V3, V7.
- assert (Hne : filter (hasOwnProperty CHARACTER_DRAWING_DATA) inputValue <> [])
    by (rewrite E; discriminate).
  rewrite (click_word_eq inputValue now s Hne), E.
  rewrite view_startAnimation, view_prepared, view_resetAnimationState, view_informUser.
  unfold calculateScalingForNewWord. cbv zeta.
  pose proof (view_stop (c :: w) s) as V.
  set (s0 := stopOngoingAnimation (set_wordToAnimate (c :: w) s)) in *.
  assert (Cl : clientWidth s0 = clientWidth s /\ clientHeight s0 = clientHeight s).
  { subst s0. rewrite stop_eq. split; reflexivity. }
  clearbody s0. destruct Cl as [Cw Ch].
  apply view_fields in V as (V1 & V2 & V3 & V4 & V5 & V6 & V7).
  pose proof (view_updateCanvasDimensions s0) as U. cbv zeta in U.
  rewrite V7, Cw, Ch in U.
  set (s1 := updateCanvasDimensions s0) in *. clearbody s1.
  apply view_fields in U as (U1 & U2 & U3 & U4 & U5 & U6 & U7).
  rewrite <- U7 at 1. rewrite view_runCalculate. cbv zeta.
  now rewrite U1, U2, U3, U7.
Qed.

Lemma FitConsistent_view (s : State) w h b f x y word :
part000_view s = (w, h, b, f, x, y, word) ->
b = computeBaseScale binary64 w h ->
(f, x, y)
= match word with
  | [] => (lit binary64 1, lit binary64 0, lit binary64 0)
  | _ :: _ =>
      let fit := calculateWordScalingAndOffset binary64 (List.length word) w h b in
      (fitWordScaleFactor binary64 fit, fitCenterXOffsetPixels binary64 fit,
       fitCenterYOffsetPixels binary64 fit)
  end ->
FitConsistent s.
Proof.
intros V Hb Hf. apply view_fields in V as (V1 & V2 & V3 & V4 & V5 & V6 & V7).
unfold FitConsistent. rewrite V1, V2, V3, V4, V5, V6, V7. split; assumption.
Qed.

Lemma FitConsistent_same_view (s s' : State) :
part000_view s' = part000_view s -> FitConsistent s -> FitConsistent s'.
Proof.
unfold part000_view. intros [= E1 E2 E3 E4 E5 E6 E7] H.
unfold FitConsistent in *. now rewrite E1, E2, E3, E4, E5, E6, E7.
Qed.

Lemma FitConsistent_step (e : Event) (s : State) :
FitConsistent s -> FitConsistent (step e s).
Proof.
intros H. destruct e as [|width height|inputValue now|id timestamp]; cbn [step].
- apply (FitConsistent_same_view (updateCanvasDimensions s));
    [apply view_set_messageText|].
  pose proof (view_updateCanvasDimensions s) as U. cbv zeta in U.
  destruct (wordToAnimate s) eqn:E;
    apply (FitConsistent_view _ _ _ _ _ _ _ _ U); reflexivity.
- pose proof (view_updateCanvasDimensions
                (set_clientHeight height (set_clientWidth width s))) as U.
  cbv zeta in U.
  change (wordToAnimate (set_clientHeight height (set_clientWidth width s)))
    with (wordToAnimate s) in U.
  destruct (wordToAnimate s) eqn:E;
    apply (FitConsistent_view _ _ _ _ _ _ _ _ U); try reflexivity.
- pose proof (view_click inputValue now s) as V. cbv zeta in V.
  destruct (filter (hasOwnProperty CHARACTER_DRAWING_DATA) inputValue) eqn:E;
    apply (FitConsistent_view _ _ _ _ _ _ _ _ V); try reflexivity.
  apply H.
- apply (FitConsistent_same_view s); [apply view_runFrame|exact H].
Qed.

(** X16.  In every reachable state the base scale is the one of the
  current canvas size, and the word scale factor and centring offsets are
  those [calculateWordScalingAndOffset] gives for the current word on the
  current canvas (1, 0 and 0 when there is no word): no event leaves them
  stale. *)
Theorem fit_is_never_stale :
forall s : State, Reachable s -> FitConsistent s.
Proof.
induction 1 as [width height|s e _ IH].
- split; [vm_compute; reflexivity|reflexivity].
- now apply FitConsistent_step.
Qed.

Lemma fit_is_never_stale_witness :
FitConsistent (step (Resize 1000 500) part000_animating_A).
Proof.
apply fit_is_never_stale. apply reach_step. apply Controller.Reachable_run. constructor.
Defined.


(** ** What a click shows *)

Lemma shown_fields (s : State) m c t :
part000_shown s = (m, c, t) -> messageText s = m /\ canvasOps s = c /\ lastTimestamp s = t.
Proof. unfold part000_shown. intros [= <- <- <-]. repeat split. Qed.

Lemma shown_startAnimation (now : float) (s : State) :
part000_shown (startAnimation now s) = (messageText s, canvasOps s ++ [ClearRect], now).
Proof. reflexivity. Qed.

Lemma shown_prepared (points : list (Point binary64)) (n f : nat) (s : State) :
part000_shown (set_currentFrame f
         (set_totalFramesForCurrentChar n
            (set_processedPointsForCurrentChar points s)))
= part000_shown s.
Proof. reflexivity. Qed.

Lemma shown_resetAnimationState (s : State) :
part000_shown (resetAnimationState s) = part000_shown s.
Proof. reflexivity. Qed.

Lemma shown_informUser (inputValue : list ascii) (s : State) :
wordToAnimate s = filter (hasOwnProperty CHARACTER_DRAWING_DATA) inputValue ->
part000_shown (informUser inputValue s)
= (part000_clickMessage inputValue, canvasOps s, lastTimestamp s).
Proof.
intros Hw. unfold informUser, part000_clickMessage. cbv zeta. rewrite Hw.
destruct (filter (fun c => negb (hasOwnProperty CHARACTER_DRAWING_DATA c)) inputValue);
  reflexivity.
Qed.

Lemma shown_calculateScalingForNewWord (s : State) :
canvasOps (calculateScalingForNewWord s)
= canvasOps s ++ [SetCanvasSize (clientWidth s) (clientHeight s)]
/\ lastTimestamp (calculateScalingForNewWord s) = lastTimestamp s.
Proof.
unfold calculateScalingForNewWord, updateCanvasDimensions. cbv zeta. state_simpl.
destruct (wordToAnimate s); split; reflexivity.
Qed.

Lemma shown_stop (word : list ascii) (s : State) :
part000_shown (stopOngoingAnimation (set_wordToAnimate word s)) = part000_shown s
/\ clientWidth (stopOngoingAnimation (set_wordToAnimate word s)) = clientWidth s
/\ clientHeight (stopOngoingAnimation (set_wordToAnimate word s)) = clientHeight s.
Proof. rewrite stop_eq. repeat split. Qed.

(** X17.  A click whose input holds at least one supported character shows
  [Stitching: WORD] when every character is supported, and otherwise a
  warning that lists the unsupported characters in their order, separated
  by [, ], before the word that is animated.  It sets the canvas to its
  client size, clears it once, and starts the pacing clock at the time of
  the click. *)
Theorem click_shows_message :
forall (s : State) (inputValue : list ascii) (now : float),
  filter (hasOwnProperty CHARACTER_DRAWING_DATA) inputValue <> [] ->
  let s' := step (Click inputValue now) s in
  messageText s' = part000_clickMessage inputValue
  /\ canvasOps s'
     = canvasOps s ++ [SetCanvasSize (clientWidth s) (clientHeight s); ClearRect]
  /\ lastTimestamp s' = now.
Proof.
intros s inputValue now Hne s'. subst s'. cbn [step].
rewrite (click_word_eq inputValue now s Hne).
set (word := filter (hasOwnProperty CHARACTER_DRAWING_DATA) inputValue) in *.
destruct (shown_stop word s) as (S0 & Cw & Ch).
pose proof (stop_control word s) as C0.
set (s0 := stopOngoingAnimation (set_wordToAnimate word s)) in *. clearbody s0.
apply control_fields in C0 as (A1 & _).
destruct (shown_calculateScalingForNewWord s0) as (S1 & T1).
pose proof (calculateScalingForNewWord_control s0) as C1.
set (s1 := calculateScalingForNewWord s0) in *. clearbody s1.
apply control_fields in C1 as (B1 & _).
assert (Hw : wordToAnimate s1 = word) by congruence.
pose proof (shown_informUser inputValue s1 Hw) as S2.
set (s2 := informUser inputValue s1) in *. clearbody s2.
apply shown_fields in S0 as (M0 & O0 & L0).
apply shown_fields in S2 as (M2 & O2 & L2).
pose proof (shown_resetAnimationState s2) as S3.
set (s3 := resetAnimationState s2) in *. clearbody s3.
unfold part000_shown at 2 in S3. apply shown_fields in S3 as (M3 & O3 & L3).
pose proof (shown_prepared (glyphPoints (charAt word 0))
              (List.length (glyphPoints (charAt word 0))) 0 s3) as S4.
set (s4 := set_currentFrame 0 _) in *. clearbody s4.
unfold part000_shown at 2 in S4. apply shown_fields in S4 as (M4 & O4 & L4).
pose proof (shown_startAnimation now s4) as S5.
apply shown_fields in S5 as (M5 & O5 & L5).
rewrite M5, O5, L5, M4, O4, M3, O3, M2, O2, S1, O0, Cw, Ch, <- app_assoc.
repeat split.
Qed.

Lemma click_shows_message_witness :
messageText (step (Click ["A"%char; "?"%char; "B"%char; "!"%char] (timestampOf 0))
               (step Load (initialState 600 400)))
= part000_clickMessage ["A"%char; "?"%char; "B"%char; "!"%char]
/\ part000_clickMessage ["A"%char; "?"%char; "B"%char; "!"%char]
   = "Warning: Chars '?, !' not defined. Animating: AB"%string.
Proof.
split; [|reflexivity].
apply (click_shows_message (step Load (initialState 600 400))
         ["A"%char; "?"%char; "B"%char; "!"%char] (timestampOf 0)).
vm_compute. discriminate.
Defined.

Lemma shown_noSupportedCharacters (s : State) :
part000_shown (noSupportedCharacters s)
= ("Please enter supported characters (A-F) to stitch."%string,
   canvasOps s ++ [ClearRect], lastTimestamp s).
Proof. reflexivity. Qed.

(** X18.  A click whose input holds no supported character (the empty
  input too) stops the animation: the pending run of [animate] is
  cancelled and none is requested, the canvas is cleared, the completed
  set is emptied, the word scale factor and the offsets are reset to 1, 0
  and 0, and the message asks for supported characters.  The canvas size
  and the base scale are left as they are. *)
Theorem click_without_supported_characters :
forall (s : State) (inputValue : list ascii) (now : float),
  Reachable s ->
  filter (hasOwnProperty CHARACTER_DRAWING_DATA) inputValue = [] ->
  let s' := step (Click inputValue now) s in
  messageText s' = "Please enter supported characters (A-F) to stitch."%string
  /\ canvasOps s' = canvasOps s ++ [ClearRect]
  /\ part000_view s'
     = (currentCanvasWidth s, currentCanvasHeight s, baseScale s,
        lit binary64 1, lit binary64 0, lit binary64 0, [])
  /\ animationActive s' = false
  /\ completedCharacters s' = []
  /\ animateRequests s' = []
  /\ nextFrameId s' = nextFrameId s.
Proof.
intros s inputValue now Hr E s'. subst s'. cbn [step].
pose proof (Reachable_Inv s Hr) as H.
destruct (stoppedQueue_spec s H) as (Q1 & _).
pose proof (click_empty inputValue now s E) as C.
apply control_fields in C as (C1 & C2 & C3 & C4 & C5 & C6 & C7 & C8 & C9 & C10).
pose proof (view_click inputValue now s) as V. cbv zeta in V. rewrite E in V.
rewrite (click_empty_eq inputValue now s E) in *.
destruct (shown_stop [] s) as (S0 & _).
set (s0 := stopOngoingAnimation (set_wordToAnimate [] s)) in *. clearbody s0.
pose proof (shown_noSupportedCharacters s0) as S1.
apply shown_fields in S0 as (M0 & O0 & L0).
apply shown_fields in S1 as (M1 & O1 & L1).
unfold animateRequests. rewrite M1, O1, O0, V, C6, C8, C9, C10. auto 10.
Qed.

Lemma click_without_supported_characters_witness :
animateRequests (step (Click ["?"%char] (timestampOf 5)) part000_animating_A) = []
/\ messageText (step (Click ["?"%char] (timestampOf 5)) part000_animating_A)
   = "Please enter supported characters (A-F) to stitch."%string.
Proof.
assert (Hr : Reachable part000_animating_A)
  by (apply Controller.Reachable_run; constructor).
assert (E : filter (hasOwnProperty CHARACTER_DRAWING_DATA) ["?"%char] = [])
  by reflexivity.
pose proof (click_without_supported_characters part000_animating_A ["?"%char]
              (timestampOf 5) Hr E) as (M & _ & _ & _ & _ & Q & _).
split; [exact Q|exact M].
Defined.


(** ** A character without a glyph *)

Lemma draw_unprepared (ops : list CanvasOp) (s : State) :
set_totalFramesForCurrentChar 0 (set_processedPointsForCurrentChar [] (draw ops s))
= draw ops (set_totalFramesForCurrentChar 0 (set_processedPointsForCurrentChar [] s)).
Proof. reflexivity. Qed.

Lemma redraw_unprepared (s : State) :
animationActive s = true ->
(currentWordCharIndex s < List.length (wordToAnimate s))%nat ->
processedPointsForCurrentChar s = [] ->
hasOwnProperty CHARACTER_DRAWING_DATA
  (charAt (wordToAnimate s) (currentWordCharIndex s)) = false ->
redrawCanvasContent s
= draw (part000_redrawCalls s)
    (set_totalFramesForCurrentChar 0 (set_processedPointsForCurrentChar [] s)).
Proof.
intros Ha Hi Hp Hc.
destruct s as [cw chh bs wsf cx cy word index pts total frame
               active fid done last clw clh ops msg queue next].
state_simpl_in Ha. state_simpl_in Hi. state_simpl_in Hp. state_simpl_in Hc.
subst active pts.
unfold redrawCanvasContent, part000_redrawCalls. state_simpl.
apply Nat.ltb_lt in Hi. rewrite Hi. cbn [andb List.length Nat.eqb].
rewrite (prepare_unsupported _ _ Hc). cbn [snd].
rewrite !firstn_nil.
repeat (rewrite draw_unprepared || rewrite draw_draw). reflexivity.
Qed.

Lemma onLastFrame_no_frames (frame : nat) : onLastFrame frame 0 = true.
Proof. unfold onLastFrame. apply Z.leb_le. lia. Qed.

(** X19.  [animate] of [part_000] has no branch that skips a character.  If
  the current character has no glyph, which the filter of the click
  handler excludes, a due run of [animate] draws the completed glyphs and
  nothing for that slot, then records the character as completed with an
  empty point sequence and moves to the next character with the cursor at
  0; it stays active exactly when a character is left. *)
Theorem unknown_glyph_is_recorded_empty :
forall (s : State) (timestamp : float),
  animationActive s = true ->
  (currentWordCharIndex s < List.length (wordToAnimate s))%nat ->
  processedPointsForCurrentChar s = [] ->
  hasOwnProperty CHARACTER_DRAWING_DATA
    (charAt (wordToAnimate s) (currentWordCharIndex s)) = false ->
  intervalElapsed timestamp s = true ->
  let s' := animate timestamp s in
  completedCharacters s'
  = completedCharacters s
    ++ [{| char := charAt (wordToAnimate s) (currentWordCharIndex s);
           processedPoints := [];
           xOffset := slotOffset (currentWordCharIndex s) |}]
  /\ currentWordCharIndex s' = S (currentWordCharIndex s)
  /\ currentFrame s' = 0%nat
  /\ wordToAnimate s' = wordToAnimate s
  /\ animationActive s'
     = (S (currentWordCharIndex s) <? List.length (wordToAnimate s))%nat
  /\ canvasOps s'
     = canvasOps s
       ++ [ClearRect; SetLineWidth (lit binary64 1.5); SetStrokeStyle "black"]
       ++ flat_map (fun completedCharData =>
                      drawPath (transformPoint s) (processedPoints completedCharData)
                               (xOffset completedCharData))
                   (completedCharacters s).
Proof.
intros s timestamp Ha Hi Hp Hc Hdue s'. subst s'.
rewrite animate_eq, Ha, Hdue. cbn [negb]. cbv beta.
match goal with |- context [redrawCanvasContent ?x] => set (s1 := x) end.
assert (R : redrawCanvasContent s1
            = draw (part000_redrawCalls s1)
                (set_totalFramesForCurrentChar 0
                   (set_processedPointsForCurrentChar [] s1))).
{ apply redraw_unprepared; subst s1; assumption. }
rewrite R. clear R.
assert (Calls : part000_redrawCalls s1
                = [ClearRect; SetLineWidth (lit binary64 1.5); SetStrokeStyle "black"]
                  ++ flat_map (fun completedCharData =>
                                 drawPath (transformPoint s)
                                          (processedPoints completedCharData)
                                          (xOffset completedCharData))
                              (completedCharacters s)).
{ subst s1. unfold part000_redrawCalls. state_simpl. rewrite Ha, Hp, firstn_nil.
  cbn [drawPath List.length Nat.ltb Nat.leb]. now rewrite app_nil_r. }
rewrite Calls. clear Calls. subst s1.
destruct s as [cw chh bs wsf cx cy word index pts total frame
               active fid done last clw clh ops msg queue next].
state_simpl_in Ha. state_simpl_in Hi. state_simpl_in Hp. state_simpl_in Hc.
subst active pts.
unfold advance. state_simpl.
apply Nat.ltb_lt in Hi. rewrite Hi, onLastFrame_no_frames.
destruct (S index <? List.length word)%nat eqn:Hn.
- unfold prepareAnimationForCharacter. state_simpl.
  destruct (glyphLookup CHARACTER_DRAWING_DATA (charAt word (S index)));
    state_simpl; repeat split; reflexivity.
- state_simpl. repeat split; reflexivity.
Qed.

Lemma unknown_glyph_is_recorded_empty_witness :
currentWordCharIndex (animate (timestampOf 10) part000_bypassed) = 1%nat
/\ List.length (completedCharacters (animate (timestampOf 10) part000_bypassed)) = 1%nat.
Proof.
assert (Ha : animationActive part000_bypassed = true) by reflexivity.
assert (Hi : (currentWordCharIndex part000_bypassed
              < List.length (wordToAnimate part000_bypassed))%nat)
  by (vm_compute; lia).
assert (Hp : processedPointsForCurrentChar part000_bypassed = []) by reflexivity.
assert (Hc : hasOwnProperty CHARACTER_DRAWING_DATA
               (charAt (wordToAnimate part000_bypassed)
                  (currentWordCharIndex part000_bypassed)) = false)
  by (vm_compute; reflexivity).
assert (Hdue : intervalElapsed (timestampOf 10) part000_bypassed = true)
  by (vm_compute; reflexivity).
pose proof (unknown_glyph_is_recorded_empty part000_bypassed (timestampOf 10)
              Ha Hi Hp Hc Hdue) as (C & I & _).
split; [exact I|]. rewrite C, length_app. vm_compute. reflexivity.
Defined.

End Part000Events.
(* ================================================================== *)
(** * The scaled word fits *)

(** X20.  In binary64, for a viewport whose sides are below [2^53] and a
    word of fewer than [2^53] characters, the final size
    [calculateWordScalingAndOffset] computes for the word block, the size
    at base scale times the word scale factor, is no wider than the
    viewport and no higher. *)
Theorem scaled_word_fits :
  forall (W H : N) (n : nat),
    (W < 2 ^ 53)%N -> (H < 2 ^ 53)%N -> (Z.of_nat n < 2 ^ 53)%Z ->
    let baseScale := computeBaseScale binary64 W H in
    let wordScaleFactor := wordScaleFactorOf binary64 W H baseScale n in
    let finalScaledPixelWidth :=
      mul binary64 (baseScaledPixelWidth binary64 n baseScale) wordScaleFactor in
    let finalScaledPixelHeight :=
      mul binary64 (baseScaledPixelHeight binary64 baseScale) wordScaleFactor in
    PrimFloat.leb finalScaledPixelWidth (ofN binary64 W) = true
    /\ PrimFloat.leb finalScaledPixelHeight (ofN binary64 H) = true.
Proof.
  intros W H n HW HH Hn baseScale wordScaleFactor finalW finalH.
  subst finalW finalH. change (mul binary64) with PrimFloat.mul.
  destruct (computeBaseScale_binary64 W H HW HH) as [Flat Pos].
  assert (Z0 : forall V : N, (V < 2 ^ 53)%N -> PrimFloat.leb 0 (ofN binary64 V) = true).
  { intros V HV. destruct (ofN_NonNeg V HV) as [[->|G] _]; [reflexivity|].
    apply (leb_zero_PosNormal _ _ G). }
  destruct (N.eq_dec W 0) as [W0|W0]; [|destruct (N.eq_dec H 0) as [H0|H0]].
  1,2: assert (E : baseScale = 0%float) by (apply Flat; auto);
       subst wordScaleFactor; rewrite E;
       destruct (wordScaleFactorOf_flat W H n HW HH Hn) as (-> & _ & _);
       assert (Bw : baseScaledPixelWidth binary64 n 0%float = 0%float)
         by (unfold baseScaledPixelWidth; change (mul binary64) with PrimFloat.mul;
             destruct (requiredWidth_NonNeg n Hn) as [->|G];
             [reflexivity|apply (mul_PosNormal_zero _ _ G)]);
       rewrite Bw;
       change (baseScaledPixelHeight binary64 0%float) with 0%float;
       change (0 * 1)%float with 0%float; split; apply Z0; assumption.
  assert (Gb : PosNormal 58 baseScale) by (apply Pos; lia).
  assert (GW : PosNormal 52 (ofN binary64 W)) by (apply ofN_PosNormal; lia).
  assert (GH : PosNormal 52 (ofN binary64 H)) by (apply ofN_PosNormal; lia).
  assert (Nb : NonNeg 58 baseScale) by now right.
  pose proof (baseScaledPixelWidth_NonNeg 58 n baseScale Hn Nb ltac:(lia)) as Bn.
  pose proof (baseScaledPixelHeight_NonNeg 58 baseScale Nb ltac:(lia)) as Bh.
  destruct (fit_spec 52 116 _ _ GW Bn ltac:(lia) ltac:(lia) ltac:(lia)) as (Fn & _).
  destruct (fit_spec 52 116 _ _ GH Bh ltac:(lia) ltac:(lia) ltac:(lia)) as (Fh & _).
  destruct (Math_min_PosNormal _ _ _ _ Fn Fh) as (C & M1 & M2).
  assert (Gm : PosNormal (52 + 116 + 4) wordScaleFactor).
  { subst wordScaleFactor. rewrite wordScaleFactorOf_eq.
    change (nmin binary64) with Binary64.Math_min. destruct C as [-> | ->]; assumption. }
  assert (E : wordScaleFactor
              = Binary64.Math_min
                  (fitFactor binary64 (ofN binary64 W) (baseScaledPixelWidth binary64 n baseScale))
                  (fitFactor binary64 (ofN binary64 H) (baseScaledPixelHeight binary64 baseScale)))
    by reflexivity.
  clearbody wordScaleFactor. rewrite <- E in M1, M2.
  split.
  - apply (scaled_block_fits 52 116 (52 + 116 + 4)); try assumption; lia.
  - apply (scaled_block_fits 52 116 (52 + 116 + 4)); try assumption; lia.
Qed.

Lemma scaled_word_fits_witness :
  PrimFloat.leb
    (mul binary64 (baseScaledPixelWidth binary64 7 (computeBaseScale binary64 1000 500))
       (wordScaleFactorOf binary64 1000 500 (computeBaseScale binary64 1000 500) 7))
    (ofN binary64 1000) = true.
Proof.
  apply (proj1 (scaled_word_fits 1000 500 7 ltac:(reflexivity) ltac:(reflexivity) ltac:(lia))).
Defined.

(** X21.  In binary64, for a word of fewer than [2^53] characters, the
    required data width [7 * n] of [script.js] times the word scale factor
    its click handler computes is at most the data range 10.5, both as the
    exact product of the two numbers and as their binary64 product. *)
Theorem script_scaled_word_fits :
  forall n : nat,
    (Z.of_nat n < 2 ^ 53)%Z ->
    let requiredDataWidth :=
      mul binary64 (ofNat binary64 n) (CHAR_WIDTH_DATA_UNITS binary64) in
    let canvasAvailableDataWidth := sub binary64 (X_MAX binary64) (X_MIN binary64) in
    let wordScaleFactor := scriptWordScaleFactor binary64 n in
    (valueOf requiredDataWidth * valueOf wordScaleFactor
     <= valueOf canvasAvailableDataWidth)%Q
    /\ (valueOf canvasAvailableDataWidth == 21 # 2)%Q
    /\ PrimFloat.leb (mul binary64 requiredDataWidth wordScaleFactor)
         canvasAvailableDataWidth = true.
Proof.
  intros n Hn width avail factor.
  destruct PosNormal_dataRange as (Gr & Ex & _).
  assert (Ea : avail = DATA_RANGE_Y binary64) by reflexivity.
  assert (Ef : factor = fitFactor binary64 (DATA_RANGE_Y binary64) width) by reflexivity.
  pose proof (requiredWidth_NonNeg n Hn) as Bn.
  change (PrimFloat.mul (ofNat binary64 n) (CHAR_WIDTH_DATA_UNITS binary64)) with width in Bn.
  clearbody width avail factor. subst avail factor.
  destruct (fit_spec 3 56 _ _ Gr Bn ltac:(lia) ltac:(lia) ltac:(lia)) as (Ff & _).
  split; [|split].
  - apply (fit_fits 3 56); try assumption; lia.
  - vm_compute. reflexivity.
  - change (mul binary64) with PrimFloat.mul.
    apply (scaled_block_fits 3 56 (3 + 56 + 4)); try assumption; try lia.
    apply Qle_refl.
Qed.

Lemma script_scaled_word_fits_witness :
  PrimFloat.leb
    (mul binary64 (mul binary64 (ofNat binary64 3) (CHAR_WIDTH_DATA_UNITS binary64))
       (scriptWordScaleFactor binary64 3))
    (sub binary64 (X_MAX binary64) (X_MIN binary64)) = true.
Proof.
  apply (proj2 (proj2 (script_scaled_word_fits 3 ltac:(lia)))).
Defined.

(* ================================================================== *)
(** * Further properties of [src/script.js] *)

Module ScriptLoop.
Import Script ScriptProps ScriptFacts ScriptRuns.

Lemma requests_fields (s : State) q n :
script_requests s = (q, n) -> frameQueue s = q /\ nextFrameId s = n.
Proof. unfold script_requests. intros [= <- <-]. split; reflexivity. Qed.

Lemma requests_requestAnimationFrame (s : State) :
script_requests (requestAnimationFrame s)
= (frameQueue s ++ [nextFrameId s], S (nextFrameId s)).
Proof. reflexivity. Qed.

Lemma requests_drawAndAdvance (s : State) :
script_requests (drawAndAdvance s) = script_requests s.
Proof.
destruct s as [wsf word index pts total frame active done last ops msg queue next].
unfold drawAndAdvance. cbv zeta. state_simpl.
destruct (onLastFrame frame total); [|reflexivity].
destruct (S index <? List.length word)%nat; reflexivity.
Qed.

Lemma requests_prepare (c : ascii) (s : State) :
script_requests (snd (prepareAnimationForCharacter c s)) = script_requests s.
Proof.
unfold prepareAnimationForCharacter.
destruct (glyphLookup CHARACTER_DRAWING_DATA c); reflexivity.
Qed.

Lemma requests_skipCharacter (s : State) :
script_requests (skipCharacter s)
= (frameQueue s ++ [nextFrameId s], S (nextFrameId s)).
Proof. reflexivity. Qed.

Lemma requests_beginFrame (timestamp : float) (s : State) :
script_requests (beginFrame timestamp s) = script_requests s.
Proof. reflexivity. Qed.

(** Every path through the due part of [animate] ends by requesting the
  next frame. *)
Lemma requests_animateCurrent (s : State) :
script_requests (animateCurrent s)
= (frameQueue s ++ [nextFrameId s], S (nextFrameId s)).
Proof.
unfold animateCurrent.
destruct (currentWordCharIndex s <? List.length (wordToAnimate s))%nat;
  [|reflexivity].
cbv zeta.
destruct (List.length (processedPointsForCurrentChar s) =? 0)%nat.
- pose proof (requests_prepare
                (charAt (wordToAnimate s) (currentWordCharIndex s)) s) as P.
  destruct (prepareAnimationForCharacter
              (charAt (wordToAnimate s) (currentWordCharIndex s)) s) as [prepared s1].
  cbn [snd] in P. apply requests_fields in P as [Pq Pn].
  destruct prepared; cbn [negb].
  + rewrite requests_requestAnimationFrame.
    pose proof (requests_drawAndAdvance s1) as D.
    apply requests_fields in D as [Dq Dn]. now rewrite Dq, Dn, Pq, Pn.
  + rewrite requests_skipCharacter. now rewrite Pq, Pn.
- rewrite requests_requestAnimationFrame.
  pose proof (requests_drawAndAdvance s) as D.
  apply requests_fields in D as [Dq Dn]. now rewrite Dq, Dn.
Qed.


Lemma requests_animate (timestamp : float) (s : State) :
script_requests (animate timestamp s)
= if animationActive s
  then (frameQueue s ++ [nextFrameId s], S (nextFrameId s))
  else script_requests s.
Proof.
unfold animate. destruct (animationActive s); cbn [negb]; [|reflexivity].
destruct (intervalElapsed timestamp s); [|reflexivity].
rewrite requests_animateCurrent. reflexivity.
Qed.

Lemma active_drawAndAdvance (s : State) :
animationActive (drawAndAdvance s) = animationActive s.
Proof.
destruct s as [wsf word index pts total frame active done last ops msg queue next].
unfold drawAndAdvance. cbv zeta. state_simpl.
destruct (onLastFrame frame total); [|reflexivity].
destruct (S index <? List.length word)%nat; reflexivity.
Qed.

Lemma active_prepare (c : ascii) (s : State) :
animationActive (snd (prepareAnimationForCharacter c s)) = animationActive s.
Proof.
unfold prepareAnimationForCharacter.
destruct (glyphLookup CHARACTER_DRAWING_DATA c); reflexivity.
Qed.

Lemma active_requestAnimationFrame (s : State) :
animationActive (requestAnimationFrame s) = animationActive s.
Proof. reflexivity. Qed.

Lemma active_skipCharacter (s : State) :
animationActive (skipCharacter s) = animationActive s.
Proof. reflexivity. Qed.

Lemma active_animateCurrent (s : State) :
animationActive (animateCurrent s) = animationActive s.
Proof.
unfold animateCurrent.
destruct (currentWordCharIndex s <? List.length (wordToAnimate s))%nat;
  [|reflexivity].
cbv zeta.
destruct (List.length (processedPointsForCurrentChar s) =? 0)%nat.
- pose proof (active_prepare
                (charAt (wordToAnimate s) (currentWordCharIndex s)) s) as P.
  destruct (prepareAnimationForCharacter
              (charAt (wordToAnimate s) (currentWordCharIndex s)) s) as [prepared s1].
  cbn [snd] in P. destruct prepared; cbn [negb].
  + now rewrite active_requestAnimationFrame, active_drawAndAdvance.
  + now rewrite active_skipCharacter.
- now rewrite active_requestAnimationFrame, active_drawAndAdvance.
Qed.

Lemma active_animate (timestamp : float) (s : State) :
animationActive (animate timestamp s) = animationActive s.
Proof.
unfold animate. destruct (animationActive s) eqn:Ha; cbn [negb]; [|exact Ha].
destruct (intervalElapsed timestamp s).
- rewrite active_animateCurrent. exact Ha.
- exact Ha.
Qed.

Lemma requests_click (inputValue : list ascii) (s : State) :
script_requests (onAnimateClick inputValue s)
= match filter (hasOwnProperty CHARACTER_DRAWING_DATA) inputValue with
  | [] => script_requests s
  | _ :: _ => (frameQueue s ++ [nextFrameId s], S (nextFrameId s))
  end.
Proof.
unfold onAnimateClick. cbv zeta.
set (word := filter (hasOwnProperty CHARACTER_DRAWING_DATA) inputValue).
state_simpl. destruct word as [|c word]; [reflexivity|].
cbn [List.length Nat.eqb].
unfold startAnimation, informUser. cbv zeta.
destruct (0 <? _)%nat; reflexivity.
Qed.

Lemma fresh_request (q : list nat) (n : nat) :
NoDup q -> Forall (fun id => (id < n)%nat) q ->
NoDup (q ++ [n]) /\ Forall (fun id => (id < S n)%nat) (q ++ [n]).
Proof.
intros Hd Hb. split.
- apply NoDup_app; [exact Hd|repeat constructor; auto|].
  intros x Hx [<-|[]]. rewrite Forall_forall in Hb. specialize (Hb _ Hx). lia.
- apply Forall_app. split.
  + apply (Forall_impl _ (fun a Ha => Nat.lt_lt_succ_r _ _ Ha) Hb).
  + repeat constructor.
Qed.

Lemma fresh_after_removal (q : list nat) (n id : nat) :
NoDup q -> Forall (fun i => (i < n)%nat) q ->
NoDup (filter (fun i => negb (Nat.eqb i id)) q)
/\ Forall (fun i => (i < n)%nat) (filter (fun i => negb (Nat.eqb i id)) q).
Proof.
intros Hd Hb. split.
- now apply NoDup_filter.
- apply Forall_forall. intros x Hx. apply filter_In in Hx as [Hx _].
  rewrite Forall_forall in Hb. now apply Hb.
Qed.

Lemma requestsFresh_step (e : Event) (s : State) :
script_requestsFresh s -> script_requestsFresh (step e s).
Proof.
intros [Hd Hb]. destruct e as [inputValue|id timestamp]; cbn [step].
- pose proof (requests_click inputValue s) as R.
  destruct (filter (hasOwnProperty CHARACTER_DRAWING_DATA) inputValue);
    apply requests_fields in R as [Rq Rn]; unfold script_requestsFresh;
    rewrite Rq, Rn.
  + split; assumption.
  + now apply fresh_request.
- unfold runFrame. destruct (existsb (Nat.eqb id) (frameQueue s)); [|split; assumption].
  pose proof (requests_animate timestamp
                (set_frameQueue (filter (fun i => negb (Nat.eqb i id)) (frameQueue s)) s))
    as R.
  destruct (fresh_after_removal (frameQueue s) (nextFrameId s) id Hd Hb) as [Fd Fb].
  set (s1 := set_frameQueue _ s) in *.
  assert (Q1 : script_requests s1
               = (filter (fun i => negb (Nat.eqb i id)) (frameQueue s), nextFrameId s))
    by reflexivity.
  clearbody s1. apply requests_fields in Q1 as [Qq Qn].
  unfold script_requestsFresh.
  destruct (animationActive s1); apply requests_fields in R as [Rq Rn];
    rewrite Rq, Rn, ?Qq, ?Qn.
  + now apply fresh_request.
  + split; assumption.
Qed.

Lemma Reachable_requestsFresh (s : State) : Reachable s -> script_requestsFresh s.
Proof.
induction 1 as [|s e _ IH].
- split; constructor.
- now apply requestsFresh_step.
Qed.

Lemma length_without_one (q : list nat) (id : nat) :
NoDup q -> In id q ->
S (List.length (filter (fun i => negb (Nat.eqb i id)) q)) = List.length q.
Proof.
induction q as [|x q IH]; [intros _ []|].
intros Hd Hin. inversion Hd as [|? ? Hx Hq]; subst.
cbn [filter List.length].
destruct (Nat.eqb_spec x id) as [->|Hne]; cbn [negb].
- f_equal. clear IH Hin Hd Hq.
  induction q as [|y q IH]; [reflexivity|].
  cbn [filter]. destruct (Nat.eqb_spec y id) as [->|_]; cbn [negb].
  + exfalso. apply Hx. now left.
  + cbn [List.length]. f_equal. apply IH. intros H. apply Hx. now right.
- cbn [List.length]. f_equal. apply IH; [exact Hq|].
  destruct Hin as [E|Hin]; [congruence|exact Hin].
Qed.

(** X22.  The loop of [script.js] never ends on its own: no frame changes
  [animationActive], and while it is set, a requested run of [animate]
  always requests the next frame, under a fresh id, whether or not the
  interval has elapsed and whether or not a character is left.  So in
  every reachable state a frame leaves the number of pending requests as
  it is. *)
Theorem script_loop_keeps_requesting :
forall (s : State) (id : nat) (timestamp : float),
  Reachable s ->
  animationActive (step (Frame id timestamp) s) = animationActive s
  /\ (animationActive s = true ->
      In id (frameQueue s) ->
      frameQueue (step (Frame id timestamp) s)
      = filter (fun i => negb (Nat.eqb i id)) (frameQueue s) ++ [nextFrameId s]
      /\ List.length (frameQueue (step (Frame id timestamp) s))
         = List.length (frameQueue s)).
Proof.
intros s id timestamp Hr. destruct (Reachable_requestsFresh s Hr) as [Hd Hb].
split.
- cbn [step]. unfold runFrame.
  destruct (existsb (Nat.eqb id) (frameQueue s)); [|reflexivity].
  now rewrite active_animate.
- intros Ha Hin. cbn [step]. rewrite (script_runFrame_requested id timestamp s Hin).
  pose proof (requests_animate timestamp
                (set_frameQueue (filter (fun i => negb (Nat.eqb i id)) (frameQueue s)) s))
    as R.
  set (s1 := set_frameQueue _ s) in *.
  assert (Q1 : script_requests s1
               = (filter (fun i => negb (Nat.eqb i id)) (frameQueue s), nextFrameId s))
    by reflexivity.
  assert (A1 : animationActive s1 = animationActive s) by reflexivity.
  clearbody s1. apply requests_fields in Q1 as [Qq Qn].
  rewrite A1, Ha in R. apply requests_fields in R as [Rq Rn].
  rewrite Rq, Qq, Qn. split; [reflexivity|].
  rewrite length_app. cbn [List.length].
  rewrite <- (length_without_one (frameQueue s) id Hd Hin). lia.
Qed.

Lemma script_loop_keeps_requesting_witness :
List.length (frameQueue (step (Frame 1 (timestampOf 20)) script_resubmitted))
= List.length (frameQueue script_resubmitted).
Proof.
assert (Hr : Reachable script_resubmitted)
  by (apply reach_step, reach_step, reach_init).
destruct (script_loop_keeps_requesting script_resubmitted 1%nat (timestampOf 20) Hr)
  as (_ & L).
apply L.
- reflexivity.
- vm_compute. tauto.
Defined.


Lemma inactive_frame (id : nat) (timestamp : float) (s : State) :
animationActive s = false ->
In id (frameQueue s) ->
step (Frame id timestamp) s
= set_frameQueue (filter (fun i => negb (Nat.eqb i id)) (frameQueue s)) s.
Proof.
intros Ha Hin. cbn [step]. rewrite (script_runFrame_requested id timestamp s Hin).
now apply script_animate_inactive.
Qed.

Lemma filter_absent (q : list nat) (id : nat) :
~ In id q -> filter (fun i => negb (Nat.eqb i id)) q = q.
Proof.
induction q as [|x q IH]; [reflexivity|].
intros Hn. cbn [filter].
destruct (Nat.eqb_spec x id) as [->|_]; cbn [negb].
- exfalso. apply Hn. now left.
- f_equal. apply IH. intros H. apply Hn. now right.
Qed.

Lemma run_cons (e : Event) (events : list Event) (s : State) :
run (e :: events) s = run events (step e s).
Proof. reflexivity. Qed.

Lemma inactive_frames_run (timestamps : nat -> float) (q : list nat) :
forall s : State,
  animationActive s = false ->
  NoDup q ->
  frameQueue s = q ->
  run (map (fun id => Frame id (timestamps id)) q) s = set_frameQueue [] s.
Proof.
induction q as [|x q IH]; intros s Ha Hd Hq.
- cbn [map run fold_left]. destruct s. cbn in Hq. subst. reflexivity.
- inversion Hd as [|? ? Hx Hd']; subst.
  cbn [map]. rewrite run_cons.
  rewrite (inactive_frame x (timestamps x) s Ha) by (rewrite Hq; now left).
  rewrite Hq. cbn [filter]. rewrite Nat.eqb_refl. cbn [negb].
  rewrite (filter_absent q x Hx).
  rewrite (IH (set_frameQueue q s)); [reflexivity|exact Ha|exact Hd'|reflexivity].
Qed.

(** X23.  When [animationActive] is not set in a reachable state of
  [script.js], which is so after a click without supported characters,
  the loops die out: running the pending frames, one after the other,
  empties the queue of requests and changes nothing else. *)
Theorem script_loops_die_out :
forall (s : State) (timestamps : nat -> float),
  Reachable s ->
  animationActive s = false ->
  run (map (fun id => Frame id (timestamps id)) (frameQueue s)) s
  = set_frameQueue [] s.
Proof.
intros s timestamps Hr Ha.
apply inactive_frames_run; [exact Ha| |reflexivity].
apply (Reachable_requestsFresh s Hr).
Qed.

Lemma script_loops_die_out_witness :
run (map (fun id => Frame id (timestampOf 40))
       (frameQueue (step (Click []) script_resubmitted)))
    (step (Click []) script_resubmitted)
= set_frameQueue [] (step (Click []) script_resubmitted).
Proof.
apply (script_loops_die_out (step (Click []) script_resubmitted)
         (fun _ => timestampOf 40)).
- apply reach_step, reach_step, reach_step, reach_init.
- reflexivity.
Defined.

(** X24.  A requested run of [animate] of [script.js] that comes before
  the interval has elapsed draws nothing and advances nothing; it only
  requests the next frame. *)
Theorem script_early_frame_only_requests :
forall (s : State) (id : nat) (timestamp : float),
  animationActive s = true ->
  In id (frameQueue s) ->
  intervalElapsed timestamp s = false ->
  step (Frame id timestamp) s
  = set_nextFrameId (S (nextFrameId s))
      (set_frameQueue
         (filter (fun i => negb (Nat.eqb i id)) (frameQueue s) ++ [nextFrameId s]) s).
Proof.
intros s id timestamp Ha Hin Hdue. cbn [step].
rewrite (script_runFrame_requested id timestamp s Hin).
rewrite script_animate_not_due; [reflexivity|exact Ha|exact Hdue].
Qed.

Lemma script_early_frame_only_requests_witness :
step (Frame 1 (timestampOf 5)) script_animating_A
= set_nextFrameId (S (nextFrameId script_animating_A))
    (set_frameQueue
       (filter (fun i => negb (Nat.eqb i 1)) (frameQueue script_animating_A)
        ++ [nextFrameId script_animating_A]) script_animating_A).
Proof.
apply (script_early_frame_only_requests script_animating_A 1%nat (timestampOf 5)).
- reflexivity.
- vm_compute. tauto.
- vm_compute. reflexivity.
Defined.


Lemma beginFrame_draws (timestamp : float) (s : State) :
canvasOps (beginFrame timestamp s)
= (canvasOps s ++ [ClearRect; SetLineWidth (lit binary64 1.5); SetStrokeStyle "black"])
  ++ flat_map (fun completedCharData =>
                 drawPath (transformPoint s) (processedPoints completedCharData)
                          (xOffset completedCharData))
              (completedCharacters s).
Proof. reflexivity. Qed.

Lemma animateCurrent_finished_eq (s : State) :
(List.length (wordToAnimate s) <= currentWordCharIndex s)%nat ->
animateCurrent s
= requestAnimationFrame
    (set_messageText
       ("Animation finished: " ++ string_of_list_ascii (wordToAnimate s)) s).
Proof.
intros Hi. unfold animateCurrent. apply Nat.ltb_ge in Hi. now rewrite Hi.
Qed.

(** X25.  Once the word is finished, the loop of [script.js] keeps
  redrawing it: in a reachable finished state a due run of [animate]
  clears the canvas, draws every character of the word in full, shows
  [Animation finished: WORD], leaves the progress as it is and requests
  the next frame. *)
Theorem script_finished_frame_redraws :
forall (s : State) (id : nat) (timestamp : float),
  Reachable s ->
  Finished s ->
  animationActive s = true ->
  In id (frameQueue s) ->
  intervalElapsed timestamp s = true ->
  let s' := step (Frame id timestamp) s in
  control s' = control s
  /\ completedCharacters s = allCompleted (wordToAnimate s)
  /\ canvasOps s'
     = (canvasOps s ++ [ClearRect; SetLineWidth (lit binary64 1.5); SetStrokeStyle "black"])
       ++ flat_map (fun completedCharData =>
                      drawPath (transformPoint s) (processedPoints completedCharData)
                               (xOffset completedCharData))
                   (allCompleted (wordToAnimate s))
  /\ messageText s' = ("Animation finished: " ++ string_of_list_ascii (wordToAnimate s))%string
  /\ In (nextFrameId s) (frameQueue s').
Proof.
intros s id timestamp Hr Hfin Ha Hin Hdue s'. subst s'.
pose proof (script_Reachable_Inv s Hr) as H.
pose proof (script_finished_completed s H Hfin) as Hc.
destruct Hfin as (Hw & Hi).
cbn [step]. rewrite (script_runFrame_requested id timestamp s Hin).
set (s1 := set_frameQueue _ s).
assert (C1 : control s1 = control s) by reflexivity.
assert (D1 : intervalElapsed timestamp s1 = intervalElapsed timestamp s) by reflexivity.
assert (O1 : canvasOps s1 = canvasOps s) by reflexivity.
assert (T1 : transformPoint s1 = transformPoint s) by reflexivity.
assert (N1 : nextFrameId s1 = nextFrameId s) by reflexivity.
clearbody s1.
rewrite <- C1.
unfold control at 2 in C1.
apply script_control_fields in C1 as (E1 & E2 & E3 & E4 & E5 & E6 & E7).
rewrite (script_animate_due timestamp s1) by congruence.
pose proof (script_beginFrame_control timestamp s1) as C2.
pose proof (beginFrame_draws timestamp s1) as B.
assert (N2 : nextFrameId (beginFrame timestamp s1) = nextFrameId s1) by reflexivity.
set (s2 := beginFrame timestamp s1) in *. clearbody s2.
rewrite <- C2.
unfold control at 2 in C2.
apply script_control_fields in C2 as (F1 & F2 & F3 & F4 & F5 & F6 & F7).
rewrite animateCurrent_finished_eq by (rewrite F1, F2, E1, E2; lia).
split; [reflexivity|split; [exact Hc|split; [|split]]].
- change (canvasOps (requestAnimationFrame (set_messageText _ s2))) with (canvasOps s2).
  rewrite B, O1, T1, E7, Hc. reflexivity.
- change (messageText (requestAnimationFrame (set_messageText ?m s2))) with m.
  cbv beta. now rewrite F1, E1.
- change (frameQueue (requestAnimationFrame (set_messageText _ s2)))
    with (frameQueue s2 ++ [nextFrameId s2]).
  rewrite N2, N1. apply in_or_app. right. now left.
Qed.

Lemma script_finished_frame_redraws_witness :
messageText (step (Frame 312 (timestampOf (20 * 312))) script_finished_F)
= ("Animation finished: " ++ string_of_list_ascii (wordToAnimate script_finished_F))%string.
Proof.
assert (Hr : Reachable script_finished_F)
  by (apply script_Reachable_run, reach_step, reach_init).
assert (Hfin : Finished script_finished_F).
{ split; [lazy; discriminate|lazy; reflexivity]. }
assert (Ha : animationActive script_finished_F = true) by (lazy; reflexivity).
assert (Hin : In 312%nat (frameQueue script_finished_F)) by (lazy; tauto).
assert (Hdue : intervalElapsed (timestampOf (20 * 312)) script_finished_F = true)
  by (lazy; reflexivity).
exact (proj1 (proj2 (proj2 (proj2
         (script_finished_frame_redraws script_finished_F 312%nat
            (timestampOf (20 * 312)) Hr Hfin Ha Hin Hdue))))).
Defined.

End ScriptLoop.
